(** * ContextCraft core: traversal, classification, token accounting, rendering

    A shallow embedding of the TypeScript sources
      - [utils.ts]            ([createLimit], [getParent], [collectFiles],
                               [isBinary], [evictOldestBinaryCacheEntries]),
      - [tokenCounter.ts]     ([createLimit], [evictOldestCacheEntries],
                               [countTokens]),
      - [getIgnoreParser.ts]  ([getIgnoreParser]),
      - [fileMapGenerator.ts] ([buildTree], [sortChildren], [renderTree],
                               [generateFileMap], [generateFileMapMultiRoot]),
      - [fileMapUtils.ts]     ([generateFileMapSection]),
      - [FileTreeProvider.ts] ([getChildren], [sortUris],
                               [computeCheckboxState], [getParent],
                               [refreshMany]),
      - [extension.ts]        ([resolveSelectedFiles],
                               [pruneSelectionsOutsideWorkspace]),
    followed by the properties of the specification that are stated about
    them (Part II) and by further properties of the sources (Part III).

    Conventions of the embedding.
      - An absolute path ([vscode.Uri], or the [fsPath] string of one) is the
        list of its segments; [Uri.joinPath] appends a segment.
      - A JavaScript [Map] is an association list in insertion order.
      - Asynchronous code is written in a state-and-exception monad over a
        [World]; every query of the host (a filesystem call, a read of the
        abort flag) advances a logical clock, and the host's answer is a
        function of that clock, so the filesystem and the abort flag may
        change between any two queries of one call.
      - A call that runs side by side with other calls is a resumption
        ([Async]): pieces of synchronous code between awaits.  [Promise.all]
        over such calls, with or without a limiter, is a pool that starts the
        tasks in order, each up to its first await, and then lets them go on
        one piece at a time in an order, the [schedule], that is a parameter;
        what is stated of such code is stated for every schedule.
        [runAlone] is a call with nothing else running at its awaits; run
        alone, [collectFiles], [isBinary], [getIgnoreParser] and the task of
        [countTokens] for one path are the definitions in the monad.
      - Mutations made before an exception is thrown are kept.
      - Counts, sizes, timestamps and the cap are natural numbers.
      - What comes from outside the repository is a parameter: the host's
        filesystem, the [ignores] predicate of a matcher, the tokenizer, the
        UTF-8 decoder, the collation [localeCompare], the order of
        [Array.prototype.sort()], [vscode.workspace.getWorkspaceFolder], and
        the constants [MAX_PREVIEW_BYTES] and [MAX_COLLECTED_FILES].
      - The caches of the tree provider are passed to [getChildren] and
        returned by it; the console lines of [resolveSelectedFiles] are
        events of the log; a counter object [{ count: 0 }] is a
        numbered counter of the [World], set to 0 where the object is
        made. *)

From Stdlib Require Import String Ascii Bool Arith Lia List Permutation.
Import ListNotations.

Set Implicit Arguments.
Set Warnings "-register-all".

(* ================================================================== *)
(** * Part I: the model *)
(* ================================================================== *)

(** ** Paths *)

Definition Uri := list string.

Fixpoint Uri_eqb (a b : Uri) : bool :=
  match a, b with
  | [], [] => true
  | x :: a', y :: b' => String.eqb x y && Uri_eqb a' b'
  | _, _ => false
  end.

(** [vscode.Uri.joinPath(uri, name)] for a plain segment [name]. *)
Definition joinPath (uri : Uri) (name : string) : Uri := uri ++ [name].

(** [path.relative(from, to)] on segment lists: drop the common prefix,
    climb out of what is left of [from], descend into what is left of [to]. *)
Fixpoint relative (from to : Uri) : list string :=
  match from, to with
  | f :: from', t :: to' =>
      if String.eqb f t then relative from' to'
      else repeat ".."%string (length from) ++ to
  | _, _ => repeat ".."%string (length from) ++ to
  end.

(** [segments.join(sep)] *)
Definition join (sep : string) (segments : list string) : string :=
  String.concat sep segments.

(** [path.relative(root.fsPath, uri.fsPath).split(path.sep).join("/")] *)
Definition relPosix (root uri : Uri) : string := join "/" (relative root uri).

(** The [fsPath] string of an absolute path. *)
Definition fsPath (uri : Uri) : string := String.append "/" (join "/" uri).

(** [path.basename(p)] *)
Definition basename (uri : Uri) : string := last uri ""%string.

(** ** Insertion-ordered maps (JavaScript [Map]) *)

Section JsMap.
Variables (K V : Type) (eqb : K -> K -> bool).

Definition JsMap := list (K * V).

Fixpoint mapGet (k : K) (m : JsMap) : option V :=
  match m with
  | [] => None
  | (k', v) :: m' => if eqb k k' then Some v else mapGet k m'
  end.

Definition mapHas (k : K) (m : JsMap) : bool :=
  match mapGet k m with Some _ => true | None => false end.

(** [m.set(k, v)]: an existing key keeps its position and takes the new
    value; a new key is appended. *)
Fixpoint mapSet (k : K) (v : V) (m : JsMap) : JsMap :=
  match m with
  | [] => [(k, v)]
  | (k', v') :: m' =>
      if eqb k k' then (k', v) :: m' else (k', v') :: mapSet k v m'
  end.

(** [m.delete(k)] *)
Fixpoint mapDelete (k : K) (m : JsMap) : JsMap :=
  match m with
  | [] => []
  | (k', v') :: m' =>
      if eqb k k' then m' else (k', v') :: mapDelete k m'
  end.

Definition mapSize (m : JsMap) : nat := length m.

Definition mapKeys (m : JsMap) : list K := map fst m.

(** The body shared by [evictOldestBinaryCacheEntries] and
    [evictOldestCacheEntries]:
<<
    if (cache.size > MAX) {
      const entries = Array.from(cache.entries());
      const toDelete = entries.slice(0, cache.size - MAX);
      for (const [key] of toDelete) { cache.delete(key); }
    }
>> *)
Definition evictOldest (MAX : nat) (cache : JsMap) : JsMap :=
  if MAX <? mapSize cache then
    let entries := cache in
    let toDelete := firstn (mapSize cache - MAX) entries in
    fold_left (fun c kv => mapDelete (fst kv) c) toDelete cache
  else cache.
End JsMap.

(** ** ConcurrencyLimiter: [createLimit] *)

(** A task is named by its submission index.  [running] and [queue] are the
    two variables of the closure; [inflight], [started] and [settled] record
    which tasks those numbers stand for. *)
Record Limiter := mkLimiter {
  concurrency : nat;
  running : nat;
  queue : list nat;
  submitted : nat;
  inflight : list nat;
  started : list nat;
  settled : list (nat * bool)
}.

Definition createLimit (concurrency : nat) : Limiter :=
  mkLimiter concurrency 0 [] 0 [] [] [].

(** The synchronous prefix of [run]: [running++], then [fn()] is called. *)
Definition run (id : nat) (l : Limiter) : Limiter :=
  mkLimiter (concurrency l) (S (running l)) (queue l) (submitted l)
            (inflight l ++ [id]) (started l ++ [id]) (settled l).

(** [limit(fn)]: run now when a slot is free, else [queue.push(run)]. *)
Definition limit (l : Limiter) : Limiter :=
  let id := submitted l in
  let l := mkLimiter (concurrency l) (running l) (queue l) (S id)
                     (inflight l) (started l) (settled l) in
  if running l <? concurrency l then run id l
  else mkLimiter (concurrency l) (running l) (queue l ++ [id]) (submitted l)
                 (inflight l) (started l) (settled l).

Fixpoint remove_first (id : nat) (ids : list nat) : list nat :=
  match ids with
  | [] => []
  | x :: ids' => if Nat.eqb id x then ids' else x :: remove_first id ids'
  end.

(** The continuation of [run] after [await fn()]: the promise is resolved
    ([ok = true]) or rejected ([ok = false]), and then the [finally] block
    runs: [running--], and one queued task is started when there is one and
    a slot is free.  Only a task that is in flight can settle. *)
Definition settle (id : nat) (ok : bool) (l : Limiter) : Limiter :=
  if existsb (Nat.eqb id) (inflight l) then
    let l := mkLimiter (concurrency l) (pred (running l)) (queue l)
                       (submitted l) (remove_first id (inflight l))
                       (started l) (settled l ++ [(id, ok)]) in
    match queue l with
    | next :: rest =>
        if running l <? concurrency l then
          run next (mkLimiter (concurrency l) (running l) rest (submitted l)
                              (inflight l) (started l) (settled l))
        else l
    | [] => l
    end
  else l.

Inductive LimiterEvent :=
| Submit
| Settle (id : nat) (ok : bool).

Definition limiterStep (l : Limiter) (e : LimiterEvent) : Limiter :=
  match e with
  | Submit => limit l
  | Settle id ok => settle id ok l
  end.

Definition limiterRun (concurrency : nat) (events : list LimiterEvent) : Limiter :=
  fold_left limiterStep events (createLimit concurrency).

(** ** The host: filesystem surface, abort signal, console *)

Definition Error := string.

Inductive Res (A : Type) : Type :=
| Ok (a : A)
| Err (e : Error).
Arguments Ok {A} a.
Arguments Err {A} e.

(** [vscode.FileType]: a bit mask, so a link to a directory is [66]. *)
Definition FileType := nat.
Definition FileType_Unknown : FileType := 0.
Definition FileType_File : FileType := 1.
Definition FileType_Directory : FileType := 2.
Definition FileType_SymbolicLink : FileType := 64.

Record FileStat := mkFileStat {
  stat_type : FileType;
  stat_mtime : nat;
  stat_size : nat
}.

(** What the host answers at logical time [t].  A stream is the list of the
    results of its successive [reader.read()] calls; past its end the reads
    report [done].  [fs_readFileStream] is [None] on a host without
    [readFileStream]. *)
Record FileSystem := mkFileSystem {
  fs_stat : nat -> Uri -> Res FileStat;
  fs_readDirectory : nat -> Uri -> Res (list (string * FileType));
  fs_readFile : nat -> Uri -> Res (list Byte.byte);
  fs_readFileStream : option (nat -> Uri -> Res (list (Res (list Byte.byte))))
}.

(** An [AbortSignal]: whether it is aborted at logical time [t]. *)
Definition AbortSignal := nat -> bool.

(** The console lines of [resolveSelectedFiles], without the durations. *)
Inductive ConsoleLine :=
| LogSelections (selections : nat)
| LogRoots (roots : nat)
| LogRoot (key : Uri) (selections : nat)
| LogCollected (files : nat) (uri : Uri)
| ErrorCollectFailed (uri : Uri) (error : Error)
| WarnCapped (maxFiles : nat) (root : Uri).

Inductive Event :=
| FsStat (uri : Uri)
| FsReadDirectory (uri : Uri)
| FsReadFile (uri : Uri)
| FsReadFileStream (uri : Uri)
| WarnCapHit (maxFiles : nat)              (* console.warn in collectFiles *)
| LogIgnoreCacheHit (cacheKey : Uri)       (* console.log in getIgnoreParser *)
| LogIgnoreLoaded (cacheKey : Uri)
| LogIgnoreNone (root : Uri)
| LogCountStart (files : nat)              (* console.log in countTokens *)
| LogCountDone (total : nat)
| ErrorProcessing (absPath : Uri) (e : Error) (* console.error in countTokens *)
| Console (line : ConsoleLine).           (* resolveSelectedFiles *)

(** A matcher of the [ignore] package: an object with an identity, made by
    [ignore()], holding what was handed to [.add]. *)
Record IgnoreParser := mkIgnoreParser {
  parser_id : nat;
  parser_added : list string
}.

Record BinaryCacheEntry := mkBinaryCacheEntry {
  bin_isBinary : bool;
  bin_mtime : nat
}.

Record TokenCacheEntry := mkTokenCacheEntry {
  tok_tokens : nat;
  tok_mtime : nat;
  tok_size : nat
}.

Record ParserCacheEntry := mkParserCacheEntry {
  pc_parser : IgnoreParser;
  pc_mtime : nat
}.

(** The mutable state a call can touch: the clock, the log of host calls and
    console output (oldest first), the store of cap counters (objects
    [{ count }] named by a reference), the three module-level caches, and the
    allocator of matcher identities. *)
Record World := mkWorld {
  now : nat;
  trace : list Event;
  counters : nat -> nat;
  isBinaryCache : JsMap Uri BinaryCacheEntry;
  tokenCache : JsMap Uri TokenCacheEntry;
  ignoreParserCache : JsMap Uri ParserCacheEntry;
  nextParserId : nat
}.

(** The world with one field replaced. *)
Definition advance (w : World) : World :=
  mkWorld (S (now w)) (trace w) (counters w) (isBinaryCache w) (tokenCache w)
          (ignoreParserCache w) (nextParserId w).

Definition logged (e : Event) (w : World) : World :=
  mkWorld (now w) (trace w ++ [e]) (counters w) (isBinaryCache w) (tokenCache w)
          (ignoreParserCache w) (nextParserId w).

Definition withCounters (f : nat -> nat) (w : World) : World :=
  mkWorld (now w) (trace w) f (isBinaryCache w) (tokenCache w)
          (ignoreParserCache w) (nextParserId w).

Definition withIsBinaryCache (m : JsMap Uri BinaryCacheEntry) (w : World) : World :=
  mkWorld (now w) (trace w) (counters w) m (tokenCache w)
          (ignoreParserCache w) (nextParserId w).

Definition withTokenCache (m : JsMap Uri TokenCacheEntry) (w : World) : World :=
  mkWorld (now w) (trace w) (counters w) (isBinaryCache w) m
          (ignoreParserCache w) (nextParserId w).

Definition withIgnoreParserCache (m : JsMap Uri ParserCacheEntry) (w : World)
  : World :=
  mkWorld (now w) (trace w) (counters w) (isBinaryCache w) (tokenCache w)
          m (nextParserId w).

Definition withNextParserId (n : nat) (w : World) : World :=
  mkWorld (now w) (trace w) (counters w) (isBinaryCache w) (tokenCache w)
          (ignoreParserCache w) n.

(** ** The monad of asynchronous calls *)

Inductive Outcome (A : Type) : Type :=
| Returned (a : A)
| Threw (e : Error)
| OutOfFuel.
Arguments Returned {A} a.
Arguments Threw {A} e.
Arguments OutOfFuel {A}.

Definition Eff (A : Type) : Type := World -> World * Outcome A.

Definition ret {A} (a : A) : Eff A := fun w => (w, Returned a).

Definition throw {A} (e : Error) : Eff A := fun w => (w, Threw e).

Definition outOfFuel {A} : Eff A := fun w => (w, OutOfFuel).

Definition bind {A B} (m : Eff A) (k : A -> Eff B) : Eff B :=
  fun w =>
    match m w with
    | (w', Returned a) => k a w'
    | (w', Threw e) => (w', Threw e)
    | (w', OutOfFuel) => (w', OutOfFuel)
    end.

(** [try { body } catch (e) { handler(e) }] *)
Definition tryCatch {A} (body : Eff A) (handler : Error -> Eff A) : Eff A :=
  fun w =>
    match body w with
    | (w', Threw e) => handler e w'
    | r => r
    end.

Declare Scope eff_scope.
Delimit Scope eff_scope with eff.
Notation "x <- m ;; k" := (bind m (fun x => k))
  (at level 61, m at next level, right associativity) : eff_scope.
Notation "m ;;; k" := (bind m (fun _ => k))
  (at level 61, right associativity) : eff_scope.
Local Open Scope eff_scope.

Definition liftRes {A} (r : Res A) : Eff A :=
  match r with
  | Ok a => ret a
  | Err e => throw e
  end.

(** One query of the host: read the clock and advance it. *)
Definition tick : Eff nat :=
  fun w => (advance w, Returned (now w)).

Definition emit (e : Event) : Eff unit :=
  fun w => (logged e w, Returned tt).

(** [vscode.workspace.fs.stat(uri)] *)
Definition vsStat (fs : FileSystem) (uri : Uri) : Eff FileStat :=
  t <- tick ;; emit (FsStat uri) ;;; liftRes (fs_stat fs t uri).

(** [vscode.workspace.fs.readDirectory(uri)] *)
Definition vsReadDirectory (fs : FileSystem) (uri : Uri)
  : Eff (list (string * FileType)) :=
  t <- tick ;; emit (FsReadDirectory uri) ;;; liftRes (fs_readDirectory fs t uri).

(** [vscode.workspace.fs.readFile(uri)] *)
Definition vsReadFile (fs : FileSystem) (uri : Uri) : Eff (list Byte.byte) :=
  t <- tick ;; emit (FsReadFile uri) ;;; liftRes (fs_readFile fs t uri).

(** [signal?.aborted] *)
Definition aborted (signal : option AbortSignal) : Eff bool :=
  match signal with
  | None => ret false
  | Some s => t <- tick ;; ret (s t)
  end.

(** [counter.count] and [counter.count++] on the counter object [c]. *)
Definition readCount (c : nat) : Eff nat :=
  fun w => (w, Returned (counters w c)).

Definition incrCount (c : nat) : Eff unit :=
  fun w =>
    (withCounters
       (fun c' => if Nat.eqb c' c then S (counters w c) else counters w c') w,
     Returned tt).

(** ** Asynchronous calls that run side by side *)

(** A call of an async function, from where it stands: it is over, with its
    outcome; or it runs a piece of synchronous code, [effect] on the world,
    and goes on as [next] says, from the world it found; or it stands at an
    [await], where the other calls in flight may run before it goes on. *)
Inductive Async (A : Type) : Type :=
| Finished (r : Outcome A)
| Sync (effect : World -> World) (next : World -> Async A)
| Await (k : Async A).
Arguments Finished {A} r.
Arguments Sync {A} effect next.
Arguments Await {A} k.

Definition retA {A} (a : A) : Async A := Finished (Returned a).

Definition throwA {A} (e : Error) : Async A := Finished (Threw e).

(** Synchronous code inside an async function. *)
Definition sync {A} (m : Eff A) : Async A :=
  Sync (fun w => fst (m w)) (fun w => Finished (snd (m w))).

(** [await promise] for a promise of the host: the request is made now, and
    its answer, a value or an exception, is taken up after the suspension. *)
Definition await {A} (promise : Eff A) : Async A :=
  Sync (fun w => fst (promise w)) (fun w => Await (Finished (snd (promise w)))).

Fixpoint bindA {A B} (m : Async A) (k : A -> Async B) : Async B :=
  match m with
  | Finished (Returned a) => k a
  | Finished (Threw e) => Finished (Threw e)
  | Finished OutOfFuel => Finished OutOfFuel
  | Sync effect next => Sync effect (fun w => bindA (next w) k)
  | Await m' => Await (bindA m' k)
  end.

(** [try { body } catch (e) { handler(e) }] around code that awaits. *)
Fixpoint tryCatchA {A} (body : Async A) (handler : Error -> Async A) : Async A :=
  match body with
  | Finished (Threw e) => handler e
  | Finished r => Finished r
  | Sync effect next => Sync effect (fun w => tryCatchA (next w) handler)
  | Await body' => Await (tryCatchA body' handler)
  end.

(** [await call] for the call of an async function: the callee runs at once
    up to its first await; when it is over, the caller goes on after one
    more suspension. *)
Fixpoint awaitCall {A} (call : Async A) : Async A :=
  match call with
  | Finished r => Await (Finished r)
  | Sync effect next => Sync effect (fun w => awaitCall (next w))
  | Await call' => Await (awaitCall call')
  end.

Declare Scope async_scope.
Delimit Scope async_scope with async.
Bind Scope async_scope with Async.
Notation "x <- m ;; k" := (bindA m (fun x => k))
  (at level 61, m at next level, right associativity) : async_scope.
Notation "m ;;; k" := (bindA m (fun _ => k))
  (at level 61, right associativity) : async_scope.
Arguments sync {A} m%_eff.
Arguments await {A} promise%_eff.

(** The call alone: no other call runs while it is suspended. *)
Fixpoint runAlone {A} (m : Async A) : Eff A :=
  fun w =>
    match m with
    | Finished r => (w, r)
    | Sync effect next => runAlone (next w) (effect w)
    | Await k => runAlone k w
    end.

(** The synchronous code of a call from the world [w] on: up to its next
    await, or to its end. *)
Fixpoint upToAwait {A} (m : Async A) (w : World) : World * Async A :=
  match m with
  | Sync effect next => upToAwait (next w) (effect w)
  | _ => (w, m)
  end.

(** A suspended call goes on. *)
Definition resume {A} (m : Async A) (w : World) : World * Async A :=
  match m with
  | Await k => upToAwait k w
  | _ => upToAwait m w
  end.

(** *** [Promise.all] over the tasks of a limiter *)

(** The promise that [limit(fn)] returns, or the promise of a plain
    [async] callback: its task waits in the queue of the limiter; or it was
    started and is suspended, or over and not yet taken up by the code that
    awaits it; or the promise is settled. *)
Inductive Slot (B : Type) : Type :=
| Queued (fn : Async B)
| Running (call : Async B)
| Settled (r : Outcome B).
Arguments Queued {B} fn.
Arguments Running {B} call.
Arguments Settled {B} r.

(** [running] of the limiter, and the promises in the order of the array. *)
Record Pool (B : Type) := mkPool {
  pool_running : nat;
  pool_slots : list (Slot B)
}.
Arguments mkPool {B} pool_running pool_slots.

(** [running < concurrency]; without a limiter every task starts at once. *)
Definition slotFree (concurrency : option nat) (running : nat) : bool :=
  match concurrency with
  | None => true
  | Some N => running <? N
  end.

(** [xs.map(x => limit(fn))]: every task is started, [running++], as long as
    a slot is free, and runs up to its first await; the others are queued. *)
Fixpoint submitAll {B} (concurrency : option nat) (tasks : list (Async B))
    (running : nat) (w : World) : World * Pool B :=
  match tasks with
  | [] => (w, mkPool running [])
  | fn :: rest =>
      if slotFree concurrency running then
        let (w1, call) := upToAwait fn w in
        let (w2, pool) := submitAll concurrency rest (S running) w1 in
        (w2, mkPool (pool_running pool) (Running call :: pool_slots pool))
      else
        let (w2, pool) := submitAll concurrency rest running w in
        (w2, mkPool (pool_running pool) (Queued fn :: pool_slots pool))
  end.

Fixpoint replaceNth {X} (i : nat) (x : X) (xs : list X) : list X :=
  match xs, i with
  | [], _ => []
  | _ :: xs', 0 => x :: xs'
  | y :: xs', S i' => y :: replaceNth i' x xs'
  end.

(** [queue.shift()] and [next()]: the task queued first is started. *)
Fixpoint startQueued {B} (slots : list (Slot B)) (w : World)
  : option (World * list (Slot B)) :=
  match slots with
  | [] => None
  | Queued fn :: rest =>
      let (w', call) := upToAwait fn w in Some (w', Running call :: rest)
  | slot :: rest =>
      match startQueued rest w with
      | Some (w', rest') => Some (w', slot :: rest')
      | None => None
      end
  end.

(** The continuation of [run] after [await fn()]: the promise is settled
    with the outcome [r]; then the [finally] block: [running--], and the
    task queued first is started when there is one and a slot is free. *)
Definition release {B} (concurrency : option nat) (i : nat) (r : Outcome B)
    (pool : Pool B) (w : World) : World * Pool B :=
  let slots := replaceNth i (Settled r) (pool_slots pool) in
  let running := pred (pool_running pool) in
  if slotFree concurrency running then
    match startQueued slots w with
    | Some (w', slots') => (w', mkPool (S running) slots')
    | None => (w, mkPool running slots)
    end
  else (w, mkPool running slots).

(** The host lets the task [i] go on: a suspended task runs up to its next
    await; a task that is over is taken up and its slot released.  A task
    that is queued or settled has nothing to go on with. *)
Definition stepPool {B} (concurrency : option nat) (i : nat) (pool : Pool B)
    (w : World) : World * Pool B :=
  match nth_error (pool_slots pool) i with
  | Some (Running (Finished r)) => release concurrency i r pool w
  | Some (Running call) =>
      let (w', call') := resume call w in
      (w', mkPool (pool_running pool)
             (replaceNth i (Running call') (pool_slots pool)))
  | _ => (w, pool)
  end.

(** The promise of [Promise.all]: rejected as soon as one of the promises is
    rejected, fulfilled with all the values when all are fulfilled, pending
    otherwise. *)
Fixpoint outcomeOfAll {B} (slots : list (Slot B)) : option (Outcome (list B)) :=
  match slots with
  | [] => Some (Returned [])
  | Settled (Returned b) :: rest =>
      match outcomeOfAll rest with
      | Some (Returned bs) => Some (Returned (b :: bs))
      | other => other
      end
  | Settled (Threw e) :: _ => Some (Threw e)
  | Settled OutOfFuel :: _ => Some OutOfFuel
  | _ :: rest =>
      match outcomeOfAll rest with
      | Some (Returned _) => None
      | other => other
      end
  end.

(** The call goes on to its end, with its awaits; then [k] takes up its
    outcome. *)
Fixpoint finishThen {B C} (call : Async B) (k : Outcome B -> Async C) : Async C :=
  match call with
  | Finished r => k r
  | Sync effect next => Sync effect (fun w => finishThen (next w) k)
  | Await call' => Await (finishThen call' k)
  end.

Fixpoint firstRunning {B} (slots : list (Slot B)) (i : nat)
  : option (nat * Async B) :=
  match slots with
  | [] => None
  | Running call :: _ => Some (i, call)
  | _ :: rest => firstRunning rest (S i)
  end.

(** When the schedule says no more, the tasks that run go on one after the
    other, the one started first before the others, each to its end; a task
    that its release starts takes its turn after them.  [fuel] is the number
    of tasks; with tasks left in the queue and none running nothing can go
    on any more. *)
Fixpoint drainPool {B} (concurrency : option nat) (fuel : nat) (pool : Pool B)
  : Async (list B) :=
  match outcomeOfAll (pool_slots pool) with
  | Some r => Await (Finished r)
  | None =>
      match fuel with
      | 0 => Finished OutOfFuel
      | S fuel' =>
          match firstRunning (pool_slots pool) 0 with
          | None => Finished OutOfFuel
          | Some (i, call) =>
              finishThen call
                (fun r =>
                   Await
                     (Sync (fun w => fst (release concurrency i r pool w))
                        (fun w =>
                           drainPool concurrency fuel'
                             (snd (release concurrency i r pool w)))))
          end
      end
  end.

(** [await Promise.all(promises)]: the caller is suspended; the host lets
    the tasks go on in the order of [schedule], one piece of synchronous
    code at a time; the caller goes on, after one more suspension, when the
    promise of [Promise.all] is settled. *)
Fixpoint awaitAll {B} (concurrency : option nat) (schedule : list nat)
    (pool : Pool B) : Async (list B) :=
  match outcomeOfAll (pool_slots pool) with
  | Some r => Await (Finished r)
  | None =>
      match schedule with
      | [] => drainPool concurrency (length (pool_slots pool)) pool
      | i :: rest =>
          Await
            (Sync (fun w => fst (stepPool concurrency i pool w))
               (fun w =>
                  awaitAll concurrency rest (snd (stepPool concurrency i pool w))))
      end
  end.

(** [await Promise.all(xs.map(x => limit(task)))], and with no limiter
    [await Promise.all(xs.map(task))].  When a task throws, the caller goes
    on with the exception and does not wait for the tasks that are still
    suspended; what those do later is not part of the call. *)
Definition promiseAll {B} (concurrency : option nat) (schedule : list nat)
    (tasks : list (Async B)) : Async (list B) :=
  Sync (fun w => fst (submitAll concurrency tasks 0 w))
    (fun w => awaitAll concurrency schedule (snd (submitAll concurrency tasks 0 w))).


(** The host lets the tasks go on in turn, [rounds] times each of [n]. *)
Definition roundRobin (n rounds : nat) : list nat :=
  concat (repeat (seq 0 n) rounds).

(** ** FileCollector: [collectFiles] *)

(** [fsLimit = createLimit(24)] only delays the host call it wraps until a
    slot is free; the call then made is the one modelled here, at whatever
    time the clock shows. *)
Definition fsLimit {A} (fn : Eff A) : Eff A := fn.

(** The guard at the head of the child loop:
<<
    if (maxFiles !== undefined && counter && counter.count >= maxFiles) {
        if (counter.count === maxFiles) { console.warn(...); }
        break;
    }
>>
    The result says whether the loop breaks. *)
Definition capStop (maxFiles : option nat) (counter : option nat) : Eff bool :=
  match maxFiles, counter with
  | Some m, Some c =>
      n <- readCount c ;;
      if m <=? n then
        (if Nat.eqb n m then emit (WarnCapHit m) else ret tt) ;;;
        ret true
      else ret false
  | _, _ => ret false
  end.

(** [for (const [name] of children) { ... }] with [out] the array filled so
    far; [recurse] is the recursive call of [collectFiles] on a child. *)
Fixpoint collectChildren (recurse : Uri -> Eff (list Uri))
    (signal : option AbortSignal) (maxFiles : option nat) (counter : option nat)
    (uri : Uri) (children : list (string * FileType)) (out : list Uri)
  : Eff (list Uri) :=
  match children with
  | [] => ret out
  | (name, _) :: rest =>
      a <- aborted signal ;;
      if a then ret out else
      stop <- capStop maxFiles counter ;;
      if stop then ret out else
      let childUri := joinPath uri name in
      nested <- recurse childUri ;;
      collectChildren recurse signal maxFiles counter uri rest (out ++ nested)
  end.

(** [collectFiles(uri, ignoreParser, root, signal, maxFiles, counter)].
    [ignoreParser] is the [ignores] method of the matcher, a predicate on
    root-relative paths; [counter] names the counter object; [fuel] bounds
    the depth of the recursion, which the source leaves to the filesystem. *)
Fixpoint collectFiles (fuel : nat) (fs : FileSystem) (uri : Uri)
    (ignoreParser : string -> bool) (root : Uri) (signal : option AbortSignal)
    (maxFiles : option nat) (counter : option nat) : Eff (list Uri) :=
  match fuel with
  | 0 => outOfFuel
  | S fuel' =>
      a <- aborted signal ;;
      if a then ret [] else
      let rel := relPosix root uri in
      stat <- fsLimit (vsStat fs uri) ;;
      if Nat.eqb (stat_type stat) FileType_Directory then
        let relDir := if String.eqb rel "" then None else Some (rel ++ "/")%string in
        if match relDir with Some d => ignoreParser d | None => false end
        then ret [] else
        a <- aborted signal ;;
        if a then ret [] else
        children <- fsLimit (vsReadDirectory fs uri) ;;
        collectChildren
          (fun childUri =>
             collectFiles fuel' fs childUri ignoreParser root signal maxFiles counter)
          signal maxFiles counter uri children []
      else
        if negb (String.eqb rel "") && ignoreParser rel then ret [] else
        match maxFiles, counter with
        | Some m, Some c =>
            n <- readCount c ;;
            if m <=? n then ret [] else
            incrCount c ;;; ret [uri]
        | _, _ => ret [uri]
        end
  end.

(** The same traversal as a call that can be suspended: at the [stat], at
    the [readDirectory], and at every recursive call. *)
Fixpoint collectChildrenAsync (recurse : Uri -> Async (list Uri))
    (signal : option AbortSignal) (maxFiles : option nat) (counter : option nat)
    (uri : Uri) (children : list (string * FileType)) (out : list Uri)
  : Async (list Uri) :=
  match children with
  | [] => retA out
  | (name, _) :: rest =>
      (a <- sync (aborted signal) ;;
       if a then retA out else
       stop <- sync (capStop maxFiles counter) ;;
       if stop then retA out else
       let childUri := joinPath uri name in
       nested <- awaitCall (recurse childUri) ;;
       collectChildrenAsync recurse signal maxFiles counter uri rest
         (out ++ nested))%async
  end.

Fixpoint collectFilesAsync (fuel : nat) (fs : FileSystem) (uri : Uri)
    (ignoreParser : string -> bool) (root : Uri) (signal : option AbortSignal)
    (maxFiles : option nat) (counter : option nat) : Async (list Uri) :=
  match fuel with
  | 0 => Finished OutOfFuel
  | S fuel' =>
      (a <- sync (aborted signal) ;;
       if a then retA [] else
       let rel := relPosix root uri in
       stat <- await (fsLimit (vsStat fs uri)) ;;
       if Nat.eqb (stat_type stat) FileType_Directory then
         let relDir :=
           if String.eqb rel "" then None else Some (rel ++ "/")%string in
         if match relDir with Some d => ignoreParser d | None => false end
         then retA [] else
         a <- sync (aborted signal) ;;
         if a then retA [] else
         children <- await (fsLimit (vsReadDirectory fs uri)) ;;
         collectChildrenAsync
           (fun childUri =>
              collectFilesAsync fuel' fs childUri ignoreParser root signal
                maxFiles counter)
           signal maxFiles counter uri children []
       else
         if negb (String.eqb rel "") && ignoreParser rel then retA [] else
         match maxFiles, counter with
         | Some m, Some c =>
             n <- sync (readCount c) ;;
             if m <=? n then retA [] else
             sync (incrCount c) ;;; retA [uri]
         | _, _ => retA [uri]
         end)%async
  end.

(** ** ContentClassifier: [isBinary] *)

Definition MAX_BINARY_CACHE_SIZE : nat := 5000.

Definition setIsBinaryCache (absPath : Uri) (e : BinaryCacheEntry) : Eff unit :=
  fun w => (withIsBinaryCache (mapSet Uri_eqb absPath e (isBinaryCache w)) w,
            Returned tt).

Definition evictOldestBinaryCacheEntries : Eff unit :=
  fun w =>
    (withIsBinaryCache
       (evictOldest Uri_eqb MAX_BINARY_CACHE_SIZE (isBinaryCache w)) w,
     Returned tt).

Definition getIsBinaryCache (absPath : Uri) : Eff (option BinaryCacheEntry) :=
  fun w => (w, Returned (mapGet Uri_eqb absPath (isBinaryCache w))).

Definition isZero (b : Byte.byte) : bool := Byte.eqb b Byte.x00.

(** The inner loop over one chunk,
    [for (let i = 0; i < value.length && total < 512; i++, total++)],
    returning [result] and the new [total]. *)
Fixpoint scanChunk (value : list Byte.byte) (total : nat) : bool * nat :=
  match value with
  | [] => (false, total)
  | b :: value' =>
      if total <? 512 then
        if isZero b then (true, total) else scanChunk value' (S total)
      else (false, total)
  end.

(** The outer loop, [while (total < 512) { await reader.read(); ... }]. *)
Fixpoint scanStream (reads : list (Res (list Byte.byte))) (total : nat) : Res bool :=
  match reads with
  | [] => Ok false
  | r :: reads' =>
      if total <? 512 then
        match r with
        | Err e => Err e
        | Ok value =>
            let (result, total') := scanChunk value total in
            if result then Ok true else scanStream reads' total'
        end
      else Ok false
  end.

(** [bytes.subarray(0, 512).some(b => b === 0)] *)
Definition hasZeroInPrefix (bytes : list Byte.byte) : bool :=
  existsb isZero (firstn 512 bytes).

(** The cache write of both exits of the second [try]:
    [if (stats) { isBinaryCache.set(...); evictOldestBinaryCacheEntries(); }] *)
Definition rememberBinary (absPath : Uri) (stats : option FileStat)
    (verdict : bool) : Eff unit :=
  match stats with
  | Some st =>
      setIsBinaryCache absPath (mkBinaryCacheEntry verdict (stat_mtime st)) ;;;
      evictOldestBinaryCacheEntries
  | None => ret tt
  end.

(** [isBinary(absPath)].  The first [try] either returns the cached verdict
    ([inl]) or leaves [stats] ([inr]); [stats] stays undefined when the stat
    throws. *)
Definition isBinary (fs : FileSystem) (absPath : Uri) : Eff bool :=
  first <- tryCatch
             (stats <- vsStat fs absPath ;;
              cached <- getIsBinaryCache absPath ;;
              match cached with
              | Some c =>
                  if Nat.eqb (bin_mtime c) (stat_mtime stats)
                  then ret (inl (bin_isBinary c))
                  else ret (inr (Some stats))
              | None => ret (inr (Some stats))
              end)
             (fun _ => ret (inr None)) ;;
  match first with
  | inl verdict => ret verdict
  | inr stats =>
      tryCatch
        (result <- match fs_readFileStream fs with
                   | Some readFileStream =>
                       t <- tick ;; emit (FsReadFileStream absPath) ;;;
                       reads <- liftRes (readFileStream t absPath) ;;
                       liftRes (scanStream reads 0)
                   | None =>
                       bytes <- vsReadFile fs absPath ;;
                       ret (hasZeroInPrefix bytes)
                   end ;;
         rememberBinary absPath stats result ;;;
         ret result)
        (fun _ =>
           rememberBinary absPath stats true ;;;
           ret true)
  end.

(** [isBinary] as a call that can be suspended: at its [stat], at the
    opening of the stream and at every [reader.read()], which past the end
    of the stream reports [done], or at its [readFile]. *)
Fixpoint scanStreamAsync (reads : list (Res (list Byte.byte))) (total : nat)
  : Async bool :=
  match reads with
  | [] => if total <? 512 then Await (retA false) else retA false
  | r :: reads' =>
      if total <? 512 then
        Await
          match r with
          | Err e => throwA e
          | Ok value =>
              let (result, total') := scanChunk value total in
              if result then retA true else scanStreamAsync reads' total'
          end
      else retA false
  end.

Definition isBinaryAsync (fs : FileSystem) (absPath : Uri) : Async bool :=
  (first <- tryCatchA
              (stats <- await (vsStat fs absPath) ;;
               cached <- sync (getIsBinaryCache absPath) ;;
               match cached with
               | Some c =>
                   if Nat.eqb (bin_mtime c) (stat_mtime stats)
                   then retA (inl (bin_isBinary c))
                   else retA (inr (Some stats))
               | None => retA (inr (Some stats))
               end)
              (fun _ => retA (inr None)) ;;
   match first with
   | inl verdict => retA verdict
   | inr stats =>
       tryCatchA
         (result <- match fs_readFileStream fs with
                    | Some readFileStream =>
                        reads <- await (t <- tick ;;
                                        emit (FsReadFileStream absPath) ;;;
                                        liftRes (readFileStream t absPath))%eff ;;
                        scanStreamAsync reads 0
                    | None =>
                        bytes <- await (vsReadFile fs absPath) ;;
                        retA (hasZeroInPrefix bytes)
                    end ;;
          sync (rememberBinary absPath stats result) ;;;
          retA result)
         (fun _ =>
            sync (rememberBinary absPath stats true) ;;;
            retA true)
   end)%async.

(** ** TokenAccountant: [countTokens] *)

Definition MAX_CACHE_SIZE : nat := 5000.

Definition setTokenCache (absPath : Uri) (e : TokenCacheEntry) : Eff unit :=
  fun w => (withTokenCache (mapSet Uri_eqb absPath e (tokenCache w)) w,
            Returned tt).

Definition evictOldestCacheEntries : Eff unit :=
  fun w =>
    (withTokenCache (evictOldest Uri_eqb MAX_CACHE_SIZE (tokenCache w)) w,
     Returned tt).

Definition getTokenCache (absPath : Uri) : Eff (option TokenCacheEntry) :=
  fun w => (w, Returned (mapGet Uri_eqb absPath (tokenCache w))).

(** What the host and the tokenizer package supply to [countTokens]:
    [MAX_PREVIEW_BYTES] of [constants.ts], and
    [encode(Buffer.from(bytes).toString("utf8")).length], which may throw. *)
Record Tokenizer := mkTokenizer {
  MAX_PREVIEW_BYTES : nat;
  encodeLength : list Byte.byte -> Res nat
}.

(** The task handed to [limit] for one path. *)
Definition countTokensFile (fs : FileSystem) (tk : Tokenizer)
    (signal : option AbortSignal) (absPath : Uri) : Eff nat :=
  a <- aborted signal ;;
  if a then ret 0 else
  tryCatch
    (let uri := absPath in
     stats <- vsStat fs uri ;;
     if MAX_PREVIEW_BYTES tk <? stat_size stats then ret 0 else
     cached <- getTokenCache absPath ;;
     let miss :=
       a <- aborted signal ;;
       if a then ret 0 else
       b <- isBinary fs absPath ;;
       if b then ret 0 else
       a <- aborted signal ;;
       if a then ret 0 else
       bytes <- vsReadFile fs uri ;;
       tokens <- liftRes (encodeLength tk bytes) ;;
       setTokenCache absPath
         (mkTokenCacheEntry tokens (stat_mtime stats) (stat_size stats)) ;;;
       evictOldestCacheEntries ;;;
       ret tokens in
     match cached with
     | Some c =>
         if Nat.eqb (tok_mtime c) (stat_mtime stats)
            && Nat.eqb (tok_size c) (stat_size stats)
         then ret (tok_tokens c)
         else miss
     | None => miss
     end)
    (fun error => emit (ErrorProcessing absPath error) ;;; ret 0).

(** [const limit = createLimit(8)] of [tokenCounter.ts] *)
Definition tokenLimit : nat := 8.

Definition countTokensFileAsync (fs : FileSystem) (tk : Tokenizer)
    (signal : option AbortSignal) (absPath : Uri) : Async nat :=
  (a <- sync (aborted signal) ;;
   if a then retA 0 else
   tryCatchA
     (let uri := absPath in
      stats <- await (vsStat fs uri) ;;
      if (MAX_PREVIEW_BYTES tk <? stat_size stats)%nat then retA 0 else
      cached <- sync (getTokenCache absPath) ;;
      let miss :=
        a <- sync (aborted signal) ;;
        if a then retA 0 else
        b <- awaitCall (isBinaryAsync fs absPath) ;;
        if b then retA 0 else
        a <- sync (aborted signal) ;;
        if a then retA 0 else
        bytes <- await (vsReadFile fs uri) ;;
        tokens <- sync (liftRes (encodeLength tk bytes)) ;;
        sync (setTokenCache absPath
                (mkTokenCacheEntry tokens (stat_mtime stats) (stat_size stats))) ;;;
        sync evictOldestCacheEntries ;;;
        retA tokens in
      match cached with
      | Some c =>
          if Nat.eqb (tok_mtime c) (stat_mtime stats)
             && Nat.eqb (tok_size c) (stat_size stats)
          then retA (tok_tokens c)
          else miss
      | None => miss
      end)
     (fun error => sync (emit (ErrorProcessing absPath error)) ;;; retA 0))%async.

(** [countTokens(paths, signal)]; [schedule] is the order in which the host
    lets the tasks go on. *)
Definition countTokensAsync (fs : FileSystem) (tk : Tokenizer) (paths : list Uri)
    (signal : option AbortSignal) (schedule : list nat) : Async nat :=
  (a <- sync (aborted signal) ;;
   if a then retA 0 else
   sync (emit (LogCountStart (length paths))) ;;;
   tokenCounts <- promiseAll (Some tokenLimit) schedule
                    (map (countTokensFileAsync fs tk signal) paths) ;;
   let total := fold_left Nat.add tokenCounts 0 in
   sync (emit (LogCountDone total)) ;;;
   retA total)%async.

Definition countTokens (fs : FileSystem) (tk : Tokenizer) (paths : list Uri)
    (signal : option AbortSignal) (schedule : list nat) : Eff nat :=
  runAlone (countTokensAsync fs tk paths signal schedule).

(** ** IgnoreRuleEngine: [getIgnoreParser] *)

Definition DEFAULT_IGNORE_PATTERNS : list string := [".git/"; ".git"]%string.

(** [ignore()]: a new matcher object. *)
Definition ignore : Eff IgnoreParser :=
  fun w => (withNextParserId (S (nextParserId w)) w,
            Returned (mkIgnoreParser (nextParserId w) [])).

(** [parser.add(patterns)]: the same object, with more rules. *)
Definition add (patterns : list string) (parser : IgnoreParser) : IgnoreParser :=
  mkIgnoreParser (parser_id parser) (parser_added parser ++ patterns).

Definition getParserCache (cacheKey : Uri) : Eff (option ParserCacheEntry) :=
  fun w => (w, Returned (mapGet Uri_eqb cacheKey (ignoreParserCache w))).

Definition setParserCache (cacheKey : Uri) (e : ParserCacheEntry) : Eff unit :=
  fun w =>
    (withIgnoreParserCache (mapSet Uri_eqb cacheKey e (ignoreParserCache w)) w,
     Returned tt).

(** [getIgnoreParser(workspaceRootUri)]; [decode] is the UTF-8 decoding of
    the host ([TextDecoder] or [Buffer]). *)
Definition getIgnoreParser (fs : FileSystem) (decode : list Byte.byte -> string)
    (workspaceRootUri : Uri) : Eff IgnoreParser :=
  let gitIgnoreUri := joinPath workspaceRootUri ".gitignore" in
  tryCatch
    (stat <- vsStat fs gitIgnoreUri ;;
     let cacheKey := workspaceRootUri in
     cached <- getParserCache cacheKey ;;
     let load :=
       gitIgnoreBytes <- vsReadFile fs gitIgnoreUri ;;
       let gitIgnoreContent := decode gitIgnoreBytes in
       fresh <- ignore ;;
       let parser := add [gitIgnoreContent] (add DEFAULT_IGNORE_PATTERNS fresh) in
       setParserCache cacheKey (mkParserCacheEntry parser (stat_mtime stat)) ;;;
       emit (LogIgnoreLoaded cacheKey) ;;;
       ret parser in
     match cached with
     | Some c =>
         if Nat.eqb (pc_mtime c) (stat_mtime stat)
         then emit (LogIgnoreCacheHit cacheKey) ;;; ret (pc_parser c)
         else load
     | None => load
     end)
    (fun _ =>
       emit (LogIgnoreNone workspaceRootUri) ;;;
       fresh <- ignore ;;
       ret (add DEFAULT_IGNORE_PATTERNS fresh)).

(** [getIgnoreParser] as a call that can be suspended: at its [stat] and at
    its [readFile]. *)
Definition getIgnoreParserAsync (fs : FileSystem)
    (decode : list Byte.byte -> string) (workspaceRootUri : Uri)
  : Async IgnoreParser :=
  let gitIgnoreUri := joinPath workspaceRootUri ".gitignore" in
  tryCatchA
    (stat <- await (vsStat fs gitIgnoreUri) ;;
     let cacheKey := workspaceRootUri in
     cached <- sync (getParserCache cacheKey) ;;
     let load :=
       gitIgnoreBytes <- await (vsReadFile fs gitIgnoreUri) ;;
       let gitIgnoreContent := decode gitIgnoreBytes in
       fresh <- sync ignore ;;
       let parser := add [gitIgnoreContent] (add DEFAULT_IGNORE_PATTERNS fresh) in
       sync (setParserCache cacheKey
               (mkParserCacheEntry parser (stat_mtime stat))) ;;;
       sync (emit (LogIgnoreLoaded cacheKey)) ;;;
       retA parser in
     match cached with
     | Some c =>
         if Nat.eqb (pc_mtime c) (stat_mtime stat)
         then sync (emit (LogIgnoreCacheHit cacheKey)) ;;; retA (pc_parser c)
         else load
     | None => load
     end)%async
    (fun _ =>
       sync (emit (LogIgnoreNone workspaceRootUri)) ;;;
       fresh <- sync ignore ;;
       retA (add DEFAULT_IGNORE_PATTERNS fresh))%async.

(** ** FileMapRenderer: [fileMapGenerator.ts] *)

Local Open Scope string_scope.
Local Open Scope list_scope.

Inductive TreeNode :=
| mkTreeNode (name : string) (isFile : bool) (isSelected : bool)
             (children : list (string * TreeNode)).

Definition node_name (n : TreeNode) : string :=
  match n with mkTreeNode name _ _ _ => name end.
Definition node_isFile (n : TreeNode) : bool :=
  match n with mkTreeNode _ isFile _ _ => isFile end.
Definition node_isSelected (n : TreeNode) : bool :=
  match n with mkTreeNode _ _ isSelected _ => isSelected end.
Definition node_children (n : TreeNode) : JsMap string TreeNode :=
  match n with mkTreeNode _ _ _ children => children end.

Definition createTreeNode (name : string) (isFile isSelected : bool) : TreeNode :=
  mkTreeNode name isFile isSelected [].

(** [node.isSelected = true] *)
Definition select (n : TreeNode) : TreeNode :=
  mkTreeNode (node_name n) (node_isFile n) true (node_children n).

(** [path.relative(workspaceRoot, filePath).split(path.sep)]: the empty
    relative path splits into one empty part. *)
Definition relativeParts (workspaceRoot filePath : Uri) : list string :=
  match relative workspaceRoot filePath with
  | [] => [""]
  | parts => parts
  end.

(** The inner loop of [buildTree], [for (let i = ...; i < parts.length; i++)],
    from the node [current] on, over the parts not yet consumed.  [marked] is
    [selectedFiles === undefined || selectedFiles.has(filePath)]. *)
Fixpoint insertParts (parts : list string) (marked : bool) (current : TreeNode)
  : TreeNode :=
  match parts with
  | [] => current
  | part :: rest =>
      let isLast := match rest with [] => true | _ => false end in
      let isSelected := isLast && marked in
      let children := node_children current in
      let children :=
        match mapGet String.eqb part children with
        | None =>
            mapSet String.eqb part (createTreeNode part isLast isSelected) children
        | Some existing =>
            if isLast && isSelected
            then mapSet String.eqb part (select existing) children
            else children
        end in
      let children :=
        match mapGet String.eqb part children with
        | Some next =>
            mapSet String.eqb part (insertParts rest marked next) children
        | None => children
        end in
      mkTreeNode (node_name current) (node_isFile current)
                 (node_isSelected current) children
  end.

Definition buildTree (files : list Uri) (workspaceRoot : Uri)
    (selectedFiles : option (list Uri)) : TreeNode :=
  fold_left
    (fun root filePath =>
       let marked :=
         match selectedFiles with
         | None => true
         | Some set => existsb (Uri_eqb filePath) set
         end in
       insertParts (relativeParts workspaceRoot filePath) marked root)
    files
    (createTreeNode (basename workspaceRoot) false false).

(** [Array.prototype.sort] with a comparator: a stable insertion sort. *)
Section Sort.
Variables (X : Type) (cmp : X -> X -> comparison).

Fixpoint insertSorted (x : X) (sorted : list X) : list X :=
  match sorted with
  | [] => [x]
  | y :: sorted' =>
      match cmp x y with
      | Gt => y :: insertSorted x sorted'
      | _ => x :: y :: sorted'
      end
  end.

Fixpoint sortWith (xs : list X) : list X :=
  match xs with
  | [] => []
  | x :: xs' => insertSorted x (sortWith xs')
  end.
End Sort.

(** The comparator of [sortChildren]; [localeCompare] is the host's
    collation. *)
Definition compareNodes (localeCompare : string -> string -> comparison)
    (a b : TreeNode) : comparison :=
  if negb (node_isFile a) && node_isFile b then Lt
  else if node_isFile a && negb (node_isFile b) then Gt
  else localeCompare (node_name a) (node_name b).

Definition Renderer := string -> bool -> bool -> list string -> list string.

(** [for (let i = 0; i < sortedChildren.length; i++) renderTree(child, prefix,
    i === sortedChildren.length - 1, false, lines)], each child paired with
    its own [renderTree]. *)
Fixpoint renderSorted (sortedChildren : list (TreeNode * Renderer))
    (prefix : string) (lines : list string) : list string :=
  match sortedChildren with
  | [] => lines
  | (_, renderChild) :: rest =>
      let childIsLast := match rest with [] => true | _ => false end in
      renderSorted rest prefix (renderChild prefix childIsLast false lines)
  end.

Definition connectorLast : string := "└── ".
Definition connectorMid : string := "├── ".
Definition prefixLast : string := "    ".
Definition prefixMid : string := "│   ".

(** [renderTree(node, prefix, isLast, isRoot, lines)]; the result is [lines]
    after the pushes.  [sortChildren(node.children)] sorts the children; here
    every child is sorted together with the rendering of its own subtree. *)
Fixpoint renderTree (localeCompare : string -> string -> comparison)
    (node : TreeNode) : Renderer :=
  match node with
  | mkTreeNode name isFile isSelected children =>
      let sortedChildren :=
        sortWith (fun a b => compareNodes localeCompare (fst a) (fst b))
                 (map (fun kv => (snd kv, renderTree localeCompare (snd kv)))
                      children) in
      fun prefix isLast isRoot lines =>
        if isRoot then renderSorted sortedChildren "" lines
        else
          let connector := if isLast then connectorLast else connectorMid in
          let marker := if isSelected then " *" else "" in
          let lines := lines ++ [(prefix ++ connector ++ name ++ marker)%string] in
          if (0 <? mapSize children)%nat then
            let newPrefix := (prefix ++ (if isLast then prefixLast else prefixMid))%string in
            renderSorted sortedChildren newPrefix lines
          else lines
  end.

Definition newline : string := String (ascii_of_nat 10) EmptyString.

Definition legend : string := ("(" ++ "* denotes selected files)")%string.

Definition generateFileMap (localeCompare : string -> string -> comparison)
    (files : list Uri) (workspaceRoot : Uri) (selectedFiles : option (list Uri))
  : string :=
  if Nat.eqb (length files) 0 then ""
  else
    let tree := buildTree files workspaceRoot selectedFiles in
    let lines := [fsPath workspaceRoot] in
    let lines := renderTree localeCompare tree "" true true lines in
    ("<file_map>" ++ newline ++ join newline lines ++ newline ++ newline
      ++ legend ++ newline ++ "</file_map>")%string.

Record WorkspaceFiles := mkWorkspaceFiles {
  workspaceName : string;
  workspacePath : Uri;
  files : list Uri
}.

(** [if (allLines.length > 0 && allLines[allLines.length - 1] === "")
       allLines.pop()] *)
Definition popTrailingEmpty (allLines : list string) : list string :=
  if (0 <? length allLines)%nat && String.eqb (last allLines "x") ""
  then removelast allLines
  else allLines.

(** The body of the loop over the workspaces of [generateFileMapMultiRoot]. *)
Definition appendWorkspace (localeCompare : string -> string -> comparison)
    (selectedFiles : option (list Uri)) (allLines : list string)
    (entry : Uri * WorkspaceFiles) : list string :=
  let ws := snd entry in
  if Nat.eqb (length (files ws)) 0 then allLines
  else
    let tree := buildTree (files ws) (workspacePath ws) selectedFiles in
    let lines := [fsPath (workspacePath ws)] in
    let lines := renderTree localeCompare tree "" true true lines in
    allLines ++ lines ++ [""].

Definition generateFileMapMultiRoot (localeCompare : string -> string -> comparison)
    (filesByWorkspace : JsMap Uri WorkspaceFiles)
    (selectedFiles : option (list Uri)) : string :=
  if Nat.eqb (mapSize filesByWorkspace) 0 then ""
  else
    let allLines :=
      fold_left (appendWorkspace localeCompare selectedFiles) filesByWorkspace [] in
    let allLines := popTrailingEmpty allLines in
    ("<file_map>" ++ newline ++ join newline allLines ++ newline
      ++ "</file_map>")%string.

(** ** Concrete hosts, used to run the model *)

(** A filesystem that does not change: a tree of files and directories. *)
Inductive FsNode :=
| FileNode (mtime : nat) (content : list Byte.byte)
| DirNode (entries : list (string * FsNode)).

Fixpoint fsLookup (node : FsNode) (path : Uri) : option FsNode :=
  match path with
  | [] => Some node
  | segment :: path' =>
      match node with
      | DirNode entries =>
          match mapGet String.eqb segment entries with
          | Some child => fsLookup child path'
          | None => None
          end
      | FileNode _ _ => None
      end
  end.

Definition fsNodeType (node : FsNode) : FileType :=
  match node with
  | FileNode _ _ => FileType_File
  | DirNode _ => FileType_Directory
  end.

Definition staticFs (tree : FsNode) : FileSystem :=
  mkFileSystem
    (fun _ uri =>
       match fsLookup tree uri with
       | Some (FileNode mtime content) =>
           Ok (mkFileStat FileType_File mtime (length content))
       | Some (DirNode _) => Ok (mkFileStat FileType_Directory 0 0)
       | None => Err "ENOENT"
       end)
    (fun _ uri =>
       match fsLookup tree uri with
       | Some (DirNode entries) =>
           Ok (map (fun e => (fst e, fsNodeType (snd e))) entries)
       | Some (FileNode _ _) => Err "ENOTDIR"
       | None => Err "ENOENT"
       end)
    (fun _ uri =>
       match fsLookup tree uri with
       | Some (FileNode _ content) => Ok content
       | Some (DirNode _) => Err "EISDIR"
       | None => Err "ENOENT"
       end)
    None.

Definition emptyWorld : World :=
  mkWorld 0 [] (fun _ => 0) [] [] [] 0.

(** A tokenizer that counts bytes, with a preview ceiling of 1000 bytes. *)
Definition byteTokenizer : Tokenizer :=
  mkTokenizer 1000 (fun bytes => Ok (length bytes)).

Definition isCapWarning (e : Event) : bool :=
  match e with WarnCapHit _ => true | _ => false end.

(** ** Uses of the two bounded caches *)

(** What [isBinary] and [countTokens] do to their cache: a lookup
    ([cache.get(absPath)]), or a write followed by the eviction
    ([cache.set(absPath, entry); evictOldest...()]). *)
Inductive CacheOp (V : Type) : Type :=
| CacheGet (absPath : Uri)
| CachePut (absPath : Uri) (entry : V).
Arguments CacheGet {V} absPath.
Arguments CachePut {V} absPath entry.

Definition binaryCacheOp (op : CacheOp BinaryCacheEntry) : Eff unit :=
  match op with
  | CacheGet absPath => getIsBinaryCache absPath ;;; ret tt
  | CachePut absPath entry =>
      setIsBinaryCache absPath entry ;;; evictOldestBinaryCacheEntries
  end.

Definition tokenCacheOp (op : CacheOp TokenCacheEntry) : Eff unit :=
  match op with
  | CacheGet absPath => getTokenCache absPath ;;; ret tt
  | CachePut absPath entry =>
      setTokenCache absPath entry ;;; evictOldestCacheEntries
  end.

Fixpoint forEach {A} (f : A -> Eff unit) (xs : list A) : Eff unit :=
  match xs with
  | [] => ret tt
  | x :: xs' => f x ;;; forEach f xs'
  end.

(** The writes of a sequence of uses, oldest first. *)
Definition puts {V} (ops : list (CacheOp V)) : list (Uri * V) :=
  flat_map (fun op => match op with
                      | CacheGet _ => []
                      | CachePut absPath entry => [(absPath, entry)]
                      end) ops.

(** A supply of pairwise different paths. *)
Fixpoint unary (n : nat) : string :=
  match n with
  | 0 => ""
  | S n' => String "a" (unary n')
  end.

Definition numberedPath (n : nat) : Uri := ["cache"; unary n].

(** [MAX] writes of different paths, then a lookup of the oldest of them,
    then one more write. *)
Definition oneTooMany {V} (MAX : nat) (entry : nat -> V) : list (CacheOp V) :=
  map (fun n => CachePut (numberedPath n) (entry n)) (seq 0 MAX)
  ++ [CacheGet (numberedPath 0); CachePut (numberedPath MAX) (entry MAX)].

Definition sampleBinaryEntry (n : nat) : BinaryCacheEntry :=
  mkBinaryCacheEntry false n.

Definition sampleTokenEntry (n : nat) : TokenCacheEntry :=
  mkTokenCacheEntry n n n.

(** A token cache filled to its capacity. *)
Definition fullTokenCache : JsMap Uri TokenCacheEntry :=
  (numberedPath 0, sampleTokenEntry 0)
  :: map (fun n => (numberedPath n, sampleTokenEntry n))
         (seq 1 (pred MAX_CACHE_SIZE)).

(** ** Predicates used in the statements *)

(** What holds of a limiter of concurrency [N] between any two events. *)
Definition limiterInv (N : nat) (l : Limiter) : Prop :=
  concurrency l = N
  /\ running l = length (inflight l)
  /\ running l <= N
  /\ started l ++ queue l = seq 0 (submitted l)
  /\ (queue l <> [] -> running l = N).

(** The cap [N] on the counter object [c], between the world [w] before a
    call and the world [w'] after it: the counter only grows, never past [N],
    and it grows by the number of paths returned. *)
Definition capRespected (N c : nat) (w w' : World) (r : Outcome (list Uri))
    (already : nat) : Prop :=
  counters w c <= counters w' c
  /\ counters w' c <= Nat.max (counters w c) N
  /\ forall out, r = Returned out ->
       counters w c + length out = counters w' c + already.

(** [Q] holds of the world and the outcome that the call [m] leaves when it
    is made in the world [w]. *)
Definition holdsAfter {A} (m : Eff A) (w : World)
    (Q : World -> Outcome A -> Prop) : Prop :=
  Q (fst (m w)) (snd (m w)).

(** ** What holds of calls that run side by side *)

(** The call [m], standing at the world [w] in a piece of synchronous code
    that began at the world [w0], keeps to the rules [I] and [G] whatever the
    other calls do while it is suspended, and [Q] holds when it is over:
    at every await the world satisfies [I] and the code since [w0] has kept
    to [G]; and it goes on in any world that satisfies [I] and that the
    others reached in keeping to [G]. *)
Fixpoint safe (I : World -> Prop) (G : World -> World -> Prop) {A}
    (m : Async A) (w0 w : World) (Q : Outcome A -> World -> World -> Prop)
  : Prop :=
  match m with
  | Finished r => Q r w0 w
  | Sync effect next => safe I G (next w) w0 (effect w) Q
  | Await k =>
      I w /\ G w0 w /\ forall w', I w' -> G w w' -> safe I G k w' w' Q
  end.

(** The postcondition of a task: at its end the rules are kept, and [P]
    holds of its outcome. *)
Definition kept (I : World -> Prop) (G : World -> World -> Prop) {A}
    (P : Outcome A -> World -> Prop) : Outcome A -> World -> World -> Prop :=
  fun r w0 w => I w /\ G w0 w /\ P r w.

(** What holds of the promise [slot] of a task at the world [w], when the
    task keeps to the rules and [P] holds of its outcome. *)
Definition slotKept (I : World -> Prop) (G : World -> World -> Prop) {B}
    (P : Outcome B -> World -> Prop) (w : World) (slot : Slot B) : Prop :=
  match slot with
  | Queued fn => forall w', I w' -> safe I G fn w' w' (kept I G P)
  | Running (Finished r) => P r w
  | Running (Await k) =>
      forall w', I w' -> G w w' -> safe I G k w' w' (kept I G P)
  | Running (Sync _ _) => False
  | Settled r => P r w
  end.

Definition poolKept (I : World -> Prop) (G : World -> World -> Prop) {X B}
    (P : X -> Outcome B -> World -> Prop) (w : World) (xs : list X)
    (slots : list (Slot B)) : Prop :=
  Forall2 (fun x slot => slotKept I G (P x) w slot) xs slots.

Fixpoint countRunning {B} (slots : list (Slot B)) : nat :=
  match slots with
  | [] => 0
  | Running _ :: rest => S (countRunning rest)
  | _ :: rest => countRunning rest
  end.

Fixpoint hasQueued {B} (slots : list (Slot B)) : bool :=
  match slots with
  | [] => false
  | Queued _ :: _ => true
  | _ :: rest => hasQueued rest
  end.

Fixpoint unsettled {B} (slots : list (Slot B)) : nat :=
  match slots with
  | [] => 0
  | Settled _ :: rest => unsettled rest
  | _ :: rest => S (unsettled rest)
  end.

(** The books of the limiter inside a pool: [running] counts the tasks
    that run, and no task waits while a slot is free. *)
Definition limiterKept {B} (concurrency : option nat) (pool : Pool B) : Prop :=
  pool_running pool = countRunning (pool_slots pool)
  /\ (hasQueued (pool_slots pool) = true
      -> slotFree concurrency (pool_running pool) = false).

(** What [Promise.all] hands to the code that awaits it, when [P x] holds of
    the outcome of the task of [x]. *)
Definition allKept {X B} (P : X -> Outcome B -> World -> Prop) (xs : list X)
    (r : Outcome (list B)) (w : World) : Prop :=
  match r with
  | Returned bs => Forall2 (fun x b => P x (Returned b) w) xs bs
  | Threw e => exists x, In x xs /\ P x (Threw e) w
  | OutOfFuel => exists x, In x xs /\ P x OutOfFuel w
  end.

(** The test of [collectFiles] on a directory:
    [relDir && ignoreParser.ignores(relDir)], where [relDir] is undefined for
    the root and [rel + "/"] otherwise. *)
Definition ignoredDirectory (ignoreParser : string -> bool) (root dir : Uri) : bool :=
  negb (String.eqb (relPosix root dir) "")
  && ignoreParser (relPosix root dir ++ "/")%string.

(** Every path of [out] lies at or below [uri], and none of the directories
    on the way from [uri] down to it (the path itself apart) is ignored. *)
Definition prunedBelow (ignoreParser : string -> bool) (root uri : Uri)
    (out : list Uri) : Prop :=
  forall p, In p out ->
    exists suffix,
      p = uri ++ suffix
      /\ forall pre post, suffix = pre ++ post -> post <> [] ->
           ignoredDirectory ignoreParser root (uri ++ pre) = false.

(** The directory [dist] holds [a.txt] and [sub/b.txt]; beside it lies
    [README.md]. *)
Definition distTree : FsNode :=
  DirNode [("dist", DirNode [("a.txt", FileNode 1 []);
                             ("sub", DirNode [("b.txt", FileNode 1 [])])]);
           ("README.md", FileNode 1 [])]%string.

(** The pattern [dist/], which matches the directory and no file path. *)
Definition ignoresDist (path : string) : bool := String.eqb path "dist/".

(** A directory [d] with the files [f1] and [f3], and a file [f2] beside it. *)
Definition capTree : FsNode :=
  DirNode [("d", DirNode [("f1", FileNode 1 []); ("f3", FileNode 1 [])]);
           ("f2", FileNode 1 [])]%string.

Definition ignoresNothing (path : string) : bool := false.

(** [e] is an error with which a [stat] or a [readDirectory] of the host
    failed. *)
Definition hostFailure (fs : FileSystem) (e : Error) : Prop :=
  exists t u, fs_stat fs t u = Err e \/ fs_readDirectory fs t u = Err e.

(** A filesystem in which [/bin.dat] holds a zero byte; the token cache
    still holds the count 7 of an earlier, textual version of that file. *)
Definition binaryTree : FsNode :=
  DirNode [("bin.dat", FileNode 2 [Byte.x61; Byte.x00; Byte.x62])]%string.

Definition staleTokenWorld : World :=
  withTokenCache [(["bin.dat"%string], mkTokenCacheEntry 7 1 3)] emptyWorld.

(** An empty workspace root: no [.gitignore]. *)
Definition bareTree : FsNode := DirNode [].

Definition asciiDecode (bytes : list Byte.byte) : string :=
  string_of_list_byte bytes.

(** A multi-root map with one workspace that has no files. *)
Definition emptyWorkspaceMap : JsMap Uri WorkspaceFiles :=
  [(["workspace2"], mkWorkspaceFiles "project2" ["workspace2"] [])]%string.

(** The files of the rendering example of the specification, under [/p]. *)
Definition exampleFiles : list Uri :=
  [["p"; "src"; "index.ts"]; ["p"; "src"; "utils.ts"]; ["p"; "package.json"]]%string.

(** The signal is not aborted at any time. *)
Definition neverAborted (signal : option AbortSignal) : Prop :=
  forall s t, signal = Some s -> s t = false.

(** The cached entry does not carry the current [(mtime, size)]. *)
Definition tokenCacheMiss (cached : option TokenCacheEntry) (st : FileStat) : Prop :=
  match cached with
  | Some c =>
      Nat.eqb (tok_mtime c) (stat_mtime st) && Nat.eqb (tok_size c) (stat_size st)
      = false
  | None => True
  end.

(** A filesystem with the text file [/a.txt] of two bytes, modified at 5;
    the token cache holds an entry for it from when it was modified at 4. *)
Definition textTree : FsNode :=
  DirNode [("a.txt", FileNode 5 [Byte.x68; Byte.x69])]%string.

Definition textPath : Uri := ["a.txt"%string].

Definition changedTextWorld : World :=
  withTokenCache [(textPath, mkTokenCacheEntry 9 4 2)] emptyWorld.

Definition cachedTextWorld : World :=
  withTokenCache [(textPath, mkTokenCacheEntry 9 5 2)] emptyWorld.

(** The number of directory levels of a tree. *)
Fixpoint fsHeight (node : FsNode) : nat :=
  match node with
  | FileNode _ _ => 0
  | DirNode entries =>
      S (fold_right (fun entry h => Nat.max (fsHeight (snd entry)) h) 0 entries)
  end.

(** ** Further predicates on the caches and the host *)

(** The cached verdict does not carry the current modification time. *)
Definition binaryCacheMiss (cached : option BinaryCacheEntry) (st : FileStat) : Prop :=
  match cached with
  | Some c => Nat.eqb (bin_mtime c) (stat_mtime st) = false
  | None => True
  end.

(** At time [t] the host lets [isBinary] read the bytes [bytes] of
    [absPath]: in one [readFile], or in the chunks of a stream. *)
Definition contentReadable (fs : FileSystem) (t : nat) (absPath : Uri)
    (bytes : list Byte.byte) : Prop :=
  match fs_readFileStream fs with
  | None => fs_readFile fs t absPath = Ok bytes
  | Some readFileStream =>
      exists chunks, readFileStream t absPath = Ok (map Ok chunks)
                     /\ bytes = concat chunks
  end.

(** At time [t] the read of [isBinary] fails: the [readFile], the opening of
    the stream, or one of its [read()] calls before the scan is over. *)
Definition contentUnreadable (fs : FileSystem) (t : nat) (absPath : Uri) : Prop :=
  match fs_readFileStream fs with
  | None => exists e, fs_readFile fs t absPath = Err e
  | Some readFileStream =>
      (exists e, readFileStream t absPath = Err e)
      \/ (exists reads e, readFileStream t absPath = Ok reads
                          /\ scanStream reads 0 = Err e)
  end.

(** Both content caches are within their capacity. *)
Definition cachesWithinCapacity (w : World) : Prop :=
  mapSize (isBinaryCache w) <= MAX_BINARY_CACHE_SIZE
  /\ mapSize (tokenCache w) <= MAX_CACHE_SIZE.

(** A host with streams: [/log.bin] arrives in the chunks [ab], [] and
    [c\0d]. *)
Definition streamChunks : list (list Byte.byte) :=
  [[Byte.x61; Byte.x62]; []; [Byte.x63; Byte.x00; Byte.x64]].

Definition streamFs : FileSystem :=
  mkFileSystem
    (fun _ _ => Ok (mkFileStat FileType_File 3 5))
    (fun _ _ => Err "ENOTDIR"%string)
    (fun _ _ => Err "EIO"%string)
    (Some (fun _ _ => Ok (map Ok streamChunks))).

(** A host on which [/a.txt] can be statted but not read. *)
Definition unreadableFs : FileSystem :=
  mkFileSystem
    (fun _ _ => Ok (mkFileStat FileType_File 5 2))
    (fun _ _ => Err "ENOTDIR"%string)
    (fun _ _ => Err "EACCES"%string)
    None.

(** A tokenizer with a preview ceiling of 1 byte. *)
Definition tinyTokenizer : Tokenizer :=
  mkTokenizer 1 (fun bytes => Ok (length bytes)).

(** ** What [countTokens] computes on a host that does not change *)

(** The answers of the host do not depend on the time of the call. *)
Definition staticHost (fs : FileSystem) : Prop :=
  (forall t p, fs_stat fs t p = fs_stat fs 0 p)
  /\ (forall t p, fs_readFile fs t p = fs_readFile fs 0 p)
  /\ (forall readFileStream,
        fs_readFileStream fs = Some readFileStream ->
        forall t p, readFileStream t p = readFileStream 0 p).

(** The verdict of the scan of [isBinary] on such a host, with no cache. *)
Definition scannedBinary (fs : FileSystem) (absPath : Uri) : bool :=
  match fs_readFileStream fs with
  | Some readFileStream =>
      match readFileStream 0 absPath with
      | Ok reads =>
          match scanStream reads 0 with
          | Ok result => result
          | Err _ => true
          end
      | Err _ => true
      end
  | None =>
      match fs_readFile fs 0 absPath with
      | Ok bytes => hasZeroInPrefix bytes
      | Err _ => true
      end
  end.

(** The count of one file on such a host, with no cache: 0 for a file that
    cannot be statted, is over the preview ceiling, is classified as binary,
    cannot be read or cannot be encoded. *)
Definition tokensOf (fs : FileSystem) (tk : Tokenizer) (absPath : Uri) : nat :=
  match fs_stat fs 0 absPath with
  | Err _ => 0
  | Ok stats =>
      if (MAX_PREVIEW_BYTES tk <? stat_size stats)%nat then 0
      else if scannedBinary fs absPath then 0
      else match fs_readFile fs 0 absPath with
           | Err _ => 0
           | Ok bytes =>
               match encodeLength tk bytes with
               | Ok tokens => tokens
               | Err _ => 0
               end
           end
  end.

(** Every cache entry that carries the current stat of its file holds what
    the code computes for that file. *)
Definition binaryCacheCoherent (fs : FileSystem)
    (cache : JsMap Uri BinaryCacheEntry) : Prop :=
  forall p c st,
    In (p, c) cache -> fs_stat fs 0 p = Ok st ->
    bin_mtime c = stat_mtime st ->
    bin_isBinary c = scannedBinary fs p.

Definition tokenCacheCoherent (fs : FileSystem) (tk : Tokenizer)
    (cache : JsMap Uri TokenCacheEntry) : Prop :=
  forall p c st,
    In (p, c) cache -> fs_stat fs 0 p = Ok st ->
    tok_mtime c = stat_mtime st -> tok_size c = stat_size st ->
    tok_tokens c = tokensOf fs tk p.

Definition cachesCoherent (fs : FileSystem) (tk : Tokenizer) (w : World) : Prop :=
  binaryCacheCoherent fs (isBinaryCache w)
  /\ tokenCacheCoherent fs tk (tokenCache w).

(** ** The matchers of [getIgnoreParser] *)

(** The rules of the matcher start with the default patterns. *)
Definition startsWithDefaults (parser : IgnoreParser) : Prop :=
  firstn (length DEFAULT_IGNORE_PATTERNS) (parser_added parser)
  = DEFAULT_IGNORE_PATTERNS.

(** Every cached matcher starts with the default patterns and is an object
    that [ignore()] has already made. *)
Definition parserCacheSound (w : World) : Prop :=
  forall root c,
    In (root, c) (ignoreParserCache w) ->
    startsWithDefaults (pc_parser c)
    /\ parser_id (pc_parser c) < nextParserId w.

(** The cached matcher, if any, is not of the modification time of [st]. *)
Definition parserCacheMiss (cached : option ParserCacheEntry) (st : FileStat)
  : Prop :=
  match cached with
  | Some c => Nat.eqb (pc_mtime c) (stat_mtime st) = false
  | None => True
  end.

(** A workspace root whose [.gitignore], of modification time 3, reads
    [dist]. *)
Definition ignoreTree : FsNode :=
  DirNode [(".gitignore",
            FileNode 3 [Byte.x64; Byte.x69; Byte.x73; Byte.x74])]%string.

(** The matcher 0 was cached for the root when its [.gitignore] had the
    modification time 2. *)
Definition staleParserWorld : World :=
  withNextParserId 1
    (withIgnoreParserCache
       [([], mkParserCacheEntry (mkIgnoreParser 0 DEFAULT_IGNORE_PATTERNS) 2)]
       emptyWorld).

(** A host on which [.gitignore] can be statted but not read. *)
Definition unreadableIgnoreFs : FileSystem :=
  mkFileSystem
    (fun _ _ => Ok (mkFileStat FileType_File 3 4))
    (fun _ _ => Err "ENOTDIR"%string)
    (fun _ _ => Err "EACCES"%string)
    None.

(** ** The order of the rendered children *)

(** [sortChildren(children)] *)
Definition sortChildren (localeCompare : string -> string -> comparison)
    (children : JsMap string TreeNode) : list TreeNode :=
  let entries := map snd children in
  sortWith (compareNodes localeCompare) entries.

(** The loop of [renderTree] over [sortedChildren]. *)
Fixpoint renderChildren (localeCompare : string -> string -> comparison)
    (sortedChildren : list TreeNode) (prefix : string) (lines : list string)
  : list string :=
  match sortedChildren with
  | [] => lines
  | child :: rest =>
      let childIsLast := match rest with [] => true | _ => false end in
      renderChildren localeCompare rest prefix
        (renderTree localeCompare child prefix childIsLast false lines)
  end.

(** The directories of the list come first, the files after them. *)
Definition dirsBeforeFiles (nodes : list TreeNode) : Prop :=
  exists dirs files,
    nodes = (dirs ++ files)%list
    /\ Forall (fun n => node_isFile n = false) dirs
    /\ Forall (fun n => node_isFile n = true) files.

(** The number of nodes of a tree, the root included. *)
Fixpoint nodeCount (node : TreeNode) : nat :=
  match node with
  | mkTreeNode _ _ _ children =>
      S (list_sum (map (fun kv => nodeCount (snd kv)) children))
  end.

(** [line] starts with [prefix]. *)
Definition startsWith (prefix line : string) : Prop :=
  exists rest, line = (prefix ++ rest)%string.

(** Induction on a tree, with the property at hand for every child. *)
Fixpoint TreeNode_nested_ind (P : TreeNode -> Prop)
    (step : forall name isFile isSelected children,
        Forall (fun kv => P (snd kv)) children ->
        P (mkTreeNode name isFile isSelected children))
    (node : TreeNode) : P node :=
  match node with
  | mkTreeNode name isFile isSelected children =>
      step name isFile isSelected children
        ((fix all (l : list (string * TreeNode))
            : Forall (fun kv => P (snd kv)) l :=
            match l with
            | [] => Forall_nil _
            | kv :: l' =>
                Forall_cons kv (TreeNode_nested_ind P step (snd kv)) (all l')
            end) children)
  end.

(** ** The lines of one workspace *)

(** The lines that both [generateFileMap] and the loop of
    [generateFileMapMultiRoot] make for one root: its path, then its tree. *)
Definition workspaceLines (localeCompare : string -> string -> comparison)
    (selectedFiles : option (list Uri)) (workspaceRoot : Uri) (files : list Uri)
  : list string :=
  let tree := buildTree files workspaceRoot selectedFiles in
  let lines := [fsPath workspaceRoot] in
  renderTree localeCompare tree "" true true lines.

(** [files.length !== 0] *)
Definition hasFiles (ws : WorkspaceFiles) : bool :=
  negb (Nat.eqb (length (files ws)) 0).

(** Two workspaces, the first one without files. *)
Definition twoWorkspaces : JsMap Uri WorkspaceFiles :=
  [(["w1"], mkWorkspaceFiles "one" ["w1"] []);
   (["p"], mkWorkspaceFiles "two" ["p"] exampleFiles)]%string.

(** ** Paths that a tree already holds *)

(** The tree [current] holds the nodes of [parts]; when [marked], the node of
    the last part is selected. *)
Fixpoint present (parts : list string) (marked : bool) (current : TreeNode)
  : Prop :=
  match parts with
  | [] => True
  | part :: rest =>
      exists next,
        mapGet String.eqb part (node_children current) = Some next
        /\ (rest = [] -> marked = true -> node_isSelected next = true)
        /\ present rest marked next
  end.

(** [selectedFiles === undefined || selectedFiles.has(filePath)] *)
Definition isMarked (selectedFiles : option (list Uri)) (filePath : Uri) : bool :=
  match selectedFiles with
  | None => true
  | Some set => existsb (Uri_eqb filePath) set
  end.

(** ** The bookkeeping of the limiter *)

(** No task waits while a slot is free; no task is started or queued twice;
    and the tasks started are those settled and those in flight, each
    once. *)
Definition limiterAccounts (l : Limiter) : Prop :=
  (queue l <> [] -> running l = concurrency l)
  /\ NoDup (started l ++ queue l)
  /\ Permutation (started l) (map fst (settled l) ++ inflight l).

(** The tasks in flight resolve one after the other, the oldest first, until
    none is left; at most [fuel] of them. *)
Fixpoint drain (fuel : nat) (l : Limiter) : Limiter :=
  match fuel with
  | 0 => l
  | S fuel' =>
      match inflight l with
      | [] => l
      | id :: _ => drain fuel' (settle id true l)
      end
  end.

(** ** What a traversal of a tree returns *)

(** No directory of the tree lists a name twice. *)
Fixpoint uniqueNames (node : FsNode) : Prop :=
  match node with
  | FileNode _ _ => True
  | DirNode entries =>
      NoDup (map fst entries)
      /\ fold_right (fun entry rest => uniqueNames (snd entry) /\ rest) True entries
  end.

(** The files at and below [node], which lies at [uri], in the order of the
    directory listings, without the files that the matcher ignores and
    without what lies in a directory that it ignores. *)
Fixpoint walk (ignoreParser : string -> bool) (root : Uri) (node : FsNode)
    (uri : Uri) : list Uri :=
  match node with
  | FileNode _ _ =>
      if negb (String.eqb (relPosix root uri) "") && ignoreParser (relPosix root uri)
      then []
      else [uri]
  | DirNode entries =>
      if ignoredDirectory ignoreParser root uri then []
      else concat (map (fun entry =>
                          walk ignoreParser root (snd entry)
                            (joinPath uri (fst entry)))
                       entries)
  end.

(** The number of files that the cap still allows, when there is a cap and a
    counter. *)
Definition budget (maxFiles : option nat) (counter : option nat) (w : World)
  : option nat :=
  match maxFiles, counter with
  | Some m, Some c => Some (m - counters w c)
  | _, _ => None
  end.

Definition take (allowed : option nat) (paths : list Uri) : list Uri :=
  match allowed with
  | Some n => firstn n paths
  | None => paths
  end.

Definition spend (allowed : option nat) (paths : list Uri) : option nat :=
  match allowed with
  | Some n => Some (n - length paths)
  | None => None
  end.

(** The call returns the first paths of [paths] that the cap allows, and has
    counted them. *)
Definition walkPost (maxFiles counter : option nat) (w : World)
    (paths : list Uri) (w' : World) (r : Outcome (list Uri)) : Prop :=
  r = Returned (take (budget maxFiles counter w) paths)
  /\ budget maxFiles counter w' = spend (budget maxFiles counter w) paths.

(** ** What a traversal returns on any host *)

(** The test of [collectFiles] on a path that is not a directory:
    [rel !== "" && ignoreParser.ignores(rel)]. *)
Definition ignoredFile (ignoreParser : string -> bool) (root uri : Uri) : bool :=
  negb (String.eqb (relPosix root uri) "") && ignoreParser (relPosix root uri).

(** Between [w] and [w'] the host was asked for the events [added], among
    them the stat of every path of [out]; and no path of [out] is ignored as
    a file. *)
Definition collected (ignoreParser : string -> bool) (root : Uri)
    (w w' : World) (out : list Uri) : Prop :=
  exists added,
    trace w' = trace w ++ added
    /\ forall p, In p out ->
         In (FsStat p) added /\ ignoredFile ignoreParser root p = false.

(** ** Parents, check marks and refreshes: [utils.ts], [FileTreeProvider.ts] *)

(** [path.dirname(p)] of an absolute path: the root is its own directory. *)
Definition dirname (uri : Uri) : Uri := removelast uri.

(** [getParent(resourceUri)] of [utils.ts] *)
Definition getParent (resourceUri : Uri) : option Uri :=
  let parentPath := dirname resourceUri in
  if Uri_eqb parentPath resourceUri then None else Some parentPath.

Inductive TreeItemCheckboxState :=
| Unchecked
| Checked.

(** [set.has(key)] on a set of paths *)
Definition setHas (key : Uri) (set : list Uri) : bool :=
  existsb (Uri_eqb key) set.

(** [set.add(key)] *)
Definition setAdd (key : Uri) (set : list Uri) : list Uri :=
  if setHas key set then set else set ++ [key].

(** [set.delete(key)] *)
Definition setDelete (key : Uri) (set : list Uri) : list Uri :=
  filter (fun k => negb (Uri_eqb key k)) set.

(** The loop of [computeCheckboxState]:
<<
    while (parentPath !== element.fsPath) {
        if (this.checkedPaths.has(parentPath)) { return Checked; }
        const next = path.dirname(parentPath);
        if (next === parentPath) { break; }
        parentPath = next;
    }
    return Unchecked;
>>
    [fuel] bounds the number of rounds. *)
Fixpoint checkAncestors (fuel : nat) (checkedPaths : list Uri)
    (element parentPath : Uri) : option TreeItemCheckboxState :=
  match fuel with
  | 0 => None
  | S fuel' =>
      if negb (Uri_eqb parentPath element) then
        if setHas parentPath checkedPaths then Some Checked
        else
          let next := dirname parentPath in
          if Uri_eqb next parentPath then Some Unchecked
          else checkAncestors fuel' checkedPaths element next
      else Some Unchecked
  end.

Definition computeCheckboxState (fuel : nat) (checkedPaths : list Uri)
    (element : Uri) : option TreeItemCheckboxState :=
  if setHas element checkedPaths then Some Checked
  else
    let parentPath := dirname element in
    checkAncestors fuel checkedPaths element parentPath.

(** [refreshMany(uris)]: the uris that [onDidChangeTreeDataEmitter.fire] is
    called with, in order.  An entry of [uris] may be undefined. *)
Fixpoint refreshManyFrom (uris : list (option Uri)) (seen : list Uri)
  : list Uri :=
  match uris with
  | [] => []
  | None :: rest => refreshManyFrom rest seen
  | Some uri :: rest =>
      let key := uri in
      if setHas key seen then refreshManyFrom rest seen
      else uri :: refreshManyFrom rest (setAdd key seen)
  end.

Definition refreshMany (uris : list (option Uri)) : list Uri :=
  refreshManyFrom uris [].

(** [pruneSelectionsOutsideWorkspace]: the checked paths it leaves, and its
    result.  [getWorkspaceFolder] is [vscode.workspace.getWorkspaceFolder]. *)
Definition pruneSelectionsOutsideWorkspace (workspaceFolders : list Uri)
    (getWorkspaceFolder : Uri -> option Uri) (checkedPaths : list Uri)
  : list Uri * bool :=
  if Nat.eqb (length workspaceFolders) 0 then
    if Nat.eqb (length checkedPaths) 0 then (checkedPaths, false)
    else ([], true)
  else
    fold_left
      (fun state fsPath =>
         match getWorkspaceFolder fsPath with
         | None => (setDelete fsPath (fst state), true)
         | Some _ => state
         end)
      checkedPaths (checkedPaths, false).

(** [getParent(element)] of [FileTreeProvider]; [workspaceFolders] holds the
    paths of the workspace folders. *)
Definition FileTreeProvider_getParent (workspaceFolders : list Uri) (element : Uri)
  : option Uri :=
  if (1 <? length workspaceFolders)%nat && setHas element workspaceFolders
  then None
  else
    let parentPath := dirname element in
    match find (Uri_eqb parentPath) workspaceFolders with
    | Some ws => if (1 <? length workspaceFolders)%nat then Some ws else None
    | None => Some parentPath
    end.

(** ** The file map section: [fileMapUtils.ts] *)

Record WorkspaceFolder := mkWorkspaceFolder {
  folder_name : string;
  folder_uri : Uri
}.

(** What [generateFileMapSection] takes from the editor and its libraries:
    [vscode.workspace.getWorkspaceFolder], the [ignores] method of a
    matcher, the order of [Array.prototype.sort()] on paths, the collation
    of [localeCompare], the UTF-8 decoding, and the constant
    [MAX_COLLECTED_FILES] of [constants.ts]. *)
Record Workbench := mkWorkbench {
  wb_getWorkspaceFolder : Uri -> option WorkspaceFolder;
  wb_ignores : IgnoreParser -> string -> bool;
  wb_comparePaths : Uri -> Uri -> comparison;
  wb_localeCompare : string -> string -> comparison;
  wb_decode : list Byte.byte -> string;
  MAX_COLLECTED_FILES : nat
}.

(** [const capCounter = { count: 0 }]: the counter object [c], at 0. *)
Definition newCounter (c : nat) : Eff nat :=
  fun w =>
    (withCounters (fun c' => if Nat.eqb c' c then 0 else counters w c') w,
     Returned c).

(** The callback of [workspaceFolders.map] in [generateFileMapSection]; the
    index of the folder names its counter object. *)
Definition collectWorkspace (fuel : nat) (fs : FileSystem) (wb : Workbench)
    (signal : option AbortSignal) (entry : nat * WorkspaceFolder)
  : Async (list Uri) :=
  let ws := snd entry in
  (ignoreParser <- awaitCall (getIgnoreParserAsync fs (wb_decode wb)
                                (folder_uri ws)) ;;
   capCounter <- sync (newCounter (fst entry)) ;;
   collectFilesAsync fuel fs (folder_uri ws) (wb_ignores wb ignoreParser)
     (folder_uri ws) signal (Some (MAX_COLLECTED_FILES wb)) (Some capCounter))%async.

Definition indexed {A} (xs : list A) : list (nat * A) :=
  combine (seq 0 (length xs)) xs.

(** [new Set(array)], and [set.add] in a loop *)
Definition setAddAll (keys : list Uri) (set : list Uri) : list Uri :=
  fold_left (fun s key => setAdd key s) keys set.

(** [workspaceFolder?.uri.fsPath ?? workspaceFolders[0].uri.fsPath] *)
Definition workspaceKeyOf (wb : Workbench) (first : WorkspaceFolder) (file : Uri)
  : Uri :=
  match wb_getWorkspaceFolder wb file with
  | Some workspaceFolder => folder_uri workspaceFolder
  | None => folder_uri first
  end.

(** The loop that fills [fileMapByWorkspace]. *)
Definition groupByWorkspace (wb : Workbench) (first : WorkspaceFolder)
    (fileMapFiles : list Uri) : JsMap Uri (list Uri) :=
  fold_left
    (fun fileMapByWorkspace file =>
       let workspaceKey := workspaceKeyOf wb first file in
       match mapGet Uri_eqb workspaceKey fileMapByWorkspace with
       | None => mapSet Uri_eqb workspaceKey [file] fileMapByWorkspace
       | Some files =>
           mapSet Uri_eqb workspaceKey (files ++ [file]) fileMapByWorkspace
       end)
    fileMapFiles [].

(** [workspaceFolder?.name ?? path.basename(workspaceKey)] *)
Definition workspaceNameOf (workspaceFolders : list WorkspaceFolder)
    (workspaceKey : Uri) : string :=
  match find (fun ws => Uri_eqb (folder_uri ws) workspaceKey) workspaceFolders with
  | Some workspaceFolder => folder_name workspaceFolder
  | None => basename workspaceKey
  end.

(** The loop that fills [multiRootMap]. *)
Definition toMultiRootMap (workspaceFolders : list WorkspaceFolder)
    (fileMapByWorkspace : JsMap Uri (list Uri)) : JsMap Uri WorkspaceFiles :=
  fold_left
    (fun multiRootMap entry =>
       let workspaceKey := fst entry in
       mapSet Uri_eqb workspaceKey
         (mkWorkspaceFiles (workspaceNameOf workspaceFolders workspaceKey)
            workspaceKey (snd entry))
         multiRootMap)
    fileMapByWorkspace [].

(** [generateFileMapSection(options)]; the result is the pair
    [(fileMapSection, fileMapFiles)].  [schedule] is the order in which the
    host lets the traversals of the workspace folders go on. *)
Definition generateFileMapSectionAsync (fuel : nat) (fs : FileSystem)
    (wb : Workbench) (workspaceFolders : list WorkspaceFolder)
    (selectedFiles : list Uri) (includeAllFiles : bool)
    (signal : option AbortSignal) (schedule : list nat)
  : Async (string * list Uri) :=
  match workspaceFolders with
  | [] => retA (EmptyString, [])
  | first :: _ =>
      let isMultiRoot := (1 <? length workspaceFolders)%nat in
      (chosen <-
         (if includeAllFiles then
            allFilesArrays <- promiseAll None schedule
                                (map (collectWorkspace fuel fs wb signal)
                                   (indexed workspaceFolders)) ;;
            let allProjectFiles := setAddAll (concat allFilesArrays) [] in
            let allProjectFiles := setAddAll selectedFiles allProjectFiles in
            retA (sortWith (wb_comparePaths wb) allProjectFiles,
                  Some selectedFiles)
          else retA (selectedFiles, None)) ;;
       let fileMapFiles := fst chosen in
       let selectedFilesForMarking := snd chosen in
       if Nat.eqb (length fileMapFiles) 0 then retA (EmptyString, [])
       else
         let fileMapSection :=
           if isMultiRoot then
             generateFileMapMultiRoot (wb_localeCompare wb)
               (toMultiRootMap workspaceFolders
                  (groupByWorkspace wb first fileMapFiles))
               selectedFilesForMarking
           else
             generateFileMap (wb_localeCompare wb) fileMapFiles (folder_uri first)
               selectedFilesForMarking in
         retA (fileMapSection, fileMapFiles))%async
  end.

Definition generateFileMapSection (fuel : nat) (fs : FileSystem) (wb : Workbench)
    (workspaceFolders : list WorkspaceFolder) (selectedFiles : list Uri)
    (includeAllFiles : bool) (signal : option AbortSignal) (schedule : list nat)
  : Eff (string * list Uri) :=
  runAlone (generateFileMapSectionAsync fuel fs wb workspaceFolders selectedFiles
              includeAllFiles signal schedule).

(** A workbench with the folders [/p] and [/q]; a path outside both has no
    folder. *)
Definition folderP : WorkspaceFolder := mkWorkspaceFolder "p" ["p"].
Definition folderQ : WorkspaceFolder := mkWorkspaceFolder "q" ["q"].

Definition twoFolderWorkbench : Workbench :=
  mkWorkbench
    (fun uri =>
       match uri with
       | "p" :: _ => Some folderP
       | "q" :: _ => Some folderQ
       | _ => None
       end)
    (fun _ _ => false)
    (fun a b => String.compare (fsPath a) (fsPath b))
    String.compare
    asciiDecode
    100.

(** ** The selected files: [resolveSelectedFiles] of [extension.ts] *)

(** The loop that fills [byRoot]: a selection without workspace folder is
    skipped.  The group of a key is [{ root, uris }] with [root] the key. *)
Definition groupByRoot (wb : Workbench) (selections : list Uri)
  : JsMap Uri (list Uri) :=
  fold_left
    (fun byRoot sel =>
       let uri := sel in
       match wb_getWorkspaceFolder wb uri with
       | None => byRoot
       | Some ws =>
           let key := folder_uri ws in
           match mapGet Uri_eqb key byRoot with
           | None => mapSet Uri_eqb key [uri] byRoot
           | Some uris => mapSet Uri_eqb key (uris ++ [uri]) byRoot
           end
       end)
    selections [].

(** The callback of [group.uris.map]: the traversal of one selection, with
    its [try] and [catch]. *)
Definition collectSelection (fuel : nat) (fs : FileSystem)
    (ignoreParser : string -> bool) (root : Uri) (signal : option AbortSignal)
    (maxFiles capCounter : nat) (uri : Uri) : Async (list Uri) :=
  tryCatchA
    (filesForSel <- awaitCall (collectFilesAsync fuel fs uri ignoreParser root
                                 signal (Some maxFiles) (Some capCounter)) ;;
     sync (emit (Console (LogCollected (length filesForSel) uri))) ;;;
     retA filesForSel)%async
    (fun error =>
       sync (emit (Console (ErrorCollectFailed uri error))) ;;; retA [])%async.

(** The callback of [Array.from(byRoot.values()).map]; the index of the
    group names its counter object, and [schedules] gives for it the order
    in which the host lets the traversals of its selections go on. *)
Definition collectRoot (fuel : nat) (fs : FileSystem) (wb : Workbench)
    (includeIgnoredFiles : bool) (signal : option AbortSignal)
    (schedules : nat -> list nat) (entry : nat * (Uri * list Uri))
  : Async (list Uri) :=
  let root := fst (snd entry) in
  let uris := snd (snd entry) in
  (ignoreParser <- (if includeIgnoredFiles
                    then fresh <- sync ignore ;;
                         retA (add DEFAULT_IGNORE_PATTERNS fresh)
                    else awaitCall (getIgnoreParserAsync fs (wb_decode wb) root)) ;;
   capCounter <- sync (newCounter (fst entry)) ;;
   nestedArrays <- promiseAll None (schedules (fst entry))
                     (map (collectSelection fuel fs (wb_ignores wb ignoreParser)
                             root signal (MAX_COLLECTED_FILES wb) capCounter)
                        uris) ;;
   count <- sync (readCount capCounter) ;;
   (if (MAX_COLLECTED_FILES wb <=? count)%nat
    then sync (emit (Console (WarnCapped (MAX_COLLECTED_FILES wb) root)))
    else retA tt) ;;;
   retA (concat nestedArrays))%async.

(** [resolveSelectedFiles(fileTree, _root, signal)].  [includeIgnoredFiles]
    is the setting [isShowIgnoredFilesEnabled() ?? false]; [schedule] is the
    order in which the host lets the roots go on, [schedules] the orders of
    the selections of each root. *)
Definition resolveSelectedFilesAsync (fuel : nat) (fs : FileSystem)
    (wb : Workbench) (includeIgnoredFiles : bool) (checkedPaths : list Uri)
    (signal : option AbortSignal) (schedule : list nat)
    (schedules : nat -> list nat) : Async (list Uri) :=
  let selections := checkedPaths in
  (sync (emit (Console (LogSelections (length selections)))) ;;;
   let byRoot := groupByRoot wb selections in
   sync (emit (Console (LogRoots (mapSize byRoot)))) ;;;
   sync (forEach (fun group =>
                    emit (Console (LogRoot (fst group) (length (snd group)))))
           byRoot) ;;;
   nestedPerRoot <- promiseAll None schedule
                      (map (collectRoot fuel fs wb includeIgnoredFiles signal
                              schedules)
                         (indexed byRoot)) ;;
   let files := concat nestedPerRoot in
   retA (setAddAll files []))%async.

Definition resolveSelectedFiles (fuel : nat) (fs : FileSystem) (wb : Workbench)
    (includeIgnoredFiles : bool) (checkedPaths : list Uri)
    (signal : option AbortSignal) (schedule : list nat)
    (schedules : nat -> list nat) : Eff (list Uri) :=
  runAlone (resolveSelectedFilesAsync fuel fs wb includeIgnoredFiles checkedPaths
              signal schedule schedules).

(** [f] lies at or below [sel]. *)
Definition under (sel f : Uri) : Prop := exists suffix, f = sel ++ suffix.

(** ** The children of a tree element: [getChildren] of [FileTreeProvider] *)

(** The two caches of the provider. *)
Record Provider := mkProvider {
  kindCache : JsMap Uri FileType;
  childrenCache : JsMap Uri (list Uri)
}.

(** [isDirectorySync(uri)] *)
Definition isDirectorySync (p : Provider) (uri : Uri) : bool :=
  match mapGet Uri_eqb uri (kindCache p) with
  | Some cached => Nat.eqb cached FileType_Directory
  | None => false
  end.

(** [sortUris(uris)] *)
Definition sortUris (wb : Workbench) (p : Provider) (uris : list Uri) : list Uri :=
  sortWith
    (fun a b =>
       let aIsDir := isDirectorySync p a in
       let bIsDir := isDirectorySync p b in
       if aIsDir && negb bIsDir then Lt
       else if negb aIsDir && bIsDir then Gt
       else wb_localeCompare wb (fsPath a) (fsPath b))
    uris.

(** The loop over the entries of a directory, in both branches of
    [getChildren]: [checkPath] gives the path that the matcher is asked
    about; the result is the provider after the [kindCache.set] calls and
    the candidates pushed. *)
Fixpoint visibleEntries (showIgnored : bool) (ignoreParser : string -> bool)
    (checkPath : string -> bool -> string) (directory : Uri)
    (entries : list (string * FileType)) (p : Provider) (visible : list Uri)
  : Provider * list Uri :=
  match entries with
  | [] => (p, visible)
  | (name, type) :: rest =>
      let candidate := joinPath directory name in
      let isDir := Nat.eqb type FileType_Directory in
      if showIgnored || negb (ignoreParser (checkPath name isDir)) then
        visibleEntries showIgnored ignoreParser checkPath directory rest
          (mkProvider (mapSet Uri_eqb candidate type (kindCache p))
             (childrenCache p))
          (visible ++ [candidate])
      else
        visibleEntries showIgnored ignoreParser checkPath directory rest p visible
  end.

(** [getChildren(element)]; the result is the list returned and the provider
    as the call leaves it.  A call that throws has not touched the
    provider. *)
Definition getChildren (fs : FileSystem) (wb : Workbench)
    (workspaceFolders : list WorkspaceFolder) (showIgnored : bool)
    (element : option Uri) (p : Provider) : Eff (list Uri * Provider) :=
  match element with
  | None =>
      let roots := workspaceFolders in
      if (1 <? length roots)%nat then
        let p :=
          fold_left
            (fun p ws =>
               mkProvider
                 (mapSet Uri_eqb (folder_uri ws) FileType_Directory (kindCache p))
                 (childrenCache p))
            roots p in
        ret (map folder_uri roots, p)
      else
        match roots with
        | [] => ret (sortUris wb p [], p)
        | ws :: _ =>
            ignoreParser <- getIgnoreParser fs (wb_decode wb) (folder_uri ws) ;;
            entries <- vsReadDirectory fs (folder_uri ws) ;;
            let (p, childUris) :=
              visibleEntries showIgnored (wb_ignores wb ignoreParser)
                (fun name isDir => if isDir then (name ++ "/")%string else name)
                (folder_uri ws) entries p [] in
            ret (sortUris wb p childUris, p)
        end
  | Some element =>
      let cacheKey := element in
      match mapGet Uri_eqb cacheKey (childrenCache p) with
      | Some cachedChildren => ret (cachedChildren, p)
      | None =>
          match wb_getWorkspaceFolder wb element with
          | None => ret ([], p)
          | Some workspaceFolder =>
              ignoreParser <- getIgnoreParser fs (wb_decode wb)
                                (folder_uri workspaceFolder) ;;
              children <- vsReadDirectory fs element ;;
              let (p, visible) :=
                visibleEntries showIgnored (wb_ignores wb ignoreParser)
                  (fun name isDir =>
                     let relativePath :=
                       relPosix (folder_uri workspaceFolder)
                         (joinPath element name) in
                     if isDir then (relativePath ++ "/")%string else relativePath)
                  element children p [] in
              let sorted := sortUris wb p visible in
              ret (sorted,
                   mkProvider (kindCache p)
                     (mapSet Uri_eqb cacheKey sorted (childrenCache p)))
          end
      end
  end.

(** An empty provider, and a host with one directory [/p/src] that lists a
    directory and two files. *)
Definition emptyProvider : Provider := mkProvider [] [].

Definition srcTree : FsNode :=
  DirNode [("p", DirNode [("src", DirNode [("b.ts", FileNode 1 []);
                                           ("lib", DirNode []);
                                           ("a.ts", FileNode 1 [])])])]%string.

(** The value of a call that returned; [([], emptyProvider)] otherwise. *)
Definition fst_returned (result : World * Outcome (list Uri * Provider))
  : list Uri * Provider :=
  match snd result with
  | Returned value => value
  | _ => ([], emptyProvider)
  end.

Local Close Scope string_scope.

(** ** Predicates on calls that run side by side *)

(** Any step of another call is allowed. *)
Definition anyStep (w w' : World) : Prop := True.

(** *** Where a count comes from *)

(** [t] is the time of a host call made between the worlds [w] and [w']. *)
Definition during (w w' : World) (t : nat) : Prop := now w <= t /\ t < now w'.

(** Between [w] and [w'] the host answered a stat of [absPath] with a size
    within the preview ceiling and, later, a read of it with content that the
    tokenizer encoded in [n] tokens. *)
Definition countedAnew (fs : FileSystem) (tk : Tokenizer) (w w' : World)
    (absPath : Uri) (n : nat) : Prop :=
  exists t0 st t bytes,
    during w w' t0 /\ during w w' t /\ t0 < t
    /\ fs_stat fs t0 absPath = Ok st
    /\ stat_size st <= MAX_PREVIEW_BYTES tk
    /\ fs_readFile fs t absPath = Ok bytes
    /\ encodeLength tk bytes = Ok n.

(** The token cache of [w] holds an entry for [absPath] with the count [n]
    and the [(mtime, size)] that the host answered to a stat of it between
    [w] and [w']. *)
Definition countedFromCache (fs : FileSystem) (tk : Tokenizer) (w w' : World)
    (absPath : Uri) (n : nat) : Prop :=
  exists t st c,
    during w w' t
    /\ fs_stat fs t absPath = Ok st
    /\ stat_size st <= MAX_PREVIEW_BYTES tk
    /\ In (absPath, c) (tokenCache w)
    /\ tok_mtime c = stat_mtime st
    /\ tok_size c = stat_size st
    /\ tok_tokens c = n.

Definition counted (fs : FileSystem) (tk : Tokenizer) (w w' : World)
    (absPath : Uri) (n : nat) : Prop :=
  n = 0
  \/ countedFromCache fs tk w w' absPath n
  \/ countedAnew fs tk w w' absPath n.

(** What the tasks of one [countTokens], started in [start], keep true of the
    world between them: the clock has not gone back, and every entry of the
    token cache was there at the start or holds a count made since. *)
Definition countsJustified (fs : FileSystem) (tk : Tokenizer) (start w : World)
  : Prop :=
  now start <= now w
  /\ forall p c,
       In (p, c) (tokenCache w) ->
       In (p, c) (tokenCache start)
       \/ countedAnew fs tk start w p (tok_tokens c).

Definition clockGoesOn (w w' : World) : Prop := now w <= now w'.

(** The cache of [w] holds a verdict for [absPath] under the mtime that the
    host answers to the stat of it at the time of [w]. *)
Definition answeredFromCache (fs : FileSystem) (w : World) (absPath : Uri)
    (verdict : bool) : Prop :=
  exists st c,
    fs_stat fs (now w) absPath = Ok st
    /\ mapGet Uri_eqb absPath (isBinaryCache w) = Some c
    /\ bin_mtime c = stat_mtime st
    /\ bin_isBinary c = verdict.

(** The content of [absPath], as the host hands it out at time [t] (by the
    stream where there is one), has no zero byte among its first 512. *)
Definition scannedText (fs : FileSystem) (t : nat) (absPath : Uri) : Prop :=
  match fs_readFileStream fs with
  | Some readFileStream =>
      exists reads, readFileStream t absPath = Ok reads
                    /\ scanStream reads 0 = Ok false
  | None =>
      exists bytes, fs_readFile fs t absPath = Ok bytes
                    /\ hasZeroInPrefix bytes = false
  end.

(** ** What [isBinary] makes of a file *)

(** The content of [absPath], as the host hands it out at time [t], has a
    zero byte among its first 512. *)
Definition scannedZero (fs : FileSystem) (t : nat) (absPath : Uri) : Prop :=
  match fs_readFileStream fs with
  | Some readFileStream =>
      exists reads, readFileStream t absPath = Ok reads
                    /\ scanStream reads 0 = Ok true
  | None =>
      exists bytes, fs_readFile fs t absPath = Ok bytes
                    /\ hasZeroInPrefix bytes = true
  end.

(** What the scan of [isBinary] makes of [absPath] at time [t]: a read that
    fails counts as binary. *)
Definition scannedAs (fs : FileSystem) (t : nat) (absPath : Uri)
    (verdict : bool) : Prop :=
  match verdict with
  | true => scannedZero fs t absPath \/ contentUnreadable fs t absPath
  | false => scannedText fs t absPath
  end.

(** What [isBinary] will answer in [w] for a file whose stat answers [st]:
    the verdict cached under the mtime of [st] where there is one, and the
    outcome of the scan otherwise. *)
Definition classifiedAs (fs : FileSystem) (w : World) (absPath : Uri)
    (st : FileStat) (verdict : bool) : Prop :=
  match mapGet Uri_eqb absPath (isBinaryCache w) with
  | Some c =>
      match Nat.eqb (bin_mtime c) (stat_mtime st) with
      | true => bin_isBinary c = verdict
      | false => forall t, scannedAs fs t absPath verdict
      end
  | None => forall t, scannedAs fs t absPath verdict
  end.

(** What makes the task for one path count nothing after a miss. *)
Definition countsNothing (fs : FileSystem) (tk : Tokenizer)
    (signal : option AbortSignal) (w : World) (absPath : Uri) (st : FileStat)
  : Prop :=
  (exists s, signal = Some s /\ s (now w) = true)
  \/ MAX_PREVIEW_BYTES tk < stat_size st
  \/ classifiedAs fs w absPath st true
  \/ (forall t, exists e, fs_readFile fs t absPath = Err e)
  \/ (forall t bytes, fs_readFile fs t absPath = Ok bytes ->
                      exists e, encodeLength tk bytes = Err e).

(** ** Traversals that run side by side *)

(** The log only grows. *)
Definition traceGrows (w w' : World) : Prop :=
  exists added, trace w' = trace w ++ added.

Definition anyWorld (w : World) : Prop := True.

(** What a traversal at and below [uri] gives: files at or below [uri], or a
    failure of the host. *)
Definition below (fs : FileSystem) (uri : Uri) (r : Outcome (list Uri)) : Prop :=
  match r with
  | Returned files => forall f, In f files -> under uri f
  | Threw e => hostFailure fs e
  | OutOfFuel => True
  end.

(** What a traversal of [uri] gives: the same, and files only when the host
    answered the stat of [uri]. *)
Definition traversed (fs : FileSystem) (uri : Uri) (r : Outcome (list Uri))
  : Prop :=
  below fs uri r
  /\ forall files, r = Returned files -> files <> [] ->
                   exists t st, fs_stat fs t uri = Ok st.

(** What the callbacks of the selections [uris] of one root gave, when each
    of them keeps [S]: the files of the root are theirs, one array after the
    other; and an exception, or an exhausted bound, is that of one of
    them. *)
Definition selectionsKept (S : Uri -> Outcome (list Uri) -> World -> Prop)
    (uris : list Uri) (r : Outcome (list Uri)) (w : World) : Prop :=
  match r with
  | Returned files =>
      exists arrays,
        files = concat arrays
        /\ Forall2 (fun uri array => S uri (Returned array) w) uris arrays
  | Threw e => exists uri, In uri uris /\ S uri (Threw e) w
  | OutOfFuel => exists uri, In uri uris /\ S uri OutOfFuel w
  end.

(** The same for the groups [byRoot] of all roots, with the files as
    [resolveSelectedFiles] returns them. *)
Definition rootsKept (S : Uri -> Outcome (list Uri) -> World -> Prop)
    (byRoot : list (nat * (Uri * list Uri))) (r : Outcome (list Uri))
    (w : World) : Prop :=
  match r with
  | Returned files =>
      exists perRoot,
        files = setAddAll (concat perRoot) []
        /\ Forall2 (fun group filesOfRoot =>
                      selectionsKept S (snd (snd group)) (Returned filesOfRoot) w)
             byRoot perRoot
  | Threw e =>
      exists group, In group byRoot
                    /\ selectionsKept S (snd (snd group)) (Threw e) w
  | OutOfFuel =>
      exists group, In group byRoot
                    /\ selectionsKept S (snd (snd group)) OutOfFuel w
  end.

(** The callback of one selection does not throw, and its files lie at or
    below the selection, whose stat the host has answered. *)
Definition caughtBelow (fs : FileSystem) (uri : Uri) (r : Outcome (list Uri))
    (w : World) : Prop :=
  match r with
  | Returned files =>
      forall f, In f files ->
                under uri f /\ exists t st, fs_stat fs t uri = Ok st
  | Threw _ => False
  | OutOfFuel => True
  end.

(** ** The counter object of a root *)

(** From [w] to [w'] no counter object but [c] has changed. *)
Definition onlyCounter (c : nat) (w w' : World) : Prop :=
  forall c', c' <> c -> counters w' c' = counters w c'.

(** From [w] to [w'] the counter [c] has not gone down, it is at most [cap],
    and no other counter has changed. *)
Definition countedUp (c cap : nat) (w w' : World) : Prop :=
  counters w c <= counters w' c /\ counters w' c <= cap /\ onlyCounter c w w'.

(** [own] is the number of times the call itself has incremented the counter
    [c] so far.  Every piece of synchronous code of the call leaves the
    counter where it was or higher, at most at [cap], and the other counters
    as they were; at an await the other calls may leave any world in which
    the counter is at most [cap]; at the end [Q] holds of the outcome and of
    the number of increments. *)
Fixpoint counting (c cap : nat) {A} (m : Async A) (own : nat) (w : World)
    (Q : Outcome A -> nat -> World -> Prop) : Prop :=
  match m with
  | Finished r => Q r own w
  | Sync effect next =>
      countedUp c cap w (effect w)
      /\ counting c cap (next w) (own + (counters (effect w) c - counters w c))
           (effect w) Q
  | Await k => forall w', counters w' c <= cap -> counting c cap k own w' Q
  end.

(** The call, which began with [own0] increments made, has counted every
    file that it returns. *)
Definition countedOwn {B} (len : B -> nat) (own0 : nat)
    (r : Outcome B) (own : nat) (w : World) : Prop :=
  own0 <= own /\ forall b, r = Returned b -> own0 + len b <= own.

(** What holds of the promise of a task that has made [credit] increments:
    the task, when it goes on, counts what it returns; a settled promise
    holds no more files than were counted. *)
Definition slotCounts (c cap : nat) {B} (len : B -> nat) (slot : Slot B)
    (credit : nat) : Prop :=
  match slot with
  | Queued fn =>
      credit = 0
      /\ forall w, counters w c <= cap ->
                   counting c cap fn 0 w (countedOwn len 0)
  | Running call =>
      forall w, counters w c <= cap ->
                counting c cap call credit w (countedOwn len 0)
  | Settled r => forall b, r = Returned b -> len b <= credit
  end.

Definition lenAll {B} (len : B -> nat) (bs : list B) : nat :=
  list_sum (map len bs).

(** The promises of a pool, each with the increments of its task. *)
Definition poolCounts (c cap : nat) {B} (len : B -> nat)
    (slots : list (Slot B)) (credits : list nat) : Prop :=
  Forall2 (slotCounts c cap len) slots credits.

(** What the caller finds when the promise of [Promise.all] is settled: the
    counter is within the cap and has gone up from [base] by at least the
    number of files. *)
Definition allCounted (c cap : nat) {B} (len : B -> nat) (base : nat)
    (r : Outcome (list B)) (w : World) : Prop :=
  counters w c <= cap
  /\ forall bs, r = Returned bs -> base + lenAll len bs <= counters w c.

(** The call [m] has the counter [c] to itself: its synchronous code changes
    no other counter, and when the other calls leave the counter [c] as it
    is while [m] is suspended, [Q] holds at its end. *)
Fixpoint owns (c : nat) {A} (m : Async A) (w : World)
    (Q : Outcome A -> World -> Prop) : Prop :=
  match m with
  | Finished r => Q r w
  | Sync effect next =>
      onlyCounter c w (effect w) /\ owns c (next w) (effect w) Q
  | Await k => forall w', counters w' c = counters w c -> owns c k w' Q
  end.

(** What holds at [w] of the promise of the task that has the counter [c]. *)
Definition slotOwns {B} (Q : Outcome B -> Prop) (c : nat) (slot : Slot B)
    (w : World) : Prop :=
  match slot with
  | Queued fn => forall w', owns c fn w' (fun r _ => Q r)
  | Running call =>
      forall w', counters w' c = counters w c -> owns c call w' (fun r _ => Q r)
  | Settled r => Q r
  end.

(** The promises of a pool whose tasks have the counters [c], [c+1], ... *)
Fixpoint poolOwns {B} (Q : Outcome B -> Prop) (c : nat) (slots : list (Slot B))
    (w : World) : Prop :=
  match slots with
  | [] => True
  | slot :: rest => slotOwns Q c slot w /\ poolOwns Q (S c) rest w
  end.

Fixpoint tasksOwn {B} (Q : Outcome B -> Prop) (c : nat) (tasks : list (Async B))
  : Prop :=
  match tasks with
  | [] => True
  | fn :: rest =>
      (forall w, owns c fn w (fun r _ => Q r)) /\ tasksOwn Q (S c) rest
  end.

(** The counters below [c] are in [w'] as they are in [w]. *)
Definition belowKept (c : nat) (w w' : World) : Prop :=
  forall c', c' < c -> counters w' c' = counters w c'.

(** An outcome with at most [cap] files. *)
Definition withinCap (cap : nat) (r : Outcome (list Uri)) : Prop :=
  forall files, r = Returned files -> length files <= cap.

(** ** Names of a tree *)

(** A name as a host lists it: one segment, not empty, not [.] or [..]. *)
Definition plainName (name : string) : Prop :=
  name <> ""%string /\ name <> "."%string /\ name <> ".."%string
  /\ String.index 0 "/" name = None.

(** Every name of the tree is plain. *)
Fixpoint plainNames (node : FsNode) : Prop :=
  match node with
  | FileNode _ _ => True
  | DirNode entries =>
      fold_right (fun entry rest =>
                    plainName (fst entry) /\ plainNames (snd entry) /\ rest)
        True entries
  end.

(** ** Further hosts and caches, used to run the model *)

Local Open Scope string_scope.
(** The caches after a first count of [a.txt] when it was modified at 4: the
    token cache and the cache of [isBinary] both hold an entry for it. *)
Definition recountWorld : World :=
  withIsBinaryCache [(textPath, mkBinaryCacheEntry false 4)] changedTextWorld.

(** A binary cache filled to its capacity, and a world with both caches
    full. *)
Definition fullBinaryCache : JsMap Uri BinaryCacheEntry :=
  (numberedPath 0, sampleBinaryEntry 0)
  :: map (fun n => (numberedPath n, sampleBinaryEntry n))
         (seq 1 (pred MAX_BINARY_CACHE_SIZE)).

Definition fullCachesWorld : World :=
  mkWorld 0 [] (fun _ => 0) fullBinaryCache fullTokenCache [] 0.

(** The folder [p] with one file. *)
Definition oneFileTree : FsNode :=
  DirNode [("p", DirNode [("a.txt", FileNode 1 [])])].

(** [twoFolderWorkbench] with a cap of two files. *)
Definition cappedWorkbench : Workbench :=
  mkWorkbench
    (wb_getWorkspaceFolder twoFolderWorkbench)
    (wb_ignores twoFolderWorkbench)
    (wb_comparePaths twoFolderWorkbench)
    (wb_localeCompare twoFolderWorkbench)
    (wb_decode twoFolderWorkbench)
    2.

(** The folders [p] and [q] with three files each. *)
Definition twoRootTree : FsNode :=
  DirNode [("p", DirNode [("a.txt", FileNode 1 []); ("b.txt", FileNode 1 []);
                          ("c.txt", FileNode 1 [])]);
           ("q", DirNode [("d.txt", FileNode 1 []); ("e.txt", FileNode 1 []);
                          ("f.txt", FileNode 1 [])])].

(** The three files of [p], checked one by one, and the folder [q]. *)
Definition fourSelections : list Uri :=
  [["p"; "a.txt"]; ["p"; "b.txt"]; ["p"; "c.txt"]; ["q"]].
Local Close Scope string_scope.

Local Open Scope string_scope.

(* ================================================================== *)
(** * Part II: properties *)
(* ================================================================== *)

Unset Implicit Arguments.
Local Close Scope string_scope.
Local Open Scope nat_scope.

(** ** Paths *)

Lemma Uri_eqb_eq : forall a b : Uri, Uri_eqb a b = true <-> a = b.
Proof.
  induction a as [|x a IH]; destruct b as [|y b]; simpl; split; intro H;
    try reflexivity; try discriminate.
  - apply andb_true_iff in H. destruct H as [Hx Hab].
    apply String.eqb_eq in Hx. apply IH in Hab. now subst.
  - inversion H; subst. apply andb_true_iff. split.
    + apply String.eqb_refl.
    + now apply IH.
Qed.

Lemma Uri_eqb_refl : forall a : Uri, Uri_eqb a a = true.
Proof. intro a. now apply Uri_eqb_eq. Qed.

Lemma unary_inj : forall n m, unary n = unary m -> n = m.
Proof.
  induction n as [|n IH]; destruct m as [|m]; simpl; intro H;
    try reflexivity; try discriminate.
  inversion H. f_equal. now apply IH.
Qed.

Lemma numberedPath_NoDup : forall start len,
  NoDup (map numberedPath (seq start len)).
Proof.
  intros start len. revert start.
  induction len as [|len IH]; intro start; simpl; constructor.
  - intro Hin. apply in_map_iff in Hin. destruct Hin as [m [Heq Hm]].
    apply in_seq in Hm. unfold numberedPath in Heq.
    inversion Heq as [Hu]. apply unary_inj in Hu. lia.
  - apply IH.
Qed.

Lemma relative_nil : forall from to, relative from to = [] -> from = to.
Proof.
  induction from as [|f from IH]; intros [|t to] H; simpl in H;
    try reflexivity; try discriminate.
  destruct (String.eqb f t) eqn:E; [|discriminate].
  apply String.eqb_eq in E. subst. f_equal. now apply IH.
Qed.

Lemma relative_one_empty : forall from to,
  relative from to = [EmptyString] -> to = from ++ [EmptyString].
Proof.
  induction from as [|f from IH]; intros [|t to] H; simpl in H;
    try discriminate.
  - exact H.
  - destruct (String.eqb f t) eqn:E; [|discriminate].
    apply String.eqb_eq in E. subst. simpl. f_equal. now apply IH.
Qed.

Lemma join_empty : forall segments,
  join "/" segments = EmptyString ->
  segments = [] \/ segments = [EmptyString].
Proof.
  intros [|x [|y rest]] H; [now left | right | exfalso].
  - simpl in H. now subst.
  - unfold join in H. cbn [String.concat] in H.
    destruct x; simpl in H; discriminate.
Qed.

(** The relative path is empty only for the root (and for the child of the
    root with the empty name, which no directory listing contains). *)
Lemma relPosix_empty : forall root uri,
  relPosix root uri = EmptyString -> uri = root \/ uri = root ++ [EmptyString].
Proof.
  intros root uri H. unfold relPosix in H. apply join_empty in H.
  destruct H as [H | H].
  - left. symmetry. now apply relative_nil.
  - right. now apply relative_one_empty.
Qed.

(** ** Insertion-ordered maps *)

Section JsMapFacts.
Context {K V : Type} {eqb : K -> K -> bool}.
Hypothesis eqb_eq : forall a b, eqb a b = true <-> a = b.

Lemma eqb_same : forall a, eqb a a = true.
Proof. intro a. now apply eqb_eq. Qed.

Lemma mapGet_None_iff : forall k (m : JsMap K V),
  mapGet eqb k m = None <-> ~ In k (mapKeys m).
Proof.
  induction m as [|[k' v'] m IH]; simpl.
  - tauto.
  - destruct (eqb k k') eqn:E.
    + apply eqb_eq in E. subst. split; [discriminate | tauto].
    + assert (k' <> k) by (intro; subst; rewrite eqb_same in E; discriminate).
      tauto.
Qed.

Lemma mapGet_In : forall k v (m : JsMap K V),
  NoDup (mapKeys m) -> In (k, v) m -> mapGet eqb k m = Some v.
Proof.
  induction m as [|[k' v'] m IH]; simpl; intros Hnd Hin; [tauto|].
  inversion Hnd as [|? ? Hnotin Hnd']; subst.
  destruct Hin as [Heq | Hin].
  - inversion Heq; subst. now rewrite eqb_same.
  - destruct (eqb k k') eqn:E.
    + apply eqb_eq in E. subst. exfalso. apply Hnotin.
      unfold mapKeys. change k' with (fst (k', v)). now apply in_map.
    + now apply IH.
Qed.

(** a new key goes to the end *)
Lemma mapSet_new : forall k v (m : JsMap K V),
  mapGet eqb k m = None -> mapSet eqb k v m = m ++ [(k, v)].
Proof.
  induction m as [|[k' v'] m IH]; simpl; intro H; [reflexivity|].
  destruct (eqb k k'); [discriminate|]. now rewrite IH.
Qed.

(** an existing key keeps its place *)
Lemma mapSet_existing_keys : forall k v (m : JsMap K V),
  mapGet eqb k m <> None -> mapKeys (mapSet eqb k v m) = mapKeys m.
Proof.
  induction m as [|[k' v'] m IH]; simpl; intro H; [congruence|].
  destruct (eqb k k'); simpl; [reflexivity|]. now rewrite IH.
Qed.

Lemma mapSet_existing_size : forall k v (m : JsMap K V),
  mapGet eqb k m <> None -> mapSize (mapSet eqb k v m) = mapSize m.
Proof.
  intros k v m H. unfold mapSize.
  rewrite <- (length_map fst (mapSet eqb k v m)), <- (length_map fst m).
  f_equal. now apply mapSet_existing_keys.
Qed.

Lemma mapGet_mapSet_same : forall k v (m : JsMap K V),
  mapGet eqb k (mapSet eqb k v m) = Some v.
Proof.
  induction m as [|[k' v'] m IH]; simpl.
  - now rewrite eqb_same.
  - destruct (eqb k k') eqn:E; simpl; rewrite E; [reflexivity | apply IH].
Qed.

(** the loop of the eviction deletes from the front *)
Lemma delete_front : forall n (m : JsMap K V),
  fold_left (fun c kv => mapDelete eqb (fst kv) c) (firstn n m) m = skipn n m.
Proof.
  intros n m. revert n.
  induction m as [|[k v] m IH]; intros [|n]; simpl; try reflexivity.
  rewrite eqb_same. apply IH.
Qed.

Lemma evictOldest_skipn : forall MAX (m : JsMap K V),
  evictOldest eqb MAX m = skipn (mapSize m - MAX) m.
Proof.
  intros MAX m. unfold evictOldest.
  destruct (MAX <? mapSize m) eqn:E.
  - apply delete_front.
  - apply Nat.ltb_ge in E.
    replace (mapSize m - MAX) with 0 by lia. reflexivity.
Qed.

Lemma evictOldest_within : forall MAX (m : JsMap K V),
  mapSize m <= MAX -> evictOldest eqb MAX m = m.
Proof.
  intros MAX m H. rewrite evictOldest_skipn.
  replace (mapSize m - MAX) with 0 by lia. reflexivity.
Qed.

(** A write followed by the eviction, on a cache that holds the newest
    [MAX] (or fewer) of the writes [P] made so far, all of different keys. *)
Lemma put_keeps_newest : forall MAX (P : list (K * V)) k v,
  ~ In k (map fst P) ->
  evictOldest eqb MAX (mapSet eqb k v (skipn (length P - MAX) P))
  = skipn (length (P ++ [(k, v)]) - MAX) (P ++ [(k, v)]).
Proof.
  intros MAX P k v Hnew.
  assert (Hget : mapGet eqb k (skipn (length P - MAX) P) = None).
  { apply mapGet_None_iff. intro Hin. apply Hnew.
    unfold mapKeys in Hin. apply in_map_iff in Hin.
    destruct Hin as [kv [Hk Hin]]. apply in_map_iff. exists kv. split; [exact Hk|].
    rewrite <- (firstn_skipn (length P - MAX) P). apply in_or_app. now right. }
  rewrite mapSet_new by exact Hget. rewrite evictOldest_skipn.
  assert (Happ : skipn (length P - MAX) P ++ [(k, v)]
                 = skipn (length P - MAX) (P ++ [(k, v)])).
  { rewrite skipn_app. replace (length P - MAX - length P) with 0 by lia.
    reflexivity. }
  rewrite Happ, skipn_skipn. f_equal.
  unfold mapSize. rewrite length_skipn, !length_app. simpl. lia.
Qed.
End JsMapFacts.

Lemma mapGet_Some_In : forall V k (v : V) (m : JsMap Uri V),
  mapGet Uri_eqb k m = Some v -> In (k, v) m.
Proof.
  induction m as [|[k' v'] m IH]; cbn [mapGet]; intro H; [discriminate|].
  destruct (Uri_eqb k k') eqn:E.
  - apply Uri_eqb_eq in E. inversion H; subst. now left.
  - right. now apply IH.
Qed.

Lemma In_mapSet : forall V k (v : V) q c (m : JsMap Uri V),
  In (q, c) (mapSet Uri_eqb k v m) -> (q, c) = (k, v) \/ In (q, c) m.
Proof.
  induction m as [|[k' v'] m IH]; cbn [mapSet]; intro H.
  - destruct H as [H | []]. now left.
  - destruct (Uri_eqb k k') eqn:E.
    + apply Uri_eqb_eq in E. subst k'. destruct H as [H | H].
      * left. now symmetry.
      * right. now right.
    + destruct H as [H | H].
      * right. now left.
      * destruct (IH H) as [H' | H']; [now left | right; now right].
Qed.

Lemma In_evictOldest : forall V MAX x (m : JsMap Uri V),
  In x (evictOldest Uri_eqb MAX m) -> In x m.
Proof.
  intros V MAX x m. rewrite (evictOldest_skipn Uri_eqb_eq).
  intro H. rewrite <- (firstn_skipn (mapSize m - MAX) m).
  apply in_or_app. now right.
Qed.

Lemma In_written : forall V MAX k (v : V) q c (m : JsMap Uri V),
  In (q, c) (evictOldest Uri_eqb MAX (mapSet Uri_eqb k v m)) ->
  (q, c) = (k, v) \/ In (q, c) m.
Proof. intros V MAX k v q c m H. apply In_mapSet, (In_evictOldest _ _ _ _ H). Qed.

(** ** The bounded caches *)

Lemma puts_app : forall V (a b : list (CacheOp V)), puts (a ++ b) = puts a ++ puts b.
Proof. intros V a b. unfold puts. apply flat_map_app. Qed.

Lemma puts_map_put : forall V (entry : nat -> V) (ns : list nat),
  puts (map (fun n => CachePut (numberedPath n) (entry n)) ns)
  = map (fun n => (numberedPath n, entry n)) ns.
Proof.
  intros V entry ns. induction ns as [|n ns IH]; simpl; [reflexivity|].
  f_equal. exact IH.
Qed.

(** The cache after a sequence of uses holds the newest [MAX] writes, when it
    held the newest [MAX] of the earlier writes [P0] before. *)
Lemma binaryCacheOps_newest : forall ops P0 w,
  NoDup (map fst (P0 ++ puts ops)) ->
  isBinaryCache w = skipn (length P0 - MAX_BINARY_CACHE_SIZE) P0 ->
  isBinaryCache (fst (forEach binaryCacheOp ops w))
  = skipn (length (P0 ++ puts ops) - MAX_BINARY_CACHE_SIZE) (P0 ++ puts ops).
Proof.
  induction ops as [|[k | k e] ops IH]; intros P0 w Hnd Hw.
  - simpl. rewrite app_nil_r. exact Hw.
  - apply IH; assumption.
  - change (puts (CachePut k e :: ops)) with ([(k, e)] ++ puts ops) in *.
    rewrite app_assoc in *.
    unfold forEach; fold (forEach binaryCacheOp ops).
    unfold bind, binaryCacheOp, setIsBinaryCache, evictOldestBinaryCacheEntries.
    cbv beta iota. apply IH; [exact Hnd|].
    cbn [isBinaryCache withIsBinaryCache fst]. rewrite Hw.
    apply (put_keeps_newest Uri_eqb_eq).
    rewrite map_app in Hnd. apply NoDup_app_remove_r in Hnd.
    rewrite map_app in Hnd. simpl in Hnd.
    apply NoDup_remove_2 in Hnd. now rewrite app_nil_r in Hnd.
Qed.

Lemma tokenCacheOps_newest : forall ops P0 w,
  NoDup (map fst (P0 ++ puts ops)) ->
  tokenCache w = skipn (length P0 - MAX_CACHE_SIZE) P0 ->
  tokenCache (fst (forEach tokenCacheOp ops w))
  = skipn (length (P0 ++ puts ops) - MAX_CACHE_SIZE) (P0 ++ puts ops).
Proof.
  induction ops as [|[k | k e] ops IH]; intros P0 w Hnd Hw.
  - simpl. rewrite app_nil_r. exact Hw.
  - apply IH; assumption.
  - change (puts (CachePut k e :: ops)) with ([(k, e)] ++ puts ops) in *.
    rewrite app_assoc in *.
    unfold forEach; fold (forEach tokenCacheOp ops).
    unfold bind, tokenCacheOp, setTokenCache, evictOldestCacheEntries.
    cbv beta iota. apply IH; [exact Hnd|].
    cbn [tokenCache withTokenCache fst]. rewrite Hw.
    apply (put_keeps_newest Uri_eqb_eq).
    rewrite map_app in Hnd. apply NoDup_app_remove_r in Hnd.
    rewrite map_app in Hnd. simpl in Hnd.
    apply NoDup_remove_2 in Hnd. now rewrite app_nil_r in Hnd.
Qed.

(** Of [S MAX] writes of different keys, the newest [MAX] are all but the
    first. *)
Lemma newest_of_one_too_many : forall V (P : list (Uri * V)) MAX,
  NoDup (map fst P) -> length P = S MAX ->
  skipn (length P - MAX) P = tl P /\
  forall i k e, nth_error P i = Some (k, e) ->
    mapGet Uri_eqb k (tl P) = if i =? 0 then None else Some e.
Proof.
  intros V P MAX Hnd Hlen.
  destruct P as [|[k0 e0] P]; [discriminate|].
  cbn [length] in *. replace (S (length P) - MAX) with 1 by lia.
  split; [reflexivity|].
  simpl in Hnd. inversion Hnd as [|? ? Hnotin Hnd']; subst.
  intros [|i] k e Hnth; simpl in *.
  - inversion Hnth; subst. now apply (mapGet_None_iff Uri_eqb_eq).
  - apply (mapGet_In Uri_eqb_eq); [exact Hnd'|]. eapply nth_error_In; eauto.
Qed.

Lemma puts_oneTooMany : forall V MAX (entry : nat -> V),
  puts (oneTooMany MAX entry)
  = map (fun n => (numberedPath n, entry n)) (seq 0 (S MAX)).
Proof.
  intros V MAX entry. unfold oneTooMany.
  rewrite puts_app, puts_map_put, seq_S, map_app. reflexivity.
Qed.

Lemma oneTooMany_distinct : forall V MAX (entry : nat -> V),
  NoDup (map fst (puts (oneTooMany MAX entry)))
  /\ length (puts (oneTooMany MAX entry)) = S MAX.
Proof.
  intros V MAX entry. rewrite puts_oneTooMany. split.
  - rewrite map_map. cbn [fst]. apply numberedPath_NoDup.
  - now rewrite length_map, length_seq.
Qed.

Lemma skipn_past_prefix : forall V (c P : list (Uri * V)) n,
  skipn (length (c ++ P) - (length P - n)) (c ++ P) = skipn n P \/ length P < n.
Proof.
  intros V c P n. destruct (Nat.le_gt_cases n (length P)) as [Hle | Hgt].
  - left. rewrite length_app.
    replace (length c + length P - (length P - n)) with (length c + n) by lia.
    rewrite skipn_app, skipn_all2 by lia.
    replace (length c + n - length c) with n by lia. reflexivity.
  - now right.
Qed.

(** C8. Both bounded caches ([isBinaryCache] and [tokenCache], capacity 5000),
    in any state within capacity: after any sequence of lookups and writes
    whose writes insert 5001 different new keys, the cache holds exactly the
    5000 newest writes: the key written first is absent, every other key is
    present with the entry written for it.  Lookups made in between change
    nothing, so the eviction goes by insertion order, not by recency of
    access. *)
Theorem bounded_caches_evict_oldest_inserted :
  forall (bops : list (CacheOp BinaryCacheEntry))
         (tops : list (CacheOp TokenCacheEntry)) (w : World),
    mapSize (isBinaryCache w) <= MAX_BINARY_CACHE_SIZE ->
    mapSize (tokenCache w) <= MAX_CACHE_SIZE ->
    NoDup (mapKeys (isBinaryCache w) ++ map fst (puts bops)) ->
    length (puts bops) = S MAX_BINARY_CACHE_SIZE ->
    NoDup (mapKeys (tokenCache w) ++ map fst (puts tops)) ->
    length (puts tops) = S MAX_CACHE_SIZE ->
    (isBinaryCache (fst (forEach binaryCacheOp bops w)) = tl (puts bops)
     /\ mapSize (isBinaryCache (fst (forEach binaryCacheOp bops w)))
        = MAX_BINARY_CACHE_SIZE
     /\ forall i k e, nth_error (puts bops) i = Some (k, e) ->
          mapGet Uri_eqb k (isBinaryCache (fst (forEach binaryCacheOp bops w)))
          = if i =? 0 then None else Some e)
    /\
    (tokenCache (fst (forEach tokenCacheOp tops w)) = tl (puts tops)
     /\ mapSize (tokenCache (fst (forEach tokenCacheOp tops w))) = MAX_CACHE_SIZE
     /\ forall i k e, nth_error (puts tops) i = Some (k, e) ->
          mapGet Uri_eqb k (tokenCache (fst (forEach tokenCacheOp tops w)))
          = if i =? 0 then None else Some e).
Proof.
  intros bops tops w Hb Ht Hndb Hlenb Hndt Hlent.
  unfold mapKeys in Hndb, Hndt. rewrite <- map_app in Hndb, Hndt.
  assert (Eb := binaryCacheOps_newest bops (isBinaryCache w) w Hndb).
  assert (Et := tokenCacheOps_newest tops (tokenCache w) w Hndt).
  unfold mapSize in Hb, Ht.
  replace (length (isBinaryCache w) - MAX_BINARY_CACHE_SIZE) with 0 in Eb by lia.
  replace (length (tokenCache w) - MAX_CACHE_SIZE) with 0 in Et by lia.
  specialize (Eb eq_refl). specialize (Et eq_refl).
  rewrite map_app in Hndb, Hndt.
  apply NoDup_app_remove_l in Hndb. apply NoDup_app_remove_l in Hndt.
  destruct (newest_of_one_too_many _ _ _ Hndb Hlenb) as [Sb Gb].
  destruct (newest_of_one_too_many _ _ _ Hndt Hlent) as [St Gt].
  assert (Eb' : isBinaryCache (fst (forEach binaryCacheOp bops w)) = tl (puts bops)).
  { rewrite Eb, <- Sb.
    destruct (skipn_past_prefix _ (isBinaryCache w) (puts bops)
                (length (puts bops) - MAX_BINARY_CACHE_SIZE)) as [E | E]; [|lia].
    rewrite <- E. f_equal. lia. }
  assert (Et' : tokenCache (fst (forEach tokenCacheOp tops w)) = tl (puts tops)).
  { rewrite Et, <- St.
    destruct (skipn_past_prefix _ (tokenCache w) (puts tops)
                (length (puts tops) - MAX_CACHE_SIZE)) as [E | E]; [|lia].
    rewrite <- E. f_equal. lia. }
  split.
  - rewrite Eb'. split; [reflexivity|]. split; [|exact Gb].
    unfold mapSize. destruct (puts bops); [discriminate|].
    cbn [tl length] in *. congruence.
  - rewrite Et'. split; [reflexivity|]. split; [|exact Gt].
    unfold mapSize. destruct (puts tops); [discriminate|].
    cbn [tl length] in *. congruence.
Qed.

Lemma bounded_caches_evict_oldest_inserted_witness :
  (isBinaryCache (fst (forEach binaryCacheOp
      (oneTooMany MAX_BINARY_CACHE_SIZE sampleBinaryEntry) emptyWorld))
   = tl (puts (oneTooMany MAX_BINARY_CACHE_SIZE sampleBinaryEntry))
   /\ mapSize (isBinaryCache (fst (forEach binaryCacheOp
        (oneTooMany MAX_BINARY_CACHE_SIZE sampleBinaryEntry) emptyWorld)))
      = MAX_BINARY_CACHE_SIZE
   /\ forall i k e,
        nth_error (puts (oneTooMany MAX_BINARY_CACHE_SIZE sampleBinaryEntry)) i
        = Some (k, e) ->
        mapGet Uri_eqb k (isBinaryCache (fst (forEach binaryCacheOp
          (oneTooMany MAX_BINARY_CACHE_SIZE sampleBinaryEntry) emptyWorld)))
        = if i =? 0 then None else Some e)
  /\
  (tokenCache (fst (forEach tokenCacheOp
      (oneTooMany MAX_CACHE_SIZE sampleTokenEntry) emptyWorld))
   = tl (puts (oneTooMany MAX_CACHE_SIZE sampleTokenEntry))
   /\ mapSize (tokenCache (fst (forEach tokenCacheOp
        (oneTooMany MAX_CACHE_SIZE sampleTokenEntry) emptyWorld)))
      = MAX_CACHE_SIZE
   /\ forall i k e,
        nth_error (puts (oneTooMany MAX_CACHE_SIZE sampleTokenEntry)) i
        = Some (k, e) ->
        mapGet Uri_eqb k (tokenCache (fst (forEach tokenCacheOp
          (oneTooMany MAX_CACHE_SIZE sampleTokenEntry) emptyWorld)))
        = if i =? 0 then None else Some e).
Proof.
  apply (bounded_caches_evict_oldest_inserted
           (oneTooMany MAX_BINARY_CACHE_SIZE sampleBinaryEntry)
           (oneTooMany MAX_CACHE_SIZE sampleTokenEntry) emptyWorld).
  - apply Nat.le_0_l.
  - apply Nat.le_0_l.
  - exact (proj1 (oneTooMany_distinct _ MAX_BINARY_CACHE_SIZE sampleBinaryEntry)).
  - apply oneTooMany_distinct.
  - exact (proj1 (oneTooMany_distinct _ MAX_CACHE_SIZE sampleTokenEntry)).
  - apply oneTooMany_distinct.
Defined.

Lemma tokenCache_after_put : forall k e w,
  tokenCache (fst (tokenCacheOp (CachePut k e) w))
  = evictOldest Uri_eqb MAX_CACHE_SIZE (mapSet Uri_eqb k e (tokenCache w)).
Proof. reflexivity. Qed.

Lemma numberedPath_fresh : forall n start len,
  n < start \/ start + len <= n ->
  forall V (entry : nat -> V),
    mapGet Uri_eqb (numberedPath n)
           (map (fun m => (numberedPath m, entry m)) (seq start len)) = None.
Proof.
  intros n start len Hout V entry.
  apply (mapGet_None_iff Uri_eqb_eq). unfold mapKeys.
  rewrite map_map. cbn [fst]. intro Hin.
  apply in_map_iff in Hin. destruct Hin as [m [Heq Hm]].
  apply in_seq in Hm. unfold numberedPath in Heq.
  inversion Heq as [Hu]. apply unary_inj in Hu. lia.
Qed.

Lemma mapGet_cons : forall K V (eqb : K -> K -> bool) k k' (v : V) m,
  mapGet eqb k ((k', v) :: m) = if eqb k k' then Some v else mapGet eqb k m.
Proof. reflexivity. Qed.

(** [Map.set] of a key that the map already has, followed by the eviction:
    the key stays where it is in the insertion order. *)
Lemma reset_in_place : forall V MAX (m : JsMap Uri V) k e',
  mapSize m <= MAX ->
  mapGet Uri_eqb k m <> None ->
  evictOldest Uri_eqb MAX (mapSet Uri_eqb k e' m) = mapSet Uri_eqb k e' m
  /\ mapKeys (mapSet Uri_eqb k e' m) = mapKeys m
  /\ mapGet Uri_eqb k (mapSet Uri_eqb k e' m) = Some e'.
Proof.
  intros V MAX m k e' Hsize Hin. split; [|split].
  - apply (evictOldest_within Uri_eqb_eq).
    now rewrite (mapSet_existing_size _ _ _ Hin).
  - now apply mapSet_existing_keys.
  - apply (mapGet_mapSet_same Uri_eqb_eq).
Qed.

(** When that key is the oldest of a full map, the next insertion of a new
    key evicts it. *)
Lemma reset_oldest_is_evicted : forall V MAX (m : JsMap Uri V) k e' e0 rest knew enew,
  m = (k, e0) :: rest ->
  mapSize m = MAX ->
  mapGet Uri_eqb k rest = None ->
  mapGet Uri_eqb knew m = None ->
  evictOldest Uri_eqb MAX
    (mapSet Uri_eqb knew enew (mapSet Uri_eqb k e' m))
  = rest ++ [(knew, enew)]
  /\ mapGet Uri_eqb k (rest ++ [(knew, enew)]) = None.
Proof.
  intros V MAX m k e' e0 rest knew enew Hw Hfull Hk Hnew. subst m.
  cbn [mapSet]. rewrite Uri_eqb_refl.
  assert (Hnew' : mapGet Uri_eqb knew ((k, e') :: rest) = None).
  { cbn [mapGet] in *.
    destruct (Uri_eqb knew k); [discriminate | exact Hnew]. }
  rewrite (mapSet_new _ _ _ Hnew').
  rewrite (evictOldest_skipn Uri_eqb_eq).
  unfold mapSize in *. cbn [length app] in *.
  rewrite length_app. cbn [length].
  replace (S (length rest + 1) - MAX) with 1 by lia.
  split; [reflexivity|].
  apply (mapGet_None_iff Uri_eqb_eq). unfold mapKeys.
  rewrite map_app. cbn [map fst]. intro Hmem.
  apply in_app_or in Hmem. destruct Hmem as [Hmem | [Heq | []]].
  + apply (mapGet_None_iff Uri_eqb_eq) in Hk. now apply Hk.
  + subst knew. cbn [mapGet] in Hnew'. rewrite Uri_eqb_refl in Hnew'.
    discriminate.
Qed.

Lemma isBinaryCache_after_put : forall k e w,
  isBinaryCache (fst (binaryCacheOp (CachePut k e) w))
  = evictOldest Uri_eqb MAX_BINARY_CACHE_SIZE
      (mapSet Uri_eqb k e (isBinaryCache w)).
Proof. reflexivity. Qed.

(** C10. Re-setting a key that is already in one of the two bounded caches
    (re-caching a count, or a verdict, after the file changed) leaves the key
    where it is in the insertion order and only replaces its entry.  So when
    that key is the oldest of a full cache, the next insertion of a new key
    evicts it, fresh entry and all.  The first half is about the token
    cache, the second about the cache of [isBinary]. *)
Theorem reset_keeps_insertion_age :
  forall (w : World) (k : Uri),
    (forall e' : TokenCacheEntry,
        mapSize (tokenCache w) <= MAX_CACHE_SIZE ->
        mapGet Uri_eqb k (tokenCache w) <> None ->
        mapKeys (tokenCache (fst (tokenCacheOp (CachePut k e') w)))
        = mapKeys (tokenCache w)
        /\ mapGet Uri_eqb k (tokenCache (fst (tokenCacheOp (CachePut k e') w)))
           = Some e'
        /\ forall e0 rest knew enew,
             tokenCache w = (k, e0) :: rest ->
             mapSize (tokenCache w) = MAX_CACHE_SIZE ->
             mapGet Uri_eqb k rest = None ->
             mapGet Uri_eqb knew (tokenCache w) = None ->
             tokenCache (fst (tokenCacheOp (CachePut knew enew)
                                (fst (tokenCacheOp (CachePut k e') w))))
             = rest ++ [(knew, enew)]
             /\ mapGet Uri_eqb k
                  (tokenCache (fst (tokenCacheOp (CachePut knew enew)
                                      (fst (tokenCacheOp (CachePut k e') w)))))
                = None)
    /\ (forall e' : BinaryCacheEntry,
          mapSize (isBinaryCache w) <= MAX_BINARY_CACHE_SIZE ->
          mapGet Uri_eqb k (isBinaryCache w) <> None ->
          mapKeys (isBinaryCache (fst (binaryCacheOp (CachePut k e') w)))
          = mapKeys (isBinaryCache w)
          /\ mapGet Uri_eqb k
               (isBinaryCache (fst (binaryCacheOp (CachePut k e') w)))
             = Some e'
          /\ forall e0 rest knew enew,
               isBinaryCache w = (k, e0) :: rest ->
               mapSize (isBinaryCache w) = MAX_BINARY_CACHE_SIZE ->
               mapGet Uri_eqb k rest = None ->
               mapGet Uri_eqb knew (isBinaryCache w) = None ->
               isBinaryCache (fst (binaryCacheOp (CachePut knew enew)
                                     (fst (binaryCacheOp (CachePut k e') w))))
               = rest ++ [(knew, enew)]
               /\ mapGet Uri_eqb k
                    (isBinaryCache
                       (fst (binaryCacheOp (CachePut knew enew)
                               (fst (binaryCacheOp (CachePut k e') w)))))
                  = None).
Proof.
  intros w k. split; intros e' Hsize Hin.
  - destruct (reset_in_place _ _ _ k e' Hsize Hin) as (E1 & Hkeys & Hget).
    rewrite tokenCache_after_put, E1.
    split; [exact Hkeys|]. split; [exact Hget|].
    intros e0 rest knew enew Hw Hfull Hk Hnew.
    rewrite tokenCache_after_put, tokenCache_after_put, E1.
    destruct (reset_oldest_is_evicted _ _ _ k e' e0 rest knew enew
                Hw Hfull Hk Hnew) as [E2 Hgone].
    rewrite E2. split; [reflexivity | exact Hgone].
  - destruct (reset_in_place _ _ _ k e' Hsize Hin) as (E1 & Hkeys & Hget).
    rewrite isBinaryCache_after_put, E1.
    split; [exact Hkeys|]. split; [exact Hget|].
    intros e0 rest knew enew Hw Hfull Hk Hnew.
    rewrite isBinaryCache_after_put, isBinaryCache_after_put, E1.
    destruct (reset_oldest_is_evicted _ _ _ k e' e0 rest knew enew
                Hw Hfull Hk Hnew) as [E2 Hgone].
    rewrite E2. split; [reflexivity | exact Hgone].
Qed.

Lemma fullCaches_sizes :
  mapSize (tokenCache fullCachesWorld) = MAX_CACHE_SIZE
  /\ mapSize (isBinaryCache fullCachesWorld) = MAX_BINARY_CACHE_SIZE.
Proof.
  split.
  - change (tokenCache fullCachesWorld) with fullTokenCache.
    unfold fullTokenCache, mapSize. cbn [length].
    rewrite length_map, length_seq. reflexivity.
  - change (isBinaryCache fullCachesWorld) with fullBinaryCache.
    unfold fullBinaryCache, mapSize. cbn [length].
    rewrite length_map, length_seq. reflexivity.
Qed.

Lemma fullCaches_lack_next :
  mapGet Uri_eqb (numberedPath MAX_CACHE_SIZE) (tokenCache fullCachesWorld) = None
  /\ mapGet Uri_eqb (numberedPath MAX_BINARY_CACHE_SIZE)
       (isBinaryCache fullCachesWorld) = None.
Proof.
  split.
  - change (tokenCache fullCachesWorld) with fullTokenCache.
    unfold fullTokenCache. rewrite mapGet_cons.
    replace (Uri_eqb (numberedPath MAX_CACHE_SIZE) (numberedPath 0)) with false
      by reflexivity.
    apply numberedPath_fresh. right. apply Nat.eq_le_incl. reflexivity.
  - change (isBinaryCache fullCachesWorld) with fullBinaryCache.
    unfold fullBinaryCache. rewrite mapGet_cons.
    replace (Uri_eqb (numberedPath MAX_BINARY_CACHE_SIZE) (numberedPath 0))
      with false by reflexivity.
    apply numberedPath_fresh. right. apply Nat.eq_le_incl. reflexivity.
Qed.

Lemma reset_keeps_insertion_age_witness :
  (mapKeys (tokenCache (fst (tokenCacheOp
      (CachePut (numberedPath 0) (sampleTokenEntry 7)) fullCachesWorld)))
   = mapKeys (tokenCache fullCachesWorld)
   /\ mapGet Uri_eqb (numberedPath 0)
        (tokenCache (fst (tokenCacheOp
           (CachePut (numberedPath 0) (sampleTokenEntry 7)) fullCachesWorld)))
      = Some (sampleTokenEntry 7)
   /\ mapGet Uri_eqb (numberedPath 0)
        (tokenCache (fst (tokenCacheOp
           (CachePut (numberedPath MAX_CACHE_SIZE) (sampleTokenEntry 9))
           (fst (tokenCacheOp
              (CachePut (numberedPath 0) (sampleTokenEntry 7))
              fullCachesWorld)))))
      = None)
  /\ (mapKeys (isBinaryCache (fst (binaryCacheOp
        (CachePut (numberedPath 0) (sampleBinaryEntry 7)) fullCachesWorld)))
      = mapKeys (isBinaryCache fullCachesWorld)
      /\ mapGet Uri_eqb (numberedPath 0)
           (isBinaryCache (fst (binaryCacheOp
              (CachePut (numberedPath 0) (sampleBinaryEntry 7))
              fullCachesWorld)))
         = Some (sampleBinaryEntry 7)
      /\ mapGet Uri_eqb (numberedPath 0)
           (isBinaryCache (fst (binaryCacheOp
              (CachePut (numberedPath MAX_BINARY_CACHE_SIZE) (sampleBinaryEntry 9))
              (fst (binaryCacheOp
                 (CachePut (numberedPath 0) (sampleBinaryEntry 7))
                 fullCachesWorld)))))
         = None).
Proof.
  destruct (reset_keeps_insertion_age fullCachesWorld (numberedPath 0))
    as [Htoken Hbinary].
  split.
  - destruct (Htoken (sampleTokenEntry 7)) as [Hkeys [Hget Hnext]].
    + rewrite (proj1 fullCaches_sizes). apply Nat.le_refl.
    + change (tokenCache fullCachesWorld) with fullTokenCache.
      unfold fullTokenCache. rewrite mapGet_cons, Uri_eqb_refl. discriminate.
    + split; [exact Hkeys|]. split; [exact Hget|].
      apply (Hnext (sampleTokenEntry 0)
                   (map (fun n => (numberedPath n, sampleTokenEntry n))
                        (seq 1 (pred MAX_CACHE_SIZE)))
                   (numberedPath MAX_CACHE_SIZE) (sampleTokenEntry 9)).
      * reflexivity.
      * exact (proj1 fullCaches_sizes).
      * apply numberedPath_fresh. left. apply Nat.lt_0_1.
      * exact (proj1 fullCaches_lack_next).
  - destruct (Hbinary (sampleBinaryEntry 7)) as [Hkeys [Hget Hnext]].
    + rewrite (proj2 fullCaches_sizes). apply Nat.le_refl.
    + change (isBinaryCache fullCachesWorld) with fullBinaryCache.
      unfold fullBinaryCache. rewrite mapGet_cons, Uri_eqb_refl. discriminate.
    + split; [exact Hkeys|]. split; [exact Hget|].
      apply (Hnext (sampleBinaryEntry 0)
                   (map (fun n => (numberedPath n, sampleBinaryEntry n))
                        (seq 1 (pred MAX_BINARY_CACHE_SIZE)))
                   (numberedPath MAX_BINARY_CACHE_SIZE) (sampleBinaryEntry 9)).
      * reflexivity.
      * exact (proj2 fullCaches_sizes).
      * apply numberedPath_fresh. left. apply Nat.lt_0_1.
      * exact (proj2 fullCaches_lack_next).
Defined.

(** ** ConcurrencyLimiter *)

Ltac limiter_fields :=
  cbn [concurrency running queue submitted inflight started settled] in *.

Lemma remove_first_length : forall id ids,
  existsb (Nat.eqb id) ids = true ->
  length ids = S (length (remove_first id ids)).
Proof.
  induction ids as [|x ids IH]; simpl; intro H; [discriminate|].
  destruct (Nat.eqb id x); simpl in *; [reflexivity|].
  now rewrite <- IH.
Qed.

Lemma existsb_eqb_In : forall id ids,
  existsb (Nat.eqb id) ids = true <-> In id ids.
Proof.
  intros id ids. rewrite existsb_exists. split.
  - intros [x [Hin Heq]]. apply Nat.eqb_eq in Heq. now subst.
  - intro Hin. exists id. split; [exact Hin | apply Nat.eqb_refl].
Qed.

Lemma createLimit_inv : forall N, limiterInv N (createLimit N).
Proof.
  intro N. unfold limiterInv, createLimit. simpl.
  repeat split; try lia. intro H. now contradiction H.
Qed.

Lemma limit_inv : forall N l, limiterInv N l -> limiterInv N (limit l).
Proof.
  intros N l (Hc & Hr & Hle & Hfifo & Hfull).
  unfold limit. cbn [running concurrency].
  destruct (running l <? concurrency l) eqn:E.
  - apply Nat.ltb_lt in E.
    assert (Hq : queue l = []).
    { destruct (queue l) as [|q qs] eqn:Q; [reflexivity|].
      assert (running l = N) by (apply Hfull; discriminate). lia. }
    unfold limiterInv, run. limiter_fields.
    rewrite Hq in *. rewrite app_nil_r in *.
    split; [assumption|]. split; [rewrite length_app; simpl; lia|].
    split; [lia|]. split; [now rewrite seq_S, Hfifo|].
    intro Hne. exfalso. now apply Hne.
  - apply Nat.ltb_ge in E. unfold limiterInv. limiter_fields.
    split; [assumption|]. split; [assumption|]. split; [assumption|].
    split; [now rewrite seq_S, <- Hfifo, app_assoc | intros _; lia].
Qed.

Lemma settle_inv : forall N id ok l, limiterInv N l -> limiterInv N (settle id ok l).
Proof.
  intros N id ok l Hinv. pose proof Hinv as (Hc & Hr & Hle & Hfifo & Hfull).
  unfold settle.
  destruct (existsb (Nat.eqb id) (inflight l)) eqn:E; [|exact Hinv].
  pose proof (remove_first_length _ _ E) as Hlen.
  cbn [queue running concurrency].
  destruct (queue l) as [|next rest] eqn:Q.
  - unfold limiterInv. limiter_fields.
    split; [assumption|]. split; [lia|]. split; [lia|].
    split; [assumption|]. intro Hne. exfalso. now apply Hne.
  - assert (Hfull' : running l = N) by (apply Hfull; discriminate).
    assert (Hlt : (pred (running l) <? concurrency l) = true)
      by (apply Nat.ltb_lt; lia).
    rewrite Hlt. unfold limiterInv, run. limiter_fields.
    split; [assumption|]. split; [rewrite length_app; simpl; lia|].
    split; [lia|]. split; [now rewrite <- Hfifo, <- app_assoc | intros _; lia].
Qed.

Lemma limiterRun_inv : forall N events, limiterInv N (limiterRun N events).
Proof.
  intros N events. unfold limiterRun.
  assert (H : forall l, limiterInv N l -> limiterInv N (fold_left limiterStep events l)).
  { induction events as [|e events IH]; intros l Hl; [exact Hl|].
    simpl. apply IH. destruct e as [|id ok]; simpl.
    - now apply limit_inv.
    - now apply settle_inv. }
  apply H, createLimit_inv.
Qed.

(** What the [finally] block does for a task in flight, whatever [ok] is. *)
Lemma settle_releases : forall N id ok l,
  limiterInv N l -> In id (inflight l) ->
  settled (settle id ok l) = settled l ++ [(id, ok)]
  /\ match queue l with
     | [] => running (settle id ok l) = pred (running l)
             /\ queue (settle id ok l) = []
             /\ started (settle id ok l) = started l
     | next :: rest =>
         running (settle id ok l) = running l
         /\ queue (settle id ok l) = rest
         /\ started (settle id ok l) = started l ++ [next]
         /\ In next (inflight (settle id ok l))
     end.
Proof.
  intros N id ok l (Hc & Hr & Hle & Hfifo & Hfull) Hin.
  apply existsb_eqb_In in Hin. pose proof (remove_first_length _ _ Hin) as Hlen.
  unfold settle. rewrite Hin. cbn [queue running concurrency].
  destruct (queue l) as [|next rest] eqn:Q.
  - limiter_fields. repeat split; reflexivity.
  - assert (Hfull' : running l = N) by (apply Hfull; discriminate).
    assert (Hlt : (pred (running l) <? concurrency l) = true)
      by (apply Nat.ltb_lt; lia).
    rewrite Hlt. unfold run. limiter_fields.
    split; [reflexivity|]. split; [lia|]. split; [reflexivity|].
    split; [reflexivity|]. apply in_or_app. right. now left.
Qed.

(** C6. For a limiter of concurrency [N] and every sequence of submissions
    and settlements: at most [N] tasks are in the running state; tasks are
    started in the order of their submission (the started tasks followed by
    the queue are the tasks submitted, in order); and when a running task
    settles, by success or by failure alike, its slot is released and the
    head of the queue, if any, is started at once. *)
Theorem limiter_bounded_fifo_releasing :
  forall (N : nat) (events : list LimiterEvent),
    running (limiterRun N events) <= N
    /\ length (inflight (limiterRun N events)) = running (limiterRun N events)
    /\ started (limiterRun N events) ++ queue (limiterRun N events)
       = seq 0 (submitted (limiterRun N events))
    /\ forall id ok,
         In id (inflight (limiterRun N events)) ->
         settled (settle id ok (limiterRun N events))
         = settled (limiterRun N events) ++ [(id, ok)]
         /\ match queue (limiterRun N events) with
            | [] =>
                running (settle id ok (limiterRun N events))
                = pred (running (limiterRun N events))
                /\ queue (settle id ok (limiterRun N events)) = []
                /\ started (settle id ok (limiterRun N events))
                   = started (limiterRun N events)
            | next :: rest =>
                running (settle id ok (limiterRun N events))
                = running (limiterRun N events)
                /\ queue (settle id ok (limiterRun N events)) = rest
                /\ started (settle id ok (limiterRun N events))
                   = started (limiterRun N events) ++ [next]
                /\ In next (inflight (settle id ok (limiterRun N events)))
            end.
Proof.
  intros N events.
  pose proof (limiterRun_inv N events) as Hinv.
  pose proof Hinv as (Hc & Hr & Hle & Hfifo & Hfull).
  split; [assumption|]. split; [now symmetry|]. split; [assumption|].
  intros id ok Hin. exact (settle_releases N id ok _ Hinv Hin).
Qed.

(** A failing task frees its slot for the queued one: concurrency 1, two
    submissions, the first task rejects. *)
Lemma limiter_bounded_fifo_releasing_witness :
  settled (settle 0 false (limiterRun 1 [Submit; Submit])) = [(0, false)]
  /\ running (settle 0 false (limiterRun 1 [Submit; Submit])) = 1
  /\ queue (settle 0 false (limiterRun 1 [Submit; Submit])) = []
  /\ started (settle 0 false (limiterRun 1 [Submit; Submit])) = [0; 1]
  /\ In 1 (inflight (settle 0 false (limiterRun 1 [Submit; Submit]))).
Proof.
  destruct (limiter_bounded_fifo_releasing 1 [Submit; Submit])
    as (_ & _ & _ & Hsettle).
  exact (Hsettle 0 false (or_introl eq_refl)).
Defined.

(** The bound of the specification: with 8 slots, whatever is submitted (100
    tasks or more) and however the tasks settle, at most 8 are running. *)
Example limiter_of_8_never_exceeds_8 : forall events,
  length (inflight (limiterRun 8 events)) <= 8.
Proof.
  intros events. destruct (limiterRun_inv 8 events) as (_ & Hr & Hle & _).
  now rewrite <- Hr.
Qed.

(** ** Reasoning about calls: one rule for each construct *)

Lemma after_ret : forall A (a : A) w (Q : World -> Outcome A -> Prop),
  Q w (Returned a) -> holdsAfter (ret a) w Q.
Proof. intros; assumption. Qed.

Lemma after_throw : forall A e w (Q : World -> Outcome A -> Prop),
  Q w (Threw e) -> holdsAfter (throw e) w Q.
Proof. intros; assumption. Qed.

Lemma after_outOfFuel : forall A w (Q : World -> Outcome A -> Prop),
  Q w OutOfFuel -> holdsAfter outOfFuel w Q.
Proof. intros; assumption. Qed.

Lemma after_bind : forall A B (m : Eff A) (k : A -> Eff B) w
    (Q : World -> Outcome B -> Prop),
  holdsAfter m w (fun w1 r1 =>
    match r1 with
    | Returned a => holdsAfter (k a) w1 Q
    | Threw e => Q w1 (Threw e)
    | OutOfFuel => Q w1 OutOfFuel
    end) ->
  holdsAfter (bind m k) w Q.
Proof.
  intros A B m k w Q. unfold holdsAfter, bind.
  destruct (m w) as [w1 [a | e |]]; simpl; auto.
Qed.

Lemma after_tryCatch : forall A (body : Eff A) handler w
    (Q : World -> Outcome A -> Prop),
  holdsAfter body w (fun w1 r1 =>
    match r1 with
    | Returned a => Q w1 (Returned a)
    | Threw e => holdsAfter (handler e) w1 Q
    | OutOfFuel => Q w1 OutOfFuel
    end) ->
  holdsAfter (tryCatch body handler) w Q.
Proof.
  intros A body handler w Q. unfold holdsAfter, tryCatch.
  destruct (body w) as [w1 [a | e |]]; simpl; auto.
Qed.

Lemma after_weaken : forall A (m : Eff A) w (Q Q' : World -> Outcome A -> Prop),
  holdsAfter m w Q -> (forall w' r, Q w' r -> Q' w' r) -> holdsAfter m w Q'.
Proof. intros A m w Q Q' H HQ. apply HQ, H. Qed.

Lemma after_run : forall A (m : Eff A) w w' r (Q : World -> Outcome A -> Prop),
  holdsAfter m w Q -> m w = (w', r) -> Q w' r.
Proof. intros A m w w' r Q H E. unfold holdsAfter in H. now rewrite E in H. Qed.

Lemma run_eq : forall A (m : Eff A) w w' r,
  holdsAfter m w (fun w1 r1 => w1 = w' /\ r1 = r) -> m w = (w', r).
Proof.
  intros A m w w' r [H1 H2]. rewrite (surjective_pairing (m w)). congruence.
Qed.

Lemma after_tick : forall w (Q : World -> Outcome nat -> Prop),
  Q (advance w) (Returned (now w)) -> holdsAfter tick w Q.
Proof. intros; assumption. Qed.

Lemma after_emit : forall e w (Q : World -> Outcome unit -> Prop),
  Q (logged e w) (Returned tt) -> holdsAfter (emit e) w Q.
Proof. intros; assumption. Qed.

Lemma after_liftRes : forall A (r : Res A) w (Q : World -> Outcome A -> Prop),
  match r with
  | Ok a => Q w (Returned a)
  | Err e => Q w (Threw e)
  end ->
  holdsAfter (liftRes r) w Q.
Proof. intros A [a | e] w Q H; exact H. Qed.

Lemma after_aborted : forall signal w (Q : World -> Outcome bool -> Prop),
  match signal with
  | None => Q w (Returned false)
  | Some s => Q (advance w) (Returned (s (now w)))
  end ->
  holdsAfter (aborted signal) w Q.
Proof. intros [s |] w Q H; exact H. Qed.

Lemma after_vsStat : forall fs uri w (Q : World -> Outcome FileStat -> Prop),
  match fs_stat fs (now w) uri with
  | Ok st => Q (logged (FsStat uri) (advance w)) (Returned st)
  | Err e => Q (logged (FsStat uri) (advance w)) (Threw e)
  end ->
  holdsAfter (vsStat fs uri) w Q.
Proof.
  intros fs uri w Q H. unfold holdsAfter, vsStat, bind, tick, emit. simpl.
  destruct (fs_stat fs (now w) uri); exact H.
Qed.

Lemma after_vsReadDirectory : forall fs uri w
    (Q : World -> Outcome (list (string * FileType)) -> Prop),
  match fs_readDirectory fs (now w) uri with
  | Ok children => Q (logged (FsReadDirectory uri) (advance w)) (Returned children)
  | Err e => Q (logged (FsReadDirectory uri) (advance w)) (Threw e)
  end ->
  holdsAfter (vsReadDirectory fs uri) w Q.
Proof.
  intros fs uri w Q H. unfold holdsAfter, vsReadDirectory, bind, tick, emit. simpl.
  destruct (fs_readDirectory fs (now w) uri); exact H.
Qed.

Lemma after_vsReadFile : forall fs uri w
    (Q : World -> Outcome (list Byte.byte) -> Prop),
  match fs_readFile fs (now w) uri with
  | Ok bytes => Q (logged (FsReadFile uri) (advance w)) (Returned bytes)
  | Err e => Q (logged (FsReadFile uri) (advance w)) (Threw e)
  end ->
  holdsAfter (vsReadFile fs uri) w Q.
Proof.
  intros fs uri w Q H. unfold holdsAfter, vsReadFile, bind, tick, emit. simpl.
  destruct (fs_readFile fs (now w) uri); exact H.
Qed.

Lemma after_readCount : forall c w (Q : World -> Outcome nat -> Prop),
  Q w (Returned (counters w c)) -> holdsAfter (readCount c) w Q.
Proof. intros; assumption. Qed.

Lemma after_incrCount : forall c w (Q : World -> Outcome unit -> Prop),
  Q (withCounters
       (fun c' => if Nat.eqb c' c then S (counters w c) else counters w c') w)
    (Returned tt) ->
  holdsAfter (incrCount c) w Q.
Proof. intros; assumption. Qed.

Lemma after_capStop : forall maxFiles counter w (Q : World -> Outcome bool -> Prop),
  match maxFiles, counter with
  | Some m, Some c =>
      if m <=? counters w c then
        if Nat.eqb (counters w c) m
        then Q (logged (WarnCapHit m) w) (Returned true)
        else Q w (Returned true)
      else Q w (Returned false)
  | _, _ => Q w (Returned false)
  end ->
  holdsAfter (capStop maxFiles counter) w Q.
Proof.
  intros [m |] [c |] w Q H; try exact H.
  unfold holdsAfter, capStop, bind, readCount, emit, ret. simpl.
  destruct (m <=? counters w c); [|exact H].
  destruct (Nat.eqb (counters w c) m); exact H.
Qed.

Lemma after_getIsBinaryCache : forall absPath w
    (Q : World -> Outcome (option BinaryCacheEntry) -> Prop),
  Q w (Returned (mapGet Uri_eqb absPath (isBinaryCache w))) ->
  holdsAfter (getIsBinaryCache absPath) w Q.
Proof. intros; assumption. Qed.

Lemma after_setIsBinaryCache : forall absPath e w (Q : World -> Outcome unit -> Prop),
  Q (withIsBinaryCache (mapSet Uri_eqb absPath e (isBinaryCache w)) w) (Returned tt) ->
  holdsAfter (setIsBinaryCache absPath e) w Q.
Proof. intros; assumption. Qed.

Lemma after_evictOldestBinaryCacheEntries : forall w (Q : World -> Outcome unit -> Prop),
  Q (withIsBinaryCache
       (evictOldest Uri_eqb MAX_BINARY_CACHE_SIZE (isBinaryCache w)) w)
    (Returned tt) ->
  holdsAfter evictOldestBinaryCacheEntries w Q.
Proof. intros; assumption. Qed.

Lemma after_getTokenCache : forall absPath w
    (Q : World -> Outcome (option TokenCacheEntry) -> Prop),
  Q w (Returned (mapGet Uri_eqb absPath (tokenCache w))) ->
  holdsAfter (getTokenCache absPath) w Q.
Proof. intros; assumption. Qed.

Lemma after_setTokenCache : forall absPath e w (Q : World -> Outcome unit -> Prop),
  Q (withTokenCache (mapSet Uri_eqb absPath e (tokenCache w)) w) (Returned tt) ->
  holdsAfter (setTokenCache absPath e) w Q.
Proof. intros; assumption. Qed.

Lemma after_evictOldestCacheEntries : forall w (Q : World -> Outcome unit -> Prop),
  Q (withTokenCache (evictOldest Uri_eqb MAX_CACHE_SIZE (tokenCache w)) w)
    (Returned tt) ->
  holdsAfter evictOldestCacheEntries w Q.
Proof. intros; assumption. Qed.

Lemma after_ignore : forall w (Q : World -> Outcome IgnoreParser -> Prop),
  Q (withNextParserId (S (nextParserId w)) w)
    (Returned (mkIgnoreParser (nextParserId w) [])) ->
  holdsAfter ignore w Q.
Proof. intros; assumption. Qed.

Lemma after_getParserCache : forall cacheKey w
    (Q : World -> Outcome (option ParserCacheEntry) -> Prop),
  Q w (Returned (mapGet Uri_eqb cacheKey (ignoreParserCache w))) ->
  holdsAfter (getParserCache cacheKey) w Q.
Proof. intros; assumption. Qed.

Lemma after_setParserCache : forall cacheKey e w (Q : World -> Outcome unit -> Prop),
  Q (withIgnoreParserCache (mapSet Uri_eqb cacheKey e (ignoreParserCache w)) w)
    (Returned tt) ->
  holdsAfter (setParserCache cacheKey e) w Q.
Proof. intros; assumption. Qed.

Ltac world_fields :=
  cbn [now trace counters isBinaryCache tokenCache ignoreParserCache
       nextParserId advance logged withCounters withIsBinaryCache
       withTokenCache withIgnoreParserCache withNextParserId] in *.

Ltac eff_step :=
  lazymatch goal with
  | |- holdsAfter (bind _ _) _ _ => apply after_bind
  | |- holdsAfter (tryCatch _ _) _ _ => apply after_tryCatch
  | |- holdsAfter (ret _) _ _ => apply after_ret
  | |- holdsAfter (throw _) _ _ => apply after_throw
  | |- holdsAfter outOfFuel _ _ => apply after_outOfFuel
  | |- holdsAfter tick _ _ => apply after_tick
  | |- holdsAfter (emit _) _ _ => apply after_emit
  | |- holdsAfter (liftRes _) _ _ => apply after_liftRes
  | |- holdsAfter (aborted _) _ _ => apply after_aborted
  | |- holdsAfter (fsLimit _) _ _ => unfold fsLimit
  | |- holdsAfter (vsStat _ _) _ _ => apply after_vsStat
  | |- holdsAfter (vsReadDirectory _ _) _ _ => apply after_vsReadDirectory
  | |- holdsAfter (vsReadFile _ _) _ _ => apply after_vsReadFile
  | |- holdsAfter (readCount _) _ _ => apply after_readCount
  | |- holdsAfter (incrCount _) _ _ => apply after_incrCount
  | |- holdsAfter (capStop _ _) _ _ => apply after_capStop
  | |- holdsAfter (getIsBinaryCache _) _ _ => apply after_getIsBinaryCache
  | |- holdsAfter (setIsBinaryCache _ _) _ _ => apply after_setIsBinaryCache
  | |- holdsAfter evictOldestBinaryCacheEntries _ _ =>
      apply after_evictOldestBinaryCacheEntries
  | |- holdsAfter (rememberBinary _ _ _) _ _ => unfold rememberBinary
  | |- holdsAfter (getTokenCache _) _ _ => apply after_getTokenCache
  | |- holdsAfter (setTokenCache _ _) _ _ => apply after_setTokenCache
  | |- holdsAfter evictOldestCacheEntries _ _ => apply after_evictOldestCacheEntries
  | |- holdsAfter ignore _ _ => apply after_ignore
  | |- holdsAfter (getParserCache _) _ _ => apply after_getParserCache
  | |- holdsAfter (setParserCache _ _) _ _ => apply after_setParserCache
  | |- holdsAfter (if ?b then _ else _) _ _ => destruct b eqn:?
  | |- holdsAfter (match ?x with _ => _ end) _ _ => destruct x eqn:?
  | |- (if ?b then _ else _) => destruct b eqn:?
  | |- match ?x with _ => _ end => destruct x eqn:?
  end; cbv beta match.

Ltac eff_steps := repeat eff_step.

Ltac record_fields :=
  cbn [pc_parser pc_mtime tok_tokens tok_mtime tok_size bin_isBinary bin_mtime
       stat_type stat_mtime stat_size parser_id parser_added] in *.

(** Use the equations that the case analyses leave behind. *)
Ltac tidy :=
  repeat match goal with
         | H : Ok _ = Ok _ |- _ => inversion H; clear H; subst
         | H : Some _ = Some _ |- _ => inversion H; clear H; subst
         | H : Returned _ = Returned _ |- _ => inversion H; clear H; subst
         | H : Ok _ = Err _ |- _ => discriminate H
         | H : Err _ = Ok _ |- _ => discriminate H
         | H : Some _ = None |- _ => discriminate H
         | H : None = Some _ |- _ => discriminate H
         | H : true = false |- _ => discriminate H
         | H : false = true |- _ => discriminate H
         | H : (?n =? ?n) = false |- _ => rewrite Nat.eqb_refl in H
         | H1 : ?x = _, H2 : ?x = _ |- _ => rewrite H1 in H2
         | H1 : ?x = _, H2 : context [match ?x with _ => _ end] |- _ =>
             rewrite H1 in H2
         | _ => progress record_fields
         end.

(** Rewrite with the equations at hand where the goal looks at their left
    sides. *)
Ltac use_equations :=
  repeat match goal with
         | H : ?x = _ |- context [match ?x with _ => _ end] => rewrite H
         end.

(** ** Calls that run side by side: one rule for each construct *)

Section SafeRules.
Variables (I : World -> Prop) (G : World -> World -> Prop).

Lemma safe_weaken : forall A (m : Async A) w0 w
    (Q Q' : Outcome A -> World -> World -> Prop),
  safe I G m w0 w Q ->
  (forall r w0' w', Q r w0' w' -> Q' r w0' w') ->
  safe I G m w0 w Q'.
Proof.
  intros A m. induction m as [r | effect next IH | k IH]; intros w0 w Q Q' H HQ;
    cbn [safe] in *.
  - now apply HQ.
  - eapply IH; eassumption.
  - destruct H as (HI & HG & Hk). split; [exact HI|]. split; [exact HG|].
    intros w' HI' HG'. eapply IH; [apply Hk; assumption | exact HQ].
Qed.

Lemma safe_bindA : forall A B (m : Async A) (k : A -> Async B) w0 w
    (Q : Outcome B -> World -> World -> Prop),
  safe I G m w0 w
    (fun r w0' w' =>
       match r with
       | Returned a => safe I G (k a) w0' w' Q
       | Threw e => Q (Threw e) w0' w'
       | OutOfFuel => Q OutOfFuel w0' w'
       end) ->
  safe I G (bindA m k) w0 w Q.
Proof.
  intros A B m k. induction m as [r | effect next IH | m IH]; intros w0 w Q H;
    cbn [safe bindA] in *.
  - destruct r; exact H.
  - apply IH, H.
  - destruct H as (HI & HG & Hk). split; [exact HI|]. split; [exact HG|].
    intros w' HI' HG'. apply IH, Hk; assumption.
Qed.

Lemma safe_tryCatchA : forall A (body : Async A) handler w0 w
    (Q : Outcome A -> World -> World -> Prop),
  safe I G body w0 w
    (fun r w0' w' =>
       match r with
       | Returned a => Q (Returned a) w0' w'
       | Threw e => safe I G (handler e) w0' w' Q
       | OutOfFuel => Q OutOfFuel w0' w'
       end) ->
  safe I G (tryCatchA body handler) w0 w Q.
Proof.
  intros A body handler.
  induction body as [r | effect next IH | body IH]; intros w0 w Q H;
    cbn [safe tryCatchA] in *.
  - destruct r; exact H.
  - apply IH, H.
  - destruct H as (HI & HG & Hk). split; [exact HI|]. split; [exact HG|].
    intros w' HI' HG'. apply IH, Hk; assumption.
Qed.

Lemma safe_awaitCall : forall A (call : Async A) w0 w
    (Q : Outcome A -> World -> World -> Prop),
  safe I G call w0 w
    (fun r w0' w1 =>
       I w1 /\ G w0' w1 /\ forall w', I w' -> G w1 w' -> Q r w' w') ->
  safe I G (awaitCall call) w0 w Q.
Proof.
  intros A call. induction call as [r | effect next IH | call IH]; intros w0 w Q H;
    cbn [safe awaitCall] in *.
  - exact H.
  - apply IH, H.
  - destruct H as (HI & HG & Hk). split; [exact HI|]. split; [exact HG|].
    intros w' HI' HG'. apply IH, Hk; assumption.
Qed.

Lemma safe_finishThen : forall B C (call : Async B) (k : Outcome B -> Async C)
    w0 w (Q : Outcome C -> World -> World -> Prop),
  safe I G call w0 w (fun r w0' w' => safe I G (k r) w0' w' Q) ->
  safe I G (finishThen call k) w0 w Q.
Proof.
  intros B C call k. induction call as [r | effect next IH | call IH];
    intros w0 w Q H; cbn [safe finishThen] in *.
  - exact H.
  - apply IH, H.
  - destruct H as (HI & HG & Hk). split; [exact HI|]. split; [exact HG|].
    intros w' HI' HG'. apply IH, Hk; assumption.
Qed.

Lemma safe_sync : forall A (m : Eff A) w0 w
    (Q : Outcome A -> World -> World -> Prop),
  holdsAfter m w (fun w' r => Q r w0 w') -> safe I G (sync m) w0 w Q.
Proof. intros A m w0 w Q H. exact H. Qed.

Lemma safe_await : forall A (promise : Eff A) w0 w
    (Q : Outcome A -> World -> World -> Prop),
  holdsAfter promise w
    (fun w1 r => I w1 /\ G w0 w1 /\ forall w', I w' -> G w1 w' -> Q r w' w') ->
  safe I G (await promise) w0 w Q.
Proof. intros A promise w0 w Q H. exact H. Qed.

Lemma safe_retA : forall A (a : A) w0 w (Q : Outcome A -> World -> World -> Prop),
  Q (Returned a) w0 w -> safe I G (retA a) w0 w Q.
Proof. intros A a w0 w Q H. exact H. Qed.

Hypothesis G_refl : forall w, G w w.
Hypothesis G_trans : forall a b c, G a b -> G b c -> G a c.

(** A call that keeps to the rules under every interference keeps to them
    alone. *)
Lemma safe_runAlone : forall A (m : Async A) w0 w
    (Q : Outcome A -> World -> World -> Prop),
  I w0 ->
  safe I G m w0 w Q ->
  exists w0', I w0' /\ Q (snd (runAlone m w)) w0' (fst (runAlone m w)).
Proof.
  intros A m. induction m as [r | effect next IH | k IH]; intros w0 w Q H0 H;
    cbn [safe runAlone] in *.
  - exists w0. split; assumption.
  - eapply IH; eassumption.
  - destruct H as (HI & HG & Hk). apply (IH w w Q HI). apply Hk; [exact HI|].
    apply G_refl.
Qed.

(** The code that began after [wb] still began after [wb] at the end. *)
Lemma safe_since : forall A (m : Async A) wb w0 w
    (Q : Outcome A -> World -> World -> Prop),
  G wb w0 ->
  safe I G m w0 w Q ->
  safe I G m w0 w (fun r w0' w' => G wb w0' /\ Q r w0' w').
Proof.
  intros A m. induction m as [r | effect next IH | k IH]; intros wb w0 w Q Hb H;
    cbn [safe] in *.
  - split; assumption.
  - apply IH; assumption.
  - destruct H as (HI & HG & Hk). split; [exact HI|]. split; [exact HG|].
    intros w' HI' HG'. apply IH; [|apply Hk; assumption].
    eapply G_trans; [exact Hb|]. eapply G_trans; eassumption.
Qed.

Lemma upToAwait_safe : forall A (m : Async A) w0 w
    (Q : Outcome A -> World -> World -> Prop),
  safe I G m w0 w Q ->
  match snd (upToAwait m w) with
  | Finished r => Q r w0 (fst (upToAwait m w))
  | Await k =>
      I (fst (upToAwait m w)) /\ G w0 (fst (upToAwait m w))
      /\ forall w', I w' -> G (fst (upToAwait m w)) w' -> safe I G k w' w' Q
  | Sync _ _ => False
  end.
Proof.
  intros A m. induction m as [r | effect next IH | k IH]; intros w0 w Q H;
    cbn [safe upToAwait fst snd] in *.
  - exact H.
  - apply IH, H.
  - exact H.
Qed.

(** *** The pool *)

Section Pool.
Variables (X B : Type) (P : X -> Outcome B -> World -> Prop).
Hypothesis P_stable : forall x r w w', P x r w -> G w w' -> P x r w'.

Lemma slotKept_later : forall x w w' slot,
  G w w' -> slotKept I G (P x) w slot -> slotKept I G (P x) w' slot.
Proof.
  intros x w w' [fn | [r | effect next | k] | r] HG H; cbn [slotKept] in *.
  - exact H.
  - eapply P_stable; eassumption.
  - exact H.
  - intros w2 HI2 HG2. apply H; [exact HI2|]. eapply G_trans; eassumption.
  - eapply P_stable; eassumption.
Qed.

Lemma poolKept_later : forall w w' xs slots,
  G w w' -> poolKept I G P w xs slots -> poolKept I G P w' xs slots.
Proof.
  intros w w' xs slots HG H. induction H as [|x slot xs slots Hs Hall IH].
  - constructor.
  - constructor; [eapply slotKept_later; eassumption | exact IH].
Qed.

(** A task started at a world that satisfies [I]. *)
Lemma started_kept : forall x fn w,
  I w -> safe I G fn w w (kept I G (P x)) ->
  I (fst (upToAwait fn w)) /\ G w (fst (upToAwait fn w))
  /\ slotKept I G (P x) (fst (upToAwait fn w)) (Running (snd (upToAwait fn w))).
Proof.
  intros x fn w HI H. pose proof (upToAwait_safe _ fn w w _ H) as Hu.
  destruct (snd (upToAwait fn w)) as [r | effect next | k]; cbn [slotKept].
  - destruct Hu as (H1 & H2 & H3). auto.
  - destruct Hu.
  - destruct Hu as (H1 & H2 & H3). auto.
Qed.

Lemma submitAll_kept : forall concurrency (task : X -> Async B) xs running w,
  (forall x w0, In x xs -> I w0 -> safe I G (task x) w0 w0 (kept I G (P x))) ->
  I w ->
  I (fst (submitAll concurrency (map task xs) running w))
  /\ G w (fst (submitAll concurrency (map task xs) running w))
  /\ poolKept I G P (fst (submitAll concurrency (map task xs) running w)) xs
       (pool_slots (snd (submitAll concurrency (map task xs) running w))).
Proof.
  intros c task. induction xs as [|x xs IH]; intros running w Htask HI;
    cbn [map submitAll].
  - cbn. split; [exact HI|]. split; [apply G_refl | constructor].
  - assert (Hrest : forall y w0, In y xs -> I w0 ->
                      safe I G (task y) w0 w0 (kept I G (P y)))
      by (intros y w0 Hy; apply Htask; now right).
    destruct (slotFree c running).
    + destruct (started_kept x (task x) w HI (Htask x w (or_introl eq_refl) HI))
        as (HI1 & HG1 & Hs1).
      destruct (upToAwait (task x) w) as [w1 call]. cbn [fst snd] in *.
      specialize (IH (S running) w1 Hrest HI1).
      destruct (submitAll c (map task xs) (S running) w1) as [w2 pool].
      cbn [fst snd pool_slots] in *. destruct IH as (HI2 & HG2 & Hp).
      split; [exact HI2|]. split; [eapply G_trans; eassumption|].
      constructor; [|exact Hp]. eapply slotKept_later; eassumption.
    + specialize (IH running w Hrest HI).
      destruct (submitAll c (map task xs) running w) as [w2 pool].
      cbn [fst snd pool_slots] in *. destruct IH as (HI2 & HG2 & Hp).
      split; [exact HI2|]. split; [exact HG2|].
      constructor; [|exact Hp]. cbn [slotKept]. intros w' HI'.
      apply Htask; [now left | exact HI'].
Qed.

Lemma poolKept_nth : forall w xs slots i slot,
  poolKept I G P w xs slots -> nth_error slots i = Some slot ->
  exists x, nth_error xs i = Some x /\ slotKept I G (P x) w slot.
Proof.
  intros w xs slots i slot H. revert i.
  induction H as [|x s xs slots Hs Hall IH]; intros [|i] E; cbn in E;
    try discriminate.
  - inversion E; subst. exists x. split; [reflexivity | exact Hs].
  - destruct (IH i E) as (y & Hy & Hk). exists y. split; assumption.
Qed.

Lemma poolKept_replace : forall w xs slots i x slot,
  poolKept I G P w xs slots -> nth_error xs i = Some x ->
  slotKept I G (P x) w slot ->
  poolKept I G P w xs (replaceNth i slot slots).
Proof.
  intros w xs slots i x slot H. revert i.
  induction H as [|y s xs slots Hs Hall IH]; intros [|i] E Hslot; cbn in E;
    try discriminate; cbn [replaceNth].
  - inversion E; subst. constructor; assumption.
  - constructor; [exact Hs | apply IH; assumption].
Qed.

Lemma startQueued_kept : forall w xs slots,
  I w -> poolKept I G P w xs slots ->
  match startQueued slots w with
  | Some (w', slots') => I w' /\ G w w' /\ poolKept I G P w' xs slots'
  | None => True
  end.
Proof.
  intros w xs slots HI H. induction H as [|x slot xs slots Hs Hall IH];
    cbn [startQueued]; [exact Logic.I|].
  destruct slot as [fn | call | r].
  - cbn [slotKept] in Hs.
    destruct (started_kept x fn w HI (Hs w HI)) as (HI1 & HG1 & Hs1).
    destruct (upToAwait fn w) as [w1 call]. cbn [fst snd] in *.
    split; [exact HI1|]. split; [exact HG1|].
    constructor; [exact Hs1 | eapply poolKept_later; eassumption].
  - destruct (startQueued slots w) as [[w' slots'] |]; [|exact Logic.I].
    destruct IH as (HI1 & HG1 & Hp). split; [exact HI1|]. split; [exact HG1|].
    constructor; [eapply slotKept_later; eassumption | exact Hp].
  - destruct (startQueued slots w) as [[w' slots'] |]; [|exact Logic.I].
    destruct IH as (HI1 & HG1 & Hp). split; [exact HI1|]. split; [exact HG1|].
    constructor; [eapply slotKept_later; eassumption | exact Hp].
Qed.

Lemma release_kept : forall concurrency i r pool w xs x,
  I w -> poolKept I G P w xs (pool_slots pool) ->
  nth_error xs i = Some x -> P x r w ->
  I (fst (release concurrency i r pool w))
  /\ G w (fst (release concurrency i r pool w))
  /\ poolKept I G P (fst (release concurrency i r pool w)) xs
       (pool_slots (snd (release concurrency i r pool w))).
Proof.
  intros c i r pool w xs x HI Hp Hx HP. unfold release.
  assert (Hp' : poolKept I G P w xs (replaceNth i (Settled r) (pool_slots pool)))
    by (eapply poolKept_replace; eassumption).
  pose proof (startQueued_kept w xs _ HI Hp') as Hq.
  destruct (slotFree c (pred (pool_running pool))).
  - destruct (startQueued (replaceNth i (Settled r) (pool_slots pool)) w)
      as [[w' slots'] |]; cbn [fst snd pool_slots].
    + exact Hq.
    + split; [exact HI|]. split; [apply G_refl | exact Hp'].
  - cbn [fst snd pool_slots]. split; [exact HI|]. split; [apply G_refl | exact Hp'].
Qed.

Lemma stepPool_kept : forall concurrency i pool w0 w xs,
  poolKept I G P w0 xs (pool_slots pool) -> I w -> G w0 w ->
  I (fst (stepPool concurrency i pool w))
  /\ G w (fst (stepPool concurrency i pool w))
  /\ poolKept I G P (fst (stepPool concurrency i pool w)) xs
       (pool_slots (snd (stepPool concurrency i pool w))).
Proof.
  intros c i pool w0 w xs Hp0 HI HG.
  assert (Hp : poolKept I G P w xs (pool_slots pool))
    by (eapply poolKept_later; eassumption).
  unfold stepPool.
  destruct (nth_error (pool_slots pool) i) as [slot |] eqn:E;
    [| cbn [fst snd]; split; [exact HI|]; split; [apply G_refl | exact Hp] ].
  destruct (poolKept_nth _ _ _ _ _ Hp E) as (x & Hx & Hs).
  destruct slot as [fn | [r | effect next | k] | r]; cbn [slotKept] in Hs.
  - cbn [fst snd]. split; [exact HI|]. split; [apply G_refl | exact Hp].
  - eapply release_kept; eassumption.
  - destruct Hs.
  - cbn [resume].
    pose proof (upToAwait_safe _ k w w _ (Hs w HI (G_refl w))) as Hu.
    destruct (upToAwait k w) as [w1 call]. cbn [fst snd pool_slots] in *.
    assert (H1 : I w1 /\ G w w1 /\ slotKept I G (P x) w1 (Running call)).
    { destruct call as [r | effect next | k']; cbn [slotKept].
      - destruct Hu as (H1 & H2 & H3). auto.
      - destruct Hu.
      - destruct Hu as (H1 & H2 & H3). auto. }
    destruct H1 as (HI1 & HG1 & Hs1).
    split; [exact HI1|]. split; [exact HG1|].
    eapply poolKept_replace; [|exact Hx | exact Hs1].
    eapply poolKept_later; eassumption.
  - cbn [fst snd]. split; [exact HI|]. split; [apply G_refl | exact Hp].
Qed.

Lemma outcomeOfAll_kept : forall w xs slots r,
  poolKept I G P w xs slots -> outcomeOfAll slots = Some r -> allKept P xs r w.
Proof.
  intros w xs slots r H. revert r.
  induction H as [|x slot xs slots Hs Hall IH]; intros r E; cbn [outcomeOfAll] in E.
  - inversion E; subst. constructor.
  - assert (Hother : forall r0,
              outcomeOfAll slots = Some r0 ->
              match r0 with Returned _ => False | _ => True end ->
              allKept P (x :: xs) r0 w).
    { intros r0 E0 Hr0. specialize (IH r0 E0).
      destruct r0 as [bs | e |]; [destruct Hr0 | |]; cbn [allKept] in *;
        destruct IH as (y & Hy & HPy); exists y; (split; [now right | exact HPy]). }
    destruct slot as [fn | call | [b | e |]].
    + destruct (outcomeOfAll slots) as [[bs | e |] |]; try discriminate;
        inversion E; subst; now apply Hother.
    + destruct (outcomeOfAll slots) as [[bs | e |] |]; try discriminate;
        inversion E; subst; now apply Hother.
    + destruct (outcomeOfAll slots) as [[bs | e |] |]; try discriminate;
        inversion E; subst; try (now apply Hother).
      cbn [allKept]. constructor; [exact Hs | exact (IH _ eq_refl)].
    + inversion E; subst. exists x. split; [now left | exact Hs].
    + inversion E; subst. exists x. split; [now left | exact Hs].
Qed.

Lemma allKept_later : forall xs r w w',
  G w w' -> allKept P xs r w -> allKept P xs r w'.
Proof.
  intros xs [bs | e |] w w' HG H; cbn [allKept] in *.
  - induction H; constructor; [eapply P_stable; eassumption | assumption].
  - destruct H as (x & Hx & HP). exists x. split; [exact Hx|].
    eapply P_stable; eassumption.
  - destruct H as (x & Hx & HP). exists x. split; [exact Hx|].
    eapply P_stable; eassumption.
Qed.

(** **** The books of the limiter *)

Lemma countRunning_replace_settled : forall (slots : list (Slot B)) i call r,
  nth_error slots i = Some (Running call) ->
  S (countRunning (replaceNth i (Settled r) slots)) = countRunning slots
  /\ S (unsettled (replaceNth i (Settled r) slots)) = unsettled slots
  /\ (hasQueued (replaceNth i (Settled r) slots) = hasQueued slots).
Proof.
  induction slots as [|slot slots IH]; intros [|i] call r E; cbn in E;
    try discriminate.
  - inversion E; subst. cbn. auto.
  - destruct (IH i call r E) as (H1 & H2 & H3).
    destruct slot; cbn [replaceNth countRunning unsettled hasQueued];
      repeat split; try lia; try assumption; reflexivity.
Qed.

Lemma countRunning_replace_running : forall (slots : list (Slot B)) i call call',
  nth_error slots i = Some (Running call) ->
  countRunning (replaceNth i (Running call') slots) = countRunning slots
  /\ unsettled (replaceNth i (Running call') slots) = unsettled slots
  /\ hasQueued (replaceNth i (Running call') slots) = hasQueued slots.
Proof.
  induction slots as [|slot slots IH]; intros [|i] call call' E; cbn in E;
    try discriminate.
  - inversion E; subst. cbn. auto.
  - destruct (IH i call call' E) as (H1 & H2 & H3).
    destruct slot; cbn [replaceNth countRunning unsettled hasQueued];
      repeat split; try lia; try assumption; reflexivity.
Qed.

Lemma startQueued_books : forall (slots : list (Slot B)) w,
  match startQueued slots w with
  | Some (_, slots') =>
      countRunning slots' = S (countRunning slots)
      /\ unsettled slots' = unsettled slots
      /\ hasQueued slots = true
  | None => hasQueued slots = false
  end.
Proof.
  induction slots as [|slot slots IH]; intro w; cbn [startQueued]; [reflexivity|].
  destruct slot as [fn | call | r].
  - destruct (upToAwait fn w) as [w' call]. cbn. auto.
  - specialize (IH w). destruct (startQueued slots w) as [[w' slots'] |]; cbn.
    + destruct IH as (H1 & H2 & H3). repeat split; try lia; assumption.
    + exact IH.
  - specialize (IH w). destruct (startQueued slots w) as [[w' slots'] |]; cbn.
    + destruct IH as (H1 & H2 & H3). repeat split; try lia; assumption.
    + exact IH.
Qed.

Lemma release_books : forall concurrency i r call (pool : Pool B) w,
  limiterKept concurrency pool ->
  nth_error (pool_slots pool) i = Some (Running call) ->
  limiterKept concurrency (snd (release concurrency i r pool w))
  /\ S (unsettled (pool_slots (snd (release concurrency i r pool w))))
     = unsettled (pool_slots pool).
Proof.
  intros c i r call pool w [Hrun Hq] E. unfold release.
  destruct (countRunning_replace_settled _ i call r E) as (H1 & H2 & H3).
  pose proof (startQueued_books (replaceNth i (Settled r) (pool_slots pool)) w)
    as Hs.
  destruct (slotFree c (pred (pool_running pool))) eqn:Efree.
  - destruct (startQueued (replaceNth i (Settled r) (pool_slots pool)) w)
      as [[w' slots'] |]; cbn [snd pool_slots pool_running].
    + destruct Hs as (Hs1 & Hs2 & Hs3). split; [split|].
      * cbn [pool_running pool_slots]. lia.
      * cbn [pool_running pool_slots]. intros _.
        replace (S (pred (pool_running pool))) with (pool_running pool) by lia.
        apply Hq. now rewrite <- H3.
      * lia.
    + split; [split|].
      * cbn [pool_running pool_slots]. lia.
      * cbn [pool_running pool_slots]. congruence.
      * exact H2.
  - cbn [snd pool_slots pool_running]. split; [split|].
    + cbn [pool_running pool_slots]. lia.
    + cbn [pool_running pool_slots]. intros _. exact Efree.
    + exact H2.
Qed.

Lemma stepPool_books : forall concurrency i (pool : Pool B) w,
  limiterKept concurrency pool ->
  limiterKept concurrency (snd (stepPool concurrency i pool w)).
Proof.
  intros c i pool w Hl. unfold stepPool.
  destruct (nth_error (pool_slots pool) i) as [[fn | call | r] |] eqn:E;
    try exact Hl.
  destruct call as [r | effect next | k].
  - exact (proj1 (release_books c i r _ pool w Hl E)).
  - destruct (resume (Sync effect next) w) as [w' call']. cbn [snd].
    destruct Hl as [Hrun Hq].
    destruct (countRunning_replace_running _ i _ call' E) as (H1 & H2 & H3).
    split; cbn [pool_running pool_slots]; [congruence|].
    rewrite H3. exact Hq.
  - destruct (resume (Await k) w) as [w' call']. cbn [snd].
    destruct Hl as [Hrun Hq].
    destruct (countRunning_replace_running _ i _ call' E) as (H1 & H2 & H3).
    split; cbn [pool_running pool_slots]; [congruence|].
    rewrite H3. exact Hq.
Qed.

Lemma slotFree_more : forall concurrency running,
  slotFree concurrency running = false ->
  slotFree concurrency (S running) = false.
Proof.
  intros [N |] running; cbn [slotFree]; [|discriminate].
  rewrite !Nat.ltb_ge. lia.
Qed.

Lemma submitAll_books : forall concurrency (tasks : list (Async B)) running w,
  pool_running (snd (submitAll concurrency tasks running w))
  = running + countRunning (pool_slots (snd (submitAll concurrency tasks running w)))
  /\ (hasQueued (pool_slots (snd (submitAll concurrency tasks running w))) = true
      -> slotFree concurrency
           (pool_running (snd (submitAll concurrency tasks running w))) = false)
  /\ running <= pool_running (snd (submitAll concurrency tasks running w))
  /\ (slotFree concurrency running = false ->
      pool_running (snd (submitAll concurrency tasks running w)) = running).
Proof.
  intros c. induction tasks as [|fn tasks IH]; intros running w; cbn [submitAll].
  - cbn. repeat split; try lia; discriminate.
  - destruct (slotFree c running) eqn:Efree.
    + destruct (upToAwait fn w) as [w1 call].
      specialize (IH (S running) w1).
      destruct (submitAll c tasks (S running) w1) as [w2 pool].
      cbn [snd pool_running pool_slots countRunning hasQueued] in *.
      destruct IH as (H1 & H2 & H3 & H4).
      repeat split; try lia; try assumption; try discriminate.
    + specialize (IH running w).
      destruct (submitAll c tasks running w) as [w2 pool].
      cbn [snd pool_running pool_slots countRunning hasQueued] in *.
      destruct IH as (H1 & H2 & H3 & H4). repeat split; try lia; try assumption.
      * intros _. rewrite (H4 Efree). exact Efree.
      * intros _. exact (H4 Efree).
Qed.

Lemma firstRunning_found : forall (slots : list (Slot B)) base,
  match firstRunning slots base with
  | Some (i, call) =>
      base <= i /\ nth_error slots (i - base) = Some (Running call)
  | None => countRunning slots = 0
  end.
Proof.
  induction slots as [|slot slots IH]; intro base; cbn [firstRunning];
    [reflexivity|].
  destruct slot as [fn | call | r].
  - specialize (IH (S base)). destruct (firstRunning slots (S base)) as [[i call] |].
    + destruct IH as [Hle Hnth]. split; [lia|].
      replace (i - base) with (S (i - S base)) by lia. exact Hnth.
    + exact IH.
  - split; [lia|]. now rewrite Nat.sub_diag.
  - specialize (IH (S base)). destruct (firstRunning slots (S base)) as [[i call] |].
    + destruct IH as [Hle Hnth]. split; [lia|].
      replace (i - base) with (S (i - S base)) by lia. exact Hnth.
    + exact IH.
Qed.

Lemma pending_runs_or_waits : forall (slots : list (Slot B)),
  outcomeOfAll slots = None ->
  (0 < countRunning slots \/ hasQueued slots = true) /\ 0 < unsettled slots.
Proof.
  induction slots as [|slot slots IH]; cbn [outcomeOfAll]; intro E;
    [discriminate|].
  destruct slot as [fn | call | [b | e |]];
    cbn [countRunning hasQueued unsettled]; try discriminate.
  - split; [now right | lia].
  - split; [left; lia | lia].
  - destruct (outcomeOfAll slots) as [[bs | e |] |]; try discriminate.
    exact (IH eq_refl).
Qed.

Lemma drain_goes_on : forall concurrency (pool : Pool B),
  concurrency <> Some 0 ->
  limiterKept concurrency pool ->
  outcomeOfAll (pool_slots pool) = None ->
  exists i call,
    firstRunning (pool_slots pool) 0 = Some (i, call)
    /\ nth_error (pool_slots pool) i = Some (Running call)
    /\ 0 < unsettled (pool_slots pool).
Proof.
  intros c pool Hc [Hrun Hq] E.
  destruct (pending_runs_or_waits _ E) as [Hsome Hun].
  pose proof (firstRunning_found (pool_slots pool) 0) as Hf.
  destruct (firstRunning (pool_slots pool) 0) as [[i call] |].
  - destruct Hf as [_ Hnth]. rewrite Nat.sub_0_r in Hnth. now exists i, call.
  - exfalso. destruct Hsome as [Hsome | Hsome]; [lia|].
    specialize (Hq Hsome). rewrite Hrun, Hf in Hq.
    destruct c as [[|N] |]; cbn in Hq; congruence.
Qed.

(** **** The rule of [Promise.all] *)

Lemma settled_safe : forall w0 w xs slots r,
  poolKept I G P w xs slots -> outcomeOfAll slots = Some r -> I w -> G w0 w ->
  safe I G (Await (Finished r)) w0 w (kept I G (allKept P xs)).
Proof.
  intros w0 w xs slots r Hp E HI HG. cbn [safe].
  split; [exact HI|]. split; [exact HG|]. intros w' HI' HG'.
  split; [exact HI'|]. split; [apply G_refl|].
  eapply allKept_later; [exact HG'|]. eapply outcomeOfAll_kept; eassumption.
Qed.

Lemma drain_safe : forall concurrency xs,
  concurrency <> Some 0 ->
  forall fuel pool w0 w,
    poolKept I G P w xs (pool_slots pool) ->
    limiterKept concurrency pool ->
    unsettled (pool_slots pool) <= fuel ->
    I w -> G w0 w ->
    safe I G (drainPool concurrency fuel pool) w0 w (kept I G (allKept P xs)).
Proof.
  intros c xs Hc. induction fuel as [|fuel IH]; intros pool w0 w Hp Hl Hfuel HI HG;
    cbn [drainPool].
  - destruct (outcomeOfAll (pool_slots pool)) as [r |] eqn:E.
    + eapply settled_safe; eassumption.
    + destruct (drain_goes_on c pool Hc Hl E) as (i & call & _ & _ & Hpos). lia.
  - destruct (outcomeOfAll (pool_slots pool)) as [r |] eqn:E.
    + eapply settled_safe; eassumption.
    + destruct (drain_goes_on c pool Hc Hl E) as (i & call & Hfirst & Hnth & Hpos).
      rewrite Hfirst.
      destruct (poolKept_nth _ _ _ _ _ Hp Hnth) as (x & Hx & Hs).
      (* what the release does, from any world reached *)
      assert (Hrel : forall r w1 w0',
                 G w w1 -> I w1 -> G w0' w1 -> P x r w1 ->
                 safe I G
                   (Await
                      (Sync (fun w2 => fst (release c i r pool w2))
                         (fun w2 => drainPool c fuel (snd (release c i r pool w2)))))
                   w0' w1 (kept I G (allKept P xs))).
      { intros r w1 w0' Hw1 HI1 HG1 HP1. cbn [safe].
        split; [exact HI1|]. split; [exact HG1|]. intros w2 HI2 HG2.
        assert (Hw2 : G w w2) by (eapply G_trans; eassumption).
        destruct (release_kept c i r pool w2 xs x HI2
                    (poolKept_later _ _ _ _ Hw2 Hp) Hx
                    (P_stable _ _ _ _ HP1 HG2)) as (HI3 & HG3 & Hp3).
        destruct (release_books c i r call pool w2 Hl Hnth) as [Hl3 Hun3].
        apply IH; try assumption. lia. }
      destruct call as [r | effect next | k]; cbn [slotKept] in Hs.
      * cbn [finishThen]. apply Hrel; try assumption. apply G_refl.
      * destruct Hs.
      * cbn [finishThen safe]. split; [exact HI|]. split; [exact HG|].
        intros w1 HI1 HG1. apply safe_finishThen.
        eapply safe_weaken;
          [ apply (safe_since _ k w w1 w1 _ HG1 (Hs w1 HI1 HG1)) |].
        cbv beta. intros r w0' w2 (Hsince & HI2 & HG2 & HP2).
        apply Hrel; try assumption. eapply G_trans; eassumption.
Qed.

Lemma awaitAll_safe : forall concurrency xs,
  concurrency <> Some 0 ->
  forall schedule pool w0 w,
    poolKept I G P w xs (pool_slots pool) ->
    limiterKept concurrency pool ->
    I w -> G w0 w ->
    safe I G (awaitAll concurrency schedule pool) w0 w (kept I G (allKept P xs)).
Proof.
  intros c xs Hc. induction schedule as [|i schedule IH];
    intros pool w0 w Hp Hl HI HG; cbn [awaitAll].
  - destruct (outcomeOfAll (pool_slots pool)) as [r |] eqn:E.
    + eapply settled_safe; eassumption.
    + apply drain_safe; try assumption.
      clear. induction (pool_slots pool) as [|[fn | call | r] slots IHs];
        cbn [unsettled length]; lia.
  - destruct (outcomeOfAll (pool_slots pool)) as [r |] eqn:E.
    + eapply settled_safe; eassumption.
    + cbn [safe]. split; [exact HI|]. split; [exact HG|]. intros w1 HI1 HG1.
      destruct (stepPool_kept c i pool w w1 xs Hp HI1 HG1) as (HI2 & HG2 & Hp2).
      apply IH; try assumption. apply stepPool_books. exact Hl.
Qed.

(** Tasks that keep to the rules, whatever the others do, make a
    [Promise.all] that keeps to them, in every order in which the host lets
    them go on; it hands on the values of all the tasks, or the exception of
    one of them. *)
Lemma promiseAll_safe : forall concurrency (task : X -> Async B) xs,
  concurrency <> Some 0 ->
  (forall x w, In x xs -> I w -> safe I G (task x) w w (kept I G (P x))) ->
  forall schedule w0 w,
    I w -> G w0 w ->
    safe I G (promiseAll concurrency schedule (map task xs)) w0 w
      (kept I G (allKept P xs)).
Proof.
  intros c task xs Hc Htask schedule w0 w HI HG. unfold promiseAll. cbn [safe].
  destruct (submitAll_kept c task xs 0 w Htask HI) as (HI1 & HG1 & Hp).
  pose proof (submitAll_books c (map task xs) 0 w) as (Hb1 & Hb2 & _).
  apply awaitAll_safe; try assumption.
  - split; [exact Hb1 | exact Hb2].
  - eapply G_trans; eassumption.
Qed.

End Pool.
End SafeRules.

Ltac async_step :=
  lazymatch goal with
  | |- safe _ _ (bindA _ _) _ _ _ => apply safe_bindA
  | |- safe _ _ (tryCatchA _ _) _ _ _ => apply safe_tryCatchA
  | |- safe _ _ (awaitCall _) _ _ _ => apply safe_awaitCall
  | |- safe _ _ (sync _) _ _ _ => apply safe_sync
  | |- safe _ _ (await _) _ _ _ => apply safe_await
  | |- safe _ _ (retA _) _ _ _ => apply safe_retA
  | |- safe _ _ (throwA _) _ _ _ => unfold throwA; cbn [safe]
  | |- safe _ _ (Finished _) _ _ _ => cbn [safe]
  | |- safe _ _ (if ?b then _ else _) _ _ _ => destruct b eqn:?
  | |- safe _ _ (match ?x with _ => _ end) _ _ _ => destruct x eqn:?
  | |- holdsAfter _ _ _ => eff_step
  | |- (if ?b then _ else _) => destruct b eqn:?
  | |- match ?x with _ => _ end => destruct x eqn:?
  end; cbv beta match.

(** At an await: the rules are kept ([tI], [tG]), and the call goes on in
    a world that the others left. *)
Ltac at_await tI tG :=
  lazymatch goal with
  | |- _ /\ _ /\ (forall w', _ -> _ -> _) =>
      split; [tI | split; [tG | intros ? ? ?]]
  end.

Ltac async_steps tI tG := repeat first [async_step | at_await tI tG].

(** ** A call alone is the call of Part I *)

Lemma bind_ext : forall A B (m1 m2 : Eff A) (k1 k2 : A -> Eff B) w,
  m1 w = m2 w -> (forall a w', k1 a w' = k2 a w') ->
  bind m1 k1 w = bind m2 k2 w.
Proof.
  intros A B m1 m2 k1 k2 w Hm Hk. unfold bind. rewrite Hm.
  destruct (m2 w) as [w' [a | e |]]; auto.
Qed.

Lemma tryCatch_ext : forall A (b1 b2 : Eff A) (h1 h2 : Error -> Eff A) w,
  b1 w = b2 w -> (forall e w', h1 e w' = h2 e w') ->
  tryCatch b1 h1 w = tryCatch b2 h2 w.
Proof.
  intros A b1 b2 h1 h2 w Hb Hh. unfold tryCatch. rewrite Hb.
  destruct (b2 w) as [w' [a | e |]]; auto.
Qed.

Lemma runAlone_bindA : forall A B (m : Async A) (k : A -> Async B) w,
  runAlone (bindA m k) w = bind (runAlone m) (fun a => runAlone (k a)) w.
Proof.
  intros A B m k. induction m as [r | effect next IH | m IH]; intro w;
    cbn [bindA runAlone].
  - destruct r; reflexivity.
  - rewrite IH. reflexivity.
  - rewrite IH. reflexivity.
Qed.

Lemma runAlone_tryCatchA : forall A (body : Async A) handler w,
  runAlone (tryCatchA body handler) w
  = tryCatch (runAlone body) (fun e => runAlone (handler e)) w.
Proof.
  intros A body handler. induction body as [r | effect next IH | body IH];
    intro w; cbn [tryCatchA runAlone].
  - destruct r; reflexivity.
  - rewrite IH. reflexivity.
  - rewrite IH. reflexivity.
Qed.

Lemma runAlone_sync : forall A (m : Eff A) w, runAlone (sync m) w = m w.
Proof. intros A m w. cbn. symmetry. apply surjective_pairing. Qed.

Lemma runAlone_await : forall A (promise : Eff A) w,
  runAlone (await promise) w = promise w.
Proof. intros A promise w. cbn. symmetry. apply surjective_pairing. Qed.

Lemma runAlone_awaitCall : forall A (call : Async A) w,
  runAlone (awaitCall call) w = runAlone call w.
Proof.
  intros A call. induction call as [r | effect next IH | call IH]; intro w;
    cbn [awaitCall runAlone]; auto.
Qed.

Ltac alone_step :=
  lazymatch goal with
  | |- runAlone (bindA _ _) _ = bind _ _ _ =>
      rewrite runAlone_bindA; apply bind_ext; [| intros ? ?]
  | |- runAlone (tryCatchA _ _) _ = tryCatch _ _ _ =>
      rewrite runAlone_tryCatchA; apply tryCatch_ext; [| intros ? ?]
  | |- runAlone (sync _) _ = _ => rewrite runAlone_sync; reflexivity
  | |- runAlone (await _) _ = _ => rewrite runAlone_await; reflexivity
  | |- runAlone (awaitCall _) _ = _ => rewrite runAlone_awaitCall
  | |- runAlone (retA _) _ = _ => reflexivity
  | |- runAlone (Finished _) _ = _ => reflexivity
  | |- runAlone (if ?b then _ else _) _ = _ => destruct b
  | |- runAlone (match ?x with _ => _ end) _ = _ => destruct x
  end.

Lemma scanStreamAsync_alone : forall reads total w,
  runAlone (scanStreamAsync reads total) w = liftRes (scanStream reads total) w.
Proof.
  induction reads as [|r reads IH]; intros total w;
    cbn [scanStreamAsync scanStream].
  - destruct (total <? 512); reflexivity.
  - destruct (total <? 512); [|reflexivity]. cbn [runAlone].
    destruct r as [value | e]; [|reflexivity].
    destruct (scanChunk value total) as [result total'].
    destruct result; [reflexivity | apply IH].
Qed.

(** [isBinary] of Part I is the call of [isBinaryAsync] that runs alone. *)
Lemma isBinary_alone : forall fs absPath w,
  runAlone (isBinaryAsync fs absPath) w = isBinary fs absPath w.
Proof.
  intros fs absPath w. unfold isBinaryAsync, isBinary.
  repeat alone_step.
  rewrite runAlone_bindA. unfold bind at 1. rewrite runAlone_await.
  unfold bind, tick, emit. cbn.
  match goal with
  | |- context [liftRes ?x] => destruct x as [reads | e]; [|reflexivity]
  end.
  cbn. apply scanStreamAsync_alone.
Qed.

Lemma countTokensFile_alone : forall fs tk signal absPath w,
  runAlone (countTokensFileAsync fs tk signal absPath) w
  = countTokensFile fs tk signal absPath w.
Proof.
  intros fs tk signal absPath w. unfold countTokensFileAsync, countTokensFile.
  cbv zeta. repeat alone_step; apply isBinary_alone.
Qed.

Lemma getIgnoreParser_alone : forall fs decode root w,
  runAlone (getIgnoreParserAsync fs decode root) w = getIgnoreParser fs decode root w.
Proof.
  intros fs decode root w. unfold getIgnoreParserAsync, getIgnoreParser.
  cbv zeta. repeat alone_step.
Qed.

Lemma collectChildren_alone : forall recurseA recurse signal maxFiles counter uri,
  (forall u w, runAlone (recurseA u) w = recurse u w) ->
  forall children out w,
    runAlone (collectChildrenAsync recurseA signal maxFiles counter uri children out) w
    = collectChildren recurse signal maxFiles counter uri children out w.
Proof.
  intros recurseA recurse signal maxFiles counter uri Hrec.
  induction children as [|[name ty] rest IH]; intros out w;
    cbn [collectChildrenAsync collectChildren]; [reflexivity|].
  cbv zeta. repeat alone_step; [apply Hrec | apply IH].
Qed.

(** [collectFiles] of Part I is the call of [collectFilesAsync] that runs
    alone. *)
Lemma collectFiles_alone :
  forall fs ignoreParser root signal maxFiles counter fuel uri w,
    runAlone (collectFilesAsync fuel fs uri ignoreParser root signal maxFiles
                counter) w
    = collectFiles fuel fs uri ignoreParser root signal maxFiles counter w.
Proof.
  intros fs ig root signal maxFiles counter.
  induction fuel as [|fuel IH]; intros uri w;
    cbn [collectFilesAsync collectFiles]; [reflexivity|].
  cbv zeta. repeat alone_step.
  all: try reflexivity.
  all: apply collectChildren_alone; intros u w0; apply IH.
Qed.

(** ** FileCollector *)

Lemma collectChildren_cap : forall N c recurse signal uri,
  (forall u w, holdsAfter (recurse u) w (fun w' r => capRespected N c w w' r 0)) ->
  forall children out0 w,
    holdsAfter (collectChildren recurse signal (Some N) (Some c) uri children out0) w
      (fun w' r => capRespected N c w w' r (length out0)).
Proof.
  intros N c recurse signal uri Hrec.
  induction children as [|[name ty] rest IH]; intros out0 w;
    cbn [collectChildren].
  - eff_steps. unfold capRespected. repeat split; try lia.
    intros out E. inversion E. lia.
  - eff_steps.
    all: try (unfold capRespected; world_fields; repeat split; try lia;
              intros out E; inversion E; lia).
    all: eapply after_weaken; [apply Hrec|]; cbv beta.
    all: intros w1 [nested | e |] (H1 & H2 & H3); world_fields.
    all: try (unfold capRespected; world_fields; repeat split; try lia;
              intros out E; discriminate).
    all: eapply after_weaken; [apply IH|]; cbv beta.
    all: intros w2 r (H4 & H5 & H6); unfold capRespected; world_fields.
    all: specialize (H3 nested eq_refl).
    all: repeat split; try lia.
    all: intros out E; specialize (H6 out E); rewrite length_app in H6; lia.
Qed.

Ltac cap_arith :=
  unfold capRespected; world_fields; try rewrite Nat.eqb_refl;
  repeat match goal with
         | H : (_ <=? _) = false |- _ => apply Nat.leb_gt in H
         | H : (_ <=? _) = true |- _ => apply Nat.leb_le in H
         end;
  world_fields;
  repeat split; try lia;
  intros out E; inversion E; simpl; lia.

Lemma collectFiles_cap : forall N c fs ignoreParser root signal fuel uri w,
  holdsAfter (collectFiles fuel fs uri ignoreParser root signal (Some N) (Some c)) w
    (fun w' r => capRespected N c w w' r 0).
Proof.
  intros N c fs ignoreParser root signal.
  induction fuel as [|fuel IH]; intros uri w; cbn [collectFiles].
  - eff_steps. unfold capRespected. repeat split; try lia. discriminate.
  - eff_steps.
    all: lazymatch goal with
         | |- holdsAfter (collectChildren _ _ _ _ _ _ _) _ _ =>
             eapply after_weaken;
             [ apply collectChildren_cap; intros u w0; apply IH
             | cbv beta; intros w' r (H1 & H2 & H3); unfold capRespected;
               world_fields; repeat split; try lia; exact H3 ]
         | |- _ => cap_arith
         end.
Qed.

(** C2. One traversal call with the cap [N] and the shared counter [c], on
    any filesystem, matcher, abort signal and depth of recursion, and however
    the call ends: the counter never decreases and is never incremented past
    [N]; and when the call returns, the counter has grown by the number of
    paths returned, which is at most [N]. *)
Theorem collectFiles_respects_cap :
  forall fuel fs uri ignoreParser root signal (N c : nat) (w w' : World) r,
    collectFiles fuel fs uri ignoreParser root signal (Some N) (Some c) w = (w', r) ->
    counters w c <= counters w' c
    /\ counters w' c <= Nat.max (counters w c) N
    /\ forall out, r = Returned out ->
         length out <= N /\ counters w c + length out = counters w' c.
Proof.
  intros fuel fs uri ignoreParser root signal N c w w' r Hrun.
  pose proof (after_run _ _ _ _ _ _
                (collectFiles_cap N c fs ignoreParser root signal fuel uri w) Hrun)
    as (H1 & H2 & H3).
  split; [exact H1|]. split; [exact H2|].
  intros out E. specialize (H3 out E). lia.
Qed.

(** The cap 1 on [capTree]: one path comes back and the counter stops at 1. *)
Lemma collectFiles_respects_cap_witness :
  counters emptyWorld 0
  <= counters (fst (collectFiles 3 (staticFs capTree) [] ignoresNothing [] None
                      (Some 1) (Some 0) emptyWorld)) 0
  /\ counters (fst (collectFiles 3 (staticFs capTree) [] ignoresNothing [] None
                      (Some 1) (Some 0) emptyWorld)) 0
     <= Nat.max (counters emptyWorld 0) 1
  /\ forall out,
       snd (collectFiles 3 (staticFs capTree) [] ignoresNothing [] None
              (Some 1) (Some 0) emptyWorld) = Returned out ->
       length out <= 1
       /\ counters emptyWorld 0 + length out
          = counters (fst (collectFiles 3 (staticFs capTree) [] ignoresNothing []
                             None (Some 1) (Some 0) emptyWorld)) 0.
Proof.
  apply (collectFiles_respects_cap 3 (staticFs capTree) [] ignoresNothing [] None
           1 0 emptyWorld).
  apply surjective_pairing.
Defined.

Example collectFiles_cap_1_on_capTree :
  snd (collectFiles 3 (staticFs capTree) [] ignoresNothing [] None
         (Some 1) (Some 0) emptyWorld)
  = Returned [["d"; "f1"]%string].
Proof. reflexivity. Qed.

(** *** Termination *)

(** When no path of [D] segments or more is a directory, a traversal from
    [uri] needs no more than [D + 1 - length uri] levels of recursion. *)
Lemma collectChildren_terminates : forall recurse signal maxFiles counter uri,
  (forall name w, holdsAfter (recurse (joinPath uri name)) w
                    (fun _ r => r <> OutOfFuel)) ->
  forall children out0 w,
    holdsAfter (collectChildren recurse signal maxFiles counter uri children out0) w
      (fun _ r => r <> OutOfFuel).
Proof.
  intros recurse signal maxFiles counter uri Hrec.
  induction children as [|[name ty] rest IH]; intros out0 w;
    cbn [collectChildren]; eff_steps; try discriminate.
  all: eapply after_weaken; [apply Hrec|]; cbv beta.
  all: intros w1 [nested | e |] H; try discriminate; try congruence.
  all: apply IH.
Qed.

Lemma collectFiles_terminates :
  forall fs ignoreParser root signal maxFiles counter (D : nat),
    (forall t u st, D <= length u -> fs_stat fs t u = Ok st ->
                    stat_type st <> FileType_Directory) ->
    forall fuel uri w,
      1 <= fuel -> D + 1 <= fuel + length uri ->
      holdsAfter (collectFiles fuel fs uri ignoreParser root signal maxFiles counter) w
        (fun _ r => r <> OutOfFuel).
Proof.
  intros fs ignoreParser root signal maxFiles counter D Hdepth.
  induction fuel as [|fuel IH]; intros uri w Hfuel Hbound; [lia|].
  cbn [collectFiles]. eff_steps; try discriminate.
  all: lazymatch goal with
       | |- holdsAfter (collectChildren _ _ _ _ _ _ _) _ _ =>
           apply collectChildren_terminates; intros name w0;
           match goal with
           | Hs : fs_stat _ _ _ = Ok ?st,
             Hd : (stat_type ?st =? FileType_Directory) = true |- _ =>
               apply Nat.eqb_eq in Hd;
               assert (length uri < D)
                 by (destruct (Nat.lt_ge_cases (length uri) D) as [|Hge];
                     [assumption | exfalso; exact (Hdepth _ _ _ Hge Hs Hd)])
           end;
           apply IH; unfold joinPath; rewrite ?length_app; simpl; lia
       | |- _ => idtac
       end.
Qed.

(** *** Termination on a tree *)

Lemma child_height : forall segment entries child,
  mapGet String.eqb segment entries = Some child ->
  fsHeight child
  <= fold_right (fun entry h => Nat.max (fsHeight (snd entry)) h) 0 entries.
Proof.
  intros segment entries child. induction entries as [|[name node] entries IH];
    simpl; intro H; [discriminate|].
  destruct (String.eqb segment name).
  - inversion H; subst. apply Nat.le_max_l.
  - etransitivity; [now apply IH | apply Nat.le_max_r].
Qed.

Lemma directory_depth : forall path tree entries,
  fsLookup tree path = Some (DirNode entries) -> length path < fsHeight tree.
Proof.
  induction path as [|segment path IH]; intros tree entries H.
  - simpl in H. inversion H; subst. simpl. lia.
  - destruct tree as [mtime content | es]; simpl in H; [discriminate|].
    destruct (mapGet String.eqb segment es) as [child |] eqn:Hc; [|discriminate].
    apply IH in H. apply child_height in Hc. simpl. lia.
Qed.

(** On a tree, a traversal with one level of recursion more than the tree
    has directory levels always comes to an end. *)
Lemma collectFiles_terminates_on_tree :
  forall tree ig root signal maxFiles counter uri w,
    snd (collectFiles (S (fsHeight tree)) (staticFs tree) uri ig root signal
           maxFiles counter w)
    <> OutOfFuel.
Proof.
  intros tree ig root signal maxFiles counter uri w.
  apply (collectFiles_terminates (staticFs tree) ig root signal maxFiles counter
           (fsHeight tree)); try lia.
  intros t u st Hdeep Hstat Hdir. cbn [staticFs fs_stat] in Hstat.
  destruct (fsLookup tree u) as [[mtime content | entries] |] eqn:Hlook;
    inversion Hstat; subst; try discriminate.
  apply directory_depth in Hlook. lia.
Qed.

(** *** Pruning *)

Lemma ignoredDirectory_true : forall ig root dir,
  ignoredDirectory ig root dir = true ->
  String.eqb (relPosix root dir) "" = false
  /\ ig (relPosix root dir ++ "/")%string = true.
Proof.
  intros ig root dir H. unfold ignoredDirectory in H.
  apply andb_true_iff in H. destruct H as [H1 H2].
  apply negb_true_iff in H1. now split.
Qed.

(** An ignored directory: the call returns [[]] and has asked the host for
    nothing but, at most, the stat of the directory itself. *)
Lemma collectFiles_stops_at_ignored_directory :
  forall fs ig root signal maxFiles counter fuel dir w,
    (forall t, exists st, fs_stat fs t dir = Ok st
                          /\ stat_type st = FileType_Directory) ->
    ignoredDirectory ig root dir = true ->
    holdsAfter (collectFiles (S fuel) fs dir ig root signal maxFiles counter) w
      (fun w' r => r = Returned []
                   /\ (trace w' = trace w \/ trace w' = trace w ++ [FsStat dir])
                   /\ counters w' = counters w).
Proof.
  intros fs ig root signal maxFiles counter fuel dir w Hdir Hign.
  apply ignoredDirectory_true in Hign. destruct Hign as [Hrel Hig].
  cbn [collectFiles]. rewrite Hrel, Hig.
  apply after_bind, after_aborted.
  assert (Hstat : forall w0, trace w0 = trace w -> counters w0 = counters w ->
            holdsAfter
              (stat <- fsLimit (vsStat fs dir);;
               (if Nat.eqb (stat_type stat) FileType_Directory
                then ret []
                else
                  if negb false && ig (relPosix root dir)
                  then ret []
                  else
                    match maxFiles with
                    | Some m =>
                        match counter with
                        | Some c =>
                            n <- readCount c;;
                            (if m <=? n then ret [] else incrCount c;;; ret [dir])
                        | None => ret [dir]
                        end
                    | None => ret [dir]
                    end)) w0
              (fun w' r => r = Returned []
                   /\ (trace w' = trace w \/ trace w' = trace w ++ [FsStat dir])
                   /\ counters w' = counters w)).
  { intros w0 Ht Hc. apply after_bind. unfold fsLimit. apply after_vsStat.
    destruct (Hdir (now w0)) as [st [Hst Hty]]. rewrite Hst, Hty.
    cbn [Nat.eqb FileType_Directory]. apply after_ret. world_fields.
    rewrite Ht, Hc. auto. }
  destruct signal as [s |].
  - destruct (s (now w)).
    + apply after_ret. auto.
    + apply Hstat; reflexivity.
  - apply Hstat; reflexivity.
Qed.

Lemma prunedBelow_nil : forall ig root uri, prunedBelow ig root uri [].
Proof. intros ig root uri p []. Qed.

Lemma prunedBelow_self : forall ig root uri, prunedBelow ig root uri [uri].
Proof.
  intros ig root uri p [Hp | []]. subst p. exists []. split.
  - now rewrite app_nil_r.
  - intros pre post Heq Hpost. symmetry in Heq.
    apply app_eq_nil in Heq. destruct Heq as [_ Heq]. contradiction.
Qed.

Lemma prunedBelow_app : forall ig root uri out1 out2,
  prunedBelow ig root uri out1 -> prunedBelow ig root uri out2 ->
  prunedBelow ig root uri (out1 ++ out2).
Proof.
  intros ig root uri out1 out2 H1 H2 p Hin.
  apply in_app_or in Hin. destruct Hin as [Hin | Hin]; auto.
Qed.

Lemma prunedBelow_child : forall ig root uri name nested,
  ignoredDirectory ig root uri = false ->
  prunedBelow ig root (joinPath uri name) nested ->
  prunedBelow ig root uri nested.
Proof.
  intros ig root uri name nested Huri Hchild p Hin.
  destruct (Hchild p Hin) as [s [Hp Hs]]. unfold joinPath in *.
  exists (name :: s). split.
  - rewrite Hp, <- app_assoc. reflexivity.
  - intros [|x pre] post Heq Hpost.
    + now rewrite app_nil_r.
    + simpl in Heq. inversion Heq; subst.
      replace (uri ++ x :: pre) with ((uri ++ [x]) ++ pre)
        by (rewrite <- app_assoc; reflexivity).
      now apply (Hs pre post).
Qed.

Lemma collectChildren_pruned : forall ig root recurse signal maxFiles counter uri,
  ignoredDirectory ig root uri = false ->
  (forall name w,
     holdsAfter (recurse (joinPath uri name)) w
       (fun _ r => forall out, r = Returned out ->
                               prunedBelow ig root (joinPath uri name) out)) ->
  forall children out0 w,
    prunedBelow ig root uri out0 ->
    holdsAfter (collectChildren recurse signal maxFiles counter uri children out0) w
      (fun _ r => forall out, r = Returned out -> prunedBelow ig root uri out).
Proof.
  intros ig root recurse signal maxFiles counter uri Huri Hrec.
  induction children as [|[name ty] rest IH]; intros out0 w Hout0;
    cbn [collectChildren]; eff_steps;
    try (intros out E; inversion E; subst; assumption);
    try discriminate.
  all: eapply after_weaken; [apply Hrec|]; cbv beta.
  all: intros w1 [nested | e |] H; try discriminate.
  all: apply IH, prunedBelow_app; [assumption|].
  all: eapply prunedBelow_child; [exact Huri | now apply H].
Qed.

Lemma collectFiles_pruned : forall fs ig root signal maxFiles counter fuel uri w,
  holdsAfter (collectFiles fuel fs uri ig root signal maxFiles counter) w
    (fun _ r => forall out, r = Returned out -> prunedBelow ig root uri out).
Proof.
  intros fs ig root signal maxFiles counter.
  induction fuel as [|fuel IH]; intros uri w; cbn [collectFiles]; eff_steps;
    try discriminate;
    try (intros out E; inversion E; subst;
         first [apply prunedBelow_nil | apply prunedBelow_self]).
  all: apply collectChildren_pruned;
    [ | intros name w0; apply IH | apply prunedBelow_nil ].
  all: unfold ignoredDirectory.
  all: destruct (String.eqb (relPosix root uri) ""); simpl; congruence.
Qed.

(** C3. A directory that the matcher ignores (its root-relative path with a
    trailing slash matches, and it is not the traversal root) is not listed
    and nothing beneath it is statted: the call on it returns the empty list
    after, at most, the stat of the directory itself.  Hence no path that
    lies beneath such a directory is in the result of a traversal that
    starts at or above it. *)
Theorem ignored_directory_subtree_is_absent :
  forall fs ig root signal maxFiles counter,
    (forall fuel dir w,
        (forall t, exists st, fs_stat fs t dir = Ok st
                              /\ stat_type st = FileType_Directory) ->
        ignoredDirectory ig root dir = true ->
        exists w',
          collectFiles (S fuel) fs dir ig root signal maxFiles counter w
          = (w', Returned [])
          /\ (trace w' = trace w \/ trace w' = trace w ++ [FsStat dir]))
    /\ (forall fuel uri w w' out pre post,
          collectFiles fuel fs uri ig root signal maxFiles counter w
          = (w', Returned out) ->
          ignoredDirectory ig root (uri ++ pre) = true ->
          post <> [] ->
          ~ In (uri ++ pre ++ post) out).
Proof.
  intros fs ig root signal maxFiles counter. split.
  - intros fuel dir w Hdir Hign.
    pose proof (collectFiles_stops_at_ignored_directory
                  fs ig root signal maxFiles counter fuel dir w Hdir Hign) as H.
    unfold holdsAfter in H. destruct H as (Hr & Ht & _).
    exists (fst (collectFiles (S fuel) fs dir ig root signal maxFiles counter w)).
    split; [|exact Ht].
    rewrite <- Hr. apply surjective_pairing.
  - intros fuel uri w w' out pre post Hrun Hign Hpost Hin.
    pose proof (after_run _ _ _ _ _ _
                  (collectFiles_pruned fs ig root signal maxFiles counter fuel uri w)
                  Hrun out eq_refl) as Hpruned.
    destruct (Hpruned _ Hin) as [s [Hp Hs]].
    apply app_inv_head in Hp. symmetry in Hp.
    rewrite (Hs pre post Hp Hpost) in Hign. discriminate.
Qed.

(** The pattern [dist/] on [distTree]: the call on [dist] stops at once, and
    neither [dist/a.txt] nor [dist/sub/b.txt] is in the result of the
    traversal of the root. *)
Lemma ignored_directory_subtree_is_absent_witness :
  (exists w',
     collectFiles 1 (staticFs distTree) ["dist"%string] ignoresDist [] None None None
                  emptyWorld
     = (w', Returned [])
     /\ (trace w' = trace emptyWorld
         \/ trace w' = trace emptyWorld ++ [FsStat ["dist"%string]]))
  /\ ~ In ([] ++ ["dist"%string] ++ ["a.txt"%string]) [["README.md"%string]]
  /\ ~ In ([] ++ ["dist"%string] ++ ["sub"%string; "b.txt"%string])
          [["README.md"%string]].
Proof.
  destruct (ignored_directory_subtree_is_absent
              (staticFs distTree) ignoresDist [] None None None) as [Hstop Habsent].
  split; [|split].
  - apply Hstop.
    + intro t. eexists. split; reflexivity.
    + reflexivity.
  - apply (Habsent 4 [] emptyWorld
             (fst (collectFiles 4 (staticFs distTree) [] ignoresDist [] None None
                     None emptyWorld))).
    + reflexivity.
    + reflexivity.
    + discriminate.
  - apply (Habsent 4 [] emptyWorld
             (fst (collectFiles 4 (staticFs distTree) [] ignoresDist [] None None
                     None emptyWorld))).
    + reflexivity.
    + reflexivity.
    + discriminate.
Defined.

(** The run behind the witness: what is returned and what the host was
    asked. *)
Example pruning_dist :
  collectFiles 4 (staticFs distTree) [] ignoresDist [] None None None emptyWorld
  = (mkWorld 4
       [FsStat []; FsReadDirectory []; FsStat ["dist"%string];
        FsStat ["README.md"%string]]
       (fun _ => 0) [] [] [] 0,
     Returned [["README.md"%string]]).
Proof. reflexivity. Qed.

Lemma relative_self : forall root, relative root root = [].
Proof.
  induction root as [|x root IH]; simpl; [reflexivity|].
  now rewrite String.eqb_refl.
Qed.

(** The traversal root itself is never tested against the matcher. *)
Lemma root_is_not_ignored : forall ig root, ignoredDirectory ig root root = false.
Proof.
  intros ig root. unfold ignoredDirectory, relPosix.
  rewrite relative_self. reflexivity.
Qed.

(** *** The cap diagnostic *)

(** Once the counter is at or past the cap, the child loop takes no further
    child and returns what it has, without an error. *)
Lemma collectChildren_soft_stop :
  forall recurse signal N c uri name ty rest out0 w,
    N <= counters w c ->
    holdsAfter
      (collectChildren recurse signal (Some N) (Some c) uri ((name, ty) :: rest) out0)
      w
      (fun w' r => r = Returned out0 /\ counters w' = counters w).
Proof.
  intros recurse signal N c uri name ty rest out0 w Hcap.
  cbn [collectChildren]. eff_steps; world_fields; auto.
  all: repeat match goal with
              | H : (_ <=? _) = false |- _ => apply Nat.leb_gt in H
              end.
  all: world_fields; lia.
Qed.

(** C9 (the code departs from the claim). With the cap 1 on [capTree], the
    counter reaches the cap at [d/f1]; the loop over [d] stops before [d/f3]
    and warns, and then the loop over the root stops before [f2] and warns
    again, because the counter still equals the cap: two diagnostics for one
    traversal call, where the claim (and the comment in the code, "log once
    per traversal") says one.  The stop itself is soft: the call returns the
    path collected so far. *)
Theorem cap_warning_repeats_per_open_directory :
  snd (collectFiles 3 (staticFs capTree) [] ignoresNothing [] None
         (Some 1) (Some 0) emptyWorld)
  = Returned [["d"; "f1"]%string]
  /\ filter isCapWarning
       (trace (fst (collectFiles 3 (staticFs capTree) [] ignoresNothing [] None
                      (Some 1) (Some 0) emptyWorld)))
     = [WarnCapHit 1; WarnCapHit 1].
Proof. split; reflexivity. Qed.

(** ** ContentClassifier *)

(** [isBinary] always returns; it leaves the token cache, the matcher cache
    and the counters alone; and the verdict "text" is either a cached one or
    the result of a read that succeeded and found no zero byte. *)
Lemma isBinary_spec : forall fs absPath w,
  holdsAfter (isBinary fs absPath) w
    (fun w' r =>
       tokenCache w' = tokenCache w
       /\ ignoreParserCache w' = ignoreParserCache w
       /\ counters w' = counters w
       /\ exists verdict,
            r = Returned verdict
            /\ (verdict = false ->
                (exists c, mapGet Uri_eqb absPath (isBinaryCache w) = Some c
                           /\ bin_isBinary c = false)
                \/ (exists t bytes, fs_readFile fs t absPath = Ok bytes
                                    /\ hasZeroInPrefix bytes = false)
                \/ (exists readFileStream t reads,
                      fs_readFileStream fs = Some readFileStream
                      /\ readFileStream t absPath = Ok reads
                      /\ scanStream reads 0 = Ok false))).
Proof.
  intros fs absPath w. unfold isBinary. eff_steps; world_fields.
  all: repeat split; try reflexivity.
  all: eexists; split; [reflexivity|]; intro Hv; try discriminate.
  all: subst; eauto 10.
Qed.

(** ** TokenAccountant *)

Ltac through_isBinary :=
  lazymatch goal with
  | |- holdsAfter (isBinary _ _) _ _ =>
      eapply after_weaken;
      [ apply isBinary_spec
      | cbv beta;
        let w' := fresh "w" in
        let r := fresh "r" in
        let Htok := fresh "Htok" in
        let Hign := fresh "Hign" in
        let Hcnt := fresh "Hcnt" in
        let v := fresh "verdict" in
        let Hr := fresh "Hr" in
        let Hv := fresh "Hverdict" in
        intros w' r (Htok & Hign & Hcnt & v & Hr & Hv); subst r ]
  end.

(** The task for one path always returns a number; a number other than 0 is
    the cached count or the count of content just read. *)
Lemma countTokensFile_spec : forall fs tk signal absPath w,
  holdsAfter (countTokensFile fs tk signal absPath) w
    (fun w' r =>
       exists n,
         r = Returned n
         /\ (n = 0
             \/ (exists c, mapGet Uri_eqb absPath (tokenCache w) = Some c
                           /\ tok_tokens c = n)
             \/ (exists t bytes, fs_readFile fs t absPath = Ok bytes
                                 /\ encodeLength tk bytes = Ok n))).
Proof.
  intros fs tk signal absPath w. unfold countTokensFile.
  eff_steps; world_fields; try through_isBinary; eff_steps; world_fields.
  all: try (eexists; split; [reflexivity|]; eauto 10; fail).
Qed.

(** ** Token cache *)

Lemma mapGet_app_new : forall V k (v : V) (m : JsMap Uri V),
  mapGet Uri_eqb k m = None -> mapGet Uri_eqb k (m ++ [(k, v)]) = Some v.
Proof.
  intros V k v m. induction m as [|[k' v'] m IH]; simpl; intro H.
  - now rewrite Uri_eqb_refl.
  - destruct (Uri_eqb k k'); [discriminate | now apply IH].
Qed.

(** In a cache within its capacity, an entry just written survives the
    eviction that follows the write. *)
Lemma written_entry_survives : forall V MAX k (v : V) (m : JsMap Uri V),
  0 < MAX -> mapSize m <= MAX ->
  mapGet Uri_eqb k (evictOldest Uri_eqb MAX (mapSet Uri_eqb k v m)) = Some v.
Proof.
  intros V MAX k v m Hpos Hsize.
  destruct (mapGet Uri_eqb k m) as [old |] eqn:Hget.
  - rewrite (evictOldest_within Uri_eqb_eq).
    + apply (mapGet_mapSet_same Uri_eqb_eq).
    + rewrite mapSet_existing_size; [exact Hsize | congruence].
  - rewrite (mapSet_new _ _ _ Hget), (evictOldest_skipn Uri_eqb_eq).
    unfold mapSize in *. rewrite length_app. cbn [length].
    destruct (Nat.eq_dec (length m) MAX) as [Hfull | Hroom].
    + replace (length m + 1 - MAX) with 1 by lia.
      destruct m as [|[k0 v0] m]; [simpl in Hfull; lia|].
      cbn [app skipn]. apply mapGet_app_new.
      cbn [mapGet] in Hget. destruct (Uri_eqb k k0); [discriminate | exact Hget].
    + replace (length m + 1 - MAX) with 0 by lia.
      cbn [skipn]. now apply mapGet_app_new.
Qed.

Ltac eff_steps_with tac := repeat (eff_step; tac; cbv beta match).

(** With no cached verdict, on a host without streams, a file that can be
    read and has no zero byte in its first 512 bytes is text. *)
Lemma isBinary_text : forall fs absPath w bytes,
  fs_readFileStream fs = None ->
  (forall t, fs_readFile fs t absPath = Ok bytes) ->
  hasZeroInPrefix bytes = false ->
  mapGet Uri_eqb absPath (isBinaryCache w) = None ->
  holdsAfter (isBinary fs absPath) w
    (fun w' r => r = Returned false /\ tokenCache w' = tokenCache w).
Proof.
  intros fs absPath w bytes Hstream Hread Htext Hcache.
  unfold isBinary.
  eff_steps_with ltac:(world_fields; try rewrite Hstream; try rewrite Hread;
                       try rewrite Hcache; try rewrite Htext).
  all: world_fields; auto.
Qed.

(** The cache hit: the cached count is returned after the stat alone. *)
Lemma countTokensFile_hit : forall fs tk signal absPath w st c,
  neverAborted signal ->
  (forall t, fs_stat fs t absPath = Ok st) ->
  stat_size st <= MAX_PREVIEW_BYTES tk ->
  mapGet Uri_eqb absPath (tokenCache w) = Some c ->
  tok_mtime c = stat_mtime st ->
  tok_size c = stat_size st ->
  holdsAfter (countTokensFile fs tk signal absPath) w
    (fun w' r =>
       r = Returned (tok_tokens c)
       /\ trace w' = trace w ++ [FsStat absPath]
       /\ tokenCache w' = tokenCache w
       /\ isBinaryCache w' = isBinaryCache w).
Proof.
  intros fs tk signal absPath w st c Hsig Hstat Hsize Hget Hm Hs.
  assert (Hfresh : (MAX_PREVIEW_BYTES tk <? stat_size st) = false)
    by (apply Nat.ltb_ge; exact Hsize).
  assert (Hsame : Nat.eqb (tok_mtime c) (stat_mtime st)
                  && Nat.eqb (tok_size c) (stat_size st) = true)
    by (rewrite Hm, Hs, !Nat.eqb_refl; reflexivity).
  unfold countTokensFile.
  destruct signal as [s |].
  - assert (Hs' : forall t, s t = false) by (intro t; now apply (Hsig s t)).
    eff_steps_with ltac:(world_fields; try rewrite Hs'; try rewrite Hstat;
                         try rewrite Hfresh; try rewrite Hget;
                         try rewrite Hsame).
    world_fields. auto.
  - eff_steps_with ltac:(world_fields; try rewrite Hstat;
                         try rewrite Hfresh; try rewrite Hget;
                         try rewrite Hsame).
    world_fields. auto.
Qed.

(** No entry of the current [(mtime, size)]: the cached count is not used.
    Either the call yields 0 and leaves the token cache as it was, or it has
    read the content, tokenized it, and replaced the entry. *)
Lemma countTokensFile_miss : forall fs tk signal absPath w st,
  (forall t, fs_stat fs t absPath = Ok st) ->
  tokenCacheMiss (mapGet Uri_eqb absPath (tokenCache w)) st ->
  holdsAfter (countTokensFile fs tk signal absPath) w
    (fun w' r =>
       exists n,
         r = Returned n
         /\ ((n = 0 /\ tokenCache w' = tokenCache w)
             \/ (exists t bytes,
                   fs_readFile fs t absPath = Ok bytes
                   /\ encodeLength tk bytes = Ok n
                   /\ (exists earlier, trace w' = earlier ++ [FsReadFile absPath])
                   /\ tokenCache w'
                      = evictOldest Uri_eqb MAX_CACHE_SIZE
                          (mapSet Uri_eqb absPath
                             (mkTokenCacheEntry n (stat_mtime st) (stat_size st))
                             (tokenCache w))))).
Proof.
  intros fs tk signal absPath w st Hstat Hmiss.
  unfold tokenCacheMiss in Hmiss. unfold countTokensFile.
  eff_steps_with ltac:(world_fields; try rewrite Hstat);
    world_fields; try through_isBinary;
    eff_steps_with ltac:(world_fields); world_fields; tidy.
  all: try (exists 0; split; [reflexivity|]; left; split; [reflexivity|];
            world_fields; congruence).
  all: eexists; split; [reflexivity|]; right.
  all: do 2 eexists; split; [eassumption|]; split; [eassumption|].
  all: split; [eexists; reflexivity|].
  all: congruence.
Qed.

(** The miss on a text file that can be read and tokenized, with no abort:
    the content is re-read and re-tokenized, and the cache then maps the
    path to the new count under the current [(mtime, size)]. *)
Lemma countTokensFile_retokenizes : forall fs tk signal absPath w st bytes n,
  neverAborted signal ->
  (forall t, fs_stat fs t absPath = Ok st) ->
  stat_size st <= MAX_PREVIEW_BYTES tk ->
  tokenCacheMiss (mapGet Uri_eqb absPath (tokenCache w)) st ->
  fs_readFileStream fs = None ->
  (forall t, fs_readFile fs t absPath = Ok bytes) ->
  hasZeroInPrefix bytes = false ->
  mapGet Uri_eqb absPath (isBinaryCache w) = None ->
  encodeLength tk bytes = Ok n ->
  mapSize (tokenCache w) <= MAX_CACHE_SIZE ->
  holdsAfter (countTokensFile fs tk signal absPath) w
    (fun w' r =>
       r = Returned n
       /\ (exists earlier, trace w' = earlier ++ [FsReadFile absPath])
       /\ mapGet Uri_eqb absPath (tokenCache w')
          = Some (mkTokenCacheEntry n (stat_mtime st) (stat_size st))).
Proof.
  intros fs tk signal absPath w st bytes n Hsig Hstat Hsize Hmiss Hstream Hread
    Htext Hbin Henc Hcap.
  assert (Hfresh : (MAX_PREVIEW_BYTES tk <? stat_size st) = false)
    by (apply Nat.ltb_ge; exact Hsize).
  assert (Hsig' : forall s, signal = Some s -> forall t, s t = false)
    by (intros s Hs t; now apply (Hsig s t)).
  unfold tokenCacheMiss in Hmiss. unfold countTokensFile.
  destruct signal as [s |]; [specialize (Hsig' s eq_refl) | clear Hsig'].
  all: eff_steps_with ltac:(world_fields; try rewrite Hstat; try rewrite Hfresh;
                            try rewrite Hsig').
  all: world_fields; tidy.
  all: try (eapply after_weaken;
            [ apply (isBinary_text fs absPath _ bytes Hstream Hread Htext);
              world_fields; exact Hbin
            | cbv beta; intros w1 r1 [Hr1 Htok1]; subst r1;
              eff_steps_with ltac:(world_fields; try rewrite Hread;
                                   try rewrite Henc; try rewrite Hsig');
              world_fields;
              (split; [reflexivity|]); (split; [eexists; reflexivity|]);
              rewrite Htok1; world_fields;
              apply written_entry_survives;
              [ unfold MAX_CACHE_SIZE; apply Nat.lt_0_succ | exact Hcap ] ]).
Qed.

Lemma holds_to_run : forall A (m : Eff A) w (Q : World -> Outcome A -> Prop),
  holdsAfter m w Q -> exists w' r, m w = (w', r) /\ Q w' r.
Proof.
  intros A m w Q H. exists (fst (m w)), (snd (m w)).
  split; [apply surjective_pairing | exact H].
Qed.

Lemma isBinary_classified : forall fs absPath w st verdict,
  fs_stat fs (now w) absPath = Ok st ->
  classifiedAs fs w absPath st verdict ->
  holdsAfter (isBinary fs absPath) w
    (fun w' r => r = Returned verdict /\ tokenCache w' = tokenCache w).
Proof.
  intros fs absPath w st verdict Hstat Hclass.
  unfold classifiedAs in Hclass. unfold isBinary.
  eff_steps; world_fields; tidy.
  all: try (split; [congruence | reflexivity]).
  all: try specialize (Hclass (S (now w))).
  all: unfold scannedAs, scannedZero, contentUnreadable, scannedText in Hclass.
  all: destruct verdict; tidy.
  all: repeat match goal with
              | H : _ \/ _ |- _ => destruct H
              | H : exists _, _ |- _ => destruct H
              | H : _ /\ _ |- _ => destruct H
              end; tidy.
  all: try (split; reflexivity).
  all: try congruence.
  all: match goal with H : hasZeroInPrefix _ = _ |- _ => rewrite H end.
  all: split; reflexivity.
Qed.

Ltac through_classification fs absPath st verdict Hstat Hclass :=
  lazymatch goal with
  | |- holdsAfter (isBinary _ _) ?w1 _ =>
      eapply after_weaken;
      [ apply (isBinary_classified fs absPath w1 st verdict);
        [ apply Hstat | unfold classifiedAs in *; world_fields; exact Hclass ]
      | cbv beta;
        let w' := fresh "w" in
        let r := fresh "r" in
        let Hr := fresh "Hr" in
        let Htok := fresh "Htok" in
        intros w' r [Hr Htok]; subst r ]
  end.

(** The miss on a file that [isBinary] classifies as text and that can be
    read and tokenized, with no abort: the content is read and tokenized
    again, and the entry is replaced by one under the current
    [(mtime, size)]. *)
Lemma countTokensFile_recounts : forall fs tk signal absPath w st bytes n,
  neverAborted signal ->
  (forall t, fs_stat fs t absPath = Ok st) ->
  stat_size st <= MAX_PREVIEW_BYTES tk ->
  tokenCacheMiss (mapGet Uri_eqb absPath (tokenCache w)) st ->
  classifiedAs fs w absPath st false ->
  (forall t, fs_readFile fs t absPath = Ok bytes) ->
  encodeLength tk bytes = Ok n ->
  holdsAfter (countTokensFile fs tk signal absPath) w
    (fun w' r =>
       r = Returned n
       /\ (exists earlier, trace w' = earlier ++ [FsReadFile absPath])
       /\ tokenCache w'
          = evictOldest Uri_eqb MAX_CACHE_SIZE
              (mapSet Uri_eqb absPath
                 (mkTokenCacheEntry n (stat_mtime st) (stat_size st))
                 (tokenCache w))).
Proof.
  intros fs tk signal absPath w st bytes n Hsig Hstat Hsize Hmiss Hclass Hread
    Henc.
  assert (Hfresh : (MAX_PREVIEW_BYTES tk <? stat_size st) = false)
    by (apply Nat.ltb_ge; exact Hsize).
  assert (Hsig' : forall s, signal = Some s -> forall t, s t = false)
    by (intros s Hs t; now apply (Hsig s t)).
  unfold tokenCacheMiss in Hmiss. unfold countTokensFile.
  destruct signal as [s |]; [specialize (Hsig' s eq_refl) | clear Hsig'].
  all: eff_steps_with ltac:(world_fields; try rewrite Hstat; try rewrite Hfresh;
                            try rewrite Hsig').
  all: world_fields; tidy.
  all: through_classification fs absPath st false Hstat Hclass.
  all: eff_steps_with ltac:(world_fields; try rewrite Hread;
                            try rewrite Henc; try rewrite Hsig').
  all: world_fields.
  all: split; [reflexivity|]; split; [eexists; reflexivity|].
  all: rewrite Htok; reflexivity.
Qed.

Lemma countTokensFile_counts_nothing : forall fs tk signal absPath w st,
  (forall t, fs_stat fs t absPath = Ok st) ->
  tokenCacheMiss (mapGet Uri_eqb absPath (tokenCache w)) st ->
  countsNothing fs tk signal w absPath st ->
  holdsAfter (countTokensFile fs tk signal absPath) w
    (fun w' r => r = Returned 0 /\ tokenCache w' = tokenCache w).
Proof.
  intros fs tk signal absPath w st Hstat Hmiss Hnothing.
  assert (Hgeneral := countTokensFile_miss fs tk signal absPath w st Hstat Hmiss).
  destruct Hnothing as [(s & -> & Hs) | [Hbig | [Hclass | [Hread | Henc]]]].
  - unfold countTokensFile.
    eff_steps_with ltac:(world_fields; try rewrite Hs).
    world_fields. split; reflexivity.
  - apply Nat.ltb_lt in Hbig. unfold countTokensFile.
    eff_steps_with ltac:(world_fields; try rewrite Hstat; try rewrite Hbig).
    all: world_fields; split; reflexivity.
  - unfold tokenCacheMiss in Hmiss. unfold countTokensFile.
    eff_steps_with ltac:(world_fields; try rewrite Hstat).
    all: world_fields; tidy.
    all: try (split; reflexivity).
    all: through_classification fs absPath st true Hstat Hclass.
    all: eff_steps; world_fields; split; [reflexivity | exact Htok].
  - unfold holdsAfter in *.
    destruct Hgeneral as (n & Hr & [[-> Hsame] | (t & bytes & Hok & _)]).
    + split; assumption.
    + destruct (Hread t) as [e He]. congruence.
  - unfold holdsAfter in *.
    destruct Hgeneral as (n & Hr & [[-> Hsame] | (t & bytes & Hok & Hen & _)]).
    + split; assumption.
    + destruct (Henc t bytes Hok) as [e He]. congruence.
Qed.

(** C7, as the code has it, for the task of one path whose stat answers
    [st], run with no other task in between.
    Hit: when the cached entry carries exactly the [(mtime, size)] of [st]
    (and no abort is signalled and the size is within the preview ceiling),
    the cached count is returned; the only host call is the stat, so the
    content is not read, and the caches are unchanged.
    Miss: when there is no such entry, the cached count is not used: the
    call either yields 0 and leaves the token cache as it was, or it has read
    the content, tokenized it and replaced the entry by one under the current
    [(mtime, size)].
    Miss, re-count: when no abort is signalled, the size is within the
    ceiling, [isBinary] classifies the file as text (by its own cache or by
    a scan), and the content can be read and tokenized, the second case is
    the one that happens: the count is the one of the content, and the entry
    is replaced.
    Miss, nothing counted: when the call is cancelled, or the size is over
    the ceiling, or [isBinary] classifies the file as binary, or the content
    cannot be read or cannot be tokenized, the call yields 0 and the token
    cache is as it was, old entry included. *)
Theorem token_cache_hit_and_recount :
  forall fs tk signal absPath w st,
    (forall t, fs_stat fs t absPath = Ok st) ->
    (forall c,
        neverAborted signal ->
        stat_size st <= MAX_PREVIEW_BYTES tk ->
        mapGet Uri_eqb absPath (tokenCache w) = Some c ->
        tok_mtime c = stat_mtime st ->
        tok_size c = stat_size st ->
        exists w',
          countTokensFile fs tk signal absPath w = (w', Returned (tok_tokens c))
          /\ trace w' = trace w ++ [FsStat absPath]
          /\ tokenCache w' = tokenCache w
          /\ isBinaryCache w' = isBinaryCache w)
    /\ (tokenCacheMiss (mapGet Uri_eqb absPath (tokenCache w)) st ->
        exists w' n,
          countTokensFile fs tk signal absPath w = (w', Returned n)
          /\ ((n = 0 /\ tokenCache w' = tokenCache w)
              \/ (exists t bytes,
                    fs_readFile fs t absPath = Ok bytes
                    /\ encodeLength tk bytes = Ok n
                    /\ (exists earlier,
                          trace w' = earlier ++ [FsReadFile absPath])
                    /\ tokenCache w'
                       = evictOldest Uri_eqb MAX_CACHE_SIZE
                           (mapSet Uri_eqb absPath
                              (mkTokenCacheEntry n (stat_mtime st) (stat_size st))
                              (tokenCache w)))))
    /\ (forall bytes n,
          tokenCacheMiss (mapGet Uri_eqb absPath (tokenCache w)) st ->
          neverAborted signal ->
          stat_size st <= MAX_PREVIEW_BYTES tk ->
          classifiedAs fs w absPath st false ->
          (forall t, fs_readFile fs t absPath = Ok bytes) ->
          encodeLength tk bytes = Ok n ->
          mapSize (tokenCache w) <= MAX_CACHE_SIZE ->
          exists w',
            countTokensFile fs tk signal absPath w = (w', Returned n)
            /\ (exists earlier, trace w' = earlier ++ [FsReadFile absPath])
            /\ tokenCache w'
               = evictOldest Uri_eqb MAX_CACHE_SIZE
                   (mapSet Uri_eqb absPath
                      (mkTokenCacheEntry n (stat_mtime st) (stat_size st))
                      (tokenCache w))
            /\ mapGet Uri_eqb absPath (tokenCache w')
               = Some (mkTokenCacheEntry n (stat_mtime st) (stat_size st)))
    /\ (tokenCacheMiss (mapGet Uri_eqb absPath (tokenCache w)) st ->
        countsNothing fs tk signal w absPath st ->
        exists w',
          countTokensFile fs tk signal absPath w = (w', Returned 0)
          /\ tokenCache w' = tokenCache w).
Proof.
  intros fs tk signal absPath w st Hstat. split; [|split; [|split]].
  - intros c Hsig Hsize Hget Hm Hs.
    destruct (holds_to_run _ _ _ _
                (countTokensFile_hit fs tk signal absPath w st c
                   Hsig Hstat Hsize Hget Hm Hs))
      as (w' & r & Hrun & Hr & Ht & Htok & Hbin).
    subst r. eauto.
  - intro Hmiss.
    destruct (holds_to_run _ _ _ _
                (countTokensFile_miss fs tk signal absPath w st Hstat Hmiss))
      as (w' & r & Hrun & n & Hr & Hn).
    subst r. eauto.
  - intros bytes n Hmiss Hsig Hsize Hclass Hread Henc Hcap.
    destruct (holds_to_run _ _ _ _
                (countTokensFile_recounts fs tk signal absPath w st bytes n
                   Hsig Hstat Hsize Hmiss Hclass Hread Henc))
      as (w' & r & Hrun & Hr & Ht & Hcache).
    subst r. exists w'. split; [exact Hrun|]. split; [exact Ht|].
    split; [exact Hcache|].
    rewrite Hcache. apply written_entry_survives;
      [unfold MAX_CACHE_SIZE; apply Nat.lt_0_succ | exact Hcap].
  - intros Hmiss Hnothing.
    destruct (holds_to_run _ _ _ _
                (countTokensFile_counts_nothing fs tk signal absPath w st
                   Hstat Hmiss Hnothing))
      as (w' & r & Hrun & Hr & Hcache).
    subst r. eauto.
Qed.

(** [a.txt], two bytes, modified at 5: with the entry [(9, 5, 2)] cached the
    count 9 comes back after the stat alone; with the older entry
    [(9, 4, 2)] cached, and the verdict "text" of the older version in the
    cache of [isBinary], the file is scanned and read again and the entry
    becomes [(2, 5, 2)].  [bin.dat], modified at 2, with a zero byte: the
    count is 0 and the entry of the older version stays. *)
Lemma token_cache_hit_and_recount_witness :
  (exists w',
     countTokensFile (staticFs textTree) byteTokenizer None textPath cachedTextWorld
     = (w', Returned 9)
     /\ trace w' = trace cachedTextWorld ++ [FsStat textPath]
     /\ tokenCache w' = tokenCache cachedTextWorld
     /\ isBinaryCache w' = isBinaryCache cachedTextWorld)
  /\ (exists w',
        countTokensFile (staticFs textTree) byteTokenizer None textPath
                        recountWorld
        = (w', Returned 2)
        /\ (exists earlier, trace w' = earlier ++ [FsReadFile textPath])
        /\ tokenCache w'
           = evictOldest Uri_eqb MAX_CACHE_SIZE
               (mapSet Uri_eqb textPath (mkTokenCacheEntry 2 5 2)
                  (tokenCache recountWorld))
        /\ mapGet Uri_eqb textPath (tokenCache w')
           = Some (mkTokenCacheEntry 2 5 2))
  /\ (exists w',
        countTokensFile (staticFs binaryTree) byteTokenizer None
                        ["bin.dat"%string] staleTokenWorld
        = (w', Returned 0)
        /\ tokenCache w' = tokenCache staleTokenWorld).
Proof.
  split; [|split].
  - destruct (token_cache_hit_and_recount (staticFs textTree) byteTokenizer None
                textPath cachedTextWorld (mkFileStat FileType_File 5 2))
      as (Hhit & _ & _ & _).
    + intro t. reflexivity.
    + apply (Hhit (mkTokenCacheEntry 9 5 2)).
      * intros s t Hs. discriminate.
      * cbn. lia.
      * reflexivity.
      * reflexivity.
      * reflexivity.
  - destruct (token_cache_hit_and_recount (staticFs textTree) byteTokenizer None
                textPath recountWorld (mkFileStat FileType_File 5 2))
      as (_ & _ & Htext & _).
    + intro t. reflexivity.
    + apply (Htext [Byte.x68; Byte.x69] 2).
      * reflexivity.
      * intros s t Hs. discriminate.
      * cbn. lia.
      * intro t. exists [Byte.x68; Byte.x69]. split; reflexivity.
      * intro t. reflexivity.
      * reflexivity.
      * cbn. unfold MAX_CACHE_SIZE. lia.
  - destruct (token_cache_hit_and_recount (staticFs binaryTree) byteTokenizer
                None ["bin.dat"%string] staleTokenWorld
                (mkFileStat FileType_File 2 3))
      as (_ & _ & _ & Hnothing).
    + intro t. reflexivity.
    + apply Hnothing.
      * reflexivity.
      * right. right. left. intro t. left.
        exists [Byte.x61; Byte.x00; Byte.x62]. split; reflexivity.
Defined.

(** C7 as stated fails: [bin.dat] was modified (its stat says mtime 2, the
    cached entry says mtime 1) and now holds a zero byte.  The call
    classifies it as binary and returns 0; the content is not tokenized and
    the stale entry [(7, 1, 3)] stays in the cache. *)
Lemma changed_binary_file_keeps_stale_entry :
  fs_stat (staticFs binaryTree) 0 ["bin.dat"%string]
  = Ok (mkFileStat FileType_File 2 3)
  /\ mapGet Uri_eqb ["bin.dat"%string] (tokenCache staleTokenWorld)
     = Some (mkTokenCacheEntry 7 1 3)
  /\ snd (countTokensFile (staticFs binaryTree) byteTokenizer None
            ["bin.dat"%string] staleTokenWorld)
     = Returned 0
  /\ tokenCache (fst (countTokensFile (staticFs binaryTree) byteTokenizer None
                        ["bin.dat"%string] staleTokenWorld))
     = [(["bin.dat"%string], mkTokenCacheEntry 7 1 3)].
Proof. repeat split; reflexivity. Qed.

(** ** What fails and what does not *)

Lemma collectChildren_throws_host_failures :
  forall fs recurse signal maxFiles counter uri,
    (forall u w, holdsAfter (recurse u) w
                   (fun _ r => forall e, r = Threw e -> hostFailure fs e)) ->
    forall children out0 w,
      holdsAfter (collectChildren recurse signal maxFiles counter uri children out0) w
        (fun _ r => forall e, r = Threw e -> hostFailure fs e).
Proof.
  intros fs recurse signal maxFiles counter uri Hrec.
  induction children as [|[name ty] rest IH]; intros out0 w;
    cbn [collectChildren]; eff_steps; try discriminate.
  all: eapply after_weaken; [apply Hrec|]; cbv beta.
  all: intros w1 [nested | e |] H; try discriminate; auto.
Qed.

Lemma collectFiles_throws_host_failures :
  forall fs ig root signal maxFiles counter fuel uri w,
    holdsAfter (collectFiles fuel fs uri ig root signal maxFiles counter) w
      (fun _ r => forall e, r = Threw e -> hostFailure fs e).
Proof.
  intros fs ig root signal maxFiles counter.
  induction fuel as [|fuel IH]; intros uri w; cbn [collectFiles]; eff_steps;
    try discriminate.
  all: try (intros e' E; inversion E; subst; unfold hostFailure; eauto; fail).
  all: apply collectChildren_throws_host_failures; intros u w0; apply IH.
Qed.

(** A stat that fails is not caught by [collectFiles]. *)
Lemma collectFiles_propagates_stat_failure :
  forall fs ig root signal maxFiles counter fuel uri w e,
    (forall t, fs_stat fs t uri = Err e) ->
    (forall s t, signal = Some s -> s t = false) ->
    holdsAfter (collectFiles (S fuel) fs uri ig root signal maxFiles counter) w
      (fun _ r => r = Threw e).
Proof.
  intros fs ig root signal maxFiles counter fuel uri w e Hstat Hsig.
  cbn [collectFiles]. apply after_bind, after_aborted.
  destruct signal as [s |].
  - rewrite (Hsig s (now w) eq_refl). apply after_bind.
    unfold fsLimit. apply after_vsStat. now rewrite Hstat.
  - apply after_bind. unfold fsLimit. apply after_vsStat. now rewrite Hstat.
Qed.

(** *** The scan of a stream, with other calls in between *)

(** The loop over the reads of a stream touches nothing: it goes on in the
    worlds that the others leave, and ends with the verdict of the scan. *)
Lemma scanStreamAsync_safe :
  forall (I : World -> Prop) (G : World -> World -> Prop),
    (forall w, G w w) -> (forall a b c, G a b -> G b c -> G a c) ->
    forall reads total w0 w (Q : Outcome bool -> World -> World -> Prop),
      I w -> G w0 w ->
      (forall w0' w', I w' -> G w0' w' -> G w w' ->
         Q (snd (liftRes (scanStream reads total) w')) w0' w') ->
      safe I G (scanStreamAsync reads total) w0 w Q.
Proof.
  intros I G G_refl G_trans.
  induction reads as [|r reads IH]; intros total w0 w Q HI HG HQ;
    cbn [scanStreamAsync]; cbn [scanStream] in HQ.
  - destruct (total <? 512); cbn [safe].
    + split; [exact HI|]. split; [exact HG|]. intros w' HI' HG'.
      exact (HQ w' w' HI' (G_refl w') HG').
    + exact (HQ w0 w HI HG (G_refl w)).
  - destruct (total <? 512); cbn [safe];
      [| exact (HQ w0 w HI HG (G_refl w)) ].
    split; [exact HI|]. split; [exact HG|]. intros w' HI' HG'.
    destruct r as [value | e];
      [| exact (HQ w' w' HI' (G_refl w') HG') ].
    destruct (scanChunk value total) as [result total'].
    destruct result; [exact (HQ w' w' HI' (G_refl w') HG') |].
    apply IH; [exact HI' | apply G_refl |].
    intros w0'' w'' HI'' HG'' Hsince. apply HQ; [exact HI'' | exact HG'' |].
    eapply G_trans; eassumption.
Qed.

Ltac through_scan tRefl tTrans tI tG :=
  lazymatch goal with
  | |- safe _ _ (scanStreamAsync ?reads ?total) _ _ _ =>
      apply scanStreamAsync_safe;
      [ tRefl | tTrans | tI | tG
      | intros ? ? ? ? ?;
        destruct (scanStream reads total) eqn:?;
        cbn [liftRes ret throw snd]; cbv beta match ]
  end.

(** *** Where the counts of [countTokens] come from *)

Lemma countedAnew_later : forall fs tk start w w' p n,
  countedAnew fs tk start w p n -> now w <= now w' ->
  countedAnew fs tk start w' p n.
Proof.
  unfold countedAnew, during.
  intros fs tk start w w' p n (t0 & st & t & bytes & H0 & H1 & H) Hle.
  exists t0, st, t, bytes. repeat split; try tauto; lia.
Qed.

Lemma counted_later : forall fs tk start w w' p n,
  counted fs tk start w p n -> now w <= now w' ->
  counted fs tk start w' p n.
Proof.
  unfold counted, countedFromCache, during.
  intros fs tk start w w' p n [H | [H | H]] Hle; [now left | right; left | right; right].
  - destruct H as (t & st & c & H0 & H). exists t, st, c.
    split; [lia | exact H].
  - eapply countedAnew_later; eassumption.
Qed.

Lemma countsJustified_later : forall fs tk start w w',
  countsJustified fs tk start w ->
  now w <= now w' -> tokenCache w' = tokenCache w ->
  countsJustified fs tk start w'.
Proof.
  intros fs tk start w w' [Hclock Hc] Hle Hsame. split; [lia|].
  intros p c Hin. rewrite Hsame in Hin.
  destruct (Hc p c Hin) as [H | H]; [now left | right].
  eapply countedAnew_later; eassumption.
Qed.

Lemma countsJustified_written : forall fs tk start w w' absPath e,
  countsJustified fs tk start w ->
  now w <= now w' ->
  countedAnew fs tk start w' absPath (tok_tokens e) ->
  tokenCache w'
  = evictOldest Uri_eqb MAX_CACHE_SIZE (mapSet Uri_eqb absPath e (tokenCache w)) ->
  countsJustified fs tk start w'.
Proof.
  intros fs tk start w w' absPath e [Hclock Hc] Hle Hnew Hcache.
  split; [lia|].
  intros p c Hin. rewrite Hcache in Hin.
  destruct (In_written _ _ _ _ _ _ _ Hin) as [E | Hin'].
  - inversion E; subst. now right.
  - destruct (Hc p c Hin') as [H | H]; [now left | right].
    eapply countedAnew_later; eassumption.
Qed.

Ltac clock_kept := unfold clockGoesOn, during in *; world_fields; lia.

Ltac justified_kept :=
  first
    [ assumption
    | match goal with
      | H : countsJustified _ _ _ ?w |- countsJustified _ _ _ _ =>
          apply (countsJustified_later _ _ _ _ _ H); [clock_kept | reflexivity]
      end ].

Ltac justified_steps :=
  repeat first
    [ async_step
    | at_await ltac:(justified_kept) ltac:(clock_kept)
    | through_scan ltac:(intro; unfold clockGoesOn; apply Nat.le_refl)
        ltac:(unfold clockGoesOn; intros; lia)
        ltac:(justified_kept) ltac:(clock_kept) ].

Ltac clocks :=
  repeat match goal with
         | H : countsJustified _ _ _ _ |- _ =>
             let Hc := fresh "Hclock" in
             pose proof (proj1 H) as Hc; clear H
         end;
  unfold clockGoesOn, during in *; world_fields.

Lemma isBinaryAsync_justified : forall fs tk start absPath w0 w,
  countsJustified fs tk start w -> clockGoesOn w0 w ->
  safe (countsJustified fs tk start) clockGoesOn (isBinaryAsync fs absPath) w0 w
    (kept (countsJustified fs tk start) clockGoesOn
       (fun r w' => now w <= now w' /\ exists v, r = Returned v)).
Proof.
  intros fs tk start absPath w0 w Hw Hg. unfold isBinaryAsync.
  justified_steps.
  all: unfold kept; split; [justified_kept | split; [clock_kept |]].
  all: split; [clocks; lia | eauto].
Qed.

(** The leaves of [countTokensFileAsync]. *)
Ltac counted_0 :=
  unfold kept; split; [justified_kept | split; [clock_kept |]];
  exists 0; split; [reflexivity | now left].

Ltac counted_hit :=
  unfold kept; split; [justified_kept | split; [clock_kept |]];
  eexists; split; [reflexivity |];
  match goal with
  | HI : countsJustified _ _ _ ?w,
    Hg : mapGet _ _ (tokenCache ?w) = Some ?c,
    Hb : _ && _ = true,
    Hsz : (_ <? _) = false,
    Hst : fs_stat _ ?t _ = Ok ?st |- _ =>
      let Hm := fresh "Hm" in
      let Hz := fresh "Hz" in
      apply andb_prop in Hb; destruct Hb as [Hm Hz];
      apply Nat.eqb_eq in Hm; apply Nat.eqb_eq in Hz;
      apply Nat.ltb_ge in Hsz;
      destruct (proj2 HI _ _ (mapGet_Some_In _ _ _ _ Hg)) as [Hold | Hnew];
      [ right; left; exists t, st, c;
        split; [clocks; lia |];
        repeat split; assumption
      | right; right; exact Hnew ]
  end.

Ltac counted_anew :=
  match goal with
  | Hsz : (_ <? _) = false,
    Hst : fs_stat _ ?t0 _ = Ok ?st,
    Hrd : fs_readFile _ ?t _ = Ok ?bytes,
    Hen : encodeLength _ ?bytes = Ok _ |- countedAnew _ _ _ _ _ _ =>
      apply Nat.ltb_ge in Hsz;
      exists t0, st, t, bytes;
      split; [clocks; lia |]; split; [clocks; lia |]; split; [clocks; lia |];
      repeat split; assumption
  end.

Ltac counted_written :=
  unfold kept; split;
  [ match goal with
    | H : countsJustified _ _ _ ?w |- countsJustified _ _ _ (withTokenCache _ (withTokenCache _ ?w)) =>
        eapply (countsJustified_written _ _ _ _ _ _ _ H);
        [ | | reflexivity ];
        [ clock_kept | cbn [tok_tokens]; counted_anew ]
    end
  | split; [clock_kept |];
    eexists; split; [reflexivity |]; right; right; counted_anew ].

Lemma countTokensFileAsync_justified : forall fs tk start signal absPath w,
  countsJustified fs tk start w ->
  safe (countsJustified fs tk start) clockGoesOn
    (countTokensFileAsync fs tk signal absPath) w w
    (kept (countsJustified fs tk start) clockGoesOn
       (fun r w' => exists n, r = Returned n
                              /\ counted fs tk start w' absPath n)).
Proof.
  intros fs tk start signal absPath w Hw.
  unfold countTokensFileAsync. cbv zeta.
  justified_steps.
  all: try (counted_0; fail).
  all: try (counted_hit; fail).
  all: (eapply safe_weaken;
        [ apply isBinaryAsync_justified; [justified_kept | clock_kept]
        | cbv beta; intros r w0' w1 (HI1 & HG1 & Hsince & v & ->) ]).
  all: justified_steps.
  all: try (counted_0; fail).
  all: try (counted_written; fail).
Qed.

Lemma isBinary_exact : forall fs absPath w,
  holdsAfter (isBinary fs absPath) w
    (fun w' r =>
       exists verdict,
         r = Returned verdict
         /\ (verdict = false ->
             answeredFromCache fs w absPath false
             \/ scannedText fs (S (now w)) absPath)).
Proof.
  intros fs absPath w. unfold isBinary, scannedText, answeredFromCache.
  eff_steps; world_fields.
  all: eexists; split; [reflexivity|]; intro Hv; try discriminate.
  all: subst; use_equations; eauto 10.
  left. apply Nat.eqb_eq in Heqb0. eauto 10.
Qed.

(** No exception comes out of a list of tasks none of which throws. *)
Lemma allKept_returned : forall X B (P : X -> B -> World -> Prop) xs r w,
  allKept (fun x r w => exists b, r = Returned b /\ P x b w) xs r w ->
  exists bs, r = Returned bs /\ Forall2 (fun x b => P x b w) xs bs.
Proof.
  intros X B P xs r w H. destruct r as [bs | e |]; cbn [allKept] in H.
  - exists bs. split; [reflexivity|].
    induction H as [|x b xs bs (b' & E & Hp) Hall IH]; constructor;
      [inversion E; subst; exact Hp | exact IH].
  - destruct H as (x & _ & b & E & _). discriminate E.
  - destruct H as (x & _ & b & E & _). discriminate E.
Qed.

Lemma fold_left_add_zeros : forall X (xs : list X),
  fold_left Nat.add (map (fun _ => 0) xs) 0 = 0.
Proof. intros X xs. induction xs as [|x xs IH]; [reflexivity | exact IH]. Qed.

Lemma Forall2_zeros : forall X (R : X -> nat -> Prop) (xs : list X),
  (forall x, R x 0) -> Forall2 R xs (map (fun _ => 0) xs).
Proof. intros X R xs H. induction xs; constructor; auto. Qed.

Lemma countsJustified_start : forall fs tk w, countsJustified fs tk w w.
Proof. intros fs tk w. split; [apply Nat.le_refl | intros p c H; now left]. Qed.

Lemma countTokens_counted : forall fs tk paths signal schedule w,
  exists w' counts,
    countTokens fs tk paths signal schedule w
    = (w', Returned (fold_left Nat.add counts 0))
    /\ Forall2 (counted fs tk w w') paths counts.
Proof.
  intros fs tk paths signal schedule w.
  assert (Hsafe : safe (countsJustified fs tk w) clockGoesOn
                    (countTokensAsync fs tk paths signal schedule) w w
                    (fun r _ w' =>
                       exists counts,
                         r = Returned (fold_left Nat.add counts 0)
                         /\ Forall2 (counted fs tk w w') paths counts)).
  { pose proof (countsJustified_start fs tk w) as Hw.
    unfold countTokensAsync. justified_steps.
    all: try (exists (map (fun _ => 0) paths);
              rewrite fold_left_add_zeros; split; [reflexivity|];
              apply Forall2_zeros; intro; now left).
    all: (eapply safe_weaken;
          [ apply (promiseAll_safe (countsJustified fs tk w) clockGoesOn
                     (fun w0 => Nat.le_refl (now w0))
                     (fun a b c Hab Hbc => Nat.le_trans _ _ _ Hab Hbc)
                     Uri nat
                     (fun p r w' =>
                        exists n, r = Returned n /\ counted fs tk w w' p n));
            [ intros x r w1 w2 (n & Hr & Hn) Hg; exists n;
              split; [exact Hr | exact (counted_later _ _ _ _ _ _ _ Hn Hg)]
            | discriminate
            | intros x w1 _ Hw1; apply countTokensFileAsync_justified; exact Hw1
            | justified_kept
            | clock_kept ]
          | cbv beta; intros r w0' w1 (HI1 & HG1 & Hall) ]).
    all: apply allKept_returned in Hall; destruct Hall as (bs & -> & Hall).
    all: justified_steps.
    all: exists bs; split; [reflexivity|].
    all: eapply Forall2_impl; [|exact Hall]; cbv beta; intros p n Hn.
    all: apply (counted_later _ _ _ _ _ _ _ Hn); world_fields; apply Nat.le_refl. }
  destruct (safe_runAlone (countsJustified fs tk w) clockGoesOn
              (fun w0 => Nat.le_refl (now w0))
              _ _ w w _ (countsJustified_start fs tk w) Hsafe)
    as (w0' & _ & counts & Hr & Hc).
  exists (fst (countTokens fs tk paths signal schedule w)), counts.
  split; [|exact Hc].
  unfold countTokens. rewrite <- Hr. apply surjective_pairing.
Qed.

(** C1, as the code has it.  [isBinary] and [countTokens] never propagate an
    exception, whatever the host does.
    [isBinary], called in [w] with nothing else running, returns a verdict.
    The verdict is "text" only when the cache holds "text" under the mtime
    that the stat (at the time of [w]) answers, or when the read that follows
    (at the next time) succeeds and finds no zero byte among the first 512;
    so when the cache has no verdict for that mtime and the read fails, the
    verdict is "binary".
    [countTokens], in whatever order the host lets its tasks go on, returns
    the sum of one count per path.  A count other than 0 is the count of an
    entry that the cache held before the call, under the [(mtime, size)]
    that a stat of the file answered during the call, or the number of
    tokens of content that a read during the call returned after a stat that
    succeeded; so a file whose stat fails throughout the call, or that has
    no such entry and whose reads all fail or cannot be encoded, counts 0.
    [collectFiles] has no handler: a stat that fails is propagated to the
    caller as an exception, and an exception out of [collectFiles] is always
    such a failure of the host's [stat] or [readDirectory]. *)
Theorem failures_degrade_except_in_collectFiles :
  (forall fs absPath w,
      exists w' verdict,
        isBinary fs absPath w = (w', Returned verdict)
        /\ (verdict = false ->
            answeredFromCache fs w absPath false
            \/ scannedText fs (S (now w)) absPath)
        /\ ((forall v, ~ answeredFromCache fs w absPath v) ->
            contentUnreadable fs (S (now w)) absPath ->
            verdict = true))
  /\ (forall fs tk paths signal schedule w,
        exists w' counts,
          countTokens fs tk paths signal schedule w
          = (w', Returned (fold_left Nat.add counts 0))
          /\ Forall2 (counted fs tk w w') paths counts)
  /\ (forall fs ig root signal maxFiles counter fuel uri w e,
        (forall t, fs_stat fs t uri = Err e) ->
        (forall s t, signal = Some s -> s t = false) ->
        snd (collectFiles (S fuel) fs uri ig root signal maxFiles counter w)
        = Threw e)
  /\ (forall fs ig root signal maxFiles counter fuel uri w e,
        snd (collectFiles fuel fs uri ig root signal maxFiles counter w) = Threw e ->
        hostFailure fs e).
Proof.
  split; [|split; [|split]].
  - intros fs absPath w.
    destruct (isBinary_exact fs absPath w) as (verdict & Hr & Hv).
    exists (fst (isBinary fs absPath w)), verdict.
    split; [rewrite <- Hr; apply surjective_pairing|].
    split; [exact Hv|].
    intros Hmiss Hfail. destruct verdict; [reflexivity|]. exfalso.
    destruct (Hv eq_refl) as [Hhit | Htext]; [exact (Hmiss false Hhit)|].
    unfold scannedText in Htext. unfold contentUnreadable in Hfail.
    destruct (fs_readFileStream fs) as [readFileStream |].
    + destruct Htext as (reads & Hopen & Hscan).
      destruct Hfail as [[e He] | (reads' & e & Hopen' & Hscan')]; congruence.
    + destruct Htext as (bytes & Hread & _). destruct Hfail as [e He]. congruence.
  - exact countTokens_counted.
  - intros fs ig root signal maxFiles counter fuel uri w e Hstat Hsig.
    exact (collectFiles_propagates_stat_failure
             fs ig root signal maxFiles counter fuel uri w e Hstat Hsig).
  - intros fs ig root signal maxFiles counter fuel uri w e Hthrew.
    exact (collectFiles_throws_host_failures
             fs ig root signal maxFiles counter fuel uri w e Hthrew).
Qed.

(** A path that does not exist, in the empty directory [bareTree]:
    [collectFiles] throws the host's error, and [isBinary], with no cached
    verdict and a read that fails, answers "binary". *)
Lemma failures_degrade_except_in_collectFiles_witness :
  snd (isBinary (staticFs bareTree) ["missing"%string] emptyWorld)
  = Returned true
  /\ snd (collectFiles 1 (staticFs bareTree) ["missing"%string] ignoresNothing []
            None None None emptyWorld)
     = Threw "ENOENT"%string
  /\ hostFailure (staticFs bareTree) "ENOENT"%string.
Proof.
  destruct failures_degrade_except_in_collectFiles
    as (Hbinary & _ & Hthrows & Hhost).
  split; [|split].
  - destruct (Hbinary (staticFs bareTree) ["missing"%string] emptyWorld)
      as (w' & verdict & Hrun & _ & Hfail).
    rewrite Hrun. cbn [snd]. f_equal. apply Hfail.
    + intros v (st & c & Hstat & _). discriminate Hstat.
    + exists "ENOENT"%string. reflexivity.
  - apply Hthrows.
    + intro t. reflexivity.
    + intros s t Hs. discriminate.
  - apply (Hhost (staticFs bareTree) ignoresNothing [] None None None 1
                 ["missing"%string] emptyWorld).
    reflexivity.
Defined.

(** C1 as stated fails: the stat of a path that does not exist throws, and
    [collectFiles] lets the exception out to its caller. *)
Lemma collectFiles_lets_stat_failure_out :
  collectFiles 1 (staticFs bareTree) ["missing"%string] ignoresNothing []
               None None None emptyWorld
  = (logged (FsStat ["missing"%string]) (advance emptyWorld),
     Threw "ENOENT"%string).
Proof. reflexivity. Qed.

Example isBinary_of_missing_file_is_binary :
  snd (isBinary (staticFs bareTree) ["missing"%string] emptyWorld) = Returned true.
Proof. reflexivity. Qed.

(** Two missing files and one that is there, the host letting the three
    tasks go on in turn. *)
Example countTokens_of_missing_files_is_0 :
  snd (countTokens (staticFs textTree) byteTokenizer
         [["missing"%string]; textPath; ["gone"%string]] None (roundRobin 3 8)
         emptyWorld)
  = Returned 2.
Proof. vm_compute. reflexivity. Qed.

(** ** IgnoreRuleEngine *)

(** No ignore-file: a new matcher with the default patterns, and nothing
    written to the cache. *)
Lemma getIgnoreParser_absent : forall fs decode root w e,
  fs_stat fs (now w) (joinPath root ".gitignore") = Err e ->
  getIgnoreParser fs decode root w
  = (withNextParserId (S (nextParserId w))
       (logged (LogIgnoreNone root)
          (logged (FsStat (joinPath root ".gitignore")) (advance w))),
     Returned (mkIgnoreParser (nextParserId w) DEFAULT_IGNORE_PATTERNS)).
Proof.
  intros fs decode root w e Hstat. apply run_eq.
  unfold getIgnoreParser. eff_steps; world_fields; tidy.
  split; reflexivity.
Qed.

(** A cache entry of the current modification time: the cached matcher is
    returned, and no matcher is made. *)
Lemma getIgnoreParser_hit : forall fs decode root w st parser,
  fs_stat fs (now w) (joinPath root ".gitignore") = Ok st ->
  mapGet Uri_eqb root (ignoreParserCache w)
  = Some (mkParserCacheEntry parser (stat_mtime st)) ->
  getIgnoreParser fs decode root w
  = (logged (LogIgnoreCacheHit root)
       (logged (FsStat (joinPath root ".gitignore")) (advance w)),
     Returned parser).
Proof.
  intros fs decode root w st parser Hstat Hget. apply run_eq.
  unfold getIgnoreParser. eff_steps; world_fields; tidy.
  split; reflexivity.
Qed.

(** No usable cache entry, and the ignore-file can be read: a new matcher is
    made from the defaults and the file, and cached under the root. *)
Lemma getIgnoreParser_load : forall fs decode root w st bytes,
  fs_stat fs (now w) (joinPath root ".gitignore") = Ok st ->
  fs_readFile fs (S (now w)) (joinPath root ".gitignore") = Ok bytes ->
  match mapGet Uri_eqb root (ignoreParserCache w) with
  | Some c => Nat.eqb (pc_mtime c) (stat_mtime st) = false
  | None => True
  end ->
  exists w',
    getIgnoreParser fs decode root w
    = (w', Returned (mkIgnoreParser (nextParserId w)
                       (DEFAULT_IGNORE_PATTERNS ++ [decode bytes])))
    /\ mapGet Uri_eqb root (ignoreParserCache w')
       = Some (mkParserCacheEntry
                 (mkIgnoreParser (nextParserId w)
                    (DEFAULT_IGNORE_PATTERNS ++ [decode bytes]))
                 (stat_mtime st))
    /\ now w' = S (S (now w)).
Proof.
  intros fs decode root w st bytes Hstat Hread Hmiss.
  eexists. split; [apply run_eq|].
  - unfold getIgnoreParser. eff_steps; world_fields; tidy.
    all: split; reflexivity.
  - world_fields. split; [|reflexivity].
    apply (mapGet_mapSet_same Uri_eqb_eq).
Qed.

(** An ignore-file that is there, readable and unchanged: whatever the cache
    held, the second call returns the matcher that the first call
    returned. *)
Lemma getIgnoreParser_present_cached : forall fs decode root w st bytes,
  (forall t, fs_stat fs t (joinPath root ".gitignore") = Ok st) ->
  (forall t, fs_readFile fs t (joinPath root ".gitignore") = Ok bytes) ->
  exists w1 w2 parser,
    getIgnoreParser fs decode root w = (w1, Returned parser)
    /\ getIgnoreParser fs decode root w1 = (w2, Returned parser)
    /\ nextParserId w2 = nextParserId w1.
Proof.
  intros fs decode root w st bytes Hstat Hread.
  assert (Hfirst : exists w1 parser,
            getIgnoreParser fs decode root w = (w1, Returned parser)
            /\ mapGet Uri_eqb root (ignoreParserCache w1)
               = Some (mkParserCacheEntry parser (stat_mtime st))).
  { destruct (mapGet Uri_eqb root (ignoreParserCache w)) as [[parser mtime] |] eqn:Hc.
    - destruct (Nat.eqb mtime (stat_mtime st)) eqn:Hm.
      + apply Nat.eqb_eq in Hm. subst mtime.
        exists (logged (LogIgnoreCacheHit root)
                  (logged (FsStat (joinPath root ".gitignore")) (advance w))),
               parser.
        split; [|exact Hc].
        exact (getIgnoreParser_hit fs decode root w st parser (Hstat _) Hc).
      + destruct (getIgnoreParser_load fs decode root w st bytes
                    (Hstat _) (Hread _)) as (w1 & Hrun & Hget & _).
        { rewrite Hc. exact Hm. }
        eauto.
    - destruct (getIgnoreParser_load fs decode root w st bytes
                  (Hstat _) (Hread _)) as (w1 & Hrun & Hget & _).
      { now rewrite Hc. }
      eauto. }
  destruct Hfirst as (w1 & parser & Hrun1 & Hget1).
  exists w1,
         (logged (LogIgnoreCacheHit root)
            (logged (FsStat (joinPath root ".gitignore")) (advance w1))),
         parser.
  split; [exact Hrun1|]. split; [|reflexivity].
  exact (getIgnoreParser_hit fs decode root w1 st parser (Hstat _) Hget1).
Qed.

(** C5, as the code has it. When the ignore-file is absent (its stat fails),
    [getIgnoreParser] returns a matcher built from the default patterns
    only, writes nothing to the cache, and does not look into it: a second
    call for the same root makes another matcher, a different instance. *)
Theorem absent_ignore_file_is_not_cached :
  forall fs decode root w e,
    (forall t, fs_stat fs t (joinPath root ".gitignore") = Err e) ->
    exists w1 w2 p1 p2,
      getIgnoreParser fs decode root w = (w1, Returned p1)
      /\ getIgnoreParser fs decode root w1 = (w2, Returned p2)
      /\ parser_added p1 = DEFAULT_IGNORE_PATTERNS
      /\ parser_added p2 = DEFAULT_IGNORE_PATTERNS
      /\ parser_id p1 <> parser_id p2
      /\ ignoreParserCache w1 = ignoreParserCache w
      /\ ignoreParserCache w2 = ignoreParserCache w.
Proof.
  intros fs decode root w e Hstat.
  pose proof (getIgnoreParser_absent fs decode root w e (Hstat _)) as H1.
  remember (withNextParserId (S (nextParserId w))
              (logged (LogIgnoreNone root)
                 (logged (FsStat (joinPath root ".gitignore")) (advance w))))
    as w1 eqn:Hw1.
  pose proof (getIgnoreParser_absent fs decode root w1 e (Hstat _)) as H2.
  exists w1. eexists. eexists. eexists.
  split; [exact H1|]. split; [exact H2|].
  subst w1. world_fields. record_fields.
  repeat split; try reflexivity. apply Nat.neq_succ_diag_r.
Qed.

Lemma absent_ignore_file_is_not_cached_witness :
  exists w1 w2 p1 p2,
    getIgnoreParser (staticFs bareTree) asciiDecode [] emptyWorld
    = (w1, Returned p1)
    /\ getIgnoreParser (staticFs bareTree) asciiDecode [] w1 = (w2, Returned p2)
    /\ parser_added p1 = DEFAULT_IGNORE_PATTERNS
    /\ parser_added p2 = DEFAULT_IGNORE_PATTERNS
    /\ parser_id p1 <> parser_id p2
    /\ ignoreParserCache w1 = ignoreParserCache emptyWorld
    /\ ignoreParserCache w2 = ignoreParserCache emptyWorld.
Proof.
  apply (absent_ignore_file_is_not_cached (staticFs bareTree) asciiDecode []
           emptyWorld "ENOENT"%string).
  intro t. reflexivity.
Defined.

(** C5 as stated fails: with no ignore-file, two calls in a row for the same
    root return the matcher instances 0 and 1, and the cache stays empty. *)
Lemma absent_ignore_file_second_call_rebuilds :
  snd ((p <- getIgnoreParser (staticFs bareTree) asciiDecode [] ;;
        q <- getIgnoreParser (staticFs bareTree) asciiDecode [] ;;
        ret (parser_id p, parser_id q)) emptyWorld)
  = Returned (0, 1)
  /\ ignoreParserCache
       (fst ((p <- getIgnoreParser (staticFs bareTree) asciiDecode [] ;;
              q <- getIgnoreParser (staticFs bareTree) asciiDecode [] ;;
              ret (parser_id p, parser_id q)) emptyWorld))
     = [].
Proof. split; reflexivity. Qed.

(** ** FileMapRenderer *)

Lemma generateFileMap_empty : forall localeCompare workspaceRoot selectedFiles,
  generateFileMap localeCompare [] workspaceRoot selectedFiles = EmptyString.
Proof. reflexivity. Qed.

Lemma generateFileMapMultiRoot_empty_map : forall localeCompare selectedFiles,
  generateFileMapMultiRoot localeCompare [] selectedFiles = EmptyString.
Proof. reflexivity. Qed.

(** A file list that is not empty is always wrapped. *)
Lemma generateFileMap_nonempty : forall localeCompare file files workspaceRoot
    selectedFiles,
  exists body,
    generateFileMap localeCompare (file :: files) workspaceRoot selectedFiles
    = ("<file_map>" ++ body)%string.
Proof. intros. eexists. reflexivity. Qed.

(** Workspaces without files add no lines. *)
Lemma empty_workspaces_add_no_lines :
  forall localeCompare selectedFiles (m : JsMap Uri WorkspaceFiles) lines0,
    (forall entry, In entry m -> files (snd entry) = []) ->
    fold_left (appendWorkspace localeCompare selectedFiles) m lines0 = lines0.
Proof.
  intros localeCompare selectedFiles m. induction m as [|entry m IH];
    intros lines0 Hempty; simpl; [reflexivity|].
  unfold appendWorkspace at 2.
  rewrite (Hempty entry (or_introl eq_refl)). simpl.
  apply IH. intros e He. apply Hempty. now right.
Qed.

(** Every map that is not empty and holds only workspaces without files is
    rendered as the wrapping markup around one empty line. *)
Lemma generateFileMapMultiRoot_no_files :
  forall localeCompare selectedFiles entry (m : JsMap Uri WorkspaceFiles),
    (forall e, In e (entry :: m) -> files (snd e) = []) ->
    generateFileMapMultiRoot localeCompare (entry :: m) selectedFiles
    = ("<file_map>" ++ newline ++ newline ++ "</file_map>")%string.
Proof.
  intros localeCompare selectedFiles entry m Hempty.
  unfold generateFileMapMultiRoot.
  rewrite (empty_workspaces_add_no_lines localeCompare selectedFiles
             (entry :: m) [] Hempty).
  reflexivity.
Qed.

(** C4 (the code departs from the claim). [generateFileMap] returns the
    empty string for an empty file list, and [generateFileMapMultiRoot] for
    an empty map; but for a map whose only workspace has no files, so that
    there is no file to render at all, [generateFileMapMultiRoot] returns
    the wrapping markup around an empty line, not the empty string. *)
Theorem multi_root_without_files_still_renders_markup :
  forall localeCompare selectedFiles,
    generateFileMap localeCompare [] ["workspace2"%string] selectedFiles
    = EmptyString
    /\ generateFileMapMultiRoot localeCompare [] selectedFiles = EmptyString
    /\ generateFileMapMultiRoot localeCompare emptyWorkspaceMap selectedFiles
       = ("<file_map>" ++ newline ++ newline ++ "</file_map>")%string
    /\ generateFileMapMultiRoot localeCompare emptyWorkspaceMap selectedFiles
       <> EmptyString.
Proof.
  intros localeCompare selectedFiles.
  split; [reflexivity|]. split; [reflexivity|]. split; [reflexivity|].
  discriminate.
Qed.

(** The rendering example of the specification: [src] comes before
    [package.json], and with no selection set every file is marked. *)
Example rendering_example :
  generateFileMap String.compare exampleFiles ["p"%string] None
  = String.concat newline
      ["<file_map>"; "/p"; "├── src"; "│   ├── index.ts *";
       "│   └── utils.ts *"; "└── package.json *"; "";
       legend; "</file_map>"]%string.
Proof. reflexivity. Qed.

Lemma generateFileMapMultiRoot_empty_iff : forall localeCompare m selectedFiles,
  generateFileMapMultiRoot localeCompare m selectedFiles = EmptyString <-> m = [].
Proof.
  intros localeCompare m selectedFiles. split.
  - destruct m as [|entry m]; [reflexivity|].
    unfold generateFileMapMultiRoot. cbn [mapSize length Nat.eqb]. discriminate.
  - intro H. subst. reflexivity.
Qed.

(* ================================================================== *)
(** * Part III: further properties of the sources *)
(* ================================================================== *)

(** ** [isBinary]: the scan of a stream *)

Lemma scanChunk_spec : forall value total,
  total <= 512 ->
  fst (scanChunk value total) = existsb isZero (firstn (512 - total) value)
  /\ (fst (scanChunk value total) = false ->
      snd (scanChunk value total) = Nat.min 512 (total + length value)).
Proof.
  induction value as [|b value IH]; intros total Hle.
  - cbn [scanChunk fst snd length]. rewrite firstn_nil.
    split; [reflexivity | intros _; lia].
  - cbn [scanChunk]. destruct (total <? 512) eqn:E.
    + apply Nat.ltb_lt in E.
      replace (512 - total) with (S (512 - S total)) by lia.
      cbn [firstn existsb]. destruct (isZero b); cbn [fst snd orb].
      * split; [reflexivity | discriminate].
      * destruct (IH (S total)) as [H1 H2]; [lia|].
        split; [exact H1|]. intro Hf. rewrite (H2 Hf). cbn [length]. lia.
    + apply Nat.ltb_ge in E. replace (512 - total) with 0 by lia.
      cbn [firstn existsb fst snd]. split; [reflexivity | intros _; lia].
Qed.

Lemma scanStream_spec : forall chunks total,
  total <= 512 ->
  scanStream (map Ok chunks) total
  = Ok (existsb isZero (firstn (512 - total) (concat chunks))).
Proof.
  induction chunks as [|value chunks IH]; intros total Hle.
  - cbn [map scanStream concat]. now rewrite firstn_nil.
  - cbn [map scanStream concat]. destruct (total <? 512) eqn:E.
    + apply Nat.ltb_lt in E.
      destruct (scanChunk_spec value total Hle) as [H1 H2].
      destruct (scanChunk value total) as [result total'] eqn:Hs.
      cbn [fst snd] in H1, H2.
      rewrite firstn_app, existsb_app, <- H1.
      destruct result; [reflexivity|].
      rewrite (H2 eq_refl), IH by lia. cbn [orb]. do 3 f_equal. lia.
    + apply Nat.ltb_ge in E. replace (512 - total) with 0 by lia. reflexivity.
Qed.

(** X1. The streaming scan of [isBinary] and its full-read fallback agree:
    for a stream whose reads all succeed, however the content is cut into
    chunks (empty chunks included), the scan answers whether one of the
    first 512 bytes of the content is zero. *)
Theorem stream_scan_is_prefix_scan : forall chunks : list (list Byte.byte),
  scanStream (map Ok chunks) 0 = Ok (hasZeroInPrefix (concat chunks)).
Proof.
  intro chunks. unfold hasZeroInPrefix.
  rewrite scanStream_spec by lia. reflexivity.
Qed.

(** ** [isBinary]: verdicts and the cache *)

Lemma after_conj : forall A (m : Eff A) w (Q1 Q2 : World -> Outcome A -> Prop),
  holdsAfter m w Q1 -> holdsAfter m w Q2 ->
  holdsAfter m w (fun w' r => Q1 w' r /\ Q2 w' r).
Proof. intros A m w Q1 Q2 H1 H2. split; assumption. Qed.

Lemma evictOldest_size : forall V MAX (m : JsMap Uri V),
  mapSize (evictOldest Uri_eqb MAX m) <= MAX.
Proof.
  intros V MAX m. rewrite (evictOldest_skipn Uri_eqb_eq).
  unfold mapSize. rewrite length_skipn. lia.
Qed.

Lemma binary_capacity_positive : 0 < MAX_BINARY_CACHE_SIZE.
Proof. unfold MAX_BINARY_CACHE_SIZE. apply Nat.lt_0_succ. Qed.

(** A cached verdict of the current modification time is returned after the
    stat alone. *)
Lemma isBinary_hit : forall fs absPath w st c,
  fs_stat fs (now w) absPath = Ok st ->
  mapGet Uri_eqb absPath (isBinaryCache w) = Some c ->
  bin_mtime c = stat_mtime st ->
  isBinary fs absPath w
  = (logged (FsStat absPath) (advance w), Returned (bin_isBinary c)).
Proof.
  intros fs absPath w st c Hstat Hget Hm. apply run_eq. unfold isBinary.
  eff_steps_with ltac:(world_fields; try rewrite Hstat; try rewrite Hget;
                       try rewrite Hm; try rewrite Nat.eqb_refl).
  split; reflexivity.
Qed.

(** After a stat that succeeded, whatever the read does, the cache holds the
    verdict returned, under the modification time of the stat. *)
Lemma isBinary_leaves_entry : forall fs absPath w st,
  fs_stat fs (now w) absPath = Ok st ->
  mapSize (isBinaryCache w) <= MAX_BINARY_CACHE_SIZE ->
  holdsAfter (isBinary fs absPath) w
    (fun w' r =>
       exists verdict,
         r = Returned verdict
         /\ mapGet Uri_eqb absPath (isBinaryCache w')
            = Some (mkBinaryCacheEntry verdict (stat_mtime st))).
Proof.
  intros fs absPath w st Hstat Hcap. unfold isBinary.
  eff_steps_with ltac:(world_fields; try rewrite Hstat); world_fields; tidy.
  all: eexists; (split; [reflexivity|]).
  all: try (apply written_entry_survives;
            [apply binary_capacity_positive | exact Hcap]).
  match goal with
  | H : mapGet _ _ _ = Some ?c, E : (bin_mtime ?c =? _) = true |- _ =>
      rewrite H; destruct c as [v m]; cbn [bin_mtime bin_isBinary] in *;
      apply Nat.eqb_eq in E; now subst
  end.
Qed.

(** No usable cached verdict, and the content can be read: the verdict is
    whether one of the first 512 bytes is zero. *)
Lemma isBinary_classifies : forall fs absPath w st bytes,
  fs_stat fs (now w) absPath = Ok st ->
  binaryCacheMiss (mapGet Uri_eqb absPath (isBinaryCache w)) st ->
  contentReadable fs (S (now w)) absPath bytes ->
  holdsAfter (isBinary fs absPath) w
    (fun _ r => r = Returned (hasZeroInPrefix bytes)).
Proof.
  intros fs absPath w st bytes Hstat Hmiss Hread.
  unfold binaryCacheMiss in Hmiss. unfold contentReadable in Hread.
  unfold isBinary.
  destruct (fs_readFileStream fs) as [readFileStream |] eqn:Hs.
  - destruct Hread as [chunks [Hopen Hbytes]]. subst bytes.
    pose proof (scanStream_spec chunks 0 (Nat.le_0_l _)) as Hscan.
    change (512 - 0) with 512 in Hscan. fold (hasZeroInPrefix (concat chunks)) in Hscan.
    eff_steps_with ltac:(world_fields; try rewrite Hstat; try rewrite Hopen;
                         try rewrite Hscan);
      world_fields; tidy; reflexivity.
  - eff_steps_with ltac:(world_fields; try rewrite Hstat; try rewrite Hread);
      world_fields; tidy; reflexivity.
Qed.

(** No usable cached verdict, and the read fails: the verdict is
    "binary". *)
Lemma isBinary_fails_safe : forall fs absPath w st,
  fs_stat fs (now w) absPath = Ok st ->
  binaryCacheMiss (mapGet Uri_eqb absPath (isBinaryCache w)) st ->
  contentUnreadable fs (S (now w)) absPath ->
  holdsAfter (isBinary fs absPath) w (fun _ r => r = Returned true).
Proof.
  intros fs absPath w st Hstat Hmiss Hread.
  unfold binaryCacheMiss in Hmiss. unfold contentUnreadable in Hread.
  unfold isBinary.
  destruct (fs_readFileStream fs) as [readFileStream |] eqn:Hs.
  - destruct Hread as [[e Hopen] | [reads [e [Hopen Hscan]]]].
    + eff_steps_with ltac:(world_fields; try rewrite Hstat; try rewrite Hopen);
        world_fields; tidy; reflexivity.
    + eff_steps_with ltac:(world_fields; try rewrite Hstat; try rewrite Hopen;
                           try rewrite Hscan);
        world_fields; tidy; reflexivity.
  - destruct Hread as [e Hread].
    eff_steps_with ltac:(world_fields; try rewrite Hstat; try rewrite Hread);
      world_fields; tidy; reflexivity.
Qed.

(** X2. With no cached verdict of the file's current modification time, and
    content that can be read (in one read, or from a stream in chunks),
    [isBinary] answers whether one of the first 512 bytes is zero, and
    leaves that verdict in its cache under the modification time. *)
Theorem isBinary_verdict_is_zero_in_prefix :
  forall fs absPath w st bytes,
    fs_stat fs (now w) absPath = Ok st ->
    binaryCacheMiss (mapGet Uri_eqb absPath (isBinaryCache w)) st ->
    contentReadable fs (S (now w)) absPath bytes ->
    mapSize (isBinaryCache w) <= MAX_BINARY_CACHE_SIZE ->
    exists w',
      isBinary fs absPath w = (w', Returned (hasZeroInPrefix bytes))
      /\ mapGet Uri_eqb absPath (isBinaryCache w')
         = Some (mkBinaryCacheEntry (hasZeroInPrefix bytes) (stat_mtime st)).
Proof.
  intros fs absPath w st bytes Hstat Hmiss Hread Hcap.
  destruct (holds_to_run _ _ _ _
              (after_conj _ _ _ _ _
                 (isBinary_classifies fs absPath w st bytes Hstat Hmiss Hread)
                 (isBinary_leaves_entry fs absPath w st Hstat Hcap)))
    as (w' & r & Hrun & Hr & verdict & Hr' & Hget).
  exists w'. subst r. inversion Hr'; subst verdict. split; assumption.
Qed.

Lemma isBinary_verdict_is_zero_in_prefix_witness :
  exists w',
    isBinary streamFs ["log.bin"%string] emptyWorld
    = (w', Returned (hasZeroInPrefix (concat streamChunks)))
    /\ mapGet Uri_eqb ["log.bin"%string] (isBinaryCache w')
       = Some (mkBinaryCacheEntry (hasZeroInPrefix (concat streamChunks))
                 (stat_mtime (mkFileStat FileType_File 3 5))).
Proof.
  apply (isBinary_verdict_is_zero_in_prefix streamFs ["log.bin"%string] emptyWorld
           (mkFileStat FileType_File 3 5) (concat streamChunks)).
  - reflexivity.
  - exact I.
  - exists streamChunks. split; reflexivity.
  - apply Nat.le_0_l.
Defined.

(** X3. For a file whose stat does not change, a second call of [isBinary]
    returns the verdict of the first and asks the host for the stat only:
    the content is not read again, and the cache is left as it is. *)
Theorem isBinary_second_call_only_stats :
  forall fs absPath w st,
    (forall t, fs_stat fs t absPath = Ok st) ->
    mapSize (isBinaryCache w) <= MAX_BINARY_CACHE_SIZE ->
    exists w1 w2 verdict,
      isBinary fs absPath w = (w1, Returned verdict)
      /\ isBinary fs absPath w1 = (w2, Returned verdict)
      /\ trace w2 = trace w1 ++ [FsStat absPath]
      /\ isBinaryCache w2 = isBinaryCache w1.
Proof.
  intros fs absPath w st Hstat Hcap.
  destruct (holds_to_run _ _ _ _
              (isBinary_leaves_entry fs absPath w st (Hstat _) Hcap))
    as (w1 & r & Hrun & verdict & Hr & Hget).
  subst r.
  exists w1, (logged (FsStat absPath) (advance w1)), verdict.
  split; [exact Hrun|]. split; [|split; reflexivity].
  exact (isBinary_hit fs absPath w1 st _ (Hstat _) Hget eq_refl).
Qed.

Lemma isBinary_second_call_only_stats_witness :
  exists w1 w2 verdict,
    isBinary (staticFs textTree) textPath emptyWorld = (w1, Returned verdict)
    /\ isBinary (staticFs textTree) textPath w1 = (w2, Returned verdict)
    /\ trace w2 = trace w1 ++ [FsStat textPath]
    /\ isBinaryCache w2 = isBinaryCache w1.
Proof.
  apply (isBinary_second_call_only_stats (staticFs textTree) textPath emptyWorld
           (mkFileStat FileType_File 5 2)).
  - intro t. reflexivity.
  - apply Nat.le_0_l.
Defined.

(** X4. When the stat succeeds but the content cannot be read (the read is
    rejected, the stream cannot be opened, or one of its reads fails),
    [isBinary] answers "binary" and caches that verdict under the
    modification time of the stat. *)
Theorem isBinary_unreadable_is_binary_and_cached :
  forall fs absPath w st,
    fs_stat fs (now w) absPath = Ok st ->
    binaryCacheMiss (mapGet Uri_eqb absPath (isBinaryCache w)) st ->
    contentUnreadable fs (S (now w)) absPath ->
    mapSize (isBinaryCache w) <= MAX_BINARY_CACHE_SIZE ->
    exists w',
      isBinary fs absPath w = (w', Returned true)
      /\ mapGet Uri_eqb absPath (isBinaryCache w')
         = Some (mkBinaryCacheEntry true (stat_mtime st)).
Proof.
  intros fs absPath w st Hstat Hmiss Hread Hcap.
  destruct (holds_to_run _ _ _ _
              (after_conj _ _ _ _ _
                 (isBinary_fails_safe fs absPath w st Hstat Hmiss Hread)
                 (isBinary_leaves_entry fs absPath w st Hstat Hcap)))
    as (w' & r & Hrun & Hr & verdict & Hr' & Hget).
  exists w'. subst r. inversion Hr'; subst verdict. split; assumption.
Qed.

Lemma isBinary_unreadable_is_binary_and_cached_witness :
  exists w',
    isBinary unreadableFs textPath emptyWorld = (w', Returned true)
    /\ mapGet Uri_eqb textPath (isBinaryCache w')
       = Some (mkBinaryCacheEntry true
                 (stat_mtime (mkFileStat FileType_File 5 2))).
Proof.
  apply (isBinary_unreadable_is_binary_and_cached unreadableFs textPath emptyWorld
           (mkFileStat FileType_File 5 2)).
  - reflexivity.
  - exact I.
  - exists "EACCES"%string. reflexivity.
  - apply Nat.le_0_l.
Defined.

(** ** The caches stay within their capacity *)

Lemma isBinary_capacity : forall fs absPath w,
  mapSize (isBinaryCache w) <= MAX_BINARY_CACHE_SIZE ->
  holdsAfter (isBinary fs absPath) w
    (fun w' _ => mapSize (isBinaryCache w') <= MAX_BINARY_CACHE_SIZE).
Proof.
  intros fs absPath w Hcap. unfold isBinary.
  eff_steps; world_fields; try exact Hcap; apply evictOldest_size.
Qed.

Lemma countTokensFile_capacity : forall fs tk signal absPath w,
  cachesWithinCapacity w ->
  holdsAfter (countTokensFile fs tk signal absPath) w
    (fun w' r => cachesWithinCapacity w' /\ exists n, r = Returned n).
Proof.
  intros fs tk signal absPath w [Hbin Htok]. unfold countTokensFile.
  eff_steps; world_fields.
  all: try (split; [split; assumption | eauto]; fail).
  all: eapply after_weaken;
    [ apply after_conj; [apply isBinary_spec | apply isBinary_capacity; exact Hbin] |].
  all: cbv beta; intros w1 r [(Htok1 & _ & _ & verdict & Hr & _) Hbin1]; subst r.
  all: eff_steps; world_fields.
  all: split; [split|eauto]; world_fields;
    try assumption; try (rewrite Htok1; assumption).
  all: apply evictOldest_size.
Qed.

Ltac capacity_kept :=
  unfold cachesWithinCapacity in *; world_fields;
  repeat match goal with
         | H : _ /\ _ |- _ => destruct H
         end;
  first [ assumption
        | split; first [assumption | apply evictOldest_size] ].

Ltac capacity_steps :=
  repeat first
    [ async_step
    | at_await ltac:(capacity_kept) ltac:(exact Logic.I)
    | through_scan ltac:(intro; exact Logic.I) ltac:(intros; exact Logic.I)
        ltac:(capacity_kept) ltac:(exact Logic.I) ].

Ltac capacity_leaf :=
  unfold kept, anyStep; split; [capacity_kept | split; [exact Logic.I | eauto]].

Lemma isBinaryAsync_capacity : forall fs absPath w0 w,
  cachesWithinCapacity w ->
  safe cachesWithinCapacity anyStep (isBinaryAsync fs absPath) w0 w
    (kept cachesWithinCapacity anyStep (fun r _ => exists v, r = Returned v)).
Proof.
  intros fs absPath w0 w Hw. unfold isBinaryAsync.
  capacity_steps; capacity_leaf.
Qed.

Lemma countTokensFileAsync_capacity : forall fs tk signal absPath w,
  cachesWithinCapacity w ->
  safe cachesWithinCapacity anyStep (countTokensFileAsync fs tk signal absPath) w w
    (kept cachesWithinCapacity anyStep (fun r _ => exists n, r = Returned n)).
Proof.
  intros fs tk signal absPath w Hw. unfold countTokensFileAsync. cbv zeta.
  capacity_steps; try (capacity_leaf; fail).
  all: (eapply safe_weaken;
        [ apply isBinaryAsync_capacity; capacity_kept
        | cbv beta; intros r w0' w1 (HI1 & HG1 & v & ->) ]).
  all: capacity_steps; capacity_leaf.
Qed.

(** X5. Neither content cache outgrows its capacity of 5000 entries: when
    both are within capacity before [countTokens] (or [isBinary] alone), they
    are within capacity after it, whatever the host answers, however many
    paths are counted, and in whatever order the host lets the tasks go
    on. *)
Theorem countTokens_keeps_caches_within_capacity :
  forall fs tk paths signal schedule absPath w,
    cachesWithinCapacity w ->
    cachesWithinCapacity (fst (countTokens fs tk paths signal schedule w))
    /\ cachesWithinCapacity (fst (isBinary fs absPath w)).
Proof.
  intros fs tk paths signal schedule absPath w Hw. split.
  - assert (Hsafe : safe cachesWithinCapacity anyStep
                      (countTokensAsync fs tk paths signal schedule) w w
                      (fun _ _ w' => cachesWithinCapacity w')).
    { unfold countTokensAsync. capacity_steps; try capacity_kept.
      all: (eapply safe_weaken;
            [ apply (promiseAll_safe cachesWithinCapacity anyStep
                       (fun _ => Logic.I) (fun _ _ _ _ _ => Logic.I)
                       Uri nat (fun _ r _ => exists n, r = Returned n));
              [ intros ? ? ? ? Hx _; exact Hx
              | discriminate
              | intros x w1 _ Hw1; apply countTokensFileAsync_capacity; exact Hw1
              | capacity_kept
              | exact Logic.I ]
            | cbv beta; intros r w0' w1 (HI1 & HG1 & Hall) ]).
      all: destruct r; capacity_steps; capacity_kept. }
    destruct (safe_runAlone cachesWithinCapacity anyStep (fun _ => Logic.I)
                _ _ w w _ Hw Hsafe) as (w0' & _ & H).
    exact H.
  - rewrite <- isBinary_alone.
    destruct (safe_runAlone cachesWithinCapacity anyStep (fun _ => Logic.I)
                _ _ w w _ Hw (isBinaryAsync_capacity fs absPath w w Hw))
      as (w0' & _ & H & _).
    exact H.
Qed.

(** Both caches full, and two files that are in neither, counted in
    turn: each write is followed by an eviction. *)
Lemma countTokens_keeps_caches_within_capacity_witness :
  cachesWithinCapacity
    (fst (countTokens (staticFs textTree) byteTokenizer
            [textPath; ["b.txt"%string]; textPath] None (roundRobin 3 8)
            fullCachesWorld))
  /\ cachesWithinCapacity
       (fst (isBinary (staticFs textTree) textPath fullCachesWorld)).
Proof.
  apply (countTokens_keeps_caches_within_capacity (staticFs textTree)
           byteTokenizer [textPath; ["b.txt"%string]; textPath] None
           (roundRobin 3 8) textPath fullCachesWorld).
  split.
  - rewrite (proj2 fullCaches_sizes). apply Nat.le_refl.
  - rewrite (proj1 fullCaches_sizes). apply Nat.le_refl.
Defined.

(** In that run the oldest entry of each cache is evicted. *)
Example full_caches_evict_on_count :
  mapGet Uri_eqb (numberedPath 0)
    (tokenCache (fst (countTokens (staticFs textTree) byteTokenizer
                        [textPath] None [] fullCachesWorld))) = None
  /\ mapGet Uri_eqb (numberedPath 0)
       (isBinaryCache (fst (countTokens (staticFs textTree) byteTokenizer
                              [textPath] None [] fullCachesWorld))) = None
  /\ mapSize (tokenCache (fst (countTokens (staticFs textTree) byteTokenizer
                                 [textPath] None [] fullCachesWorld)))
     = MAX_CACHE_SIZE.
Proof. vm_compute. repeat split. Qed.

(** ** [countTokens] on a host that does not change *)


Lemma binaryCacheCoherent_written : forall fs absPath st verdict cache,
  verdict = scannedBinary fs absPath ->
  binaryCacheCoherent fs cache ->
  binaryCacheCoherent fs
    (evictOldest Uri_eqb MAX_BINARY_CACHE_SIZE
       (mapSet Uri_eqb absPath
          (mkBinaryCacheEntry verdict (stat_mtime st)) cache)).
Proof.
  intros fs absPath st verdict cache Hv Hc p c st' Hin Hstat Hm.
  destruct (In_written _ _ _ _ _ _ _ Hin) as [E | Hin'].
  - inversion E; subst. reflexivity.
  - exact (Hc p c st' Hin' Hstat Hm).
Qed.

(** The leaves of [isBinary] on a static host. *)
Ltac scanned_leaf fs absPath Hs Hc :=
  lazymatch goal with
  | |- Returned ?v = _ /\ _ =>
      assert (Hv : v = scannedBinary fs absPath);
      [ first
          [ eapply Hc;
            [ apply mapGet_Some_In; eassumption
            | eassumption
            | apply Nat.eqb_eq; assumption ]
          | unfold scannedBinary; rewrite Hs; use_equations; reflexivity ]
      | split; [f_equal; exact Hv|];
        split; [| reflexivity];
        first [ exact Hc | apply binaryCacheCoherent_written; assumption ] ]
  end.

Lemma isBinary_static : forall fs absPath w,
  staticHost fs ->
  binaryCacheCoherent fs (isBinaryCache w) ->
  holdsAfter (isBinary fs absPath) w
    (fun w' r =>
       r = Returned (scannedBinary fs absPath)
       /\ binaryCacheCoherent fs (isBinaryCache w')
       /\ tokenCache w' = tokenCache w).
Proof.
  intros fs absPath w (Hstat & Hread & Hstream) Hc.
  unfold isBinary.
  destruct (fs_readFileStream fs) as [readFileStream |] eqn:Hs.
  - specialize (Hstream readFileStream eq_refl).
    eff_steps_with ltac:(world_fields; try rewrite Hstat; try rewrite Hstream);
      world_fields; tidy.
    all: scanned_leaf fs absPath Hs Hc.
  - eff_steps_with ltac:(world_fields; try rewrite Hstat; try rewrite Hread);
      world_fields; tidy.
    all: scanned_leaf fs absPath Hs Hc.
Qed.

Lemma tokenCacheCoherent_written : forall fs tk absPath st tokens cache,
  tokens = tokensOf fs tk absPath ->
  tokenCacheCoherent fs tk cache ->
  tokenCacheCoherent fs tk
    (evictOldest Uri_eqb MAX_CACHE_SIZE
       (mapSet Uri_eqb absPath
          (mkTokenCacheEntry tokens (stat_mtime st) (stat_size st)) cache)).
Proof.
  intros fs tk absPath st tokens cache Hn Hc p c st' Hin Hstat Hm Hsz.
  destruct (In_written _ _ _ _ _ _ _ Hin) as [E | Hin'].
  - inversion E; subst. reflexivity.
  - exact (Hc p c st' Hin' Hstat Hm Hsz).
Qed.

(** The leaves of [countTokensFile] on a static host. *)
Ltac counted_leaf fs tk absPath Hc :=
  lazymatch goal with
  | |- Returned ?n = _ /\ _ =>
      assert (Hn : n = tokensOf fs tk absPath);
      [ first
          [ match goal with
            | H : _ && _ = true |- _ =>
                apply andb_prop in H; destruct H as [H1 H2];
                apply Nat.eqb_eq in H1; apply Nat.eqb_eq in H2;
                eapply Hc; [apply mapGet_Some_In; eassumption | eassumption
                           | exact H1 | exact H2]
            end
          | unfold tokensOf; use_equations; reflexivity ]
      | split; [f_equal; exact Hn|];
        unfold cachesCoherent; world_fields;
        split; [assumption|];
        first [ assumption
              | apply tokenCacheCoherent_written; assumption ] ]
  end.

Lemma countTokensFile_static : forall fs tk signal absPath w,
  staticHost fs ->
  neverAborted signal ->
  cachesCoherent fs tk w ->
  holdsAfter (countTokensFile fs tk signal absPath) w
    (fun w' r =>
       r = Returned (tokensOf fs tk absPath) /\ cachesCoherent fs tk w').
Proof.
  intros fs tk signal absPath w Hhost Hsig [Hbin Htok].
  pose proof Hhost as (Hstat & Hread & _).
  assert (Hs : forall s t, signal = Some s -> s t = false)
    by (intros s t E; exact (Hsig s t E)).
  unfold countTokensFile.
  destruct signal as [s |];
    [ specialize (Hs s); assert (Hs' : forall t, s t = false)
        by (intro t; now apply Hs) |].
  all: eff_steps_with ltac:(world_fields; try rewrite Hs'; try rewrite Hstat);
    world_fields; tidy.
  all: try (counted_leaf fs tk absPath Htok; fail).
  all: (eapply after_weaken;
        [ apply isBinary_static; [exact Hhost | world_fields; exact Hbin] |]).
  all: cbv beta; intros w1 r (Hr & Hbin1 & Htok1); subst r; world_fields.
  all: rewrite <- Htok1 in Htok.
  all: eff_steps_with ltac:(world_fields; try rewrite Hs'; try rewrite Hread);
    world_fields; tidy.
  all: counted_leaf fs tk absPath Htok.
Qed.

Ltac coherent_kept :=
  unfold cachesCoherent in *; world_fields;
  repeat match goal with
         | H : _ /\ _ |- _ => destruct H
         end;
  first [ assumption | split; assumption ].

Ltac static_steps Hstat Hread Hstream Hs' :=
  repeat first
    [ async_step;
      world_fields; try rewrite Hs'; try rewrite Hstat; try rewrite Hread;
      try rewrite Hstream; cbv beta match
    | at_await ltac:(coherent_kept) ltac:(exact Logic.I)
    | through_scan ltac:(intro; exact Logic.I) ltac:(intros; exact Logic.I)
        ltac:(coherent_kept) ltac:(exact Logic.I) ].

Ltac open_coherent :=
  unfold cachesCoherent in *;
  repeat match goal with
         | H : _ /\ _ |- _ => destruct H
         end.

(** The leaves of [isBinaryAsync] on a static host. *)
Ltac scanned_kept fs absPath Hs :=
  unfold kept, anyStep; open_coherent;
  lazymatch goal with
  | |- _ /\ _ /\ Returned ?v = _ =>
      assert (Hv : v = scannedBinary fs absPath);
      [ first
          [ match goal with
            | Hc : binaryCacheCoherent fs (isBinaryCache ?w),
              Hg : mapGet _ _ (isBinaryCache ?w) = Some ?c |- _ =>
                eapply (Hc _ _ _ (mapGet_Some_In _ _ _ _ Hg));
                [ eassumption | apply Nat.eqb_eq; assumption ]
            end
          | unfold scannedBinary; rewrite Hs; use_equations; reflexivity ]
      | split;
        [ world_fields; split;
          first [ assumption | apply binaryCacheCoherent_written; assumption ]
        | split; [exact Logic.I | f_equal; exact Hv] ] ]
  end.

Lemma isBinaryAsync_static : forall fs tk absPath w0 w,
  staticHost fs ->
  cachesCoherent fs tk w ->
  safe (cachesCoherent fs tk) anyStep (isBinaryAsync fs absPath) w0 w
    (kept (cachesCoherent fs tk) anyStep
       (fun r _ => r = Returned (scannedBinary fs absPath))).
Proof.
  intros fs tk absPath w0 w (Hstat & Hread & Hstream) Hw.
  unfold isBinaryAsync.
  destruct (fs_readFileStream fs) as [readFileStream |] eqn:Hs.
  - specialize (Hstream readFileStream eq_refl).
    static_steps Hstat Hread Hstream Hstat; world_fields; tidy.
    all: scanned_kept fs absPath Hs.
  - static_steps Hstat Hread Hstat Hstat; world_fields; tidy.
    all: scanned_kept fs absPath Hs.
Qed.

(** The leaves of [countTokensFileAsync] on a static host. *)
Ltac counted_kept fs tk absPath :=
  unfold kept, anyStep; open_coherent;
  lazymatch goal with
  | |- _ /\ _ /\ Returned ?n = _ =>
      assert (Hn : n = tokensOf fs tk absPath);
      [ first
          [ match goal with
            | Hc : tokenCacheCoherent fs tk (tokenCache ?w),
              Hg : mapGet _ _ (tokenCache ?w) = Some ?c,
              Hb : _ && _ = true |- _ =>
                let Hm := fresh "Hm" in
                let Hz := fresh "Hz" in
                apply andb_prop in Hb; destruct Hb as [Hm Hz];
                apply Nat.eqb_eq in Hm; apply Nat.eqb_eq in Hz;
                eapply (Hc _ _ _ (mapGet_Some_In _ _ _ _ Hg));
                [ eassumption | exact Hm | exact Hz ]
            end
          | unfold tokensOf; use_equations; reflexivity ]
      | split;
        [ world_fields; split;
          first [ assumption | apply tokenCacheCoherent_written; assumption ]
        | split; [exact Logic.I | f_equal; exact Hn] ] ]
  end.

Lemma countTokensFileAsync_static : forall fs tk signal absPath w,
  staticHost fs ->
  neverAborted signal ->
  cachesCoherent fs tk w ->
  safe (cachesCoherent fs tk) anyStep (countTokensFileAsync fs tk signal absPath)
    w w
    (kept (cachesCoherent fs tk) anyStep
       (fun r _ => r = Returned (tokensOf fs tk absPath))).
Proof.
  intros fs tk signal absPath w Hhost Hsig Hw.
  pose proof Hhost as (Hstat & Hread & _).
  assert (Hs : forall s t, signal = Some s -> s t = false)
    by (intros s t E; exact (Hsig s t E)).
  unfold countTokensFileAsync. cbv zeta.
  destruct signal as [s |];
    [ specialize (Hs s); assert (Hs' : forall t, s t = false)
        by (intro t; now apply Hs) |].
  - static_steps Hstat Hread Hstat Hs'; world_fields; tidy.
    all: try (counted_kept fs tk absPath; fail).
    all: (eapply safe_weaken;
          [ apply isBinaryAsync_static; [exact Hhost | coherent_kept]
          | cbv beta; intros r w0' w1 (HI1 & HG1 & ->) ]).
    all: static_steps Hstat Hread Hstat Hs'; world_fields; tidy.
    all: counted_kept fs tk absPath.
  - static_steps Hstat Hread Hstat Hstat; world_fields; tidy.
    all: try (counted_kept fs tk absPath; fail).
    all: (eapply safe_weaken;
          [ apply isBinaryAsync_static; [exact Hhost | coherent_kept]
          | cbv beta; intros r w0' w1 (HI1 & HG1 & ->) ]).
    all: static_steps Hstat Hread Hstat Hstat; world_fields; tidy.
    all: counted_kept fs tk absPath.
Qed.

Lemma Forall2_returned_map : forall X B (f : X -> B) (xs : list X) (bs : list B),
  Forall2 (fun x b => Returned b = Returned (f x)) xs bs -> bs = map f xs.
Proof.
  intros X B f xs bs H. induction H as [|x b xs bs Hx Hall IH]; [reflexivity|].
  cbn [map]. inversion Hx; subst. reflexivity.
Qed.

(** X6. The caches of [countTokens] and [isBinary] do not change what
    [countTokens] returns, and neither does the order in which the host lets
    the tasks go on.  On a host whose answers do not change, with no
    cancellation, and with caches in which every entry that carries the
    current stat of its file is right (the empty caches, for one),
    [countTokens] returns the sum over [paths], repetitions included, of the
    count the code computes for the file without a cache: 0 for a file that
    cannot be statted, is over the preview ceiling, has a zero byte among its
    first 512 or cannot be read or encoded, and the length of the encoding
    otherwise.  The caches it leaves are again right. *)
Theorem countTokens_is_sum_of_file_counts :
  forall fs tk paths signal schedule w,
    staticHost fs ->
    neverAborted signal ->
    cachesCoherent fs tk w ->
    exists w',
      countTokens fs tk paths signal schedule w
      = (w', Returned (fold_left Nat.add (map (tokensOf fs tk) paths) 0))
      /\ cachesCoherent fs tk w'.
Proof.
  intros fs tk paths signal schedule w Hhost Hsig Hw.
  assert (Hsafe : safe (cachesCoherent fs tk) anyStep
                    (countTokensAsync fs tk paths signal schedule) w w
                    (fun r _ w' =>
                       r = Returned (fold_left Nat.add
                                       (map (tokensOf fs tk) paths) 0)
                       /\ cachesCoherent fs tk w')).
  { unfold countTokensAsync.
    assert (Hs : forall s t, signal = Some s -> s t = false)
      by (intros s t E; exact (Hsig s t E)).
    destruct signal as [s |];
      [ specialize (Hs s); assert (Hs' : forall t, s t = false)
          by (intro t; now apply Hs) |].
    all: repeat (async_step; world_fields; try rewrite Hs'; cbv beta match).
    all: (eapply safe_weaken;
          [ apply (promiseAll_safe (cachesCoherent fs tk) anyStep
                     (fun _ => Logic.I) (fun _ _ _ _ _ => Logic.I)
                     Uri nat
                     (fun p r _ => r = Returned (tokensOf fs tk p)));
            [ intros ? ? ? ? Hx _; exact Hx
            | discriminate
            | intros x w1 _ Hw1; apply countTokensFileAsync_static; assumption
            | coherent_kept
            | exact Logic.I ]
          | cbv beta; intros r w0' w1 (HI1 & HG1 & Hall) ]).
    all: destruct r as [bs | e |]; cbn [allKept] in Hall;
      try (destruct Hall as (x & _ & Hx); discriminate Hx).
    all: apply Forall2_returned_map in Hall; subst bs.
    all: repeat async_step; world_fields; split; [reflexivity | coherent_kept]. }
  destruct (safe_runAlone (cachesCoherent fs tk) anyStep (fun _ => Logic.I)
              _ _ w w _ Hw Hsafe) as (w0' & _ & Hr & Hc).
  exists (fst (countTokens fs tk paths signal schedule w)).
  split; [|exact Hc].
  unfold countTokens. rewrite <- Hr. apply surjective_pairing.
Qed.

(** The same path twice, with another one between them, the host letting
    the three tasks go on in turn: both tasks of [a.txt] miss the cache and
    read the file. *)
Lemma countTokens_is_sum_of_file_counts_witness :
  exists w',
    countTokens (staticFs textTree) byteTokenizer
      [textPath; ["b.txt"%string]; textPath] None (roundRobin 3 8) emptyWorld
    = (w', Returned
             (fold_left Nat.add
                (map (tokensOf (staticFs textTree) byteTokenizer)
                   [textPath; ["b.txt"%string]; textPath]) 0))
    /\ cachesCoherent (staticFs textTree) byteTokenizer w'.
Proof.
  apply (countTokens_is_sum_of_file_counts (staticFs textTree) byteTokenizer
           [textPath; ["b.txt"%string]; textPath] None (roundRobin 3 8)
           emptyWorld).
  - split; [|split]; intros; try reflexivity. discriminate.
  - intros s t E. discriminate E.
  - split; intros p c st [].
Defined.

(** ** [getIgnoreParser]: what every call returns *)

Lemma parserCacheSound_written : forall root parser mtime w,
  parserCacheSound w ->
  startsWithDefaults parser ->
  parser_id parser = nextParserId w ->
  forall q c,
    In (q, c) (mapSet Uri_eqb root (mkParserCacheEntry parser mtime)
                 (ignoreParserCache w)) ->
    startsWithDefaults (pc_parser c) /\ parser_id (pc_parser c) < S (nextParserId w).
Proof.
  intros root parser mtime w Hw Hd Hid q c Hin.
  destruct (In_mapSet _ _ _ _ _ _ Hin) as [E | Hin'].
  - inversion E; subst. cbn [pc_parser]. split; [exact Hd|]. rewrite Hid. lia.
  - destruct (Hw q c Hin') as [H1 H2]. split; [exact H1 | lia].
Qed.

(** X7. [getIgnoreParser] never throws, and the matcher it returns always
    starts with the default patterns [.git/] and [.git]: whatever the host
    answers, and whether the matcher comes from the cache, from the
    ignore-file or from the fallback.  (The cache is one that earlier calls
    have filled: its matchers start with the defaults and are objects already
    made; the call leaves it so.) *)
Theorem getIgnoreParser_always_has_defaults :
  forall fs decode root w,
    parserCacheSound w ->
    exists w' parser,
      getIgnoreParser fs decode root w = (w', Returned parser)
      /\ startsWithDefaults parser
      /\ parser_id parser < nextParserId w'
      /\ parserCacheSound w'.
Proof.
  intros fs decode root w Hw.
  assert (H : holdsAfter (getIgnoreParser fs decode root) w
                (fun w' r =>
                   exists parser,
                     r = Returned parser
                     /\ startsWithDefaults parser
                     /\ parser_id parser < nextParserId w'
                     /\ parserCacheSound w')).
  { unfold getIgnoreParser. eff_steps; world_fields; tidy.
    all: eexists; split; [reflexivity|].
    all: unfold parserCacheSound, add; world_fields; record_fields.
    all: try (split; [reflexivity|]; split; [lia|];
              first [ apply parserCacheSound_written;
                      [exact Hw | reflexivity | reflexivity]
                    | intros q c Hin; destruct (Hw q c Hin); split;
                      [assumption | lia] ]; fail).
    match goal with
    | H : mapGet _ _ _ = Some ?c |- _ =>
        destruct (Hw root c (mapGet_Some_In _ _ _ _ H)) as [H1 H2]
    end.
    split; [assumption|]. split; [assumption | exact Hw]. }
  destruct (holds_to_run _ _ _ _ H) as (w' & r & Hrun & parser & Hr & Hrest).
  exists w', parser. subst r. split; assumption.
Qed.

Lemma getIgnoreParser_always_has_defaults_witness :
  exists w' parser,
    getIgnoreParser (staticFs ignoreTree) asciiDecode [] staleParserWorld
    = (w', Returned parser)
    /\ startsWithDefaults parser
    /\ parser_id parser < nextParserId w'
    /\ parserCacheSound w'.
Proof.
  apply (getIgnoreParser_always_has_defaults (staticFs ignoreTree) asciiDecode []
           staleParserWorld).
  intros root c [E | []]. inversion E; subst.
  split; [reflexivity | apply Nat.lt_0_succ].
Defined.

(** ** [getIgnoreParser]: reload, reuse and fallback *)

(** X8. A cached matcher of another modification time is not returned: the
    ignore-file is read again, a new matcher object is made from the default
    patterns and the decoded file, and it takes the place of the old entry
    under the same key, so the cache holds the same keys as before. *)
Theorem getIgnoreParser_reloads_changed_file :
  forall fs decode root w st bytes c,
    fs_stat fs (now w) (joinPath root ".gitignore") = Ok st ->
    fs_readFile fs (S (now w)) (joinPath root ".gitignore") = Ok bytes ->
    mapGet Uri_eqb root (ignoreParserCache w) = Some c ->
    pc_mtime c <> stat_mtime st ->
    parser_id (pc_parser c) < nextParserId w ->
    exists w' parser,
      getIgnoreParser fs decode root w = (w', Returned parser)
      /\ parser_added parser = DEFAULT_IGNORE_PATTERNS ++ [decode bytes]
      /\ parser_id parser <> parser_id (pc_parser c)
      /\ mapGet Uri_eqb root (ignoreParserCache w')
         = Some (mkParserCacheEntry parser (stat_mtime st))
      /\ mapKeys (ignoreParserCache w') = mapKeys (ignoreParserCache w)
      /\ trace w' = trace w ++ [FsStat (joinPath root ".gitignore");
                                FsReadFile (joinPath root ".gitignore");
                                LogIgnoreLoaded root].
Proof.
  intros fs decode root w st bytes c Hstat Hread Hget Hm Hid.
  apply Nat.eqb_neq in Hm.
  assert (H : holdsAfter (getIgnoreParser fs decode root) w
                (fun w' r =>
                   r = Returned (mkIgnoreParser (nextParserId w)
                                   (DEFAULT_IGNORE_PATTERNS ++ [decode bytes]))
                   /\ ignoreParserCache w'
                      = mapSet Uri_eqb root
                          (mkParserCacheEntry
                             (mkIgnoreParser (nextParserId w)
                                (DEFAULT_IGNORE_PATTERNS ++ [decode bytes]))
                             (stat_mtime st))
                          (ignoreParserCache w)
                   /\ trace w' = trace w ++ [FsStat (joinPath root ".gitignore");
                                             FsReadFile (joinPath root ".gitignore");
                                             LogIgnoreLoaded root])).
  { unfold getIgnoreParser.
    eff_steps_with ltac:(world_fields; try rewrite Hstat; try rewrite Hread;
                         try rewrite Hget; try rewrite Hm);
      world_fields; tidy.
    repeat split. now rewrite <- !app_assoc. }
  destruct (holds_to_run _ _ _ _ H) as (w' & r & Hrun & Hr & Hcache & Htrace).
  exists w', (mkIgnoreParser (nextParserId w)
                (DEFAULT_IGNORE_PATTERNS ++ [decode bytes])).
  subst r. split; [exact Hrun|]. split; [reflexivity|].
  split; [cbn [parser_id]; lia|]. rewrite Hcache.
  split; [apply (mapGet_mapSet_same Uri_eqb_eq)|].
  split; [|exact Htrace].
  apply mapSet_existing_keys. rewrite Hget. discriminate.
Qed.

Lemma getIgnoreParser_reloads_changed_file_witness :
  exists w' parser,
    getIgnoreParser (staticFs ignoreTree) asciiDecode [] staleParserWorld
    = (w', Returned parser)
    /\ parser_added parser
       = DEFAULT_IGNORE_PATTERNS
         ++ [asciiDecode [Byte.x64; Byte.x69; Byte.x73; Byte.x74]]
    /\ parser_id parser
       <> parser_id (pc_parser (mkParserCacheEntry
                                  (mkIgnoreParser 0 DEFAULT_IGNORE_PATTERNS) 2))
    /\ mapGet Uri_eqb [] (ignoreParserCache w')
       = Some (mkParserCacheEntry parser
                 (stat_mtime (mkFileStat FileType_File 3 4)))
    /\ mapKeys (ignoreParserCache w') = mapKeys (ignoreParserCache staleParserWorld)
    /\ trace w' = trace staleParserWorld
                  ++ [FsStat (joinPath [] ".gitignore");
                      FsReadFile (joinPath [] ".gitignore");
                      LogIgnoreLoaded []].
Proof.
  apply (getIgnoreParser_reloads_changed_file (staticFs ignoreTree) asciiDecode []
           staleParserWorld (mkFileStat FileType_File 3 4)
           [Byte.x64; Byte.x69; Byte.x73; Byte.x74]
           (mkParserCacheEntry (mkIgnoreParser 0 DEFAULT_IGNORE_PATTERNS) 2)).
  - reflexivity.
  - reflexivity.
  - reflexivity.
  - cbn. discriminate.
  - cbn. apply Nat.lt_0_succ.
Defined.

Lemma getIgnoreParser_leaves_entry : forall fs decode root w st bytes,
  fs_stat fs (now w) (joinPath root ".gitignore") = Ok st ->
  fs_readFile fs (S (now w)) (joinPath root ".gitignore") = Ok bytes ->
  holdsAfter (getIgnoreParser fs decode root) w
    (fun w' r =>
       exists parser,
         r = Returned parser
         /\ mapGet Uri_eqb root (ignoreParserCache w')
            = Some (mkParserCacheEntry parser (stat_mtime st))).
Proof.
  intros fs decode root w st bytes Hstat Hread. unfold getIgnoreParser.
  eff_steps_with ltac:(world_fields; try rewrite Hstat; try rewrite Hread);
    world_fields; tidy.
  all: eexists; (split; [reflexivity|]).
  all: try apply (mapGet_mapSet_same Uri_eqb_eq).
  match goal with
  | H : mapGet _ _ _ = Some ?c, E : (pc_mtime ?c =? _) = true |- _ =>
      rewrite H; destruct c as [p m]; cbn [pc_mtime pc_parser] in *;
      apply Nat.eqb_eq in E; now subst
  end.
Qed.

(** X9. While the ignore-file stays as it is and can be read, a second call
    for the same root returns the very matcher of the first: it stats the
    file, reports the cache hit, and neither reads the file nor makes a
    matcher nor touches the cache. *)
Theorem getIgnoreParser_reuses_matcher :
  forall fs decode root w st bytes,
    (forall t, fs_stat fs t (joinPath root ".gitignore") = Ok st) ->
    (forall t, fs_readFile fs t (joinPath root ".gitignore") = Ok bytes) ->
    exists w1 w2 parser,
      getIgnoreParser fs decode root w = (w1, Returned parser)
      /\ getIgnoreParser fs decode root w1 = (w2, Returned parser)
      /\ trace w2 = trace w1 ++ [FsStat (joinPath root ".gitignore");
                                 LogIgnoreCacheHit root]
      /\ ignoreParserCache w2 = ignoreParserCache w1
      /\ nextParserId w2 = nextParserId w1.
Proof.
  intros fs decode root w st bytes Hstat Hread.
  destruct (holds_to_run _ _ _ _
              (getIgnoreParser_leaves_entry fs decode root w st bytes
                 (Hstat _) (Hread _)))
    as (w1 & r & Hrun & parser & Hr & Hget).
  subst r.
  exists w1,
         (logged (LogIgnoreCacheHit root)
            (logged (FsStat (joinPath root ".gitignore")) (advance w1))),
         parser.
  split; [exact Hrun|].
  split; [exact (getIgnoreParser_hit fs decode root w1 st parser (Hstat _) Hget)|].
  world_fields. rewrite <- app_assoc. repeat split.
Qed.

Lemma getIgnoreParser_reuses_matcher_witness :
  exists w1 w2 parser,
    getIgnoreParser (staticFs ignoreTree) asciiDecode [] emptyWorld
    = (w1, Returned parser)
    /\ getIgnoreParser (staticFs ignoreTree) asciiDecode [] w1
       = (w2, Returned parser)
    /\ trace w2 = trace w1 ++ [FsStat (joinPath [] ".gitignore");
                               LogIgnoreCacheHit []]
    /\ ignoreParserCache w2 = ignoreParserCache w1
    /\ nextParserId w2 = nextParserId w1.
Proof.
  apply (getIgnoreParser_reuses_matcher (staticFs ignoreTree) asciiDecode []
           emptyWorld (mkFileStat FileType_File 3 4)
           [Byte.x64; Byte.x69; Byte.x73; Byte.x74]).
  - intro t. reflexivity.
  - intro t. reflexivity.
Defined.

(** X10. An ignore-file that can be statted but not read is treated as an
    absent one: with no cached matcher of its modification time, the call
    returns a new matcher of the default patterns only, reports that there is
    no ignore-file, and leaves the cache as it was, so that a cached matcher
    of an older version stays. *)
Theorem unreadable_ignore_file_gives_defaults :
  forall fs decode root w st e,
    fs_stat fs (now w) (joinPath root ".gitignore") = Ok st ->
    parserCacheMiss (mapGet Uri_eqb root (ignoreParserCache w)) st ->
    fs_readFile fs (S (now w)) (joinPath root ".gitignore") = Err e ->
    exists w',
      getIgnoreParser fs decode root w
      = (w', Returned (mkIgnoreParser (nextParserId w) DEFAULT_IGNORE_PATTERNS))
      /\ ignoreParserCache w' = ignoreParserCache w
      /\ trace w' = trace w ++ [FsStat (joinPath root ".gitignore");
                                FsReadFile (joinPath root ".gitignore");
                                LogIgnoreNone root].
Proof.
  intros fs decode root w st e Hstat Hmiss Hread.
  unfold parserCacheMiss in Hmiss.
  assert (H : holdsAfter (getIgnoreParser fs decode root) w
                (fun w' r =>
                   r = Returned (mkIgnoreParser (nextParserId w)
                                   DEFAULT_IGNORE_PATTERNS)
                   /\ ignoreParserCache w' = ignoreParserCache w
                   /\ trace w' = trace w ++ [FsStat (joinPath root ".gitignore");
                                             FsReadFile (joinPath root ".gitignore");
                                             LogIgnoreNone root])).
  { unfold getIgnoreParser.
    eff_steps_with ltac:(world_fields; try rewrite Hstat; try rewrite Hread);
      world_fields; tidy.
    all: repeat split; now rewrite <- !app_assoc. }
  destruct (holds_to_run _ _ _ _ H) as (w' & r & Hrun & Hr & Hrest).
  exists w'. subst r. split; assumption.
Qed.

Lemma unreadable_ignore_file_gives_defaults_witness :
  exists w',
    getIgnoreParser unreadableIgnoreFs asciiDecode [] staleParserWorld
    = (w', Returned (mkIgnoreParser (nextParserId staleParserWorld)
                       DEFAULT_IGNORE_PATTERNS))
    /\ ignoreParserCache w' = ignoreParserCache staleParserWorld
    /\ trace w' = trace staleParserWorld
                  ++ [FsStat (joinPath [] ".gitignore");
                      FsReadFile (joinPath [] ".gitignore");
                      LogIgnoreNone []].
Proof.
  apply (unreadable_ignore_file_gives_defaults unreadableIgnoreFs asciiDecode []
           staleParserWorld (mkFileStat FileType_File 3 4) "EACCES"%string).
  - reflexivity.
  - reflexivity.
  - reflexivity.
Defined.

(** ** [sortChildren] and [renderTree] *)

Lemma insertSorted_perm : forall X (cmp : X -> X -> comparison) x sorted,
  Permutation (insertSorted cmp x sorted) (x :: sorted).
Proof.
  induction sorted as [|y sorted IH]; cbn [insertSorted]; [reflexivity|].
  destruct (cmp x y); try reflexivity.
  rewrite IH. apply perm_swap.
Qed.

Lemma sortWith_perm : forall X (cmp : X -> X -> comparison) xs,
  Permutation (sortWith cmp xs) xs.
Proof.
  induction xs as [|x xs IH]; cbn [sortWith]; [reflexivity|].
  rewrite insertSorted_perm. now constructor.
Qed.

Lemma insertSorted_map : forall X Y (g : X -> Y) cmpX cmpY x sorted,
  (forall a b, cmpX a b = cmpY (g a) (g b)) ->
  insertSorted cmpY (g x) (map g sorted) = map g (insertSorted cmpX x sorted).
Proof.
  intros X Y g cmpX cmpY x sorted Hcmp.
  induction sorted as [|y sorted IH]; cbn [insertSorted map]; [reflexivity|].
  rewrite <- Hcmp. destruct (cmpX x y); cbn [map]; try reflexivity.
  now rewrite IH.
Qed.

Lemma sortWith_map : forall X Y (g : X -> Y) cmpX cmpY xs,
  (forall a b, cmpX a b = cmpY (g a) (g b)) ->
  sortWith cmpY (map g xs) = map g (sortWith cmpX xs).
Proof.
  intros X Y g cmpX cmpY xs Hcmp.
  induction xs as [|x xs IH]; cbn [sortWith map]; [reflexivity|].
  rewrite IH. now apply insertSorted_map.
Qed.

Lemma insertSorted_dirsBeforeFiles : forall localeCompare node sorted,
  dirsBeforeFiles sorted ->
  dirsBeforeFiles (insertSorted (compareNodes localeCompare) node sorted).
Proof.
  intros lc node sorted (dirs & files & E & Hd & Hf). subst sorted.
  induction dirs as [|d dirs IH].
  - cbn [app]. destruct (node_isFile node) eqn:Hn.
    + exists [], (insertSorted (compareNodes lc) node files).
      split; [reflexivity|]. split; [constructor|].
      apply Forall_forall. intros n Hin.
      apply (Permutation_in _ (insertSorted_perm _ _ _ _)) in Hin.
      destruct Hin as [<- | Hin]; [exact Hn|].
      exact (proj1 (Forall_forall _ _) Hf n Hin).
    + destruct files as [|f files]; cbn [insertSorted].
      * exists [node], []. repeat split; repeat constructor; assumption.
      * inversion Hf as [|? ? Hf1 Hf2]; subst.
        unfold compareNodes. rewrite Hn, Hf1. cbn [negb andb].
        exists [node], (f :: files).
        repeat split; repeat constructor; assumption.
  - inversion Hd as [|? ? Hd1 Hd2]; subst. cbn [app insertSorted].
    destruct (compareNodes lc node d) eqn:Hc.
    1, 2: destruct (node_isFile node) eqn:Hn;
      [ unfold compareNodes in Hc; rewrite Hn, Hd1 in Hc; cbn in Hc; discriminate
      | exists (node :: d :: dirs), files;
        repeat split; repeat constructor; assumption ].
    destruct (IH Hd2) as (dirs' & files' & E & Hd' & Hf').
    exists (d :: dirs'), files'. cbn [app]. rewrite E.
    repeat split; try constructor; assumption.
Qed.

(** X11. [sortChildren] returns the children of the node, every one once,
    with all directories before all files; this holds for every collation
    [localeCompare], also one that is not an order. *)
Theorem sortChildren_dirs_first :
  forall localeCompare (children : JsMap string TreeNode),
    Permutation (sortChildren localeCompare children) (map snd children)
    /\ dirsBeforeFiles (sortChildren localeCompare children).
Proof.
  intros lc children. unfold sortChildren. split; [apply sortWith_perm|].
  induction (map snd children) as [|n nodes IH]; cbn [sortWith].
  - exists [], []. repeat split; constructor.
  - now apply insertSorted_dirsBeforeFiles.
Qed.

Lemma renderSorted_renderChildren : forall localeCompare nodes prefix lines,
  renderSorted (map (fun n => (n, renderTree localeCompare n)) nodes) prefix lines
  = renderChildren localeCompare nodes prefix lines.
Proof.
  intros lc nodes. induction nodes as [|n nodes IH]; intros prefix lines;
    cbn [map renderSorted renderChildren]; [reflexivity|].
  rewrite IH. destruct nodes; reflexivity.
Qed.

(** [renderTree], as the source has it: the line of the node (none for the
    root), then the children in the order of [sortChildren]. *)
Lemma renderTree_equation :
  forall localeCompare name isFile isSelected children prefix isLast isRoot lines,
    renderTree localeCompare (mkTreeNode name isFile isSelected children)
      prefix isLast isRoot lines
    = if isRoot
      then renderChildren localeCompare (sortChildren localeCompare children)
             ""%string lines
      else
        let line := (prefix ++ (if isLast then connectorLast else connectorMid)
                       ++ name ++ (if isSelected then " *" else ""))%string in
        match children with
        | [] => lines ++ [line]
        | _ :: _ =>
            renderChildren localeCompare (sortChildren localeCompare children)
              (prefix ++ (if isLast then prefixLast else prefixMid))%string
              (lines ++ [line])
        end.
Proof.
  intros lc name isFile isSelected children prefix isLast isRoot lines.
  cbn [renderTree]. unfold sortChildren.
  rewrite <- (map_map snd (fun n => (n, renderTree lc n)) children).
  rewrite (sortWith_map _ _ (fun n => (n, renderTree lc n)) (compareNodes lc)
             (fun a b => compareNodes lc (fst a) (fst b)))
    by reflexivity.
  rewrite !renderSorted_renderChildren.
  destruct isRoot; [reflexivity|].
  destruct children; reflexivity.
Qed.

Lemma list_sum_perm : forall xs ys, Permutation xs ys -> list_sum xs = list_sum ys.
Proof.
  induction 1; simpl; lia.
Qed.

Lemma append_assoc : forall a b c : string,
  ((a ++ b) ++ c)%string = (a ++ (b ++ c))%string.
Proof.
  induction a as [|ch a IH]; intros b c; cbn [append]; [reflexivity|].
  now rewrite IH.
Qed.

Lemma startsWith_shorter : forall prefix more line,
  startsWith (prefix ++ more)%string line -> startsWith prefix line.
Proof.
  intros prefix more line [rest E]. exists (more ++ rest)%string.
  now rewrite E, append_assoc.
Qed.

(** The loop over the sorted children, when every child appends one line per
    node of its subtree, each under the prefix. *)
Lemma renderChildren_lines : forall localeCompare nodes prefix lines,
  Forall (fun node =>
            forall isLast lines0,
              exists added,
                renderTree localeCompare node prefix isLast false lines0
                = lines0 ++ added
                /\ length added = nodeCount node
                /\ Forall (startsWith prefix) added) nodes ->
  exists added,
    renderChildren localeCompare nodes prefix lines = lines ++ added
    /\ length added = list_sum (map nodeCount nodes)
    /\ Forall (startsWith prefix) added.
Proof.
  intros lc nodes prefix. induction nodes as [|n nodes IH]; intros lines Hall;
    cbn [renderChildren map]; simpl list_sum.
  - exists []. rewrite app_nil_r. repeat split; constructor.
  - inversion Hall as [|? ? Hn Hrest]; subst.
    destruct (Hn (match nodes with [] => true | _ => false end) lines)
      as (added1 & E1 & L1 & S1).
    rewrite E1.
    destruct (IH (lines ++ added1) Hrest) as (added2 & E2 & L2 & S2).
    rewrite E2. exists (added1 ++ added2).
    rewrite app_assoc, length_app, L1, L2.
    repeat split. apply Forall_app. split; assumption.
Qed.

Lemma sorted_children_all : forall localeCompare (P : TreeNode -> Prop) children,
  Forall (fun kv => P (snd kv)) children ->
  Forall P (sortChildren localeCompare children).
Proof.
  intros lc P children Hall.
  apply (Permutation_Forall (Permutation_sym (sortWith_perm _ _ _))).
  apply Forall_map. exact Hall.
Qed.

Lemma sorted_children_count : forall localeCompare children,
  list_sum (map nodeCount (sortChildren localeCompare children))
  = list_sum (map (fun kv => nodeCount (snd kv)) children).
Proof.
  intros lc children. rewrite <- (map_map snd nodeCount children).
  apply list_sum_perm, Permutation_map, sortWith_perm.
Qed.

Lemma renderTree_below_root : forall localeCompare node prefix isLast lines,
  exists added,
    renderTree localeCompare node prefix isLast false lines = lines ++ added
    /\ length added = nodeCount node
    /\ Forall (startsWith prefix) added.
Proof.
  intros lc node.
  induction node as [name isFile isSelected children IH]
    using TreeNode_nested_ind.
  intros prefix isLast lines. rewrite renderTree_equation. cbv zeta.
  set (line := (prefix ++ (if isLast then connectorLast else connectorMid)
                  ++ name ++ (if isSelected then " *" else ""))%string).
  assert (Hline : startsWith prefix line) by (eexists; reflexivity).
  destruct children as [|kv children'] eqn:Hch.
  - exists [line]. repeat split. now constructor.
  - rewrite <- Hch in *. clear Hch.
    destruct (renderChildren_lines lc (sortChildren lc children)
                (prefix ++ (if isLast then prefixLast else prefixMid))%string
                (lines ++ [line])) as (added & E & L & S).
    { apply sorted_children_all.
      eapply Forall_impl; [|exact IH]. cbv beta.
      intros kv' Hkv isLast0 lines0. apply Hkv. }
    exists (line :: added). rewrite E, <- app_assoc. cbn [app length nodeCount].
    rewrite L, sorted_children_count. repeat split.
    constructor; [exact Hline|].
    eapply Forall_impl; [|exact S]. cbv beta.
    intros l Hl. exact (startsWith_shorter _ _ _ Hl).
Qed.

(** X12. [renderTree] only appends to [lines], and it appends exactly one
    line for every node of the subtree it is given (for the root: one for
    every node but the root itself); below the root, every line it appends
    starts with the prefix it was given. *)
Theorem renderTree_one_line_per_node :
  forall localeCompare node prefix isLast isRoot lines,
    exists added,
      renderTree localeCompare node prefix isLast isRoot lines = lines ++ added
      /\ length added = (if isRoot then nodeCount node - 1 else nodeCount node)
      /\ (if isRoot then True else Forall (startsWith prefix) added).
Proof.
  intros lc node prefix isLast isRoot lines.
  destruct isRoot; [|apply renderTree_below_root].
  destruct node as [name isFile isSelected children].
  rewrite renderTree_equation.
  destruct (renderChildren_lines lc (sortChildren lc children) ""%string lines)
    as (added & E & L & _).
  { apply sorted_children_all. apply Forall_forall. intros kv _ isLast0 lines0.
    apply renderTree_below_root. }
  exists added. rewrite E. cbn [nodeCount]. rewrite L, sorted_children_count.
  split; [reflexivity|]. split; [lia | exact I].
Qed.

(** ** One root and many roots *)

Lemma appendWorkspace_blocks :
  forall localeCompare selectedFiles (m : JsMap Uri WorkspaceFiles) allLines,
    fold_left (appendWorkspace localeCompare selectedFiles) m allLines
    = allLines
      ++ concat (map (fun ws =>
                        workspaceLines localeCompare selectedFiles
                          (workspacePath ws) (files ws) ++ [EmptyString])
                     (filter hasFiles (map snd m))).
Proof.
  intros lc sel m. induction m as [|entry m IH]; intro allLines;
    cbn [fold_left map filter].
  - cbn [concat]. now rewrite app_nil_r.
  - rewrite IH. unfold appendWorkspace.
    assert (Hh : hasFiles (snd entry)
                 = negb (Nat.eqb (length (files (snd entry))) 0)) by reflexivity.
    rewrite Hh. destruct (Nat.eqb (length (files (snd entry))) 0); cbn [negb].
    + reflexivity.
    + cbn [map concat]. unfold workspaceLines.
      now rewrite <- !app_assoc.
Qed.

Lemma blocks_end_empty : forall (blocks : list (list string)),
  blocks <> [] ->
  exists front,
    concat (map (fun b => b ++ [EmptyString]) blocks) = front ++ [EmptyString].
Proof.
  induction blocks as [|b blocks IH]; intro Hne; [congruence|].
  cbn [map concat]. destruct blocks as [|b' blocks'].
  - exists b. cbn [map concat]. now rewrite app_nil_r.
  - destruct IH as [front E]; [discriminate|].
    exists ((b ++ [EmptyString]) ++ front). rewrite E. now rewrite app_assoc.
Qed.

Lemma popTrailingEmpty_blocks : forall (blocks : list (list string)),
  popTrailingEmpty (concat (map (fun b => b ++ [EmptyString]) blocks))
  = removelast (concat (map (fun b => b ++ [EmptyString]) blocks)).
Proof.
  intro blocks. destruct blocks as [|b blocks]; [reflexivity|].
  destruct (blocks_end_empty (b :: blocks)) as [front E]; [discriminate|].
  rewrite E. unfold popTrailingEmpty.
  rewrite last_last, length_app. cbn [length String.eqb].
  replace (0 <? length front + 1) with true
    by (symmetry; apply Nat.ltb_lt; lia).
  reflexivity.
Qed.

(** X13. The multi-root map is made of the single-root maps: for a map of
    workspaces that is not empty, [generateFileMapMultiRoot] wraps the lines
    of the workspaces that have files, in the order of the map, every block
    being the path of the root and the tree below it, with one empty line
    between two blocks and none after the last; a workspace without files
    adds nothing.  For one such workspace, [generateFileMap] wraps the same
    block, followed by an empty line and the legend, which the multi-root
    map does not have. *)
Theorem multi_root_is_blocks_of_single_root :
  forall localeCompare (filesByWorkspace : JsMap Uri WorkspaceFiles) selectedFiles,
    filesByWorkspace <> [] ->
    generateFileMapMultiRoot localeCompare filesByWorkspace selectedFiles
    = ("<file_map>" ++ newline
       ++ join newline
            (removelast
               (concat (map (fun ws =>
                               (workspaceLines localeCompare selectedFiles
                                  (workspacePath ws) (files ws)
                                  ++ [EmptyString])%list)
                            (filter hasFiles (map snd filesByWorkspace)))))
       ++ newline ++ "</file_map>")%string
    /\ forall ws,
         hasFiles ws = true ->
         generateFileMap localeCompare (files ws) (workspacePath ws) selectedFiles
         = ("<file_map>" ++ newline
            ++ join newline
                 (workspaceLines localeCompare selectedFiles
                    (workspacePath ws) (files ws))
            ++ newline ++ newline ++ legend ++ newline ++ "</file_map>")%string.
Proof.
  intros lc m sel Hne. split.
  - unfold generateFileMapMultiRoot.
    destruct m as [|entry m]; [congruence|].
    cbn [mapSize length Nat.eqb].
    rewrite appendWorkspace_blocks. cbn [app].
    rewrite <- (map_map (fun ws => workspaceLines lc sel (workspacePath ws) (files ws))
                  (fun b => b ++ [EmptyString])).
    rewrite popTrailingEmpty_blocks. reflexivity.
  - intros ws Hws. unfold generateFileMap, hasFiles in *.
    destruct (Nat.eqb (length (files ws)) 0); [discriminate|]. reflexivity.
Qed.

Lemma multi_root_is_blocks_of_single_root_witness :
  generateFileMapMultiRoot String.compare twoWorkspaces None
  = ("<file_map>" ++ newline
     ++ join newline
          (removelast
             (concat (map (fun ws =>
                             (workspaceLines String.compare None
                                (workspacePath ws) (files ws)
                                ++ [EmptyString])%list)
                          (filter hasFiles (map snd twoWorkspaces)))))
     ++ newline ++ "</file_map>")%string
  /\ forall ws,
       hasFiles ws = true ->
       generateFileMap String.compare (files ws) (workspacePath ws) None
       = ("<file_map>" ++ newline
          ++ join newline
               (workspaceLines String.compare None (workspacePath ws) (files ws))
          ++ newline ++ newline ++ legend ++ newline ++ "</file_map>")%string.
Proof.
  apply (multi_root_is_blocks_of_single_root String.compare twoWorkspaces None).
  discriminate.
Defined.

(** ** [buildTree] and files listed more than once *)

Lemma mapSet_same_value : forall K V (eqb : K -> K -> bool) k (v : V) m,
  (forall a b, eqb a b = true <-> a = b) ->
  mapGet eqb k m = Some v -> mapSet eqb k v m = m.
Proof.
  intros K V eqb k v m Heq. induction m as [|[k' v'] m IH];
    cbn [mapGet mapSet]; intro H; [discriminate|].
  destruct (eqb k k') eqn:E.
  - inversion H; subst. reflexivity.
  - now rewrite IH.
Qed.

Lemma mapGet_mapSet_other : forall K V (eqb : K -> K -> bool) k k' (v : V) m,
  (forall a b, eqb a b = true <-> a = b) ->
  k <> k' -> mapGet eqb k' (mapSet eqb k v m) = mapGet eqb k' m.
Proof.
  intros K V eqb k k' v m Heq Hne. induction m as [|[k0 v0] m IH];
    cbn [mapGet mapSet].
  - destruct (eqb k' k) eqn:E; [|reflexivity].
    apply Heq in E. congruence.
  - destruct (eqb k k0) eqn:E; cbn [mapGet].
    + apply Heq in E. subst k0.
      destruct (eqb k' k) eqn:E'; [|reflexivity].
      apply Heq in E'. congruence.
    + now rewrite IH.
Qed.

Lemma select_selected : forall n, node_isSelected n = true -> select n = n.
Proof. intros [name isFile isSelected children] H. cbn in *. now subst. Qed.

Lemma insertParts_keeps_flags : forall parts marked current,
  node_isSelected (insertParts parts marked current) = node_isSelected current.
Proof. intros [|part rest] marked current; reflexivity. Qed.

Lemma present_children : forall parts marked a b,
  node_children a = node_children b ->
  present parts marked a -> present parts marked b.
Proof.
  intros [|part rest] marked a b E; cbn [present]; [trivial|].
  now rewrite E.
Qed.

(** One round of the loop of [buildTree] over the parts: the node [next] for
    [part] is made, or found and perhaps selected; the loop goes on in it. *)
Lemma insertParts_step : forall part (rest : list string) marked current,
  exists next children1,
    insertParts (part :: rest) marked current
    = mkTreeNode (node_name current) (node_isFile current)
        (node_isSelected current)
        (mapSet String.eqb part (insertParts rest marked next) children1)
    /\ mapGet String.eqb part children1 = Some next
    /\ (rest = [] -> marked = true -> node_isSelected next = true)
    /\ (forall k, k <> part ->
          mapGet String.eqb k children1
          = mapGet String.eqb k (node_children current))
    /\ (forall existing,
          mapGet String.eqb part (node_children current) = Some existing ->
          node_children next = node_children existing
          /\ (node_isSelected existing = true -> node_isSelected next = true)
          /\ ((rest = [] -> marked = true -> node_isSelected existing = true) ->
              next = existing /\ children1 = node_children current)).
Proof.
  intros part rest marked current. cbn [insertParts].
  destruct (mapGet String.eqb part (node_children current)) as [existing |] eqn:Hget.
  - destruct ((match rest with [] => true | _ => false end)
              && ((match rest with [] => true | _ => false end) && marked)) eqn:Hb.
    + exists (select existing),
             (mapSet String.eqb part (select existing) (node_children current)).
      rewrite (mapGet_mapSet_same String.eqb_eq).
      split; [reflexivity|]. split; [reflexivity|]. split; [reflexivity|].
      split; [intros k Hk; apply mapGet_mapSet_other;
              [apply String.eqb_eq | congruence]|].
      intros e E. inversion E; subst e.
      split; [reflexivity|]. split; [reflexivity|].
      intro Hsel. destruct rest; [|discriminate Hb]. destruct marked; [|discriminate Hb].
      rewrite (select_selected existing) by (now apply Hsel).
      split; [reflexivity|].
      apply mapSet_same_value; [apply String.eqb_eq | exact Hget].
    + exists existing, (node_children current). rewrite Hget.
      split; [reflexivity|]. split; [reflexivity|]. split.
      * intros -> ->. discriminate Hb.
      * split; [reflexivity|]. intros e E. inversion E; subst e. auto.
  - exists (createTreeNode part (match rest with [] => true | _ => false end)
                     ((match rest with [] => true | _ => false end) && marked)),
           (mapSet String.eqb part
              (createTreeNode part (match rest with [] => true | _ => false end)
                 ((match rest with [] => true | _ => false end) && marked))
              (node_children current)).
    rewrite (mapGet_mapSet_same String.eqb_eq).
    split; [reflexivity|]. split; [reflexivity|]. split.
    + intros -> ->. reflexivity.
    + split; [intros k Hk; apply mapGet_mapSet_other;
              [apply String.eqb_eq | congruence]|].
      intros e E. discriminate E.
Qed.

(** A path that the tree holds is inserted without any change. *)
Lemma insertParts_present : forall parts marked current,
  present parts marked current -> insertParts parts marked current = current.
Proof.
  induction parts as [|part rest IH]; intros marked current Hp; [reflexivity|].
  cbn [present] in Hp. destruct Hp as (n & Hget & Hsel & Hrest).
  destruct (insertParts_step part rest marked current)
    as (next & children1 & E & Hnext & _ & _ & Hex).
  destruct (Hex n Hget) as (_ & _ & Hsame).
  destruct (Hsame Hsel) as [-> ->].
  rewrite E, (IH marked n Hrest).
  rewrite mapSet_same_value by (apply String.eqb_eq || exact Hget).
  destruct current; reflexivity.
Qed.

(** After its insertion the tree holds the path. *)
Lemma present_insertParts : forall parts marked current,
  present parts marked (insertParts parts marked current).
Proof.
  induction parts as [|part rest IH]; intros marked current; [exact I|].
  destruct (insertParts_step part rest marked current)
    as (next & children1 & E & Hnext & Hsel & _ & _).
  rewrite E. cbn [present node_children].
  exists (insertParts rest marked next).
  rewrite (mapGet_mapSet_same String.eqb_eq).
  split; [reflexivity|]. split; [|apply IH].
  intros Hr Hm. rewrite insertParts_keeps_flags. now apply Hsel.
Qed.

(** The insertion of another path leaves the paths that the tree holds. *)
Lemma present_kept : forall other marked' parts marked current,
  present parts marked current ->
  present parts marked (insertParts other marked' current).
Proof.
  induction other as [|part' rest' IH]; intros marked' parts marked current Hp;
    [exact Hp|].
  destruct parts as [|part rest]; [exact I|].
  cbn [present] in Hp. destruct Hp as (n & Hget & Hsel & Hrest).
  destruct (insertParts_step part' rest' marked' current)
    as (next & children1 & E & Hnext & _ & Hother & Hex).
  rewrite E. cbn [present node_children].
  destruct (String.eqb part' part) eqn:Hpart.
  - apply String.eqb_eq in Hpart. subst part'.
    destruct (Hex n Hget) as (Hch & Hkeep & _).
    exists (insertParts rest' marked' next).
    rewrite (mapGet_mapSet_same String.eqb_eq).
    split; [reflexivity|]. split.
    + intros Hr Hm. rewrite insertParts_keeps_flags. apply Hkeep. now apply Hsel.
    + apply IH. apply (present_children rest marked n next); [now symmetry | exact Hrest].
  - apply String.eqb_neq in Hpart.
    exists n. rewrite mapGet_mapSet_other by (apply String.eqb_eq || exact Hpart).
    rewrite Hother by congruence.
    split; [exact Hget|]. split; assumption.
Qed.

Lemma buildTree_loop_present :
  forall workspaceRoot selectedFiles filePath files current,
    In filePath files
    \/ present (relativeParts workspaceRoot filePath)
         (isMarked selectedFiles filePath) current ->
    present (relativeParts workspaceRoot filePath)
      (isMarked selectedFiles filePath)
      (fold_left
         (fun root filePath0 =>
            insertParts (relativeParts workspaceRoot filePath0)
              (isMarked selectedFiles filePath0) root)
         files current).
Proof.
  intros root sel f files. induction files as [|g files IH]; intros current H;
    cbn [fold_left].
  - destruct H as [[] | H]. exact H.
  - apply IH. destruct H as [[-> | Hin] | Hp].
    + right. apply present_insertParts.
    + now left.
    + right. now apply present_kept.
Qed.

(** X14. A file that is listed again changes nothing: when [filePath]
    already occurs earlier in [files], the tree that [buildTree] makes, and so
    the map that [generateFileMap] renders, is the one for the list without
    the later occurrence. *)
Theorem buildTree_ignores_repeated_files :
  forall localeCompare files1 filePath files2 workspaceRoot selectedFiles,
    In filePath files1 ->
    buildTree (files1 ++ filePath :: files2) workspaceRoot selectedFiles
    = buildTree (files1 ++ files2) workspaceRoot selectedFiles
    /\ generateFileMap localeCompare (files1 ++ filePath :: files2)
         workspaceRoot selectedFiles
       = generateFileMap localeCompare (files1 ++ files2)
           workspaceRoot selectedFiles.
Proof.
  intros lc files1 f files2 root sel Hin.
  assert (Htree : buildTree (files1 ++ f :: files2) root sel
                  = buildTree (files1 ++ files2) root sel).
  { unfold buildTree. rewrite !fold_left_app. cbn [fold_left]. f_equal.
    apply insertParts_present.
    apply (buildTree_loop_present root sel f files1). now left. }
  split; [exact Htree|].
  unfold generateFileMap. rewrite Htree.
  destruct files1 as [|g files1]; [destruct Hin | reflexivity].
Qed.

Lemma buildTree_ignores_repeated_files_witness :
  buildTree (exampleFiles ++ ["p"; "src"; "utils.ts"]%string :: [])
    ["p"%string] None
  = buildTree (exampleFiles ++ []) ["p"%string] None
  /\ generateFileMap String.compare
       (exampleFiles ++ ["p"; "src"; "utils.ts"]%string :: []) ["p"%string] None
     = generateFileMap String.compare (exampleFiles ++ []) ["p"%string] None.
Proof.
  apply (buildTree_ignores_repeated_files String.compare exampleFiles
           ["p"; "src"; "utils.ts"]%string [] ["p"%string] None).
  right. left. reflexivity.
Defined.

(** ** The limiter: bookkeeping and progress *)

Lemma remove_first_perm : forall id ids,
  In id ids -> Permutation ids (id :: remove_first id ids).
Proof.
  induction ids as [|x ids IH]; cbn [remove_first]; intro Hin; [destruct Hin|].
  destruct (Nat.eqb id x) eqn:E.
  - apply Nat.eqb_eq in E. now subst.
  - destruct Hin as [-> | Hin]; [now rewrite Nat.eqb_refl in E|].
    rewrite (IH Hin) at 1. apply perm_swap.
Qed.

Lemma settled_moves : forall (done : list nat) id inflight0 started0,
  In id inflight0 ->
  Permutation started0 (done ++ inflight0) ->
  Permutation started0 ((done ++ [id]) ++ remove_first id inflight0).
Proof.
  intros done id inflight0 started0 Hin Hp.
  rewrite Hp, <- app_assoc. apply Permutation_app_head.
  exact (remove_first_perm id inflight0 Hin).
Qed.

Lemma limit_tasks : forall l,
  Permutation (started l) (map fst (settled l) ++ inflight l) ->
  Permutation (started (limit l)) (map fst (settled (limit l)) ++ inflight (limit l)).
Proof.
  intros l Hp. unfold limit. cbn [running concurrency].
  destruct (running l <? concurrency l); unfold run; limiter_fields.
  - rewrite app_assoc. now apply Permutation_app_tail.
  - exact Hp.
Qed.

Lemma settle_tasks : forall id ok l,
  Permutation (started l) (map fst (settled l) ++ inflight l) ->
  Permutation (started (settle id ok l))
    (map fst (settled (settle id ok l)) ++ inflight (settle id ok l)).
Proof.
  intros id ok l Hp. unfold settle.
  destruct (existsb (Nat.eqb id) (inflight l)) eqn:E; [|exact Hp].
  apply existsb_eqb_In in E.
  pose proof (settled_moves (map fst (settled l)) id (inflight l) (started l) E Hp)
    as Hp'.
  cbn [queue running concurrency].
  destruct (queue l) as [|next rest];
    [|destruct (pred (running l) <? concurrency l)];
    unfold run; limiter_fields; rewrite map_app; cbn [map fst]; try exact Hp'.
  rewrite app_assoc. now apply Permutation_app_tail.
Qed.

Lemma limiterRun_tasks : forall N events,
  Permutation (started (limiterRun N events))
    (map fst (settled (limiterRun N events)) ++ inflight (limiterRun N events)).
Proof.
  intros N events. unfold limiterRun.
  assert (H : forall l,
             Permutation (started l) (map fst (settled l) ++ inflight l) ->
             Permutation (started (fold_left limiterStep events l))
               (map fst (settled (fold_left limiterStep events l))
                  ++ inflight (fold_left limiterStep events l))).
  { induction events as [|e events IH]; intros l Hl; [exact Hl|].
    cbn [fold_left]. apply IH. destruct e as [|id ok]; cbn [limiterStep].
    - now apply limit_tasks.
    - now apply settle_tasks. }
  apply H. reflexivity.
Qed.

(** X15. Between any two events, a limiter of any concurrency keeps its
    books: no task waits in the queue while a slot is free; no task is
    started twice, or started and still queued; and the tasks started are
    exactly those that have settled and those in flight, each once, so that
    no task settles twice and none is lost. *)
Theorem limiter_keeps_its_books : forall (N : nat) (events : list LimiterEvent),
  concurrency (limiterRun N events) = N
  /\ limiterAccounts (limiterRun N events).
Proof.
  intros N events.
  destruct (limiterRun_inv N events) as (Hc & _ & _ & Hfifo & Hfull).
  split; [exact Hc|]. split; [|split].
  - rewrite Hc. exact Hfull.
  - rewrite Hfifo. apply seq_NoDup.
  - apply limiterRun_tasks.
Qed.

Lemma settle_submitted : forall id ok l, submitted (settle id ok l) = submitted l.
Proof.
  intros id ok l. unfold settle.
  destruct (existsb (Nat.eqb id) (inflight l)); [|reflexivity].
  cbn [queue running concurrency].
  destruct (queue l); [reflexivity|].
  destruct (pred (running l) <? concurrency l); reflexivity.
Qed.

Lemma drain_empties : forall N fuel l,
  0 < N ->
  limiterInv N l ->
  Permutation (started l) (map fst (settled l) ++ inflight l) ->
  length (queue l) + length (inflight l) <= fuel ->
  limiterInv N (drain fuel l)
  /\ Permutation (started (drain fuel l))
       (map fst (settled (drain fuel l)) ++ inflight (drain fuel l))
  /\ queue (drain fuel l) = []
  /\ inflight (drain fuel l) = []
  /\ submitted (drain fuel l) = submitted l.
Proof.
  intros N fuel. induction fuel as [|fuel IH]; intros l HN Hinv Hp Hfuel.
  - cbn [drain].
    assert (Hq : queue l = [])
      by (destruct (queue l); [reflexivity | cbn [length] in Hfuel; lia]).
    assert (Hi : inflight l = [])
      by (destruct (inflight l); [reflexivity | cbn [length] in Hfuel; lia]).
    split; [exact Hinv|]. split; [exact Hp|]. repeat split; assumption.
  - cbn [drain]. pose proof Hinv as (Hc & Hr & Hle & Hfifo & Hfull).
    destruct (inflight l) as [|id rest] eqn:Hin;
      rewrite <- Hin in Hp, Hr, Hfuel.
    + assert (Hq : queue l = []).
      { destruct (queue l) as [|q qs] eqn:Q; [reflexivity|].
        assert (running l = N) by (apply Hfull; discriminate).
        rewrite Hin in Hr. cbn [length] in Hr. lia. }
      split; [exact Hinv|]. split; [exact Hp|]. repeat split; assumption.
    + assert (Hid : In id (inflight l)) by (rewrite Hin; now left).
      assert (Hlen : length (inflight l) = S (length rest))
        by (rewrite Hin; reflexivity).
      pose proof (settle_inv N id true l Hinv) as Hinv'.
      pose proof (settle_tasks id true l Hp) as Hp'.
      destruct (settle_releases N id true l Hinv Hid) as [_ Hrel].
      pose proof Hinv' as (_ & Hr' & _ & _ & _).
      destruct (IH (settle id true l) HN Hinv' Hp') as (H1 & H2 & H3 & H4 & H5).
      { rewrite <- Hr'.
        destruct (queue l) as [|next rest'].
        - destruct Hrel as (Hrun & Hq' & _). rewrite Hq', Hrun.
          cbn [length] in *. lia.
        - destruct Hrel as (Hrun & Hq' & _). rewrite Hq', Hrun.
          cbn [length] in *. lia. }
      rewrite settle_submitted in H5.
      split; [exact H1|]. split; [exact H2|]. repeat split; assumption.
Qed.

(** X16. A limiter with at least one slot lets every task through: after
    any sequence of submissions and settlements, once the tasks in flight
    resolve one after the other, the queue is empty, no task is in flight,
    and every task submitted so far has been started, in the order of the
    submissions, and has settled exactly once. *)
Theorem limiter_drains :
  forall (N : nat) (events : list LimiterEvent),
    0 < N ->
    let l := limiterRun N events in
    let l' := drain (length (queue l) + length (inflight l)) l in
    queue l' = [] /\ inflight l' = [] /\ running l' = 0
    /\ started l' = seq 0 (submitted l)
    /\ Permutation (map fst (settled l')) (seq 0 (submitted l)).
Proof.
  intros N events HN l l'.
  destruct (drain_empties N (length (queue l) + length (inflight l)) l HN
              (limiterRun_inv N events) (limiterRun_tasks N events) (le_n _))
    as ((_ & Hr & _ & Hfifo & _) & Hp & Hq & Hi & Hs).
  fold l' in Hr, Hfifo, Hp, Hq, Hi, Hs.
  rewrite Hq, app_nil_r, Hs in Hfifo. rewrite Hi in Hr, Hp.
  rewrite app_nil_r in Hp.
  repeat split; try assumption.
  rewrite <- Hfifo. now symmetry.
Qed.

Lemma limiter_drains_witness :
  let l := limiterRun 2 [Submit; Submit; Submit; Settle 1 false; Submit; Submit] in
  let l' := drain (length (queue l) + length (inflight l)) l in
  queue l' = [] /\ inflight l' = [] /\ running l' = 0
  /\ started l' = seq 0 (submitted l)
  /\ Permutation (map fst (settled l')) (seq 0 (submitted l)).
Proof.
  apply (limiter_drains 2
           [Submit; Submit; Submit; Settle 1 false; Submit; Submit]).
  apply Nat.lt_0_succ.
Defined.

(** ** [collectFiles] on a tree *)

Lemma take_app : forall allowed (l1 l2 : list Uri),
  take allowed (l1 ++ l2) = take allowed l1 ++ take (spend allowed l1) l2.
Proof.
  intros [n |] l1 l2; cbn [take spend]; [apply firstn_app | reflexivity].
Qed.

Lemma spend_app : forall allowed (l1 l2 : list Uri),
  spend (spend allowed l1) l2 = spend allowed (l1 ++ l2).
Proof.
  intros [n |] l1 l2; cbn [spend]; [|reflexivity].
  rewrite length_app. f_equal. lia.
Qed.

Lemma budget_advance : forall maxFiles counter w,
  budget maxFiles counter (advance w) = budget maxFiles counter w.
Proof. intros [m |] [c |] w; reflexivity. Qed.

Lemma budget_logged : forall maxFiles counter e w,
  budget maxFiles counter (logged e w) = budget maxFiles counter w.
Proof. intros [m |] [c |] e w; reflexivity. Qed.

Lemma collectChildren_walk :
  forall recurse signal maxFiles counter uri (sub : string * FsNode -> list Uri),
    neverAborted signal ->
    forall entries out0 w,
      (forall entry w0, In entry entries ->
         holdsAfter (recurse (joinPath uri (fst entry))) w0
           (walkPost maxFiles counter w0 (sub entry))) ->
      holdsAfter
        (collectChildren recurse signal maxFiles counter uri
           (map (fun entry => (fst entry, fsNodeType (snd entry))) entries) out0) w
        (fun w' r =>
           r = Returned (out0 ++ take (budget maxFiles counter w)
                                   (concat (map sub entries)))
           /\ budget maxFiles counter w'
              = spend (budget maxFiles counter w) (concat (map sub entries))).
Proof.
  intros recurse signal mf ct uri sub Hsig.
  assert (Hs : forall s t, signal = Some s -> s t = false)
    by (intros s t E; exact (Hsig s t E)).
  induction entries as [|entry entries IH]; intros out0 w Hrec;
    cbn [map collectChildren concat].
  - eff_steps. destruct (budget mf ct w); cbn [take spend length];
      rewrite ?firstn_nil, ?app_nil_r, ?Nat.sub_0_r; split; reflexivity.
  - destruct signal as [s |];
      [ specialize (Hs s); assert (Hs' : forall t, s t = false)
          by (intro t; now apply Hs) |].
    all: eff_steps_with ltac:(world_fields; try rewrite Hs'); world_fields.
    all: repeat match goal with
                | H : (_ <=? _) = true |- _ => apply Nat.leb_le in H
                end.
    all: try (cbn [budget take spend]; world_fields;
              match goal with
              | H : ?m <= counters ?w ?c |- _ =>
                  replace (m - counters w c) with 0 by lia
              end;
              cbn [firstn Nat.sub]; rewrite app_nil_r; split; reflexivity).
    all: (eapply after_weaken; [apply (Hrec entry); now left|]); cbv beta.
    all: intros w1 r [Hr Hb1]; subst r.
    all: (eapply after_weaken;
          [apply IH; intros e w2 He; apply Hrec; now right|]); cbv beta.
    all: intros w2 r [Hr Hb2]; subst r.
    all: rewrite Hb2, Hb1, ?budget_logged, ?budget_advance.
    all: cbn [budget] in *; world_fields.
    all: rewrite spend_app, take_app, <- app_assoc; split; reflexivity.
Qed.

Lemma fsLookup_child : forall tree uri entries name,
  fsLookup tree uri = Some (DirNode entries) ->
  fsLookup tree (joinPath uri name) = mapGet String.eqb name entries.
Proof.
  intros tree uri. revert tree. unfold joinPath.
  induction uri as [|segment uri IH]; intros tree entries name H.
  - cbn in H. inversion H; subst. cbn [app fsLookup].
    destruct (mapGet String.eqb name entries); reflexivity.
  - cbn [app fsLookup] in *. destruct tree as [mtime content | es]; [discriminate|].
    destruct (mapGet String.eqb segment es) as [child |]; [|discriminate].
    now apply IH.
Qed.

Lemma uniqueNames_entry : forall entries entry,
  uniqueNames (DirNode entries) -> In entry entries ->
  uniqueNames (snd entry)
  /\ mapGet String.eqb (fst entry) entries = Some (snd entry)
  /\ fsHeight (snd entry) < fsHeight (DirNode entries).
Proof.
  intros entries entry [Hnd Hall] Hin.
  assert (Hget : mapGet String.eqb (fst entry) entries = Some (snd entry)).
  { apply (mapGet_In String.eqb_eq); [exact Hnd|]. now destruct entry. }
  split; [|split; [exact Hget|]].
  - clear Hnd Hget. induction entries as [|e entries IH]; [destruct Hin|].
    cbn [fold_right] in Hall. destruct Hall as [He Hrest].
    destruct Hin as [-> | Hin]; [exact He | now apply IH].
  - apply child_height in Hget. cbn [fsHeight]. lia.
Qed.

Lemma directory_test : forall ig root uri,
  match (if String.eqb (relPosix root uri) "" then None
         else Some (relPosix root uri ++ "/")%string) with
  | Some d => ig d
  | None => false
  end
  = ignoredDirectory ig root uri.
Proof.
  intros ig root uri. unfold ignoredDirectory.
  destruct (String.eqb (relPosix root uri) ""); reflexivity.
Qed.

Lemma collectFiles_walk : forall tree ig root signal maxFiles counter,
  neverAborted signal ->
  forall fuel uri node w,
    fsLookup tree uri = Some node ->
    uniqueNames node ->
    fsHeight node < fuel ->
    holdsAfter (collectFiles fuel (staticFs tree) uri ig root signal maxFiles counter)
      w (walkPost maxFiles counter w (walk ig root node uri)).
Proof.
  intros tree ig root signal mf ct Hsig.
  assert (Hs : forall s t, signal = Some s -> s t = false)
    by (intros s t E; exact (Hsig s t E)).
  induction fuel as [|fuel IH]; intros uri node w Hlook Hun Hfuel; [lia|].
  cbn [collectFiles]. rewrite directory_test.
  destruct node as [mtime content | entries].
  - assert (Hstat : forall t, fs_stat (staticFs tree) t uri
                              = Ok (mkFileStat FileType_File mtime (length content)))
      by (intro t; cbn [staticFs fs_stat]; now rewrite Hlook).
    cbn [walk]. unfold walkPost.
    destruct signal as [s |];
      [ specialize (Hs s); assert (Hs' : forall t, s t = false)
          by (intro t; now apply Hs) |].
    all: eff_steps_with ltac:(world_fields; try rewrite Hs'; try rewrite Hstat;
                              cbn [stat_type FileType_File FileType_Directory
                                   Nat.eqb]);
      world_fields.
    all: cbn [budget take spend length]; world_fields.
    all: rewrite ?Nat.eqb_refl.
    all: repeat match goal with
                | H : (_ <=? _) = true |- _ => apply Nat.leb_le in H
                | H : (_ <=? _) = false |- _ => apply Nat.leb_gt in H
                end.
    all: try (split; [reflexivity | try f_equal; lia]; fail).
    all: try (rewrite ?budget_logged, ?budget_advance; destruct (budget mf ct w);
              cbn [take spend length firstn];
              rewrite ?firstn_nil, ?Nat.sub_0_r; split; reflexivity).
    all: match goal with
         | H : ?m <= counters ?w ?c |- _ =>
             replace (m - counters w c) with 0 by lia
         | H : counters ?w ?c < ?m |- _ =>
             replace (m - counters w c) with (S (m - S (counters w c))) by lia
         end.
    all: cbn [firstn]; rewrite ?firstn_nil; split; [reflexivity | f_equal; lia].
  - assert (Hstat : forall t, fs_stat (staticFs tree) t uri
                              = Ok (mkFileStat FileType_Directory 0 0))
      by (intro t; cbn [staticFs fs_stat]; now rewrite Hlook).
    assert (Hdir : forall t, fs_readDirectory (staticFs tree) t uri
                             = Ok (map (fun e => (fst e, fsNodeType (snd e))) entries))
      by (intro t; cbn [staticFs fs_readDirectory]; now rewrite Hlook).
    cbn [walk].
    destruct signal as [s |];
      [ specialize (Hs s); assert (Hs' : forall t, s t = false)
          by (intro t; now apply Hs) |].
    all: eff_steps_with ltac:(world_fields; try rewrite Hs'; try rewrite Hstat;
                              try rewrite Hdir;
                              cbn [stat_type FileType_File FileType_Directory
                                   Nat.eqb]);
      world_fields.
    all: try (unfold walkPost; rewrite ?budget_logged, ?budget_advance;
              destruct (budget mf ct w); cbn [take spend length firstn];
              rewrite ?firstn_nil, ?Nat.sub_0_r; split; reflexivity).
    all: (eapply after_weaken;
          [ apply (collectChildren_walk _ _ _ _ _
                     (fun entry => walk ig root (snd entry) (joinPath uri (fst entry))));
            [ assumption
            | intros entry w0 Hin;
              destruct (uniqueNames_entry entries entry Hun Hin) as (Hu & Hg & Hh);
              apply IH; [ rewrite (fsLookup_child tree uri entries); assumption
                        | exact Hu | lia ] ]
          | cbv beta; intros w' r [Hr Hb]; subst r; unfold walkPost;
            rewrite Hb, ?budget_logged, ?budget_advance; split; reflexivity ]).
Qed.

Lemma entries_lookup_In : forall name (entries : list (string * FsNode)) child,
  mapGet String.eqb name entries = Some child -> In (name, child) entries.
Proof.
  induction entries as [|[name' node] entries IH]; cbn [mapGet]; intros child H;
    [discriminate|].
  destruct (String.eqb name name') eqn:E.
  - apply String.eqb_eq in E. inversion H; subst. now left.
  - right. now apply IH.
Qed.

Lemma fsLookup_sub : forall uri tree node,
  fsLookup tree uri = Some node ->
  uniqueNames tree ->
  uniqueNames node /\ fsHeight node <= fsHeight tree.
Proof.
  induction uri as [|segment uri IH]; intros tree node Hlook Hun.
  - cbn in Hlook. inversion Hlook; subst. split; [exact Hun | apply le_n].
  - cbn [fsLookup] in Hlook. destruct tree as [mtime content | entries];
      [discriminate|].
    destruct (mapGet String.eqb segment entries) as [child |] eqn:Hc;
      [|discriminate].
    destruct (uniqueNames_entry entries (segment, child) Hun
                (entries_lookup_In _ _ _ Hc)) as (Hu & _ & Hh).
    destruct (IH child node Hlook Hu) as [Hu' Hh'].
    split; [exact Hu'|]. cbn [snd] in Hh. lia.
Qed.

(** X17. What a traversal returns.  On a filesystem that is a tree (no
    directory lists a name twice, every name is a plain segment) and does not
    change, with no cancellation, [collectFiles] on a path of the tree at or
    below the traversal root returns the files at and below it in the order
    of the directory listings, depth first, leaving out every file whose
    root-relative path the matcher ignores and everything inside a directory
    that it ignores; the start path is tested like any other, and only the
    traversal root itself is never tested.  With a cap and a counter it
    returns the first of these files that the cap still allows, and has
    counted them. *)
Theorem collectFiles_returns_the_walk :
  forall tree ig root signal maxFiles counter uri node w,
    neverAborted signal ->
    uniqueNames tree ->
    plainNames tree ->
    under root uri ->
    fsLookup tree uri = Some node ->
    exists w',
      collectFiles (S (fsHeight tree)) (staticFs tree) uri ig root signal
        maxFiles counter w
      = (w', Returned (take (budget maxFiles counter w) (walk ig root node uri)))
      /\ budget maxFiles counter w'
         = spend (budget maxFiles counter w) (walk ig root node uri).
Proof.
  intros tree ig root signal mf ct uri node w Hsig Hun _ _ Hlook.
  destruct (fsLookup_sub uri tree node Hlook Hun) as [Hu Hh].
  assert (Hfuel : fsHeight node < S (fsHeight tree)) by lia.
  destruct (holds_to_run _ _ _ _
              (collectFiles_walk tree ig root signal mf ct Hsig
                 (S (fsHeight tree)) uri node w Hlook Hu Hfuel))
    as (w' & r & Hrun & Hr & Hb).
  exists w'. subst r. split; assumption.
Qed.

Lemma collectFiles_returns_the_walk_witness :
  exists w',
    collectFiles (S (fsHeight distTree)) (staticFs distTree) [] ignoresDist []
      None (Some 1) (Some 0) emptyWorld
    = (w', Returned (take (budget (Some 1) (Some 0) emptyWorld)
                       (walk ignoresDist [] distTree [])))
    /\ budget (Some 1) (Some 0) w'
       = spend (budget (Some 1) (Some 0) emptyWorld)
           (walk ignoresDist [] distTree []).
Proof.
  apply (collectFiles_returns_the_walk distTree ignoresDist [] None
           (Some 1) (Some 0) [] distTree emptyWorld).
  - intros s t E. discriminate E.
  - cbn. repeat split; repeat constructor; cbn; intuition discriminate.
  - cbn. repeat split; discriminate.
  - exists []. reflexivity.
  - reflexivity.
Defined.

(** The start path [dist] is itself an ignored directory: the traversal
    that starts there returns nothing, and asks only for its stat. *)
Example collectFiles_tests_the_start_path :
  walk ignoresDist [] distTree [] = [["README.md"%string]]
  /\ collectFiles 4 (staticFs distTree) ["dist"%string] ignoresDist [] None
       None None emptyWorld
     = (logged (FsStat ["dist"%string]) (advance emptyWorld), Returned []).
Proof. split; reflexivity. Qed.

(** ** [collectFiles] on any host: what the paths returned are *)

Lemma collected_nil : forall ig root w, collected ig root w w [].
Proof. intros ig root w. exists []. rewrite app_nil_r. split; [reflexivity|]. intros p []. Qed.

Lemma collected_trans : forall ig root w w1 w2 out1 out2,
  collected ig root w w1 out1 -> collected ig root w1 w2 out2 ->
  collected ig root w w2 (out1 ++ out2).
Proof.
  intros ig root w w1 w2 out1 out2 (a1 & E1 & H1) (a2 & E2 & H2).
  exists (a1 ++ a2). rewrite E2, E1, app_assoc. split; [reflexivity|].
  intros p Hin. apply in_app_or in Hin. destruct Hin as [Hin | Hin].
  - destruct (H1 p Hin). split; [apply in_or_app; now left | assumption].
  - destruct (H2 p Hin). split; [apply in_or_app; now right | assumption].
Qed.

Lemma collected_more : forall ig root w w' e out,
  collected ig root w w' out -> collected ig root w (logged e w') out.
Proof.
  intros ig root w w' e out (a & E & H). exists (a ++ [e]).
  cbn [logged trace]. rewrite E, app_assoc. split; [reflexivity|].
  intros p Hin. destruct (H p Hin). split; [apply in_or_app; now left | assumption].
Qed.

Lemma collected_advance : forall ig root w w' out,
  collected ig root w w' out -> collected ig root w (advance w') out.
Proof. intros ig root w w' out H. exact H. Qed.

Lemma collected_from : forall ig root w0 w w' out,
  collected ig root w0 w [] -> collected ig root w w' out ->
  collected ig root w0 w' out.
Proof.
  intros ig root w0 w w' out H0 H.
  exact (collected_trans ig root w0 w w' [] out H0 H).
Qed.

Lemma collectChildren_collected :
  forall ig root recurse signal maxFiles counter uri,
    (forall u w, holdsAfter (recurse u) w
                   (fun w' r => match r with
                                | Returned out => collected ig root w w' out
                                | _ => True
                                end)) ->
    forall children out0 w0 w,
      collected ig root w0 w out0 ->
      holdsAfter (collectChildren recurse signal maxFiles counter uri children out0) w
        (fun w' r => match r with
                     | Returned out => collected ig root w0 w' out
                     | _ => True
                     end).
Proof.
  intros ig root recurse signal mf ct uri Hrec.
  induction children as [|[name ty] rest IH]; intros out0 w0 w H0;
    cbn [collectChildren]; eff_steps;
    try (repeat first [apply collected_more | apply collected_advance]; exact H0).
  all: eapply after_weaken; [apply Hrec|]; cbv beta.
  all: intros w1 [nested | e |] H1; try exact I.
  all: apply IH.
  all: (eapply collected_trans; [|exact H1]).
  all: repeat first [apply collected_more | apply collected_advance]; exact H0.
Qed.

Lemma collectFiles_collected :
  forall fs ig root signal maxFiles counter fuel uri w,
    holdsAfter (collectFiles fuel fs uri ig root signal maxFiles counter) w
      (fun w' r => match r with
                   | Returned out => collected ig root w w' out
                   | _ => True
                   end).
Proof.
  intros fs ig root signal mf ct.
  induction fuel as [|fuel IH]; intros uri w; cbn [collectFiles]; eff_steps;
    try exact I.
  all: try (repeat first [apply collected_more | apply collected_advance];
            apply collected_nil).
  all: try (apply collectChildren_collected; [intros u w0; apply IH|];
            repeat first [apply collected_more | apply collected_advance];
            apply collected_nil).
  all: exists [FsStat uri]; world_fields; (split; [reflexivity|]).
  all: intros p [<- | []]; split; [now left | assumption].
Qed.

(** X18. What the paths returned are, on any host.  Whatever the host
    answers and whenever the signal is aborted, with or without a cap: when
    [collectFiles] returns, every path it returns lies at or below the path
    it was called on, was statted by the host during this call, is not
    ignored by the matcher as a file, and lies in no ignored directory below
    the starting path. *)
Theorem collectFiles_returns_statted_unignored_paths :
  forall fuel fs uri ig root signal maxFiles counter w w' out p,
    collectFiles fuel fs uri ig root signal maxFiles counter w = (w', Returned out) ->
    In p out ->
    (exists added,
        trace w' = trace w ++ added /\ In (FsStat p) added)
    /\ ignoredFile ig root p = false
    /\ exists suffix,
         p = uri ++ suffix
         /\ forall pre post, suffix = pre ++ post -> post <> [] ->
              ignoredDirectory ig root (uri ++ pre) = false.
Proof.
  intros fuel fs uri ig root signal mf ct w w' out p Hrun Hin.
  pose proof (after_run _ _ _ _ _ _
                (collectFiles_collected fs ig root signal mf ct fuel uri w) Hrun)
    as (added & Htrace & Hall).
  pose proof (after_run _ _ _ _ _ _
                (collectFiles_pruned fs ig root signal mf ct fuel uri w)
                Hrun out eq_refl) as Hpruned.
  destruct (Hall p Hin) as [Hstat Hign].
  split; [exists added; split; assumption|].
  split; [exact Hign|]. exact (Hpruned p Hin).
Qed.

Lemma collectFiles_returns_statted_unignored_paths_witness :
  (exists added,
      trace (fst (collectFiles 4 (staticFs distTree) [] ignoresDist [] None None
                    None emptyWorld))
      = trace emptyWorld ++ added
      /\ In (FsStat ["README.md"%string]) added)
  /\ ignoredFile ignoresDist [] ["README.md"%string] = false
  /\ exists suffix,
       ["README.md"%string] = [] ++ suffix
       /\ forall pre post, suffix = pre ++ post -> post <> [] ->
            ignoredDirectory ignoresDist [] ([] ++ pre) = false.
Proof.
  apply (collectFiles_returns_statted_unignored_paths 4 (staticFs distTree) []
           ignoresDist [] None None None emptyWorld
           (fst (collectFiles 4 (staticFs distTree) [] ignoresDist [] None None
                   None emptyWorld))
           [["README.md"%string]]).
  - reflexivity.
  - now left.
Defined.

(** ** Parents and check marks *)

Lemma removelast_shorter : forall (u : Uri), u <> [] -> length (removelast u) < length u.
Proof.
  intros u Hne. destruct (exists_last Hne) as (front & x & ->).
  rewrite removelast_last, length_app. cbn [length]. lia.
Qed.

Lemma dirname_fixed : forall u, Uri_eqb (dirname u) u = true <-> u = [].
Proof.
  intro u. unfold dirname. rewrite Uri_eqb_eq. split.
  - intro E. destruct u as [|x u]; [reflexivity|].
    pose proof (removelast_shorter (x :: u)) as H.
    rewrite E in H. assert (x :: u <> []) by discriminate. specialize (H H0). lia.
  - intros ->. reflexivity.
Qed.

Lemma setHas_In : forall key set, setHas key set = true <-> In key set.
Proof.
  intros key set. unfold setHas. rewrite existsb_exists. split.
  - intros [k [Hin E]]. apply Uri_eqb_eq in E. now subst.
  - intro Hin. exists key. split; [exact Hin | apply Uri_eqb_refl].
Qed.

Lemma firstn_differs : forall (element : Uri) j,
  j < length element -> Uri_eqb (firstn j element) element = false.
Proof.
  intros element j Hj. destruct (Uri_eqb (firstn j element) element) eqn:E;
    [|reflexivity].
  apply Uri_eqb_eq in E. apply (f_equal (@length string)) in E.
  rewrite length_firstn in E. lia.
Qed.

Lemma checkAncestors_prefixes : forall checkedPaths element fuel j,
  j < length element -> j < fuel ->
  checkAncestors fuel checkedPaths element (firstn j element)
  = Some (if existsb (fun k => setHas (firstn k element) checkedPaths)
               (seq 0 (S j))
          then Checked else Unchecked).
Proof.
  intros checked element. induction fuel as [|fuel IH]; intros j Hj Hfuel; [lia|].
  cbn [checkAncestors]. rewrite (firstn_differs element j Hj). cbn [negb].
  rewrite seq_S, existsb_app. cbn [Nat.add existsb]. rewrite orb_false_r.
  destruct (setHas (firstn j element) checked) eqn:Hhas.
  - now rewrite orb_true_r.
  - rewrite orb_false_r. destruct j as [|j].
    + cbn [firstn dirname removelast Uri_eqb seq existsb]. reflexivity.
    + unfold dirname. rewrite removelast_firstn by lia.
      assert (Hne : Uri_eqb (firstn j element) (firstn (S j) element) = false).
      { destruct (Uri_eqb (firstn j element) (firstn (S j) element)) eqn:E;
          [|reflexivity].
        apply Uri_eqb_eq in E. apply (f_equal (@length string)) in E.
        rewrite !length_firstn in E. lia. }
      rewrite Hne. apply IH; lia.
Qed.

(** X20. [computeCheckboxState] comes to an end (the loop needs no more
    rounds than the path has segments), and it answers [Checked] exactly
    when the path itself or one of the directories above it, up to the
    filesystem root, is in [checkedPaths]. *)
Theorem computeCheckboxState_checked_iff_prefix_checked :
  forall fuel checkedPaths element,
    length element < fuel ->
    exists state,
      computeCheckboxState fuel checkedPaths element = Some state
      /\ (state = Checked
          <-> exists prefix suffix,
                element = prefix ++ suffix /\ In prefix checkedPaths).
Proof.
  intros fuel checked element Hfuel.
  assert (Hany : existsb (fun k => setHas (firstn k element) checked)
                   (seq 0 (S (length element))) = true
                 <-> exists prefix suffix,
                       element = prefix ++ suffix /\ In prefix checked).
  { rewrite existsb_exists. split.
    - intros [k [_ Hk]]. exists (firstn k element), (skipn k element).
      split; [now rewrite firstn_skipn | now apply setHas_In].
    - intros (prefix & suffix & -> & Hin). exists (length prefix). split.
      + apply in_seq. rewrite length_app. lia.
      + rewrite firstn_app, firstn_all, Nat.sub_diag. cbn [firstn].
        rewrite app_nil_r. now apply setHas_In. }
  unfold computeCheckboxState.
  destruct (setHas element checked) eqn:Hself.
  - exists Checked. split; [reflexivity|]. split; [|reflexivity].
    intros _. exists element, []. split; [now rewrite app_nil_r | now apply setHas_In].
  - assert (Hlast : existsb (fun k => setHas (firstn k element) checked)
                      (seq 0 (S (length element)))
                    = existsb (fun k => setHas (firstn k element) checked)
                        (seq 0 (length element))).
    { rewrite seq_S, existsb_app. cbn [Nat.add existsb].
      now rewrite firstn_all, Hself, !orb_false_r. }
    rewrite Hlast in Hany. clear Hlast.
    destruct element as [|x element'] eqn:He.
    + destruct fuel; [cbn [length] in Hfuel; lia|].
      exists Unchecked. split; [reflexivity|]. rewrite <- Hany.
      cbn. split; discriminate.
    + rewrite <- He in *.
      assert (Hlen : length element = S (length element'))
        by (rewrite He; reflexivity).
      assert (Hdir : dirname element = firstn (length element') element).
      { unfold dirname. rewrite <- (firstn_all element) at 1.
        rewrite Hlen. apply removelast_firstn. lia. }
      rewrite Hdir, checkAncestors_prefixes by lia.
      rewrite <- Hlen.
      destruct (existsb (fun k => setHas (firstn k element) checked)
                  (seq 0 (length element))).
      * exists Checked. split; [reflexivity|]. split; [intros _; now apply Hany | reflexivity].
      * exists Unchecked. split; [reflexivity|]. split; [discriminate|].
        intro H. apply Hany in H. discriminate.
Qed.

Lemma computeCheckboxState_checked_iff_prefix_checked_witness :
  exists state,
    computeCheckboxState 4 [["p"; "src"]%string] ["p"; "src"; "index.ts"]%string
    = Some state
    /\ (state = Checked
        <-> exists prefix suffix,
              ["p"; "src"; "index.ts"]%string = prefix ++ suffix
              /\ In prefix [["p"; "src"]%string]).
Proof.
  apply (computeCheckboxState_checked_iff_prefix_checked 4 [["p"; "src"]%string]
           ["p"; "src"; "index.ts"]%string).
  cbn [length]. apply Nat.lt_succ_diag_r.
Defined.

(** ** Refreshes and pruned selections *)

Lemma setAdd_In : forall key u set, In u (setAdd key set) <-> u = key \/ In u set.
Proof.
  intros key u set. unfold setAdd. destruct (setHas key set) eqn:E.
  - apply setHas_In in E. split; [now right|]. intros [-> | H]; assumption.
  - rewrite in_app_iff. cbn [In]. intuition congruence.
Qed.

Lemma refreshManyFrom_spec : forall uris seen,
  NoDup (refreshManyFrom uris seen)
  /\ forall u, In u (refreshManyFrom uris seen)
               <-> In (Some u) uris /\ ~ In u seen.
Proof.
  induction uris as [|[uri |] uris IH]; intro seen; cbn [refreshManyFrom].
  - split; [constructor|]. intro u. cbn [In]. tauto.
  - destruct (setHas uri seen) eqn:E.
    + destruct (IH seen) as [Hnd Hin]. split; [exact Hnd|].
      intro u. rewrite Hin. cbn [In]. apply setHas_In in E.
      split; [tauto|]. intros [[H | H] Hs]; [|tauto].
      inversion H; subst. contradiction.
    + destruct (IH (setAdd uri seen)) as [Hnd Hin].
      assert (Hns : ~ In uri seen)
        by (intro H; apply setHas_In in H; congruence).
      split.
      * constructor; [|exact Hnd]. rewrite Hin, setAdd_In. tauto.
      * intro u. cbn [In]. rewrite Hin, setAdd_In. split.
        -- intros [-> | [H1 H2]]; [tauto|]. tauto.
        -- intros [[H | H] Hs].
           ++ inversion H; subst. now left.
           ++ destruct (list_eq_dec string_dec uri u) as [-> | Hne];
                [now left | right]. split; [exact H|]. intuition congruence.
  - destruct (IH seen) as [Hnd Hin]. split; [exact Hnd|].
    intro u. rewrite Hin. cbn [In]. intuition discriminate.
Qed.

(** X21. [refreshMany] fires the change event once for every distinct uri of
    its argument, and for nothing else: undefined entries and repetitions
    are skipped. *)
Theorem refreshMany_fires_each_uri_once : forall uris,
  NoDup (refreshMany uris)
  /\ forall u, In u (refreshMany uris) <-> In (Some u) uris.
Proof.
  intro uris. unfold refreshMany.
  destruct (refreshManyFrom_spec uris []) as [Hnd Hin].
  split; [exact Hnd|]. intro u. rewrite Hin. cbn [In]. tauto.
Qed.

Lemma prune_loop : forall (getWorkspaceFolder : Uri -> option Uri) paths current changed,
  fold_left
    (fun state fsPath =>
       match getWorkspaceFolder fsPath with
       | None => (setDelete fsPath (fst state), true)
       | Some _ => state
       end)
    paths (current, changed)
  = (filter (fun k =>
               forallb (fun p => match getWorkspaceFolder p with
                                 | Some _ => true
                                 | None => negb (Uri_eqb p k)
                                 end) paths) current,
     changed || existsb (fun p => match getWorkspaceFolder p with
                                  | Some _ => false
                                  | None => true
                                  end) paths).
Proof.
  intros gwf. induction paths as [|p paths IH]; intros current changed;
    cbn [fold_left forallb existsb].
  - rewrite orb_false_r. f_equal. induction current as [|k current IHc];
      [reflexivity|]. cbn [filter]. now rewrite <- IHc.
  - destruct (gwf p) eqn:E; cbn [fst].
    + rewrite IH. reflexivity.
    + rewrite IH. rewrite orb_true_r. cbn [orb]. f_equal.
      unfold setDelete. clear IH. induction current as [|k current IHc];
        [reflexivity|]. cbn [filter].
      destruct (Uri_eqb p k); cbn [negb andb filter]; [exact IHc|].
      now rewrite IHc.
Qed.

(** X22. [pruneSelectionsOutsideWorkspace] keeps exactly the checked paths
    that lie in a workspace folder, in their order, and returns whether it
    removed one; the case of no workspace folder at all, which the code
    treats on its own, gives the same. *)
Theorem pruneSelections_keeps_paths_in_workspace :
  forall workspaceFolders (getWorkspaceFolder : Uri -> option Uri) checkedPaths,
    (workspaceFolders = [] -> forall p, getWorkspaceFolder p = None) ->
    pruneSelectionsOutsideWorkspace workspaceFolders getWorkspaceFolder checkedPaths
    = (filter (fun p => match getWorkspaceFolder p with
                        | Some _ => true
                        | None => false
                        end) checkedPaths,
       existsb (fun p => match getWorkspaceFolder p with
                         | Some _ => false
                         | None => true
                         end) checkedPaths).
Proof.
  intros wf gwf checked Hhost. unfold pruneSelectionsOutsideWorkspace.
  destruct wf as [|ws wf]; cbn [length Nat.eqb].
  - specialize (Hhost eq_refl). destruct checked as [|p checked]; [reflexivity|].
    cbn [length Nat.eqb existsb]. rewrite (Hhost p). cbn [orb]. f_equal.
    symmetry. induction (p :: checked) as [|k l IHl]; [reflexivity|].
    cbn [filter]. now rewrite (Hhost k).
  - rewrite prune_loop. cbn [orb]. f_equal.
    apply filter_ext_in. intros k Hk.
    destruct (gwf k) eqn:Ek.
    + apply forallb_forall. intros p Hp. destruct (gwf p) eqn:Ep; [reflexivity|].
      destruct (Uri_eqb p k) eqn:E; [|reflexivity].
      apply Uri_eqb_eq in E. congruence.
    + destruct (forallb _ checked) eqn:Hall; [|reflexivity].
      rewrite forallb_forall in Hall. specialize (Hall k Hk).
      now rewrite Ek, Uri_eqb_refl in Hall.
Qed.

Lemma pruneSelections_keeps_paths_in_workspace_witness :
  pruneSelectionsOutsideWorkspace [["p"%string]]
    (fun u => match u with "p"%string :: _ => Some ["p"%string] | _ => None end)
    [["p"; "a.txt"]%string; ["q"; "b.txt"]%string]
  = (filter (fun p => match (match p with
                             | "p"%string :: _ => Some ["p"%string]
                             | _ => None
                             end) with
                      | Some _ => true
                      | None => false
                      end)
       [["p"; "a.txt"]%string; ["q"; "b.txt"]%string],
     existsb (fun p => match (match p with
                              | "p"%string :: _ => Some ["p"%string]
                              | _ => None
                              end) with
                       | Some _ => false
                       | None => true
                       end)
       [["p"; "a.txt"]%string; ["q"; "b.txt"]%string]).
Proof.
  apply (pruneSelections_keeps_paths_in_workspace [["p"%string]]
           (fun u => match u with "p"%string :: _ => Some ["p"%string] | _ => None end)
           [["p"; "a.txt"]%string; ["q"; "b.txt"]%string]).
  discriminate.
Defined.

Lemma dirname_joinPath : forall dir name, dirname (joinPath dir name) = dir.
Proof. intros dir name. unfold dirname, joinPath. apply removelast_last. Qed.

Lemma find_folder : forall key (workspaceFolders : list Uri),
  find (Uri_eqb key) workspaceFolders
  = if setHas key workspaceFolders then Some key else None.
Proof.
  intros key wf. unfold setHas. induction wf as [|ws wf IH]; [reflexivity|].
  cbn [find existsb]. destruct (Uri_eqb key ws) eqn:E.
  - apply Uri_eqb_eq in E. now subst.
  - exact IH.
Qed.

(** X23. [getParent] of the tree provider agrees with the layout of the
    tree.  With one workspace folder, whose content is the top level, an
    entry of that folder has no parent, and an entry of any other directory
    has that directory as parent.  With several workspace folders, which
    are the top level themselves, a workspace folder has no parent, and an
    entry of a directory, unless it is a workspace folder itself, has that
    directory as parent.  In every case the parent, when there is one, is
    the directory of the element. *)
Theorem tree_parent_matches_layout :
  forall workspaceFolders dir name,
    (forall element parent,
        FileTreeProvider_getParent workspaceFolders element = Some parent ->
        parent = dirname element)
    /\ (forall root,
          workspaceFolders = [root] ->
          FileTreeProvider_getParent workspaceFolders (joinPath dir name)
          = if Uri_eqb dir root then None else Some dir)
    /\ (1 < length workspaceFolders ->
        (forall ws, In ws workspaceFolders ->
                    FileTreeProvider_getParent workspaceFolders ws = None)
        /\ FileTreeProvider_getParent workspaceFolders (joinPath dir name)
           = if setHas (joinPath dir name) workspaceFolders then None
             else Some dir).
Proof.
  intros wf dir name. unfold FileTreeProvider_getParent. split; [|split].
  - intros element parent. rewrite find_folder.
    destruct ((1 <? length wf) && setHas element wf); [discriminate|].
    destruct (setHas (dirname element) wf);
      [destruct (1 <? length wf)|]; congruence.
  - intros root ->. cbn [length Nat.ltb Nat.leb andb].
    rewrite dirname_joinPath. cbn [find]. destruct (Uri_eqb dir root); reflexivity.
  - intro Hmulti. apply Nat.ltb_lt in Hmulti. rewrite Hmulti. cbn [andb]. split.
    + intros ws Hin. apply setHas_In in Hin. now rewrite Hin.
    + rewrite dirname_joinPath, find_folder.
      destruct (setHas (joinPath dir name) wf); [reflexivity|].
      destruct (setHas dir wf); reflexivity.
Qed.

(** ** The file map section: the workspaces of the map *)

Lemma mapSet_keys_NoDup : forall V k (v : V) (m : JsMap Uri V),
  NoDup (mapKeys m) -> NoDup (mapKeys (mapSet Uri_eqb k v m)).
Proof.
  intros V k v m Hnd. destruct (mapGet Uri_eqb k m) eqn:E.
  - rewrite mapSet_existing_keys by congruence. exact Hnd.
  - rewrite (mapSet_new k v m E). unfold mapKeys. rewrite map_app. cbn [map fst].
    apply (mapGet_None_iff Uri_eqb_eq) in E.
    apply Permutation_NoDup with (l := k :: map fst m).
    + apply Permutation_cons_append.
    + now constructor.
Qed.

Lemma mapGet_mapSet : forall V k k' (v : V) (m : JsMap Uri V),
  mapGet Uri_eqb k' (mapSet Uri_eqb k v m)
  = if Uri_eqb k k' then Some v else mapGet Uri_eqb k' m.
Proof.
  intros V k k' v m. destruct (Uri_eqb k k') eqn:E.
  - apply Uri_eqb_eq in E. subst k'. apply (mapGet_mapSet_same Uri_eqb_eq).
  - apply mapGet_mapSet_other; [apply Uri_eqb_eq|].
    intro H. subst k'. now rewrite Uri_eqb_refl in E.
Qed.

Lemma groupByWorkspace_loop : forall wb first fileMapFiles acc,
  NoDup (mapKeys acc) ->
  let grouped :=
    fold_left
      (fun fileMapByWorkspace file =>
         let workspaceKey := workspaceKeyOf wb first file in
         match mapGet Uri_eqb workspaceKey fileMapByWorkspace with
         | None => mapSet Uri_eqb workspaceKey [file] fileMapByWorkspace
         | Some files =>
             mapSet Uri_eqb workspaceKey (files ++ [file]) fileMapByWorkspace
         end)
      fileMapFiles acc in
  NoDup (mapKeys grouped)
  /\ forall key,
       mapGet Uri_eqb key grouped
       = match mapGet Uri_eqb key acc,
               filter (fun f => Uri_eqb (workspaceKeyOf wb first f) key) fileMapFiles
         with
         | Some before, more => Some (before ++ more)
         | None, [] => None
         | None, more => Some more
         end.
Proof.
  intros wb first. induction fileMapFiles as [|file rest IH]; intros acc Hnd;
    cbn [fold_left filter].
  - split; [exact Hnd|]. intro key.
    destruct (mapGet Uri_eqb key acc); [now rewrite app_nil_r | reflexivity].
  - cbv zeta in *.
    destruct (mapGet Uri_eqb (workspaceKeyOf wb first file) acc) as [before |] eqn:E.
    + destruct (IH (mapSet Uri_eqb (workspaceKeyOf wb first file)
                      (before ++ [file]) acc)) as [Hnd' Hget];
        [now apply mapSet_keys_NoDup|].
      split; [exact Hnd'|]. intro key. rewrite Hget, mapGet_mapSet.
      destruct (Uri_eqb (workspaceKeyOf wb first file) key) eqn:Ek.
      * apply Uri_eqb_eq in Ek. subst key. rewrite E.
        now rewrite <- app_assoc.
      * reflexivity.
    + destruct (IH (mapSet Uri_eqb (workspaceKeyOf wb first file) [file] acc))
        as [Hnd' Hget]; [now apply mapSet_keys_NoDup|].
      split; [exact Hnd'|]. intro key. rewrite Hget, mapGet_mapSet.
      destruct (Uri_eqb (workspaceKeyOf wb first file) key) eqn:Ek.
      * apply Uri_eqb_eq in Ek. subst key. rewrite E. reflexivity.
      * reflexivity.
Qed.

Lemma toMultiRootMap_loop : forall workspaceFolders (grouped done : JsMap Uri (list Uri)),
  NoDup (mapKeys (done ++ grouped)) ->
  fold_left
    (fun multiRootMap entry =>
       let workspaceKey := fst entry in
       mapSet Uri_eqb workspaceKey
         (mkWorkspaceFiles (workspaceNameOf workspaceFolders workspaceKey)
            workspaceKey (snd entry))
         multiRootMap)
    grouped
    (map (fun entry =>
            (fst entry,
             mkWorkspaceFiles (workspaceNameOf workspaceFolders (fst entry))
               (fst entry) (snd entry))) done)
  = map (fun entry =>
           (fst entry,
            mkWorkspaceFiles (workspaceNameOf workspaceFolders (fst entry))
              (fst entry) (snd entry))) (done ++ grouped).
Proof.
  intros wfs. induction grouped as [|entry grouped IH]; intros done Hnd;
    cbn [fold_left].
  - now rewrite app_nil_r.
  - cbv zeta. rewrite mapSet_new.
    + replace (done ++ entry :: grouped) with ((done ++ [entry]) ++ grouped)
        by (now rewrite <- app_assoc).
      rewrite <- IH by (now rewrite <- app_assoc).
      now rewrite map_app.
    + apply (mapGet_None_iff Uri_eqb_eq). unfold mapKeys in *.
      rewrite map_map. cbn [fst]. rewrite map_app in Hnd. cbn [map] in Hnd.
      apply NoDup_remove_2 in Hnd. intro Hin. apply Hnd.
      apply in_or_app. now left.
Qed.

Lemma multi_root_blocks :
  forall localeCompare (filesByWorkspace : JsMap Uri WorkspaceFiles) selectedFiles,
    filesByWorkspace <> [] ->
    generateFileMapMultiRoot localeCompare filesByWorkspace selectedFiles
    = ("<file_map>" ++ newline
       ++ join newline
            (removelast
               (concat (map (fun ws =>
                               (workspaceLines localeCompare selectedFiles
                                  (workspacePath ws) (files ws)
                                  ++ [EmptyString])%list)
                            (filter hasFiles (map snd filesByWorkspace)))))
       ++ newline ++ "</file_map>")%string.
Proof.
  intros lc m sel Hne. unfold generateFileMapMultiRoot.
  destruct m as [|entry m]; [congruence|].
  cbn [mapSize length Nat.eqb].
  rewrite appendWorkspace_blocks. cbn [app].
  rewrite <- (map_map (fun ws => workspaceLines lc sel (workspacePath ws) (files ws))
                (fun b => b ++ [EmptyString])).
  rewrite popTrailingEmpty_blocks. reflexivity.
Qed.

Lemma filter_all : forall A (f : A -> bool) l,
  (forall x, In x l -> f x = true) -> filter f l = l.
Proof.
  intros A f l. induction l as [|x l IH]; intro H; [reflexivity|].
  cbn [filter]. rewrite (H x (or_introl eq_refl)). f_equal.
  apply IH. intros y Hy. apply H. now right.
Qed.

(** X24. The workspaces of the multi-root file map.  The grouping loop of
    [generateFileMapSection] puts every file of [fileMapFiles] into the
    group of its workspace folder (of the first folder, when it has none),
    every group holding its files in their order; so no group is without
    files, and the map that [generateFileMapMultiRoot] renders for them is
    one block per group, in the order in which the groups were met, with no
    empty block among them. *)
Theorem file_map_workspaces_all_have_files :
  forall wb workspaceFolders first fileMapFiles selectedFilesForMarking,
    fileMapFiles <> [] ->
    NoDup (mapKeys (groupByWorkspace wb first fileMapFiles))
    /\ (forall key files,
          In (key, files) (groupByWorkspace wb first fileMapFiles) ->
          files <> []
          /\ files = filter (fun f => Uri_eqb (workspaceKeyOf wb first f) key)
                       fileMapFiles)
    /\ (forall f,
          In f fileMapFiles ->
          exists files,
            In (workspaceKeyOf wb first f, files)
              (groupByWorkspace wb first fileMapFiles)
            /\ In f files)
    /\ generateFileMapMultiRoot (wb_localeCompare wb)
         (toMultiRootMap workspaceFolders (groupByWorkspace wb first fileMapFiles))
         selectedFilesForMarking
       = ("<file_map>" ++ newline
          ++ join newline
               (removelast
                  (concat
                     (map (fun entry =>
                             (workspaceLines (wb_localeCompare wb)
                                selectedFilesForMarking (fst entry) (snd entry)
                                ++ [EmptyString])%list)
                          (groupByWorkspace wb first fileMapFiles))))
          ++ newline ++ "</file_map>")%string.
Proof.
  intros wb wfs first fileMapFiles marking Hne.
  destruct (groupByWorkspace_loop wb first fileMapFiles [] (NoDup_nil _))
    as [Hnd Hget].
  fold (groupByWorkspace wb first fileMapFiles) in Hnd, Hget.
  cbn [mapGet] in Hget.
  assert (Hgroup : forall key files,
             In (key, files) (groupByWorkspace wb first fileMapFiles) ->
             files <> []
             /\ files = filter (fun f => Uri_eqb (workspaceKeyOf wb first f) key)
                          fileMapFiles).
  { intros key files Hin.
    pose proof (mapGet_In Uri_eqb_eq key files _ Hnd Hin) as Hk.
    rewrite Hget in Hk.
    destruct (filter (fun f => Uri_eqb (workspaceKeyOf wb first f) key) fileMapFiles);
      [discriminate|].
    inversion Hk; subst. split; [discriminate | reflexivity]. }
  assert (Hmember : forall f,
             In f fileMapFiles ->
             exists files,
               In (workspaceKeyOf wb first f, files)
                 (groupByWorkspace wb first fileMapFiles)
               /\ In f files).
  { intros f Hin.
    assert (Hf : In f (filter (fun f0 => Uri_eqb (workspaceKeyOf wb first f0)
                                           (workspaceKeyOf wb first f))
                         fileMapFiles))
      by (apply filter_In; split; [exact Hin | apply Uri_eqb_refl]).
    specialize (Hget (workspaceKeyOf wb first f)).
    destruct (filter (fun f0 => Uri_eqb (workspaceKeyOf wb first f0)
                                  (workspaceKeyOf wb first f)) fileMapFiles)
      as [|g more] eqn:E; [destruct Hf|].
    exists (g :: more). split; [|exact Hf].
    now apply mapGet_Some_In. }
  split; [exact Hnd|]. split; [exact Hgroup|]. split; [exact Hmember|].
  pose proof (toMultiRootMap_loop wfs (groupByWorkspace wb first fileMapFiles) []
                Hnd) as Hmap.
  cbn [map app] in Hmap. fold (toMultiRootMap wfs (groupByWorkspace wb first fileMapFiles)) in Hmap.
  rewrite Hmap, multi_root_blocks.
  - rewrite (filter_all _ hasFiles).
    + now rewrite !map_map.
    + intros ws Hws. rewrite map_map in Hws. apply in_map_iff in Hws.
      destruct Hws as ([key files0] & <- & Hin). cbn [snd fst].
      destruct (Hgroup key files0 Hin) as [Hfiles _].
      unfold hasFiles. cbn [files]. destruct files0; [congruence | reflexivity].
  - destruct fileMapFiles as [|f rest]; [congruence|].
    destruct (Hmember f (or_introl eq_refl)) as (files0 & Hin & _).
    destruct (groupByWorkspace wb first (f :: rest)); [destruct Hin | discriminate].
Qed.

Lemma file_map_workspaces_all_have_files_witness :
  NoDup (mapKeys (groupByWorkspace twoFolderWorkbench folderP
                    [["q"; "b.txt"]; ["p"; "a.txt"]; ["x"]; ["q"; "c.txt"]]%string))
  /\ (forall key files,
        In (key, files)
          (groupByWorkspace twoFolderWorkbench folderP
             [["q"; "b.txt"]; ["p"; "a.txt"]; ["x"]; ["q"; "c.txt"]]%string) ->
        files <> []
        /\ files = filter (fun f => Uri_eqb (workspaceKeyOf twoFolderWorkbench folderP f) key)
                     [["q"; "b.txt"]; ["p"; "a.txt"]; ["x"]; ["q"; "c.txt"]]%string)
  /\ (forall f,
        In f [["q"; "b.txt"]; ["p"; "a.txt"]; ["x"]; ["q"; "c.txt"]]%string ->
        exists files,
          In (workspaceKeyOf twoFolderWorkbench folderP f, files)
            (groupByWorkspace twoFolderWorkbench folderP
               [["q"; "b.txt"]; ["p"; "a.txt"]; ["x"]; ["q"; "c.txt"]]%string)
          /\ In f files)
  /\ generateFileMapMultiRoot (wb_localeCompare twoFolderWorkbench)
       (toMultiRootMap [folderP; folderQ]
          (groupByWorkspace twoFolderWorkbench folderP
             [["q"; "b.txt"]; ["p"; "a.txt"]; ["x"]; ["q"; "c.txt"]]%string))
       None
     = ("<file_map>" ++ newline
        ++ join newline
             (removelast
                (concat
                   (map (fun entry =>
                           (workspaceLines (wb_localeCompare twoFolderWorkbench)
                              None (fst entry) (snd entry)
                              ++ [EmptyString])%list)
                        (groupByWorkspace twoFolderWorkbench folderP
                           [["q"; "b.txt"]; ["p"; "a.txt"]; ["x"];
                            ["q"; "c.txt"]]%string))))
        ++ newline ++ "</file_map>")%string.
Proof.
  apply (file_map_workspaces_all_have_files twoFolderWorkbench [folderP; folderQ]
           folderP [["q"; "b.txt"]; ["p"; "a.txt"]; ["x"]; ["q"; "c.txt"]]%string
           None).
  discriminate.
Defined.

(** ** The file map section: what [generateFileMapSection] returns *)

Lemma groupByWorkspace_get : forall wb first fileMapFiles,
  NoDup (mapKeys (groupByWorkspace wb first fileMapFiles))
  /\ forall key,
       mapGet Uri_eqb key (groupByWorkspace wb first fileMapFiles)
       = match filter (fun f => Uri_eqb (workspaceKeyOf wb first f) key)
                 fileMapFiles with
         | [] => None
         | more => Some more
         end.
Proof.
  intros wb first fileMapFiles.
  exact (groupByWorkspace_loop wb first fileMapFiles [] (NoDup_nil _)).
Qed.

Lemma multi_root_map_nonempty : forall wb workspaceFolders first fileMapFiles,
  fileMapFiles <> [] ->
  mapSize (toMultiRootMap workspaceFolders
             (groupByWorkspace wb first fileMapFiles)) <> 0.
Proof.
  intros wb wfs first fileMapFiles Hne.
  destruct (groupByWorkspace_get wb first fileMapFiles) as [Hnd Hget].
  pose proof (toMultiRootMap_loop wfs (groupByWorkspace wb first fileMapFiles) []
                Hnd) as Hmap.
  cbn [map app] in Hmap.
  fold (toMultiRootMap wfs (groupByWorkspace wb first fileMapFiles)) in Hmap.
  rewrite Hmap. unfold mapSize. rewrite length_map.
  destruct fileMapFiles as [|f rest] eqn:Ef; [congruence|]. rewrite <- Ef in *.
  specialize (Hget (workspaceKeyOf wb first f)).
  destruct (groupByWorkspace wb first fileMapFiles); [|discriminate].
  exfalso. rewrite Ef in Hget. cbn [mapGet filter] in Hget.
  rewrite Uri_eqb_refl in Hget. discriminate Hget.
Qed.

Lemma section_of_files_not_empty :
  forall wb workspaceFolders first fileMapFiles marking (isMultiRoot : bool),
    fileMapFiles <> [] ->
    (if isMultiRoot then
       generateFileMapMultiRoot (wb_localeCompare wb)
         (toMultiRootMap workspaceFolders (groupByWorkspace wb first fileMapFiles))
         marking
     else
       generateFileMap (wb_localeCompare wb) fileMapFiles (folder_uri first) marking)
    <> EmptyString.
Proof.
  intros wb wfs first fileMapFiles marking isMultiRoot Hne.
  destruct isMultiRoot.
  - unfold generateFileMapMultiRoot.
    pose proof (multi_root_map_nonempty wb wfs first fileMapFiles Hne) as Hsize.
    destruct (mapSize (toMultiRootMap wfs (groupByWorkspace wb first fileMapFiles)));
      [congruence|].
    cbn [Nat.eqb]. discriminate.
  - destruct fileMapFiles as [|f rest]; [congruence|].
    destruct (generateFileMap_nonempty (wb_localeCompare wb) f rest
                (folder_uri first) marking) as [body ->].
    discriminate.
Qed.

Lemma setAdd_NoDup : forall key set, NoDup set -> NoDup (setAdd key set).
Proof.
  intros key set Hnd. unfold setAdd. destruct (setHas key set) eqn:E; [exact Hnd|].
  apply Permutation_NoDup with (l := key :: set).
  - apply Permutation_cons_append.
  - constructor; [|exact Hnd]. intro Hin. apply setHas_In in Hin. congruence.
Qed.

Lemma setAddAll_spec : forall keys set,
  NoDup set ->
  NoDup (setAddAll keys set)
  /\ forall u, In u (setAddAll keys set) <-> In u keys \/ In u set.
Proof.
  unfold setAddAll. induction keys as [|key keys IH]; intros set Hnd;
    cbn [fold_left].
  - split; [exact Hnd|]. intro u. cbn [In]. tauto.
  - destruct (IH (setAdd key set) (setAdd_NoDup key set Hnd)) as [Hnd' Hin].
    split; [exact Hnd'|]. intro u. rewrite Hin, setAdd_In. cbn [In].
    intuition congruence.
Qed.

(** X25. Without [includeAllFiles], [generateFileMapSection] asks the host
    for nothing and cannot fail: it returns the selected files as they are
    (none when there is no workspace folder), with a section that is empty
    exactly when there is no workspace folder or no selected file. *)
Theorem generateFileMapSection_of_selection :
  forall fuel fs wb workspaceFolders selectedFiles signal schedule w,
    exists fileMapSection,
      generateFileMapSection fuel fs wb workspaceFolders selectedFiles false
        signal schedule w
      = (w, Returned (fileMapSection,
                      match workspaceFolders with
                      | [] => []
                      | _ :: _ => selectedFiles
                      end))
      /\ (fileMapSection = EmptyString
          <-> workspaceFolders = [] \/ selectedFiles = []).
Proof.
  intros fuel fs wb wfs selected signal schedule w.
  destruct wfs as [|first rest].
  - exists EmptyString. split; [reflexivity|]. split; [now left | reflexivity].
  - destruct selected as [|f selected].
    + exists EmptyString. split; [reflexivity|]. split; [now right | reflexivity].
    + exists (if 1 <? length (first :: rest)
              then generateFileMapMultiRoot (wb_localeCompare wb)
                     (toMultiRootMap (first :: rest)
                        (groupByWorkspace wb first (f :: selected)))
                     None
              else generateFileMap (wb_localeCompare wb) (f :: selected)
                     (folder_uri first) None).
      split; [reflexivity|].
      split.
      * intro H. exfalso. revert H.
        apply (section_of_files_not_empty wb (first :: rest) first
                 (f :: selected) None). discriminate.
      * intros [H | H]; discriminate H.
Qed.

(** X26. With [includeAllFiles], whatever the traversals return and in
    whatever order the host lets them go on: when [generateFileMapSection]
    returns, its files hold every selected file, and beyond them only paths
    that a traversal of a workspace folder returned; no file is listed
    twice; and the section is empty exactly when there are no files. *)
Theorem generateFileMapSection_of_all_files :
  forall fuel fs wb workspaceFolders selectedFiles signal schedule w w'
         fileMapSection fileMapFiles,
    generateFileMapSection fuel fs wb workspaceFolders selectedFiles true signal
      schedule w
    = (w', Returned (fileMapSection, fileMapFiles)) ->
    NoDup fileMapFiles
    /\ (workspaceFolders <> [] -> forall f, In f selectedFiles -> In f fileMapFiles)
    /\ (fileMapSection = EmptyString <-> fileMapFiles = []).
Proof.
  intros fuel fs wb wfs selected signal schedule w w' section fileMapFiles Hrun.
  destruct wfs as [|first rest].
  - cbn in Hrun. inversion Hrun; subst.
    split; [constructor|]. split; [congruence | tauto].
  - unfold generateFileMapSection, generateFileMapSectionAsync in Hrun.
    rewrite runAlone_bindA in Hrun. unfold bind at 1 in Hrun.
    rewrite runAlone_bindA in Hrun. unfold bind at 1 in Hrun.
    destruct (runAlone
                (promiseAll None schedule
                   (map (collectWorkspace fuel fs wb signal)
                      (indexed (first :: rest)))) w) as [w1 [arrays | e |]];
      cbn [runAlone retA] in Hrun; try discriminate.
    cbv zeta in Hrun. cbn [fst snd] in Hrun.
    destruct (setAddAll_spec (concat arrays) [] (NoDup_nil _)) as [Hnd1 _].
    destruct (setAddAll_spec selected (setAddAll (concat arrays) []) Hnd1)
      as [Hnd Hin].
    set (allProjectFiles := setAddAll selected (setAddAll (concat arrays) [])) in *.
    pose proof (sortWith_perm _ (wb_comparePaths wb) allProjectFiles) as Hperm.
    destruct (sortWith (wb_comparePaths wb) allProjectFiles) as [|f sorted] eqn:Hs.
    + cbn in Hrun. inversion Hrun; subst.
      split; [constructor|]. split; [|tauto].
      intros _ g Hg. exfalso.
      assert (Hg' : In g allProjectFiles) by (apply Hin; now left).
      apply (Permutation_in _ (Permutation_sym Hperm)) in Hg'. destruct Hg'.
    + cbn [length Nat.eqb runAlone retA] in Hrun. inversion Hrun; subst.
      split; [exact (Permutation_NoDup (Permutation_sym Hperm) Hnd)|].
      split.
      * intros _ g Hg. apply (Permutation_in _ (Permutation_sym Hperm)).
        apply Hin. now left.
      * split; [|discriminate]. intro H. exfalso. revert H.
        apply (section_of_files_not_empty wb (first :: rest) first (f :: sorted)
                 (Some selected)). discriminate.
Qed.

Lemma generateFileMapSection_of_all_files_witness :
  NoDup [["p"; "a.txt"]%string]
  /\ ([folderP] <> [] ->
      forall f, In f [["p"; "a.txt"]%string] -> In f [["p"; "a.txt"]%string])
  /\ (generateFileMap String.compare [["p"; "a.txt"]%string] ["p"%string]
        (Some [["p"; "a.txt"]%string]) = EmptyString
      <-> [["p"; "a.txt"]%string] = []).
Proof.
  apply (generateFileMapSection_of_all_files 3
           (staticFs (DirNode [("p", DirNode [("a.txt", FileNode 1 [])])]%string))
           twoFolderWorkbench [folderP] [["p"; "a.txt"]%string] None
           (roundRobin 1 4) emptyWorld
           (fst (generateFileMapSection 3
                   (staticFs (DirNode [("p", DirNode [("a.txt", FileNode 1 [])])]%string))
                   twoFolderWorkbench [folderP] [["p"; "a.txt"]%string] true None
                   (roundRobin 1 4) emptyWorld))).
  vm_compute. reflexivity.
Defined.

(** ** Traversals that run side by side *)

Lemma traceGrows_refl : forall w, traceGrows w w.
Proof. intro w. exists []. symmetry. apply app_nil_r. Qed.

Lemma traceGrows_trans : forall a b c,
  traceGrows a b -> traceGrows b c -> traceGrows a c.
Proof.
  intros a b c [x Hx] [y Hy]. exists (x ++ y).
  rewrite Hy, Hx. symmetry. apply app_assoc.
Qed.

Lemma safe_conj : forall I G A (m : Async A) w0 w
    (Q1 Q2 : Outcome A -> World -> World -> Prop),
  safe I G m w0 w Q1 -> safe I G m w0 w Q2 ->
  safe I G m w0 w (fun r a b => Q1 r a b /\ Q2 r a b).
Proof.
  intros I G A m. induction m as [r | effect next IH | k IH];
    intros w0 w Q1 Q2 H1 H2; cbn [safe] in *.
  - split; assumption.
  - apply IH; assumption.
  - destruct H1 as (HI & HG & H1). destruct H2 as (_ & _ & H2).
    split; [exact HI|]. split; [exact HG|].
    intros w' HI' HG'. apply IH; [apply H1 | apply H2]; assumption.
Qed.

Ltac trace_kept :=
  unfold traceGrows in *; world_fields;
  repeat match goal with
         | H : exists _, trace _ = _ |- _ =>
             let added := fresh "added" in
             let E := fresh "E" in
             destruct H as [added E]; try rewrite E
         end;
  first [ exists []; symmetry; apply app_nil_r
        | eexists; rewrite <- ?app_assoc; reflexivity ].

Lemma after_newCounter : forall c w (Q : World -> Outcome nat -> Prop),
  Q (withCounters (fun c' => if Nat.eqb c' c then 0 else counters w c') w)
    (Returned c) ->
  holdsAfter (newCounter c) w Q.
Proof. intros; assumption. Qed.

Ltac traversal_steps :=
  repeat first
    [ async_step
    | lazymatch goal with
      | |- holdsAfter (newCounter _) _ _ => apply after_newCounter
      end
    | at_await ltac:(exact Logic.I) ltac:(trace_kept) ].

Ltac traversal_leaf :=
  unfold kept; split; [exact Logic.I | split; [trace_kept |]].

Lemma under_refl : forall uri, under uri uri.
Proof. intro uri. exists []. symmetry. apply app_nil_r. Qed.

Lemma under_child : forall uri name f, under (joinPath uri name) f -> under uri f.
Proof.
  intros uri name f [suffix ->]. exists (name :: suffix).
  unfold joinPath. rewrite <- app_assoc. reflexivity.
Qed.

Lemma collectChildrenAsync_below : forall fs signal maxFiles counter recurse uri,
  (forall name w0 w,
     traceGrows w0 w ->
     safe anyWorld traceGrows (recurse (joinPath uri name)) w0 w
       (kept anyWorld traceGrows
          (fun r _ => traversed fs (joinPath uri name) r))) ->
  forall children out w0 w,
    traceGrows w0 w ->
    (forall f, In f out -> under uri f) ->
    safe anyWorld traceGrows
      (collectChildrenAsync recurse signal maxFiles counter uri children out)
      w0 w
      (kept anyWorld traceGrows (fun r _ => below fs uri r)).
Proof.
  intros fs signal maxFiles counter recurse uri Hrec.
  induction children as [|[name ty] rest IH]; intros out w0 w Hg Hout;
    cbn [collectChildrenAsync]; unfold capStop.
  - traversal_steps. traversal_leaf. exact Hout.
  - traversal_steps.
    all: try (traversal_leaf; exact Hout).
    all: (eapply safe_weaken;
          [ apply Hrec; trace_kept
          | cbv beta; intros r w0' w1 (HI1 & HG1 & Hr & _) ]).
    all: destruct r as [nested | e |]; traversal_steps.
    all: try (traversal_leaf; exact Hr).
    all: try (traversal_leaf; exact Logic.I).
    all: apply IH; [trace_kept |].
    all: intros f Hf; apply in_app_or in Hf; destruct Hf as [Hf | Hf];
      [ exact (Hout f Hf) | exact (under_child _ _ _ (Hr f Hf)) ].
Qed.

Lemma collectFilesAsync_traversed :
  forall fs ig root signal maxFiles counter fuel uri w0 w,
  traceGrows w0 w ->
  safe anyWorld traceGrows
    (collectFilesAsync fuel fs uri ig root signal maxFiles counter) w0 w
    (kept anyWorld traceGrows (fun r _ => traversed fs uri r)).
Proof.
  intros fs ig root signal maxFiles counter.
  induction fuel as [|fuel IH]; intros uri w0 w Hg; cbn [collectFilesAsync].
  - cbn [safe]. traversal_leaf. split; [exact Logic.I | discriminate].
  - unfold fsLimit. traversal_steps.
    all: try (traversal_leaf; split;
              [ cbn [below]; first
                  [ intros f [<- | []]; apply under_refl
                  | intros f Hf; destruct Hf
                  | unfold hostFailure; eauto ]
              | intros files E; inversion E; subst;
                first [ intro Hnone; now contradiction Hnone
                      | intros _; eauto ] ]; fail).
    all: (eapply safe_weaken;
          [ apply (collectChildrenAsync_below fs);
            [ intros name w1 w2 Hg2; apply IH; exact Hg2
            | trace_kept
            | intros f [] ]
          | cbv beta; intros r w0' w1 (HI1 & HG1 & Hr) ]).
    all: split; [exact Logic.I|]; split; [exact HG1|]; split; [exact Hr|].
    all: intros files _ _; eauto.
Qed.

Lemma collectChildrenAsync_ends : forall signal maxFiles counter recurse uri,
  (forall name w0 w,
     traceGrows w0 w ->
     safe anyWorld traceGrows (recurse (joinPath uri name)) w0 w
       (kept anyWorld traceGrows (fun r _ => r <> OutOfFuel))) ->
  forall children out w0 w,
    traceGrows w0 w ->
    safe anyWorld traceGrows
      (collectChildrenAsync recurse signal maxFiles counter uri children out)
      w0 w
      (kept anyWorld traceGrows (fun r _ => r <> OutOfFuel)).
Proof.
  intros signal maxFiles counter recurse uri Hrec.
  induction children as [|[name ty] rest IH]; intros out w0 w Hg;
    cbn [collectChildrenAsync]; unfold capStop.
  - traversal_steps. traversal_leaf. discriminate.
  - traversal_steps.
    all: try (traversal_leaf; discriminate).
    all: (eapply safe_weaken;
          [ apply Hrec; trace_kept
          | cbv beta; intros r w0' w1 (HI1 & HG1 & Hr) ]).
    all: destruct r as [nested | e |]; traversal_steps.
    all: try (traversal_leaf; discriminate).
    all: try (exfalso; apply Hr; reflexivity).
    all: apply IH; trace_kept.
Qed.

Lemma collectFilesAsync_ends :
  forall fs ig root signal maxFiles counter (D : nat),
    (forall t u st, D <= length u -> fs_stat fs t u = Ok st ->
                    stat_type st <> FileType_Directory) ->
    forall fuel uri w0 w,
      1 <= fuel -> D + 1 <= fuel + length uri ->
      traceGrows w0 w ->
      safe anyWorld traceGrows
        (collectFilesAsync fuel fs uri ig root signal maxFiles counter) w0 w
        (kept anyWorld traceGrows (fun r _ => r <> OutOfFuel)).
Proof.
  intros fs ig root signal maxFiles counter D Hdepth.
  induction fuel as [|fuel IH]; intros uri w0 w Hfuel Hbound Hg; [lia|].
  cbn [collectFilesAsync]. unfold fsLimit. traversal_steps.
  all: try (traversal_leaf; discriminate).
  all: apply collectChildrenAsync_ends; [| trace_kept].
  all: intros name w1 w2 Hg2.
  all: match goal with
       | Hs : fs_stat _ _ _ = Ok ?st,
         Hd : (stat_type ?st =? FileType_Directory) = true |- _ =>
           apply Nat.eqb_eq in Hd;
           assert (length uri < D)
             by (destruct (Nat.lt_ge_cases (length uri) D) as [|Hge];
                 [assumption | exfalso; exact (Hdepth _ _ _ Hge Hs Hd)])
       end.
  all: apply IH; [ | | exact Hg2]; unfold joinPath; rewrite ?length_app; simpl; lia.
Qed.

Lemma collectFilesAsync_ends_on_tree :
  forall tree ig root signal maxFiles counter uri w0 w,
    traceGrows w0 w ->
    safe anyWorld traceGrows
      (collectFilesAsync (S (fsHeight tree)) (staticFs tree) uri ig root signal
         maxFiles counter) w0 w
      (kept anyWorld traceGrows (fun r _ => r <> OutOfFuel)).
Proof.
  intros tree ig root signal maxFiles counter uri w0 w Hg.
  apply (collectFilesAsync_ends (staticFs tree) ig root signal maxFiles counter
           (fsHeight tree)); try lia; [| exact Hg].
  intros t u st Hdeep Hstat Hdir. cbn [staticFs fs_stat] in Hstat.
  destruct (fsLookup tree u) as [[mtime content | entries] |] eqn:Hlook;
    inversion Hstat; subst; try discriminate.
  apply directory_depth in Hlook. lia.
Qed.

Lemma collectFilesAsync_stat_fails :
  forall fs ig root signal maxFiles counter fuel uri w0 w e,
    (forall t, fs_stat fs t uri = Err e) ->
    neverAborted signal ->
    traceGrows w0 w ->
    safe anyWorld traceGrows
      (collectFilesAsync (S fuel) fs uri ig root signal maxFiles counter) w0 w
      (kept anyWorld traceGrows (fun r _ => r = Threw e)).
Proof.
  intros fs ig root signal maxFiles counter fuel uri w0 w e Hstat Hsig Hg.
  cbn [collectFilesAsync]. unfold fsLimit.
  destruct signal as [s |].
  - assert (Hs : forall t, s t = false) by (intro t; exact (Hsig s t eq_refl)).
    repeat (first [async_step | at_await ltac:(exact Logic.I) ltac:(trace_kept)];
            world_fields; try rewrite Hs; try rewrite Hstat; cbv beta match;
            try discriminate).
    all: traversal_leaf; congruence.
  - repeat (first [async_step | at_await ltac:(exact Logic.I) ltac:(trace_kept)];
            world_fields; try rewrite Hstat; cbv beta match; try discriminate).
    all: traversal_leaf; congruence.
Qed.

Lemma getIgnoreParserAsync_returns : forall fs decode root w0 w,
  traceGrows w0 w ->
  safe anyWorld traceGrows (getIgnoreParserAsync fs decode root) w0 w
    (kept anyWorld traceGrows (fun r _ => exists parser, r = Returned parser)).
Proof.
  intros fs decode root w0 w Hg. unfold getIgnoreParserAsync. cbv zeta.
  traversal_steps.
  all: traversal_leaf; eauto.
Qed.

(** ** [generateFileMapSection]: a traversal that fails *)

Lemma indexed_from : forall A (xs : list A) start j x,
  In (j, x) (combine (seq start (length xs)) xs) ->
  start <= j /\ nth_error xs (j - start) = Some x.
Proof.
  intros A. induction xs as [|y xs IH]; intros start j x H; [destruct H|].
  cbn [length seq combine] in H. destruct H as [E | H].
  - inversion E; subst. split; [apply Nat.le_refl|].
    rewrite Nat.sub_diag. reflexivity.
  - destruct (IH (S start) j x H) as [Hle Hnth]. split; [lia|].
    replace (j - start) with (S (j - S start)) by lia. exact Hnth.
Qed.

Lemma indexed_nth : forall A (xs : list A) j x,
  In (j, x) (indexed xs) -> nth_error xs j = Some x.
Proof.
  intros A xs j x H. destruct (indexed_from _ xs 0 j x H) as [_ Hnth].
  now rewrite Nat.sub_0_r in Hnth.
Qed.

Lemma nth_indexed_from : forall A (xs : list A) start j x,
  nth_error xs j = Some x ->
  In (start + j, x) (combine (seq start (length xs)) xs).
Proof.
  intros A. induction xs as [|y xs IH]; intros start j x H.
  - destruct j; discriminate H.
  - cbn [length seq combine]. destruct j as [|j]; cbn [nth_error] in H.
    + inversion H; subst. left. now rewrite Nat.add_0_r.
    + right. replace (start + S j) with (S start + j) by lia. now apply IH.
Qed.

Lemma nth_indexed : forall A (xs : list A) j x,
  nth_error xs j = Some x -> In (j, x) (indexed xs).
Proof. intros A xs j x H. exact (nth_indexed_from _ xs 0 j x H). Qed.

Lemma Forall2_In_left : forall A B (R : A -> B -> Prop) xs bs x,
  Forall2 R xs bs -> In x xs -> exists b, R x b.
Proof.
  intros A B R xs bs x H. induction H as [|y b xs bs Hy Hall IH]; intros Hin;
    [destruct Hin|].
  destruct Hin as [<- | Hin]; [now exists b | now apply IH].
Qed.

(** The traversal of one workspace folder: an exception out of it is a
    failure of the host, and when the stat of the folder always fails, that
    failure is what comes out. *)
Lemma collectWorkspace_traversed : forall fuel fs wb signal entry w,
  safe anyWorld traceGrows (collectWorkspace fuel fs wb signal entry) w w
    (kept anyWorld traceGrows
       (fun r _ => forall e, r = Threw e -> hostFailure fs e)).
Proof.
  intros fuel fs wb signal entry w. unfold collectWorkspace. cbv zeta.
  apply safe_bindA, safe_awaitCall.
  eapply safe_weaken;
    [ apply getIgnoreParserAsync_returns; apply traceGrows_refl
    | cbv beta; intros r w0' w1 (HI1 & HG1 & parser & ->) ].
  traversal_steps.
  eapply safe_weaken;
    [ apply collectFilesAsync_traversed; trace_kept
    | cbv beta; intros r w0'' w2 (HI2 & HG2 & Hr & _) ].
  unfold kept. split; [exact Logic.I|]. split; [exact HG2|].
  intros e ->. exact Hr.
Qed.

Lemma collectWorkspace_fails : forall fuel fs wb signal entry w e,
  (forall t, fs_stat fs t (folder_uri (snd entry)) = Err e) ->
  neverAborted signal ->
  safe anyWorld traceGrows (collectWorkspace (S fuel) fs wb signal entry) w w
    (kept anyWorld traceGrows (fun r _ => r = Threw e)).
Proof.
  intros fuel fs wb signal entry w e Hstat Hsig. unfold collectWorkspace. cbv zeta.
  apply safe_bindA, safe_awaitCall.
  eapply safe_weaken;
    [ apply getIgnoreParserAsync_returns; apply traceGrows_refl
    | cbv beta; intros r w0' w1 (HI1 & HG1 & parser & ->) ].
  traversal_steps.
  eapply safe_weaken;
    [ apply collectFilesAsync_stat_fails; [exact Hstat | exact Hsig | trace_kept]
    | cbv beta; intros r w0'' w2 Hkept; exact Hkept ].
Qed.

(** X27. [generateFileMapSection] does not catch what a traversal throws.
    With [includeAllFiles], when the stat of one of the workspace folders
    always fails and the signal is not aborted, then, in whatever order the
    host lets the traversals go on, the call returns no files: what comes
    out is an exception, which is a failure of the host's [stat] or
    [readDirectory] (or the bound on the depth of the recursion, reached in
    the traversal of another folder).  With that folder as the only one, the
    exception is the error of its stat. *)
Theorem generateFileMapSection_lets_traversal_failure_out :
  forall fuel fs wb workspaceFolders failing selectedFiles signal schedule w e,
    In failing workspaceFolders ->
    neverAborted signal ->
    (forall t, fs_stat fs t (folder_uri failing) = Err e) ->
    exists w' r,
      generateFileMapSection (S fuel) fs wb workspaceFolders selectedFiles true
        signal schedule w
      = (w', r)
      /\ (forall out, r <> Returned out)
      /\ (forall e', r = Threw e' -> hostFailure fs e')
      /\ (workspaceFolders = [failing] -> r = Threw e).
Proof.
  intros fuel fs wb wfs failing selected signal schedule w e Hin Hsig Hstat.
  destruct (In_nth_error _ _ Hin) as [i Hi].
  set (P := fun (x : nat * WorkspaceFolder) (r : Outcome (list Uri)) (_ : World) =>
              (forall e', r = Threw e' -> hostFailure fs e')
              /\ (fst x = i -> r = Threw e)).
  assert (Hsafe : safe anyWorld traceGrows
                    (generateFileMapSectionAsync (S fuel) fs wb wfs selected true
                       signal schedule) w w
                    (fun r _ _ =>
                       (forall out, r <> Returned out)
                       /\ (forall e', r = Threw e' -> hostFailure fs e')
                       /\ (wfs = [failing] -> r = Threw e))).
  { unfold generateFileMapSectionAsync.
    destruct wfs as [|first rest]; [destruct Hin|].
    apply safe_bindA, safe_bindA.
    eapply safe_weaken;
      [ apply (promiseAll_safe anyWorld traceGrows traceGrows_refl
                 traceGrows_trans (nat * WorkspaceFolder) (list Uri) P);
        [ intros x r w1 w2 Hx _; exact Hx
        | discriminate
        | intros x w1 Hx _
        | exact Logic.I
        | apply traceGrows_refl ]
      | cbv beta; intros r w0' w1 (HI1 & HG1 & Hall) ].
    - destruct (Nat.eq_dec (fst x) i) as [Ei | Ni].
      + destruct x as [j ws]. cbn [fst] in Ei. subst j.
        pose proof (indexed_nth _ _ _ _ Hx) as Hws.
        rewrite Hi in Hws. inversion Hws; subst ws.
        eapply safe_weaken;
          [ apply (collectWorkspace_fails fuel fs wb signal (i, failing) w1 e
                     Hstat Hsig)
          | cbv beta; intros r w0' w2 (HI2 & HG2 & ->) ].
        split; [exact Logic.I|]. split; [exact HG2|]. split; [|reflexivity].
        intros e' E. inversion E; subst e'. unfold hostFailure.
        exists 0, (folder_uri failing). left. apply Hstat.
      + eapply safe_weaken;
          [ apply collectWorkspace_traversed
          | cbv beta; intros r w0' w2 (HI2 & HG2 & Hr) ].
        split; [exact Logic.I|]. split; [exact HG2|]. split; [exact Hr|].
        intro E. contradiction.
    - pose proof (nth_indexed _ _ _ _ Hi) as Hfail.
      destruct r as [arrays | e' |]; cbn [allKept] in Hall.
      + destruct (Forall2_In_left _ _ _ _ _ _ Hall Hfail) as (b & _ & Hb).
        discriminate (Hb eq_refl).
      + destruct Hall as (x & Hx & Hhost & Hthis).
        split; [discriminate|]. split; [intros e'' E; inversion E; subst; auto|].
        intro Hone. inversion Hone; subst. destruct Hx as [<- | []].
        destruct i as [|i]; [|destruct i; discriminate Hi].
        pose proof (Hthis eq_refl) as E. inversion E. reflexivity.
      + destruct Hall as (x & Hx & Hhost & Hthis).
        split; [discriminate|]. split; [discriminate|].
        intro Hone. inversion Hone; subst. destruct Hx as [<- | []].
        destruct i as [|i]; [|destruct i; discriminate Hi].
        discriminate (Hthis eq_refl). }
  destruct (safe_runAlone anyWorld traceGrows traceGrows_refl _ _ w w _
              Logic.I Hsafe) as (w0' & _ & H).
  exists (fst (generateFileMapSection (S fuel) fs wb wfs selected true signal
                 schedule w)),
         (snd (generateFileMapSection (S fuel) fs wb wfs selected true signal
                 schedule w)).
  split; [apply surjective_pairing | exact H].
Qed.

(** Two folders, [p] which is there and [q] which is not: the traversal of
    [p] goes on while that of [q] fails. *)
Lemma generateFileMapSection_lets_traversal_failure_out_witness :
  exists w' r,
    generateFileMapSection 3
      (staticFs (DirNode [("p", DirNode [("a.txt", FileNode 1 [])])]%string))
      twoFolderWorkbench [folderP; folderQ] [] true None (roundRobin 2 6)
      emptyWorld
    = (w', r)
    /\ (forall out, r <> Returned out)
    /\ (forall e', r = Threw e' ->
        hostFailure
          (staticFs (DirNode [("p", DirNode [("a.txt", FileNode 1 [])])]%string))
          e')
    /\ ([folderP; folderQ] = [folderQ] -> r = Threw "ENOENT"%string).
Proof.
  apply (generateFileMapSection_lets_traversal_failure_out 2
           (staticFs (DirNode [("p", DirNode [("a.txt", FileNode 1 [])])]%string))
           twoFolderWorkbench [folderP; folderQ] folderQ [] None (roundRobin 2 6)
           emptyWorld "ENOENT"%string).
  - right. left. reflexivity.
  - intros s t E. discriminate E.
  - intro t. reflexivity.
Defined.

Example failing_folder_lets_its_error_out :
  snd (generateFileMapSection 3
         (staticFs (DirNode [("p", DirNode [("a.txt", FileNode 1 [])])]%string))
         twoFolderWorkbench [folderP; folderQ] [] true None (roundRobin 2 6)
         emptyWorld)
  = Threw "ENOENT"%string.
Proof. vm_compute. reflexivity. Qed.

(** ** [resolveSelectedFiles] *)

Lemma selectionsKept_later : forall S,
  (forall uri r w w', S uri r w -> traceGrows w w' -> S uri r w') ->
  forall uris r w w',
    selectionsKept S uris r w -> traceGrows w w' -> selectionsKept S uris r w'.
Proof.
  intros S Hstable uris r w w' H Hg. destruct r as [files | e |]; cbn in *.
  - destruct H as (arrays & -> & Hall). exists arrays. split; [reflexivity|].
    eapply Forall2_impl; [|exact Hall]. cbv beta. intros u a Hs.
    exact (Hstable _ _ _ _ Hs Hg).
  - destruct H as (u & Hu & Hs). exists u. split; [exact Hu|].
    exact (Hstable _ _ _ _ Hs Hg).
  - destruct H as (u & Hu & Hs). exists u. split; [exact Hu|].
    exact (Hstable _ _ _ _ Hs Hg).
Qed.

Lemma forEach_emit : forall A (event : A -> Event) xs w
    (Q : World -> Outcome unit -> Prop),
  (forall w', traceGrows w w' -> Q w' (Returned tt)) ->
  holdsAfter (forEach (fun x => emit (event x)) xs) w Q.
Proof.
  intros A event. induction xs as [|x xs IH]; intros w Q HQ; cbn [forEach].
  - apply after_ret, HQ, traceGrows_refl.
  - apply after_bind, after_emit. apply IH. intros w' Hg. apply HQ.
    eapply traceGrows_trans; [|exact Hg]. exists [event x]. reflexivity.
Qed.

Section Selections.
Variables (fuel : nat) (fs : FileSystem) (wb : Workbench)
          (includeIgnoredFiles : bool) (signal : option AbortSignal).
Variable S : Uri -> Outcome (list Uri) -> World -> Prop.
Hypothesis S_stable :
  forall uri r w w', S uri r w -> traceGrows w w' -> S uri r w'.
Hypothesis S_kept :
  forall ignoreParser root capCounter uri w,
    safe anyWorld traceGrows
      (collectSelection fuel fs ignoreParser root signal
         (MAX_COLLECTED_FILES wb) capCounter uri) w w
      (kept anyWorld traceGrows (S uri)).

Lemma collectRoot_kept : forall schedules group w,
  safe anyWorld traceGrows
    (collectRoot fuel fs wb includeIgnoredFiles signal schedules group) w w
    (kept anyWorld traceGrows (selectionsKept S (snd (snd group)))).
Proof.
  intros schedules group w. unfold collectRoot. cbv zeta.
  apply safe_bindA.
  assert (Hrest : forall ignoreParser w0 w1,
             traceGrows w0 w1 ->
             safe anyWorld traceGrows
               (capCounter <- sync (newCounter (fst group)) ;;
                nestedArrays <- promiseAll None (schedules (fst group))
                                  (map (collectSelection fuel fs
                                          (wb_ignores wb ignoreParser)
                                          (fst (snd group)) signal
                                          (MAX_COLLECTED_FILES wb) capCounter)
                                     (snd (snd group))) ;;
                count <- sync (readCount capCounter) ;;
                (if (MAX_COLLECTED_FILES wb <=? count)%nat
                 then sync (emit (Console (WarnCapped (MAX_COLLECTED_FILES wb)
                                             (fst (snd group)))))
                 else retA tt) ;;;
                retA (concat nestedArrays))%async w0 w1
               (kept anyWorld traceGrows (selectionsKept S (snd (snd group))))).
  { intros ignoreParser w0 w1 Hg.
    apply safe_bindA, safe_sync, after_newCounter. cbv beta match.
    apply safe_bindA.
    eapply safe_weaken;
      [ apply (promiseAll_safe anyWorld traceGrows traceGrows_refl
                 traceGrows_trans Uri (list Uri) S);
        [ intros x r wa wb' Hx Hgrow; exact (S_stable _ _ _ _ Hx Hgrow)
        | discriminate
        | intros x wa _ _; apply S_kept
        | exact Logic.I
        | trace_kept ]
      | cbv beta; intros r w0' w2 (HI2 & HG2 & Hall) ].
    destruct r as [arrays | e |]; cbn [allKept] in Hall.
    - traversal_steps.
      all: traversal_leaf; cbn [selectionsKept]; exists arrays;
        (split; [reflexivity|]).
      all: eapply Forall2_impl; [|exact Hall]; cbv beta; intros u a Hs.
      all: apply (S_stable _ _ _ _ Hs); trace_kept.
    - traversal_leaf. exact Hall.
    - traversal_leaf. exact Hall. }
  destruct includeIgnoredFiles.
  - apply safe_bindA, safe_sync, after_ignore. cbv beta match.
    apply safe_retA. cbv beta match. apply Hrest. trace_kept.
  - apply safe_awaitCall.
    eapply safe_weaken;
      [ apply getIgnoreParserAsync_returns; apply traceGrows_refl
      | cbv beta; intros r w0' w1 (HI1 & HG1 & parser & ->) ].
    split; [exact Logic.I|]. split; [exact HG1|]. intros w' _ _.
    apply Hrest, traceGrows_refl.
Qed.

Lemma resolveSelectedFilesAsync_kept : forall checkedPaths schedule schedules w,
  safe anyWorld traceGrows
    (resolveSelectedFilesAsync fuel fs wb includeIgnoredFiles checkedPaths signal
       schedule schedules) w w
    (fun r _ w' => rootsKept S (indexed (groupByRoot wb checkedPaths)) r w').
Proof.
  intros checked schedule schedules w.
  unfold resolveSelectedFilesAsync. cbv zeta.
  traversal_steps. apply forEach_emit. intros w1 Hg1. cbv beta match.
  apply safe_bindA.
  eapply safe_weaken;
    [ apply (promiseAll_safe anyWorld traceGrows traceGrows_refl
               traceGrows_trans (nat * (Uri * list Uri)) (list Uri)
               (fun group => selectionsKept S (snd (snd group))));
      [ intros x r wa wb' Hx Hgrow;
        exact (selectionsKept_later S S_stable _ _ _ _ Hx Hgrow)
      | discriminate
      | intros x wa _ _; apply collectRoot_kept
      | exact Logic.I
      | trace_kept ]
    | cbv beta; intros r w0' w2 (HI2 & HG2 & Hall) ].
  destruct r as [perRoot | e |]; cbn [allKept] in Hall.
  - apply safe_retA. cbn [rootsKept]. exists perRoot. split; [reflexivity|].
    exact Hall.
  - exact Hall.
  - exact Hall.
Qed.

End Selections.

Lemma groupByRoot_members : forall wb (all selections : list Uri) acc,
  incl selections all ->
  (forall root uris, In (root, uris) acc ->
     forall u, In u uris ->
       In u all /\ exists ws, wb_getWorkspaceFolder wb u = Some ws
                              /\ folder_uri ws = root) ->
  forall root uris,
    In (root, uris)
      (fold_left
         (fun byRoot sel =>
            let uri := sel in
            match wb_getWorkspaceFolder wb uri with
            | None => byRoot
            | Some ws =>
                let key := folder_uri ws in
                match mapGet Uri_eqb key byRoot with
                | None => mapSet Uri_eqb key [uri] byRoot
                | Some uris => mapSet Uri_eqb key (uris ++ [uri]) byRoot
                end
            end)
         selections acc) ->
    forall u, In u uris ->
      In u all /\ exists ws, wb_getWorkspaceFolder wb u = Some ws
                             /\ folder_uri ws = root.
Proof.
  intros wb all. induction selections as [|sel selections IH];
    intros acc Hincl Hacc; cbn [fold_left]; [exact Hacc|].
  cbv zeta. apply IH; [intros x Hx; apply Hincl; now right|].
  assert (Hsel : In sel all) by (apply Hincl; now left).
  destruct (wb_getWorkspaceFolder wb sel) as [ws |] eqn:Ews; [|exact Hacc].
  destruct (mapGet Uri_eqb (folder_uri ws) acc) as [uris0 |] eqn:Eget;
    intros root uris Hin u Hu;
    (destruct (In_mapSet _ _ _ _ _ _ Hin) as [E | Hin'];
     [inversion E; subst | exact (Hacc root uris Hin' u Hu)]).
  - apply in_app_or in Hu. destruct Hu as [Hu | [<- | []]].
    + exact (Hacc (folder_uri ws) uris0 (mapGet_Some_In _ _ _ _ Eget) u Hu).
    + split; [exact Hsel | now exists ws].
  - destruct Hu as [<- | []]. split; [exact Hsel | now exists ws].
Qed.


(** A checked path that has a workspace folder is among the selections of
    the group of that folder. *)
Lemma groupByRoot_has : forall wb (selections : list Uri) acc sel ws,
  wb_getWorkspaceFolder wb sel = Some ws ->
  In sel selections
  \/ (exists uris, mapGet Uri_eqb (folder_uri ws) acc = Some uris /\ In sel uris) ->
  exists uris,
    mapGet Uri_eqb (folder_uri ws)
      (fold_left
         (fun byRoot sel =>
            let uri := sel in
            match wb_getWorkspaceFolder wb uri with
            | None => byRoot
            | Some ws =>
                let key := folder_uri ws in
                match mapGet Uri_eqb key byRoot with
                | None => mapSet Uri_eqb key [uri] byRoot
                | Some uris => mapSet Uri_eqb key (uris ++ [uri]) byRoot
                end
            end)
         selections acc)
    = Some uris
    /\ In sel uris.
Proof.
  intros wb. induction selections as [|s selections IH];
    intros acc sel ws Hws Hin; cbn [fold_left].
  - destruct Hin as [[] | Hin]. exact Hin.
  - cbv zeta. apply IH; [exact Hws|].
    destruct Hin as [[-> | Hin] | (uris & Hget & Hsel)].
    + right. rewrite Hws.
      destruct (mapGet Uri_eqb (folder_uri ws) acc) as [uris0 |] eqn:Eget.
      * exists (uris0 ++ [sel]). rewrite mapGet_mapSet, Uri_eqb_refl.
        split; [reflexivity | apply in_or_app; right; now left].
      * exists [sel]. rewrite mapGet_mapSet, Uri_eqb_refl.
        split; [reflexivity | now left].
    + now left.
    + right. destruct (wb_getWorkspaceFolder wb s) as [ws' |] eqn:Ews';
        [| now exists uris].
      destruct (Uri_eqb (folder_uri ws') (folder_uri ws)) eqn:Ekey.
      * apply Uri_eqb_eq in Ekey. rewrite Ekey, Hget.
        exists (uris ++ [s]). rewrite mapGet_mapSet, Uri_eqb_refl.
        split; [reflexivity | apply in_or_app; now left].
      * exists uris.
        destruct (mapGet Uri_eqb (folder_uri ws') acc);
          rewrite mapGet_mapSet, Ekey; split; assumption.
Qed.

Lemma Forall2_In_right : forall A B (R : A -> B -> Prop) xs bs b,
  Forall2 R xs bs -> In b bs -> exists x, In x xs /\ R x b.
Proof.
  intros A B R xs bs b H. induction H as [|x y xs bs Hy Hall IH]; intros Hin;
    [destruct Hin|].
  destruct Hin as [<- | Hin].
  - exists x. split; [now left | exact Hy].
  - destruct (IH Hin) as (x' & Hx' & Hr). exists x'. split; [now right | exact Hr].
Qed.

Lemma collectSelection_caught :
  forall fuel fs ig root signal maxFiles capCounter uri w,
    safe anyWorld traceGrows
      (collectSelection fuel fs ig root signal maxFiles capCounter uri) w w
      (kept anyWorld traceGrows (caughtBelow fs uri)).
Proof.
  intros fuel fs ig root signal maxFiles capCounter uri w.
  unfold collectSelection.
  apply safe_tryCatchA, safe_bindA, safe_awaitCall.
  eapply safe_weaken;
    [ apply collectFilesAsync_traversed; apply traceGrows_refl
    | cbv beta; intros r w0' w1 (HI1 & HG1 & Hbelow & Hstat) ].
  destruct r as [files | e |]; traversal_steps.
  - traversal_leaf. cbn [caughtBelow]. intros f Hf. split; [exact (Hbelow f Hf)|].
    apply (Hstat files eq_refl). intro E. subst files. destruct Hf.
  - traversal_leaf. intros f [].
  - traversal_leaf. exact Logic.I.
Qed.

(** When the stat of the selection always fails, the callback writes the
    error to the console. *)
Lemma collectSelection_fails :
  forall fuel fs ig root signal maxFiles capCounter uri w sel e,
    (forall t, fs_stat fs t sel = Err e) ->
    neverAborted signal ->
    safe anyWorld traceGrows
      (collectSelection (S fuel) fs ig root signal maxFiles capCounter uri) w w
      (kept anyWorld traceGrows
         (fun r w' =>
            uri = sel ->
            r = Returned []
            /\ In (Console (ErrorCollectFailed sel e)) (trace w'))).
Proof.
  intros fuel fs ig root signal maxFiles capCounter uri w sel e Hstat Hsig.
  destruct (list_eq_dec string_dec uri sel) as [-> | Hother].
  - unfold collectSelection.
    apply safe_tryCatchA, safe_bindA, safe_awaitCall.
    eapply safe_weaken;
      [ apply collectFilesAsync_stat_fails;
        [exact Hstat | exact Hsig | apply traceGrows_refl]
      | cbv beta; intros r w0' w1 (HI1 & HG1 & ->) ].
    traversal_steps. traversal_leaf. intros _. split; [reflexivity|].
    world_fields. apply in_or_app. right. now left.
  - eapply safe_weaken;
      [ apply collectSelection_caught
      | cbv beta; intros r w0' w1 (HI1 & HG1 & _) ].
    split; [exact Logic.I|]. split; [exact HG1|]. intro E. contradiction.
Qed.

Lemma collectSelection_ends :
  forall tree ig root signal maxFiles capCounter uri w,
    safe anyWorld traceGrows
      (collectSelection (S (fsHeight tree)) (staticFs tree) ig root signal
         maxFiles capCounter uri) w w
      (kept anyWorld traceGrows (fun r _ => r <> OutOfFuel)).
Proof.
  intros tree ig root signal maxFiles capCounter uri w.
  unfold collectSelection.
  apply safe_tryCatchA, safe_bindA, safe_awaitCall.
  eapply safe_weaken;
    [ apply collectFilesAsync_ends_on_tree; apply traceGrows_refl
    | cbv beta; intros r w0' w1 (HI1 & HG1 & Hr) ].
  destruct r as [files | e |]; traversal_steps.
  - traversal_leaf. discriminate.
  - traversal_leaf. discriminate.
  - exfalso. now apply Hr.
Qed.

(** X28. [resolveSelectedFiles] never throws, whatever the host does and in
    whatever order it lets the roots and the selections of each root go on.
    When it returns, no file is listed twice, and every file lies at or
    below a checked path that has a workspace folder and whose stat the host
    has answered: a traversal whose stat fails gives no files.  It gives a
    line on the console instead: for a checked path with a workspace folder
    whose stat always fails (with no cancellation), the log holds the error
    line of that selection.  On a filesystem that is a tree, with the depth
    of recursion that the tree needs, the call always returns. *)
Theorem resolveSelectedFiles_never_throws :
  forall fuel fs wb includeIgnoredFiles checkedPaths signal schedule schedules w,
    (forall e,
        snd (resolveSelectedFiles fuel fs wb includeIgnoredFiles checkedPaths
               signal schedule schedules w) <> Threw e)
    /\ (forall files,
          snd (resolveSelectedFiles fuel fs wb includeIgnoredFiles checkedPaths
                 signal schedule schedules w) = Returned files ->
          NoDup files
          /\ (forall f, In f files ->
                exists sel,
                  In sel checkedPaths
                  /\ wb_getWorkspaceFolder wb sel <> None
                  /\ under sel f
                  /\ exists t st, fs_stat fs t sel = Ok st)
          /\ (forall sel e,
                In sel checkedPaths ->
                wb_getWorkspaceFolder wb sel <> None ->
                neverAborted signal ->
                1 <= fuel ->
                (forall t, fs_stat fs t sel = Err e) ->
                In (Console (ErrorCollectFailed sel e))
                   (trace (fst (resolveSelectedFiles fuel fs wb
                                  includeIgnoredFiles checkedPaths signal
                                  schedule schedules w)))))
    /\ (forall tree,
          fs = staticFs tree -> fuel = S (fsHeight tree) ->
          exists files,
            snd (resolveSelectedFiles fuel fs wb includeIgnoredFiles checkedPaths
                   signal schedule schedules w) = Returned files).
Proof.
  intros fuel fs wb includeIgnoredFiles checked signal schedule schedules w.
  assert (Hcaught :
            rootsKept (caughtBelow fs) (indexed (groupByRoot wb checked))
              (snd (resolveSelectedFiles fuel fs wb includeIgnoredFiles checked
                      signal schedule schedules w))
              (fst (resolveSelectedFiles fuel fs wb includeIgnoredFiles checked
                      signal schedule schedules w))).
  { destruct (safe_runAlone anyWorld traceGrows traceGrows_refl _ _ w w _
                Logic.I
                (resolveSelectedFilesAsync_kept fuel fs wb includeIgnoredFiles
                   signal (caughtBelow fs)
                   (fun _ _ _ _ H _ => H)
                   (fun ig root c uri w0 =>
                      collectSelection_caught fuel fs ig root signal _ c uri w0)
                   checked schedule schedules w)) as (w0' & _ & H).
    exact H. }
  assert (Hnot : forall e,
             snd (resolveSelectedFiles fuel fs wb includeIgnoredFiles checked
                    signal schedule schedules w) <> Threw e).
  { intros e E. rewrite E in Hcaught. cbn [rootsKept selectionsKept] in Hcaught.
    destruct Hcaught as (group & _ & uri & _ & []). }
  split; [exact Hnot|]. split.
  - intros files E. rewrite E in Hcaught. cbn [rootsKept] in Hcaught.
    destruct Hcaught as (perRoot & -> & Hroots).
    destruct (setAddAll_spec (concat perRoot) [] (NoDup_nil _)) as [Hnd Hin].
    split; [exact Hnd|]. split.
    + intros f Hf. apply Hin in Hf. destruct Hf as [Hf | []].
      apply in_concat in Hf. destruct Hf as (filesOfRoot & Hroot & Hf).
      destruct (Forall2_In_right _ _ _ _ _ _ Hroots Hroot)
        as ([i [root uris]] & Hgroup & arrays & -> & Hsels).
      cbn [snd] in Hsels.
      apply in_concat in Hf. destruct Hf as (array & Harray & Hf).
      destruct (Forall2_In_right _ _ _ _ _ _ Hsels Harray)
        as (sel & Hsel & Hkept).
      destruct (Hkept f Hf) as [Hunder Hstat].
      unfold indexed in Hgroup. apply in_combine_r in Hgroup.
      destruct (groupByRoot_members wb checked checked [] (incl_refl _)
                  (fun _ _ (H0 : In _ []) => match H0 with end)
                  root uris Hgroup sel Hsel) as (Hchecked & ws & Hws & _).
      exists sel. split; [exact Hchecked|]. split; [congruence|].
      split; [exact Hunder | exact Hstat].
    + intros sel e Hsel Hfolder Hsig Hfuel Hstat.
      destruct fuel as [|fuel]; [lia|].
      destruct (wb_getWorkspaceFolder wb sel) as [ws |] eqn:Hws;
        [|now contradiction Hfolder].
      destruct (groupByRoot_has wb checked [] sel ws Hws (or_introl Hsel))
        as (uris & Hget & Hin_uris).
      apply mapGet_Some_In in Hget.
      destruct (In_nth_error _ _ Hget) as [i Hi].
      pose proof (nth_indexed _ _ _ _ Hi) as Hgroup.
      destruct (safe_runAlone anyWorld traceGrows traceGrows_refl _ _ w w _
                  Logic.I
                  (resolveSelectedFilesAsync_kept (S fuel) fs wb
                     includeIgnoredFiles signal
                     (fun uri r w' =>
                        uri = sel ->
                        r = Returned []
                        /\ In (Console (ErrorCollectFailed sel e)) (trace w'))
                     (fun uri r wa wb' H Hg Eu =>
                        match H Eu with
                        | conj Hr Hc =>
                            conj Hr
                              match Hg with
                              | ex_intro _ added Ea =>
                                  eq_ind_r (fun l => In _ l)
                                    (in_or_app _ _ _ (or_introl Hc)) Ea
                              end
                        end)
                     (fun ig root c uri w0 =>
                        collectSelection_fails fuel fs ig root signal _ c uri w0
                          sel e Hstat Hsig)
                     checked schedule schedules w)) as (w0' & _ & H).
      unfold resolveSelectedFiles in E. rewrite E in H. cbn [rootsKept] in H.
      destruct H as (perRoot' & _ & Hroots').
      destruct (Forall2_In_left _ _ _ _ _ _ Hroots' Hgroup)
        as (filesOfRoot & arrays & _ & Hsels).
      cbn [snd] in Hsels.
      destruct (Forall2_In_left _ _ _ _ _ _ Hsels Hin_uris) as (array & Hkept).
      exact (proj2 (Hkept eq_refl)).
  - intros tree -> ->.
    destruct (safe_runAlone anyWorld traceGrows traceGrows_refl _ _ w w _
                Logic.I
                (resolveSelectedFilesAsync_kept (S (fsHeight tree))
                   (staticFs tree) wb includeIgnoredFiles signal
                   (fun _ r _ => r <> OutOfFuel)
                   (fun _ _ _ _ H _ => H)
                   (fun ig root c uri w0 =>
                      collectSelection_ends tree ig root signal _ c uri w0)
                   checked schedule schedules w)) as (w0' & _ & H).
    fold (resolveSelectedFiles (S (fsHeight tree)) (staticFs tree) wb
            includeIgnoredFiles checked signal schedule schedules) in H.
    destruct (snd (resolveSelectedFiles (S (fsHeight tree)) (staticFs tree) wb
                     includeIgnoredFiles checked signal schedule schedules w))
      as [files | e |] eqn:E.
    + now exists files.
    + exfalso. exact (Hnot e eq_refl).
    + exfalso. cbn [rootsKept selectionsKept] in H.
      destruct H as (group & _ & uri & _ & Hend). now apply Hend.
Qed.

(** Two checked paths of the folder [p], the file [a.txt] and a path that is
    not there, traversed in turn: the call returns, and the console has the
    error line of the second. *)
Lemma resolveSelectedFiles_never_throws_witness :
  exists files,
    snd (resolveSelectedFiles (S (fsHeight oneFileTree)) (staticFs oneFileTree)
           twoFolderWorkbench false
           [["p"; "a.txt"]%string; ["p"; "gone"]%string] None
           (roundRobin 1 8) (fun _ => roundRobin 2 6) emptyWorld)
    = Returned files
    /\ In (Console (ErrorCollectFailed ["p"; "gone"]%string "ENOENT"%string))
          (trace (fst (resolveSelectedFiles (S (fsHeight oneFileTree))
                         (staticFs oneFileTree) twoFolderWorkbench false
                         [["p"; "a.txt"]%string; ["p"; "gone"]%string] None
                         (roundRobin 1 8) (fun _ => roundRobin 2 6)
                         emptyWorld))).
Proof.
  destruct (resolveSelectedFiles_never_throws (S (fsHeight oneFileTree))
              (staticFs oneFileTree) twoFolderWorkbench false
              [["p"; "a.txt"]%string; ["p"; "gone"]%string] None
              (roundRobin 1 8) (fun _ => roundRobin 2 6) emptyWorld)
    as (_ & Hreturned & Hends).
  destruct (Hends oneFileTree eq_refl eq_refl) as [files Hfiles].
  exists files. split; [exact Hfiles|].
  destruct (Hreturned files Hfiles) as (_ & _ & Hconsole).
  apply Hconsole.
  - right. left. reflexivity.
  - discriminate.
  - intros s t E. discriminate E.
  - apply Nat.le_succ_l. apply Nat.lt_0_succ.
  - intro t. reflexivity.
Defined.

Example resolveSelectedFiles_of_file_and_missing_path :
  snd (resolveSelectedFiles (S (fsHeight oneFileTree)) (staticFs oneFileTree)
         twoFolderWorkbench false
         [["p"; "a.txt"]%string; ["p"; "gone"]%string] None
         (roundRobin 1 8) (fun _ => roundRobin 2 6) emptyWorld)
  = Returned [["p"; "a.txt"]%string].
Proof. vm_compute. reflexivity. Qed.

(** ** [resolveSelectedFiles]: the cap of a root *)

(** *** The files that a call has counted itself *)

Lemma countedUp_refl : forall c cap w,
  counters w c <= cap -> countedUp c cap w w.
Proof.
  intros c cap w Hw. split; [apply Nat.le_refl|]. split; [exact Hw|].
  intros c' _. reflexivity.
Qed.

Lemma onlyCounter_trans : forall c w w1 w2,
  onlyCounter c w w1 -> onlyCounter c w1 w2 -> onlyCounter c w w2.
Proof.
  intros c w w1 w2 H1 H2 c' Hc'. rewrite (H2 c' Hc'). apply H1, Hc'.
Qed.

Lemma countedUp_trans : forall c cap w w1 w2,
  countedUp c cap w w1 -> countedUp c cap w1 w2 -> countedUp c cap w w2.
Proof.
  intros c cap w w1 w2 (H1 & H2 & H3) (H4 & H5 & H6).
  split; [lia|]. split; [exact H5|]. eapply onlyCounter_trans; eassumption.
Qed.

Ltac open_counted :=
  repeat match goal with
         | H : countedUp _ _ _ _ |- _ =>
             let H1 := fresh "Hup" in
             let H2 := fresh "Hcap" in
             let H3 := fresh "Hothers" in
             destruct H as (H1 & H2 & H3)
         end.

Lemma counting_at : forall c cap A (m : Async A) own own' w
    (Q : Outcome A -> nat -> World -> Prop),
  own = own' -> counting c cap m own w Q -> counting c cap m own' w Q.
Proof. intros c cap A m own own' w Q ->. exact (fun H => H). Qed.

Section CountsRules.
Variables (c cap : nat).

Lemma counting_weaken : forall A (m : Async A) own w
    (Q Q' : Outcome A -> nat -> World -> Prop),
  counting c cap m own w Q ->
  (forall r o w', Q r o w' -> Q' r o w') ->
  counting c cap m own w Q'.
Proof.
  intros A m. induction m as [r | effect next IH | k IH]; intros own w Q Q' H HQ;
    cbn [counting] in *.
  - now apply HQ.
  - destruct H as (H1 & H2). split; [exact H1|]. eapply IH; eassumption.
  - intros w' Hw'. eapply IH; [apply H; exact Hw' | exact HQ].
Qed.

Lemma counting_bindA : forall A B (m : Async A) (k : A -> Async B) own w
    (Q : Outcome B -> nat -> World -> Prop),
  counting c cap m own w
    (fun r o w' =>
       match r with
       | Returned a => counting c cap (k a) o w' Q
       | Threw e => Q (Threw e) o w'
       | OutOfFuel => Q OutOfFuel o w'
       end) ->
  counting c cap (bindA m k) own w Q.
Proof.
  intros A B m k. induction m as [r | effect next IH | m IH]; intros own w Q H;
    cbn [counting bindA] in *.
  - destruct r; exact H.
  - destruct H as (H1 & H2). split; [exact H1|]. apply IH, H2.
  - intros w' Hw'. apply IH, H, Hw'.
Qed.

Lemma counting_tryCatchA : forall A (body : Async A) handler own w
    (Q : Outcome A -> nat -> World -> Prop),
  counting c cap body own w
    (fun r o w' =>
       match r with
       | Returned a => Q (Returned a) o w'
       | Threw e => counting c cap (handler e) o w' Q
       | OutOfFuel => Q OutOfFuel o w'
       end) ->
  counting c cap (tryCatchA body handler) own w Q.
Proof.
  intros A body handler.
  induction body as [r | effect next IH | body IH]; intros own w Q H;
    cbn [counting tryCatchA] in *.
  - destruct r; exact H.
  - destruct H as (H1 & H2). split; [exact H1|]. apply IH, H2.
  - intros w' Hw'. apply IH, H, Hw'.
Qed.

Lemma counting_awaitCall : forall A (call : Async A) own w
    (Q : Outcome A -> nat -> World -> Prop),
  counting c cap call own w
    (fun r o _ => forall w', counters w' c <= cap -> Q r o w') ->
  counting c cap (awaitCall call) own w Q.
Proof.
  intros A call. induction call as [r | effect next IH | call IH];
    intros own w Q H; cbn [counting awaitCall] in *.
  - exact H.
  - destruct H as (H1 & H2). split; [exact H1|]. apply IH, H2.
  - intros w' Hw'. apply IH, H, Hw'.
Qed.

Lemma counting_sync : forall A (m : Eff A) own w
    (Q : Outcome A -> nat -> World -> Prop),
  holdsAfter m w
    (fun w' r =>
       countedUp c cap w w'
       /\ Q r (own + (counters w' c - counters w c)) w') ->
  counting c cap (sync m) own w Q.
Proof. intros A m own w Q H. exact H. Qed.

Lemma counting_await : forall A (promise : Eff A) own w
    (Q : Outcome A -> nat -> World -> Prop),
  holdsAfter promise w
    (fun w1 r =>
       countedUp c cap w w1
       /\ forall w', counters w' c <= cap ->
                     Q r (own + (counters w1 c - counters w c)) w') ->
  counting c cap (await promise) own w Q.
Proof. intros A promise own w Q H. exact H. Qed.

Lemma counting_retA : forall A (a : A) own w
    (Q : Outcome A -> nat -> World -> Prop),
  Q (Returned a) own w -> counting c cap (retA a) own w Q.
Proof. intros A a own w Q H. exact H. Qed.

End CountsRules.

Ltac within_cap :=
  open_counted; world_fields; rewrite ?Nat.eqb_refl;
  repeat match goal with
         | H : (_ <=? _) = false |- _ => apply Nat.leb_gt in H
         | H : (_ <=? _) = true |- _ => apply Nat.leb_le in H
         end;
  lia.

Ltac others_kept :=
  let c' := fresh "c'" in
  let Hc' := fresh "Hc'" in
  intros c' Hc'; world_fields;
  rewrite ?(proj2 (Nat.eqb_neq _ _) Hc'); reflexivity.

Ltac counted_up :=
  split; [within_cap | split; [within_cap | others_kept]].

Ltac counting_step :=
  lazymatch goal with
  | |- counting _ _ (bindA _ _) _ _ _ => apply counting_bindA
  | |- counting _ _ (tryCatchA _ _) _ _ _ => apply counting_tryCatchA
  | |- counting _ _ (awaitCall _) _ _ _ => apply counting_awaitCall
  | |- counting _ _ (sync _) _ _ _ => apply counting_sync
  | |- counting _ _ (await _) _ _ _ => apply counting_await
  | |- counting _ _ (retA _) _ _ _ => apply counting_retA
  | |- counting _ _ (throwA _) _ _ _ => unfold throwA; cbn [counting]
  | |- counting _ _ (Finished _) _ _ _ => cbn [counting]
  | |- counting _ _ (if ?b then _ else _) _ _ _ => destruct b eqn:?
  | |- counting _ _ (match ?x with _ => _ end) _ _ _ => destruct x eqn:?
  | |- holdsAfter (newCounter _) _ _ => apply after_newCounter
  | |- holdsAfter _ _ _ => eff_step
  | |- countedUp _ _ _ _ /\ (forall w', _ <= _ -> _) =>
      split; [counted_up | intros ? ?]
  | |- countedUp _ _ _ _ /\ _ => split; [counted_up |]
  | |- (if ?b then _ else _) => destruct b eqn:?
  | |- match ?x with _ => _ end => destruct x eqn:?
  end; cbv beta match.

Ltac counting_steps := repeat counting_step.

Ltac own_leaf :=
  unfold countedOwn in *;
  repeat match goal with
         | H : _ <= _ /\ (forall b, _ = Returned b -> _) |- _ => destruct H
         end;
  split; [within_cap |];
  let E := fresh "E" in
  intros ? E;
  first [ discriminate E
        | inversion E; subst; cbn [length] in *; within_cap ].

Lemma collectChildrenAsync_counts :
  forall c cap signal recurse uri,
    (forall name own w,
       counters w c <= cap ->
       counting c cap (recurse (joinPath uri name)) own w
         (countedOwn (@length Uri) own)) ->
    forall children out own own0 w,
      counters w c <= cap ->
      own0 + length out <= own ->
      counting c cap
        (collectChildrenAsync recurse signal (Some cap) (Some c) uri children out)
        own w (countedOwn (@length Uri) own0).
Proof.
  intros c cap signal recurse uri Hrec.
  induction children as [|[name ty] rest IH]; intros out own own0 w Hw Hout;
    cbn [collectChildrenAsync]; unfold capStop.
  - counting_steps. own_leaf.
  - counting_steps.
    all: try (own_leaf; fail).
    all: (eapply counting_weaken;
          [ apply Hrec; within_cap
          | cbv beta; intros r o w1 Hr w2 Hw2 ]).
    all: destruct Hr as [Hgrown Hr].
    all: destruct r as [nested | e |]; try (own_leaf; fail).
    all: apply IH; [exact Hw2 |].
    all: specialize (Hr nested eq_refl); rewrite length_app; within_cap.
Qed.

Lemma collectFilesAsync_counts :
  forall c cap fs ig root signal fuel uri own w,
    counters w c <= cap ->
    counting c cap
      (collectFilesAsync fuel fs uri ig root signal (Some cap) (Some c)) own w
      (countedOwn (@length Uri) own).
Proof.
  intros c cap fs ig root signal.
  induction fuel as [|fuel IH]; intros uri own w Hw; cbn [collectFilesAsync].
  - cbn [counting]. split; [apply Nat.le_refl | intros b E; discriminate E].
  - unfold fsLimit. counting_steps.
    all: try (own_leaf; fail).
    all: apply collectChildrenAsync_counts;
      [ intros name own1 w1 Hw1; apply IH; exact Hw1
      | assumption
      | cbn [length]; within_cap ].
Qed.

Lemma collectSelection_counts :
  forall c cap fuel fs ig root signal uri own w,
    counters w c <= cap ->
    counting c cap (collectSelection fuel fs ig root signal cap c uri) own w
      (countedOwn (@length Uri) own).
Proof.
  intros c cap fuel fs ig root signal uri own w Hw. unfold collectSelection.
  apply counting_tryCatchA, counting_bindA, counting_awaitCall.
  eapply counting_weaken;
    [ apply collectFilesAsync_counts; exact Hw
    | cbv beta; intros r o w1 Hr w2 Hw2 ].
  destruct Hr as [Hgrown Hr].
  destruct r as [files | e |]; counting_steps.
  - split; [within_cap|]. intros b E. inversion E; subst b.
    specialize (Hr files eq_refl). within_cap.
  - own_leaf.
  - own_leaf.
Qed.

(** *** The pool: what its tasks have counted *)

Ltac sum_cons :=
  repeat match goal with
         | |- context [list_sum (?x :: ?l)] =>
             change (list_sum (x :: l)) with (x + list_sum l)
         | |- context [list_sum []] => change (list_sum []) with 0
         end.

Section CountsPool.
Variables (c cap : nat) (B : Type) (len : B -> nat).

(** A call from [w] up to its next await. *)
Lemma upToAwait_counts : forall (m : Async B) own w,
  counters w c <= cap ->
  counting c cap m own w (countedOwn len 0) ->
  countedUp c cap w (fst (upToAwait m w))
  /\ forall w', counters w' c <= cap ->
       counting c cap (snd (upToAwait m w))
         (own + (counters (fst (upToAwait m w)) c - counters w c)) w'
         (countedOwn len 0).
Proof.
  induction m as [r | effect next IH | k IH]; intros own w Hw H;
    cbn [counting upToAwait fst snd] in *.
  - split; [apply countedUp_refl, Hw|]. intros w' _.
    destruct H as [H0 H]. split; [lia|]. intros b E. specialize (H b E). lia.
  - destruct H as (H1 & H2).
    assert (Hw1 : counters (effect w) c <= cap) by apply H1.
    destruct (IH w _ (effect w) Hw1 H2) as (H4 & H5).
    split; [eapply countedUp_trans; eassumption|]. intros w' Hw'.
    eapply counting_at; [|apply H5; exact Hw'].
    destruct H1 as (? & ? & ?), H4 as (? & ? & ?). lia.
  - split; [apply countedUp_refl, Hw|]. intros w' Hw' w2 Hw2.
    eapply counting_at; [|apply H; exact Hw2]. lia.
Qed.

Lemma resume_counts : forall (m : Async B) own w,
  counters w c <= cap ->
  (forall w', counters w' c <= cap ->
              counting c cap m own w' (countedOwn len 0)) ->
  countedUp c cap w (fst (resume m w))
  /\ forall w', counters w' c <= cap ->
       counting c cap (snd (resume m w))
         (own + (counters (fst (resume m w)) c - counters w c)) w'
         (countedOwn len 0).
Proof.
  intros m own w Hw H. destruct m as [r | effect next | k]; cbn [resume].
  - apply upToAwait_counts; [exact Hw | apply H; exact Hw].
  - apply upToAwait_counts; [exact Hw | apply H; exact Hw].
  - apply upToAwait_counts; [exact Hw |]. exact (H w Hw w Hw).
Qed.

Lemma started_counts : forall (fn : Async B) w,
  (forall w', counters w' c <= cap ->
              counting c cap fn 0 w' (countedOwn len 0)) ->
  counters w c <= cap ->
  countedUp c cap w (fst (upToAwait fn w))
  /\ slotCounts c cap len (Running (snd (upToAwait fn w)))
       (counters (fst (upToAwait fn w)) c - counters w c).
Proof.
  intros fn w Hfn Hw.
  destruct (upToAwait_counts fn 0 w Hw (Hfn w Hw)) as (H1 & H2).
  split; [exact H1 | exact H2].
Qed.

Lemma submitAll_counts : forall concurrency (tasks : list (Async B)) running w,
  (forall fn, In fn tasks ->
     forall w', counters w' c <= cap ->
                counting c cap fn 0 w' (countedOwn len 0)) ->
  counters w c <= cap ->
  countedUp c cap w (fst (submitAll concurrency tasks running w))
  /\ exists credits,
       poolCounts c cap len
         (pool_slots (snd (submitAll concurrency tasks running w))) credits
       /\ list_sum credits
          = counters (fst (submitAll concurrency tasks running w)) c
            - counters w c.
Proof.
  intros conc. induction tasks as [|fn tasks IH]; intros running w Htasks Hw;
    cbn [submitAll].
  - cbn [fst snd pool_slots]. split; [apply countedUp_refl, Hw|].
    exists []. split; [constructor | sum_cons; lia].
  - assert (Hrest : forall fn', In fn' tasks ->
              forall w', counters w' c <= cap ->
                         counting c cap fn' 0 w' (countedOwn len 0))
      by (intros fn' Hin; apply Htasks; now right).
    destruct (slotFree conc running).
    + destruct (started_counts fn w (Htasks fn (or_introl eq_refl)) Hw)
        as (H1 & H3).
      destruct (upToAwait fn w) as [w1 call]. cbn [fst snd] in *.
      assert (H2 : counters w1 c <= cap) by apply H1.
      specialize (IH (S running) w1 Hrest H2).
      destruct (submitAll conc tasks (S running) w1) as [w2 pool].
      cbn [fst snd pool_slots] in *.
      destruct IH as (H4 & credits & Hp & Hsum).
      split; [eapply countedUp_trans; eassumption|].
      exists ((counters w1 c - counters w c) :: credits).
      split; [constructor; assumption|]. sum_cons.
      destruct H1 as (? & ? & ?), H4 as (? & ? & ?). lia.
    + specialize (IH running w Hrest Hw).
      destruct (submitAll conc tasks running w) as [w2 pool].
      cbn [fst snd pool_slots] in *.
      destruct IH as (H4 & credits & Hp & Hsum).
      split; [exact H4|].
      exists (0 :: credits). split; [|sum_cons; lia].
      constructor; [|exact Hp]. cbn [slotCounts]. split; [reflexivity|].
      apply Htasks. now left.
Qed.

Lemma poolCounts_nth : forall (slots : list (Slot B)) credits i slot,
  poolCounts c cap len slots credits -> nth_error slots i = Some slot ->
  exists credit, nth_error credits i = Some credit
                 /\ slotCounts c cap len slot credit.
Proof.
  intros slots credits i slot H. revert i.
  induction H as [|s cr slots credits Hs Hall IH]; intros [|i] E; cbn in E;
    try discriminate.
  - inversion E; subst. exists cr. split; [reflexivity | exact Hs].
  - destruct (IH i E) as (cr' & Hcr & Hk). exists cr'. split; assumption.
Qed.

Lemma poolCounts_replace : forall (slots : list (Slot B)) credits i credit slot'
    credit',
  poolCounts c cap len slots credits ->
  nth_error credits i = Some credit ->
  slotCounts c cap len slot' credit' ->
  poolCounts c cap len (replaceNth i slot' slots) (replaceNth i credit' credits)
  /\ list_sum (replaceNth i credit' credits) + credit
     = list_sum credits + credit'.
Proof.
  intros slots credits i credit slot' credit' H. revert i.
  induction H as [|s cr slots credits Hs Hall IH]; intros [|i] E Hslot;
    cbn in E; try discriminate; cbn [replaceNth]; sum_cons.
  - inversion E; subst. split; [constructor; assumption | lia].
  - destruct (IH i E Hslot) as [Hp Hsum].
    split; [constructor; assumption | lia].
Qed.

Lemma startQueued_counts : forall (slots : list (Slot B)) credits w,
  poolCounts c cap len slots credits ->
  counters w c <= cap ->
  match startQueued slots w with
  | Some (w', slots') =>
      countedUp c cap w w'
      /\ exists credits',
           poolCounts c cap len slots' credits'
           /\ list_sum credits'
              = list_sum credits + (counters w' c - counters w c)
  | None => True
  end.
Proof.
  intros slots credits w H Hw.
  induction H as [|slot cr slots credits Hs Hall IH]; cbn [startQueued];
    [exact Logic.I|].
  destruct slot as [fn | call | r].
  - cbn [slotCounts] in Hs. destruct Hs as [-> Hfn].
    destruct (started_counts fn w Hfn Hw) as (H1 & H3).
    destruct (upToAwait fn w) as [w1 call]. cbn [fst snd] in *.
    split; [exact H1|].
    exists ((counters w1 c - counters w c) :: credits).
    split; [constructor; assumption | sum_cons; lia].
  - destruct (startQueued slots w) as [[w' slots'] |]; [|exact Logic.I].
    destruct IH as (H1 & credits' & Hp & Hsum).
    split; [exact H1|].
    exists (cr :: credits'). split; [constructor; assumption|].
    sum_cons. lia.
  - destruct (startQueued slots w) as [[w' slots'] |]; [|exact Logic.I].
    destruct IH as (H1 & credits' & Hp & Hsum).
    split; [exact H1|].
    exists (cr :: credits'). split; [constructor; assumption|].
    sum_cons. lia.
Qed.

(** The promise [i] is settled with an outcome whose files its task has
    counted, [credit'] increments in all. *)
Lemma release_counts : forall concurrency i (r : Outcome B) pool credits credit
    credit' w,
  poolCounts c cap len (pool_slots pool) credits ->
  nth_error credits i = Some credit ->
  (forall b, r = Returned b -> len b <= credit') ->
  counters w c <= cap ->
  countedUp c cap w (fst (release concurrency i r pool w))
  /\ exists credits',
       poolCounts c cap len
         (pool_slots (snd (release concurrency i r pool w))) credits'
       /\ list_sum credits' + credit
          = list_sum credits + credit'
            + (counters (fst (release concurrency i r pool w)) c
               - counters w c).
Proof.
  intros conc i r pool credits credit credit' w Hp Hcr Hr Hw. unfold release.
  destruct (poolCounts_replace _ _ i credit (Settled r) credit' Hp Hcr Hr)
    as [Hp' Hsum'].
  pose proof (startQueued_counts _ _ w Hp' Hw) as Hq.
  destruct (slotFree conc (pred (pool_running pool))).
  - destruct (startQueued (replaceNth i (Settled r) (pool_slots pool)) w)
      as [[w' slots'] |]; cbn [fst snd pool_slots].
    + destruct Hq as (H1 & credits' & Hp2 & Hsum2).
      split; [exact H1|].
      exists credits'. split; [exact Hp2 | lia].
    + split; [apply countedUp_refl, Hw|].
      exists (replaceNth i credit' credits). split; [exact Hp' | lia].
  - cbn [fst snd pool_slots]. split; [apply countedUp_refl, Hw|].
    exists (replaceNth i credit' credits). split; [exact Hp' | lia].
Qed.

Lemma stepPool_counts : forall concurrency i pool credits w,
  poolCounts c cap len (pool_slots pool) credits ->
  counters w c <= cap ->
  countedUp c cap w (fst (stepPool concurrency i pool w))
  /\ exists credits',
       poolCounts c cap len
         (pool_slots (snd (stepPool concurrency i pool w))) credits'
       /\ list_sum credits'
          = list_sum credits
            + (counters (fst (stepPool concurrency i pool w)) c - counters w c).
Proof.
  intros conc i pool credits w Hp Hw. unfold stepPool.
  assert (Hsame : countedUp c cap w w
                  /\ exists credits',
                       poolCounts c cap len (pool_slots pool) credits'
                       /\ list_sum credits'
                          = list_sum credits + (counters w c - counters w c)).
  { split; [apply countedUp_refl, Hw|].
    exists credits. split; [exact Hp | lia]. }
  destruct (nth_error (pool_slots pool) i) as [slot |] eqn:E; [|exact Hsame].
  destruct (poolCounts_nth _ _ _ _ Hp E) as (credit & Hcr & Hs).
  destruct slot as [fn | call | r]; [exact Hsame | | exact Hsame].
  cbn [slotCounts] in Hs.
  destruct call as [r | effect next | k].
  - pose proof (Hs w Hw) as Hr. cbn [counting] in Hr. destruct Hr as [_ Hr].
    destruct (release_counts conc i r pool credits credit credit w Hp Hcr Hr Hw)
      as (H1 & credits' & Hp' & Hsum).
    split; [exact H1|].
    exists credits'. split; [exact Hp' | lia].
  - destruct (resume_counts (Sync effect next) credit w Hw Hs) as (H1 & H3).
    destruct (resume (Sync effect next) w) as [w1 call']. cbn [fst snd] in *.
    destruct (poolCounts_replace _ _ i credit (Running call')
                (credit + (counters w1 c - counters w c)) Hp Hcr H3)
      as [Hp' Hsum].
    split; [exact H1|].
    exists (replaceNth i (credit + (counters w1 c - counters w c)) credits).
    split; [exact Hp' | lia].
  - destruct (resume_counts (Await k) credit w Hw Hs) as (H1 & H3).
    destruct (resume (Await k) w) as [w1 call']. cbn [fst snd] in *.
    destruct (poolCounts_replace _ _ i credit (Running call')
                (credit + (counters w1 c - counters w c)) Hp Hcr H3)
      as [Hp' Hsum].
    split; [exact H1|].
    exists (replaceNth i (credit + (counters w1 c - counters w c)) credits).
    split; [exact Hp' | lia].
Qed.

Lemma outcomeOfAll_counts : forall (slots : list (Slot B)) credits bs,
  poolCounts c cap len slots credits ->
  outcomeOfAll slots = Some (Returned bs) ->
  lenAll len bs <= list_sum credits.
Proof.
  intros slots credits bs H. revert bs.
  induction H as [|slot cr slots credits Hs Hall IH]; intros bs E;
    cbn [outcomeOfAll] in E.
  - inversion E; subst. unfold lenAll. cbn [map]. sum_cons. lia.
  - destruct slot as [fn | call | [b | e |]]; try discriminate.
    + destruct (outcomeOfAll slots) as [[bs' | e |] |]; discriminate.
    + destruct (outcomeOfAll slots) as [[bs' | e |] |]; discriminate.
    + destruct (outcomeOfAll slots) as [[bs' | e |] |]; try discriminate.
      inversion E; subst. specialize (IH bs' eq_refl).
      cbn [slotCounts] in Hs. specialize (Hs b eq_refl).
      unfold lenAll in *. cbn [map]. sum_cons. lia.
Qed.

Lemma firstRunning_nth : forall (slots : list (Slot B)) j i call,
  firstRunning slots j = Some (i, call) ->
  exists i', i = j + i' /\ nth_error slots i' = Some (Running call).
Proof.
  induction slots as [|slot slots IH]; intros j i call E; cbn [firstRunning] in E;
    [discriminate|].
  destruct slot as [fn | call' | r].
  - destruct (IH _ _ _ E) as (i' & -> & Hn). exists (S i'). split; [lia|exact Hn].
  - inversion E; subst. exists 0. split; [lia | reflexivity].
  - destruct (IH _ _ _ E) as (i' & -> & Hn). exists (S i'). split; [lia|exact Hn].
Qed.

(** *** The pool of a root, seen from the call that awaits it *)

Lemma owns_settled : forall (slots : list (Slot B)) credits base r w,
  poolCounts c cap len slots credits ->
  outcomeOfAll slots = Some r ->
  counters w c = base + list_sum credits ->
  counters w c <= cap ->
  allCounted c cap len base r w.
Proof.
  intros slots credits base r w Hp E Hw Hcap. split; [exact Hcap|].
  intros bs ->. pose proof (outcomeOfAll_counts _ _ _ Hp E). lia.
Qed.

Lemma finishThen_owns : forall C (call : Async B)
    (k : Outcome B -> Async C) credit base w (Q : Outcome C -> World -> Prop),
  counters w c <= cap ->
  counters w c = base + credit ->
  counting c cap call credit w (countedOwn len 0) ->
  (forall r credit' w',
     counters w' c <= cap -> counters w' c = base + credit' ->
     (forall b, r = Returned b -> len b <= credit') ->
     owns c (k r) w' Q) ->
  owns c (finishThen call k) w Q.
Proof.
  intros C call k. induction call as [r | effect next IH | call IH];
    intros credit base w Q Hw Hbase H Hk; cbn [counting owns finishThen] in *.
  - destruct H as [_ H]. eapply Hk; [exact Hw | exact Hbase | exact H].
  - destruct H as ((H1 & H2 & H3) & H4). split; [exact H3|].
    eapply (IH w (credit + (counters (effect w) c - counters w c)) base);
      [exact H2 | lia | exact H4 | exact Hk].
  - intros w' Hw'. eapply (IH credit base);
      [ rewrite Hw'; exact Hw | rewrite Hw'; exact Hbase
      | apply H; rewrite Hw'; exact Hw | exact Hk ].
Qed.

Lemma drainPool_owns : forall concurrency fuel pool credits base w,
  poolCounts c cap len (pool_slots pool) credits ->
  counters w c = base + list_sum credits ->
  counters w c <= cap ->
  owns c (drainPool concurrency fuel pool) w (allCounted c cap len base).
Proof.
  intros conc. induction fuel as [|fuel IH]; intros pool credits base w Hp Hw Hcap;
    cbn [drainPool].
  - destruct (outcomeOfAll (pool_slots pool)) as [r |] eqn:E.
    + cbn [owns]. intros w' Hw'.
      eapply owns_settled; [exact Hp | exact E | lia | lia].
    + cbn [owns]. split; [exact Hcap | intros bs Hbs; discriminate Hbs].
  - destruct (outcomeOfAll (pool_slots pool)) as [r |] eqn:E.
    + cbn [owns]. intros w' Hw'.
      eapply owns_settled; [exact Hp | exact E | lia | lia].
    + destruct (firstRunning (pool_slots pool) 0) as [[i call] |] eqn:Ef.
      2:{ cbn [owns]. split; [exact Hcap | intros bs Hbs; discriminate Hbs]. }
      destruct (firstRunning_nth _ _ _ _ Ef) as (i' & Hi & Hn).
      cbn [Nat.add] in Hi. subst i'.
      destruct (poolCounts_nth _ _ _ _ Hp Hn) as (credit & Hcr & Hs).
      cbn [slotCounts] in Hs.
      destruct (poolCounts_replace _ _ i credit (Settled (@OutOfFuel B)) 0
                  Hp Hcr ltac:(intros b Hb; discriminate Hb)) as [_ Hle].
      apply (finishThen_owns _ call _ credit
               (base + (list_sum credits - credit)) w);
        [exact Hcap | lia | apply Hs; exact Hcap |].
      intros r credit' w1 Hcap1 Hw1 Hr. cbn [owns]. intros w2 Hw2.
      destruct (release_counts conc i r pool credits credit credit' w2 Hp Hcr Hr
                  ltac:(lia)) as (H1 & credits' & Hp' & Hsum).
      split; [apply H1|].
      apply (IH _ credits' base); [exact Hp' | | apply H1].
      destruct H1 as (? & ? & ?). lia.
Qed.

Lemma awaitAll_owns : forall concurrency schedule pool credits base w,
  poolCounts c cap len (pool_slots pool) credits ->
  counters w c = base + list_sum credits ->
  counters w c <= cap ->
  owns c (awaitAll concurrency schedule pool) w (allCounted c cap len base).
Proof.
  intros conc. induction schedule as [|i rest IH];
    intros pool credits base w Hp Hw Hcap; cbn [awaitAll].
  - destruct (outcomeOfAll (pool_slots pool)) as [r |] eqn:E.
    + cbn [owns]. intros w' Hw'.
      eapply owns_settled; [exact Hp | exact E | lia | lia].
    + eapply drainPool_owns; eassumption.
  - destruct (outcomeOfAll (pool_slots pool)) as [r |] eqn:E.
    + cbn [owns]. intros w' Hw'.
      eapply owns_settled; [exact Hp | exact E | lia | lia].
    + cbn [owns]. intros w' Hw'.
      destruct (stepPool_counts conc i pool credits w' Hp ltac:(lia))
        as (H1 & credits' & Hp' & Hsum).
      split; [apply H1|].
      apply (IH _ credits' base); [exact Hp' | | apply H1].
      destruct H1 as (? & ? & ?). lia.
Qed.

(** [await Promise.all(uris.map(...))] of one root: the counter has gone up
    by at least the number of files that come back. *)
Lemma promiseAll_owns : forall concurrency schedule (tasks : list (Async B)) w,
  (forall fn, In fn tasks ->
     forall w', counters w' c <= cap ->
                counting c cap fn 0 w' (countedOwn len 0)) ->
  counters w c <= cap ->
  owns c (promiseAll concurrency schedule tasks) w (allCounted c cap len (counters w c)).
Proof.
  intros conc schedule tasks w Htasks Hcap. unfold promiseAll. cbn [owns].
  destruct (submitAll_counts conc tasks 0 w Htasks Hcap)
    as (H1 & credits & Hp & Hsum).
  split; [apply H1|].
  apply (awaitAll_owns _ _ _ credits); [exact Hp | | apply H1].
  destruct H1 as (? & ? & ?). lia.
Qed.

End CountsPool.

(** *** A call that has a counter to itself *)

Lemma onlyCounter_refl : forall c w, onlyCounter c w w.
Proof. intros c w c' _. reflexivity. Qed.

Section OwnsRules.
Variable c : nat.

Lemma owns_weaken : forall A (m : Async A) w (Q Q' : Outcome A -> World -> Prop),
  owns c m w Q -> (forall r w', Q r w' -> Q' r w') -> owns c m w Q'.
Proof.
  intros A m. induction m as [r | effect next IH | k IH]; intros w Q Q' H HQ;
    cbn [owns] in *.
  - now apply HQ.
  - destruct H as (H1 & H2). split; [exact H1|]. eapply IH; eassumption.
  - intros w' Hw'. eapply IH; [apply H; exact Hw' | exact HQ].
Qed.

Lemma owns_bindA : forall A B (m : Async A) (k : A -> Async B) w
    (Q : Outcome B -> World -> Prop),
  owns c m w
    (fun r w' =>
       match r with
       | Returned a => owns c (k a) w' Q
       | Threw e => Q (Threw e) w'
       | OutOfFuel => Q OutOfFuel w'
       end) ->
  owns c (bindA m k) w Q.
Proof.
  intros A B m k. induction m as [r | effect next IH | m IH]; intros w Q H;
    cbn [owns bindA] in *.
  - destruct r; exact H.
  - destruct H as (H1 & H2). split; [exact H1|]. apply IH, H2.
  - intros w' Hw'. apply IH, H, Hw'.
Qed.

Lemma owns_tryCatchA : forall A (body : Async A) handler w
    (Q : Outcome A -> World -> Prop),
  owns c body w
    (fun r w' =>
       match r with
       | Returned a => Q (Returned a) w'
       | Threw e => owns c (handler e) w' Q
       | OutOfFuel => Q OutOfFuel w'
       end) ->
  owns c (tryCatchA body handler) w Q.
Proof.
  intros A body handler.
  induction body as [r | effect next IH | body IH]; intros w Q H;
    cbn [owns tryCatchA] in *.
  - destruct r; exact H.
  - destruct H as (H1 & H2). split; [exact H1|]. apply IH, H2.
  - intros w' Hw'. apply IH, H, Hw'.
Qed.

Lemma owns_awaitCall : forall A (call : Async A) w
    (Q : Outcome A -> World -> Prop),
  owns c call w
    (fun r w1 => forall w', counters w' c = counters w1 c -> Q r w') ->
  owns c (awaitCall call) w Q.
Proof.
  intros A call. induction call as [r | effect next IH | call IH];
    intros w Q H; cbn [owns awaitCall] in *.
  - exact H.
  - destruct H as (H1 & H2). split; [exact H1|]. apply IH, H2.
  - intros w' Hw'. apply IH, H, Hw'.
Qed.

Lemma owns_sync : forall A (m : Eff A) w (Q : Outcome A -> World -> Prop),
  holdsAfter m w (fun w' r => onlyCounter c w w' /\ Q r w') ->
  owns c (sync m) w Q.
Proof. intros A m w Q H. exact H. Qed.

Lemma owns_await : forall A (promise : Eff A) w
    (Q : Outcome A -> World -> Prop),
  holdsAfter promise w
    (fun w1 r =>
       onlyCounter c w w1
       /\ forall w', counters w' c = counters w1 c -> Q r w') ->
  owns c (await promise) w Q.
Proof. intros A promise w Q H. exact H. Qed.

Lemma owns_retA : forall A (a : A) w (Q : Outcome A -> World -> Prop),
  Q (Returned a) w -> owns c (retA a) w Q.
Proof. intros A a w Q H. exact H. Qed.

End OwnsRules.

Ltac owns_step :=
  lazymatch goal with
  | |- owns _ (bindA _ _) _ _ => apply owns_bindA
  | |- owns _ (tryCatchA _ _) _ _ => apply owns_tryCatchA
  | |- owns _ (awaitCall _) _ _ => apply owns_awaitCall
  | |- owns _ (sync _) _ _ => apply owns_sync
  | |- owns _ (await _) _ _ => apply owns_await
  | |- owns _ (retA _) _ _ => apply owns_retA
  | |- owns _ (throwA _) _ _ => unfold throwA; cbn [owns]
  | |- owns _ (Finished _) _ _ => cbn [owns]
  | |- owns _ (if ?b then _ else _) _ _ => destruct b eqn:?
  | |- owns _ (match ?x with _ => _ end) _ _ => destruct x eqn:?
  | |- holdsAfter (newCounter _) _ _ => apply after_newCounter
  | |- holdsAfter _ _ _ => eff_step
  | |- onlyCounter _ _ _ /\ (forall w', _ = _ -> _) =>
      split; [others_kept | intros ? ?]
  | |- onlyCounter _ _ _ /\ _ => split; [others_kept |]
  | |- (if ?b then _ else _) => destruct b eqn:?
  | |- match ?x with _ => _ end => destruct x eqn:?
  end; cbv beta match.

Ltac owns_steps := repeat owns_step.

(** [getIgnoreParser] touches no counter. *)
Lemma getIgnoreParserAsync_owns : forall c fs decode root w,
  owns c (getIgnoreParserAsync fs decode root) w (fun _ _ => True).
Proof.
  intros c fs decode root w. unfold getIgnoreParserAsync. cbv zeta.
  owns_steps. all: exact Logic.I.
Qed.

Lemma length_concat_lenAll : forall (bss : list (list Uri)),
  length (concat bss) = lenAll (@length Uri) bss.
Proof.
  induction bss as [|bs bss IH]; cbn [concat]; [reflexivity|].
  rewrite length_app, IH. reflexivity.
Qed.

(** The callback of one root returns at most [MAX_COLLECTED_FILES] files
    whenever the other calls leave its counter alone. *)
Lemma collectRoot_owns :
  forall fuel fs wb includeIgnoredFiles signal schedules i group w,
    owns i
      (collectRoot fuel fs wb includeIgnoredFiles signal schedules (i, group)) w
      (fun r _ => withinCap (MAX_COLLECTED_FILES wb) r).
Proof.
  intros fuel fs wb incl signal schedules i group w.
  unfold collectRoot. cbn [fst snd].
  assert (Hfail : forall e, withinCap (MAX_COLLECTED_FILES wb) (Threw e))
    by (intros e files E; discriminate E).
  assert (Hfuel : withinCap (MAX_COLLECTED_FILES wb) OutOfFuel)
    by (intros files E; discriminate E).
  apply owns_bindA.
  assert (Hrest : forall ignoreParser w1,
            owns i
              (capCounter <- sync (newCounter i) ;;
               nestedArrays <- promiseAll None (schedules i)
                                 (map (collectSelection fuel fs
                                         (wb_ignores wb ignoreParser)
                                         (fst group) signal
                                         (MAX_COLLECTED_FILES wb) capCounter)
                                    (snd group)) ;;
               count <- sync (readCount capCounter) ;;
               (if (MAX_COLLECTED_FILES wb <=? count)%nat
                then sync (emit (Console (WarnCapped (MAX_COLLECTED_FILES wb)
                                            (fst group))))
                else retA tt) ;;;
               retA (concat nestedArrays))%async w1
              (fun r _ => withinCap (MAX_COLLECTED_FILES wb) r)).
  { intros ignoreParser w1.
    apply owns_bindA, owns_sync, after_newCounter.
    split; [others_kept|]. apply owns_bindA.
    eapply owns_weaken.
    - apply (promiseAll_owns i (MAX_COLLECTED_FILES wb) (list Uri)
               (@length Uri)).
      + intros fn Hin w' Hw'. apply in_map_iff in Hin.
        destruct Hin as (uri & <- & _).
        apply collectSelection_counts. exact Hw'.
      + world_fields. rewrite Nat.eqb_refl. apply Nat.le_0_l.
    - cbv beta. intros r w2 [Hcap Hall].
      destruct r as [nestedArrays | e |]; [| apply Hfail | apply Hfuel].
      specialize (Hall nestedArrays eq_refl).
      world_fields. rewrite Nat.eqb_refl in Hall. cbn [Nat.add] in Hall.
      owns_steps.
      all: intros files E; inversion E; subst files;
        rewrite length_concat_lenAll; lia. }
  destruct incl.
  - apply owns_bindA, owns_sync. eff_step. split; [others_kept|].
    cbv beta match. apply owns_retA. apply Hrest.
  - apply owns_awaitCall.
    eapply owns_weaken; [apply getIgnoreParserAsync_owns|].
    cbv beta. intros r w1 _ w2 _.
    destruct r as [ignoreParser | e |]; [apply Hrest | apply Hfail | apply Hfuel].
Qed.

(** *** The pool of the roots: every task has its own counter *)

Lemma runAlone_finishThen : forall B C (call : Async B)
    (k : Outcome B -> Async C) w,
  runAlone (finishThen call k) w
  = runAlone (k (snd (runAlone call w))) (fst (runAlone call w)).
Proof.
  intros B C call k. induction call as [r | effect next IH | call IH]; intro w;
    cbn [finishThen runAlone fst snd].
  - reflexivity.
  - apply IH.
  - apply IH.
Qed.

Lemma length_replaceNth : forall X i (x : X) xs,
  length (replaceNth i x xs) = length xs.
Proof.
  intros X i x xs. revert i.
  induction xs as [|y xs IH]; intros [|i]; cbn [replaceNth length];
    try reflexivity.
  now rewrite IH.
Qed.

Lemma length_startQueued : forall B (slots : list (Slot B)) w w' slots',
  startQueued slots w = Some (w', slots') -> length slots' = length slots.
Proof.
  intros B. induction slots as [|slot slots IH]; intros w w' slots' E;
    cbn [startQueued] in E; [discriminate|].
  destruct slot as [fn | call | r].
  - destruct (upToAwait fn w) as [w1 call]. inversion E; subst. reflexivity.
  - destruct (startQueued slots w) as [[w1 rest'] |] eqn:Er; [|discriminate].
    inversion E; subst. cbn [length]. f_equal. eapply IH, Er.
  - destruct (startQueued slots w) as [[w1 rest'] |] eqn:Er; [|discriminate].
    inversion E; subst. cbn [length]. f_equal. eapply IH, Er.
Qed.

Lemma length_release : forall B concurrency i (r : Outcome B) pool w,
  length (pool_slots (snd (release concurrency i r pool w)))
  = length (pool_slots pool).
Proof.
  intros B conc i r pool w. unfold release.
  destruct (slotFree conc (pred (pool_running pool))).
  - destruct (startQueued (replaceNth i (Settled r) (pool_slots pool)) w)
      as [[w' slots'] |] eqn:E; cbn [snd pool_slots].
    + rewrite (length_startQueued _ _ _ _ _ E). apply length_replaceNth.
    + apply length_replaceNth.
  - cbn [snd pool_slots]. apply length_replaceNth.
Qed.

Lemma length_stepPool : forall B concurrency i (pool : Pool B) w,
  length (pool_slots (snd (stepPool concurrency i pool w)))
  = length (pool_slots pool).
Proof.
  intros B conc i pool w. unfold stepPool.
  destruct (nth_error (pool_slots pool) i) as [[fn | call | r] |];
    try reflexivity.
  destruct call as [r | effect next | k].
  - apply length_release.
  - destruct (resume (Sync effect next) w) as [w' call'].
    cbn [snd pool_slots]. apply length_replaceNth.
  - destruct (resume (Await k) w) as [w' call'].
    cbn [snd pool_slots]. apply length_replaceNth.
Qed.

Lemma length_submitAll : forall B concurrency (tasks : list (Async B)) running w,
  length (pool_slots (snd (submitAll concurrency tasks running w)))
  = length tasks.
Proof.
  intros B conc. induction tasks as [|fn tasks IH]; intros running w;
    cbn [submitAll]; [reflexivity|].
  destruct (slotFree conc running).
  - destruct (upToAwait fn w) as [w1 call].
    specialize (IH (S running) w1).
    destruct (submitAll conc tasks (S running) w1) as [w2 pool].
    cbn [snd pool_slots length] in *. now rewrite IH.
  - specialize (IH running w).
    destruct (submitAll conc tasks running w) as [w2 pool].
    cbn [snd pool_slots length] in *. now rewrite IH.
Qed.

Section OwnsPool.
Variables (B : Type) (Q : Outcome B -> Prop).

Lemma owns_upToAwait : forall c (m : Async B) w,
  owns c m w (fun r _ => Q r) ->
  onlyCounter c w (fst (upToAwait m w))
  /\ forall w', counters w' c = counters (fst (upToAwait m w)) c ->
                owns c (snd (upToAwait m w)) w' (fun r _ => Q r).
Proof.
  intros c. induction m as [r | effect next IH | k IH]; intros w H;
    cbn [owns upToAwait fst snd] in *.
  - split; [apply onlyCounter_refl|]. intros w' _. exact H.
  - destruct H as (H1 & H2). destruct (IH w (effect w) H2) as (H3 & H4).
    split; [eapply onlyCounter_trans; eassumption | exact H4].
  - split; [apply onlyCounter_refl|]. intros w' Hw' w2 Hw2.
    apply H. now rewrite Hw2.
Qed.

Lemma owns_resume : forall c (m : Async B) w,
  (forall w', counters w' c = counters w c -> owns c m w' (fun r _ => Q r)) ->
  onlyCounter c w (fst (resume m w))
  /\ forall w', counters w' c = counters (fst (resume m w)) c ->
                owns c (snd (resume m w)) w' (fun r _ => Q r).
Proof.
  intros c m w H. destruct m as [r | effect next | k]; cbn [resume].
  - apply owns_upToAwait, H. reflexivity.
  - apply owns_upToAwait, H. reflexivity.
  - apply owns_upToAwait. exact (H w eq_refl w eq_refl).
Qed.

Lemma owns_runAlone : forall c (m : Async B) w,
  owns c m w (fun r _ => Q r) ->
  onlyCounter c w (fst (runAlone m w)) /\ Q (snd (runAlone m w)).
Proof.
  intros c. induction m as [r | effect next IH | k IH]; intros w H;
    cbn [owns runAlone fst snd] in *.
  - split; [apply onlyCounter_refl | exact H].
  - destruct H as (H1 & H2). destruct (IH w (effect w) H2) as (H3 & H4).
    split; [eapply onlyCounter_trans; eassumption | exact H4].
  - apply IH, H. reflexivity.
Qed.

Lemma slotOwns_kept : forall c (slot : Slot B) w w',
  slotOwns Q c slot w -> counters w' c = counters w c -> slotOwns Q c slot w'.
Proof.
  intros c [fn | call | r] w w' H Hc; cbn [slotOwns] in *.
  - exact H.
  - intros w2 Hw2. apply H. now rewrite Hw2.
  - exact H.
Qed.

Lemma poolOwns_kept : forall (slots : list (Slot B)) c w w',
  poolOwns Q c slots w ->
  (forall c', c <= c' -> counters w' c' = counters w c') ->
  poolOwns Q c slots w'.
Proof.
  induction slots as [|slot slots IH]; intros c w w' H Hk; cbn [poolOwns] in *;
    [exact Logic.I|].
  destruct H as [Hs Hrest]. split.
  - eapply slotOwns_kept; [exact Hs | apply Hk, Nat.le_refl].
  - eapply IH; [exact Hrest|]. intros c' Hc'. apply Hk. lia.
Qed.

Lemma poolOwns_nth : forall (slots : list (Slot B)) c i slot w,
  poolOwns Q c slots w -> nth_error slots i = Some slot ->
  slotOwns Q (c + i) slot w.
Proof.
  induction slots as [|s slots IH]; intros c [|i] slot w H E; cbn in E;
    try discriminate; cbn [poolOwns] in H; destruct H as [Hs Hrest].
  - inversion E; subst. now rewrite Nat.add_0_r.
  - rewrite Nat.add_succ_r. apply (IH (S c) i slot w Hrest E).
Qed.

Lemma poolOwns_replace : forall (slots : list (Slot B)) c i slot' w w',
  poolOwns Q c slots w ->
  onlyCounter (c + i) w w' ->
  slotOwns Q (c + i) slot' w' ->
  poolOwns Q c (replaceNth i slot' slots) w'.
Proof.
  induction slots as [|s slots IH]; intros c [|i] slot' w w' H Hk Hs';
    cbn [replaceNth poolOwns] in *; try exact Logic.I;
    destruct H as [Hs Hrest].
  - rewrite Nat.add_0_r in *. split; [exact Hs'|].
    eapply poolOwns_kept; [exact Hrest|]. intros c' Hc'. apply Hk. lia.
  - split.
    + eapply slotOwns_kept; [exact Hs|]. apply Hk. lia.
    + rewrite Nat.add_succ_r in *. eapply (IH (S c) i); eassumption.
Qed.

Lemma startQueued_owns : forall (slots : list (Slot B)) c w,
  poolOwns Q c slots w ->
  match startQueued slots w with
  | Some (w', slots') => belowKept c w w' /\ poolOwns Q c slots' w'
  | None => True
  end.
Proof.
  induction slots as [|slot slots IH]; intros c w H; cbn [startQueued];
    [exact Logic.I|].
  cbn [poolOwns] in H. destruct H as [Hs Hrest].
  destruct slot as [fn | call | r].
  - cbn [slotOwns] in Hs. destruct (owns_upToAwait c fn w (Hs w)) as (H1 & H2).
    destruct (upToAwait fn w) as [w1 call]. cbn [fst snd] in *.
    split; [intros c' Hc'; apply H1; lia|]. cbn [poolOwns]. split.
    + exact H2.
    + eapply poolOwns_kept; [exact Hrest|]. intros c' Hc'. apply H1. lia.
  - specialize (IH (S c) w Hrest).
    destruct (startQueued slots w) as [[w' slots'] |]; [|exact Logic.I].
    destruct IH as [Hb Hp]. split; [intros c' Hc'; apply Hb; lia|].
    cbn [poolOwns]. split; [|exact Hp].
    eapply slotOwns_kept; [exact Hs|]. apply Hb. lia.
  - specialize (IH (S c) w Hrest).
    destruct (startQueued slots w) as [[w' slots'] |]; [|exact Logic.I].
    destruct IH as [Hb Hp]. split; [intros c' Hc'; apply Hb; lia|].
    cbn [poolOwns]. split; [|exact Hp].
    eapply slotOwns_kept; [exact Hs|]. apply Hb. lia.
Qed.

Lemma release_owns : forall concurrency i (r : Outcome B) pool w,
  poolOwns Q 0 (replaceNth i (Settled r) (pool_slots pool)) w ->
  poolOwns Q 0 (pool_slots (snd (release concurrency i r pool w)))
    (fst (release concurrency i r pool w)).
Proof.
  intros conc i r pool w H. unfold release.
  pose proof (startQueued_owns _ 0 w H) as Hq.
  destruct (slotFree conc (pred (pool_running pool))).
  - destruct (startQueued (replaceNth i (Settled r) (pool_slots pool)) w)
      as [[w' slots'] |]; cbn [fst snd pool_slots].
    + apply Hq.
    + exact H.
  - exact H.
Qed.

Lemma stepPool_owns : forall concurrency i pool w,
  poolOwns Q 0 (pool_slots pool) w ->
  poolOwns Q 0 (pool_slots (snd (stepPool concurrency i pool w)))
    (fst (stepPool concurrency i pool w)).
Proof.
  intros conc i pool w H. unfold stepPool.
  destruct (nth_error (pool_slots pool) i) as [slot |] eqn:E; [|exact H].
  pose proof (poolOwns_nth _ 0 i slot w H E) as Hs. cbn [Nat.add] in Hs.
  destruct slot as [fn | call | r]; [exact H | | exact H].
  cbn [slotOwns] in Hs. destruct call as [r | effect next | k].
  - apply release_owns.
    apply (poolOwns_replace _ 0 i (Settled r) w w H (onlyCounter_refl _ _)).
    cbn [slotOwns]. exact (Hs w eq_refl).
  - destruct (owns_resume i (Sync effect next) w Hs) as (H1 & H2).
    destruct (resume (Sync effect next) w) as [w1 call']. cbn [fst snd] in *.
    apply (poolOwns_replace _ 0 i (Running call') w w1 H H1). exact H2.
  - destruct (owns_resume i (Await k) w Hs) as (H1 & H2).
    destruct (resume (Await k) w) as [w1 call']. cbn [fst snd] in *.
    apply (poolOwns_replace _ 0 i (Running call') w w1 H H1). exact H2.
Qed.

Lemma submitAll_owns : forall concurrency (tasks : list (Async B)) c running w,
  tasksOwn Q c tasks ->
  belowKept c w (fst (submitAll concurrency tasks running w))
  /\ poolOwns Q c (pool_slots (snd (submitAll concurrency tasks running w)))
       (fst (submitAll concurrency tasks running w)).
Proof.
  intros conc. induction tasks as [|fn tasks IH]; intros c running w H;
    cbn [submitAll].
  - cbn [fst snd pool_slots poolOwns]. split; [|exact Logic.I].
    intros c' _. reflexivity.
  - cbn [tasksOwn] in H. destruct H as [Hfn Hrest].
    destruct (slotFree conc running).
    + destruct (owns_upToAwait c fn w (Hfn w)) as (H1 & H2).
      destruct (upToAwait fn w) as [w1 call]. cbn [fst snd] in *.
      specialize (IH (S c) (S running) w1 Hrest).
      destruct (submitAll conc tasks (S running) w1) as [w2 pool].
      cbn [fst snd pool_slots poolOwns] in *. destruct IH as [Hb Hp].
      split; [|split; [|exact Hp]].
      * intros c' Hc'. rewrite Hb by lia. apply H1. lia.
      * intros w' Hw'. apply H2. rewrite Hw'. apply Hb. lia.
    + specialize (IH (S c) running w Hrest).
      destruct (submitAll conc tasks running w) as [w2 pool].
      cbn [fst snd pool_slots poolOwns] in *. destruct IH as [Hb Hp].
      split; [|split; [|exact Hp]].
      * intros c' Hc'. apply Hb. lia.
      * cbn [slotOwns]. exact Hfn.
Qed.

Lemma outcomeOfAll_owns : forall (slots : list (Slot B)) c w bs,
  poolOwns Q c slots w ->
  outcomeOfAll slots = Some (Returned bs) ->
  Forall (fun b => Q (Returned b)) bs /\ length bs = length slots.
Proof.
  induction slots as [|slot slots IH]; intros c w bs H E;
    cbn [outcomeOfAll] in E.
  - inversion E; subst. split; [constructor | reflexivity].
  - cbn [poolOwns] in H. destruct H as [Hs Hrest].
    destruct slot as [fn | call | [b | e |]]; try discriminate.
    + destruct (outcomeOfAll slots) as [[bs' | e |] |]; discriminate.
    + destruct (outcomeOfAll slots) as [[bs' | e |] |]; discriminate.
    + destruct (outcomeOfAll slots) as [[bs' | e |] |]; try discriminate.
      inversion E; subst. destruct (IH (S c) w bs' Hrest eq_refl) as [Hall Hlen].
      split; [constructor; [exact Hs | exact Hall] | cbn [length]; now rewrite Hlen].
Qed.

Lemma drainPool_alone : forall concurrency fuel pool w bs,
  poolOwns Q 0 (pool_slots pool) w ->
  snd (runAlone (drainPool concurrency fuel pool) w) = Returned bs ->
  Forall (fun b => Q (Returned b)) bs /\ length bs = length (pool_slots pool).
Proof.
  intros conc. induction fuel as [|fuel IH]; intros pool w bs H E;
    cbn [drainPool] in E.
  - destruct (outcomeOfAll (pool_slots pool)) as [r |] eqn:Eo;
      cbn [runAlone snd] in E; [|discriminate].
    subst r. eapply outcomeOfAll_owns; eassumption.
  - destruct (outcomeOfAll (pool_slots pool)) as [r |] eqn:Eo.
    + cbn [runAlone snd] in E. subst r. eapply outcomeOfAll_owns; eassumption.
    + destruct (firstRunning (pool_slots pool) 0) as [[i call] |] eqn:Ef;
        [|cbn [runAlone snd] in E; discriminate].
      destruct (firstRunning_nth _ _ _ _ _ Ef) as (i' & Hi & Hn).
      cbn [Nat.add] in Hi. subst i'.
      pose proof (poolOwns_nth _ 0 i _ w H Hn) as Hs.
      cbn [Nat.add slotOwns] in Hs.
      destruct (owns_runAlone i call w (Hs w eq_refl)) as (H1 & H2).
      rewrite runAlone_finishThen in E. cbn [runAlone] in E.
      rewrite <- (length_release _ conc i (snd (runAlone call w)) pool
                    (fst (runAlone call w))).
      eapply IH; [|exact E].
      apply release_owns.
      apply (poolOwns_replace _ 0 i _ w _ H H1). exact H2.
Qed.

Lemma awaitAll_alone : forall concurrency schedule pool w bs,
  poolOwns Q 0 (pool_slots pool) w ->
  snd (runAlone (awaitAll concurrency schedule pool) w) = Returned bs ->
  Forall (fun b => Q (Returned b)) bs /\ length bs = length (pool_slots pool).
Proof.
  intros conc. induction schedule as [|i rest IH]; intros pool w bs H E;
    cbn [awaitAll] in E.
  - destruct (outcomeOfAll (pool_slots pool)) as [r |] eqn:Eo.
    + cbn [runAlone snd] in E. subst r. eapply outcomeOfAll_owns; eassumption.
    + eapply drainPool_alone; eassumption.
  - destruct (outcomeOfAll (pool_slots pool)) as [r |] eqn:Eo.
    + cbn [runAlone snd] in E. subst r. eapply outcomeOfAll_owns; eassumption.
    + cbn [runAlone] in E.
      rewrite <- (length_stepPool _ conc i pool w).
      eapply IH; [|exact E]. apply stepPool_owns, H.
Qed.

(** [await Promise.all] over tasks that each have a counter to themselves,
    with no other call in flight. *)
Lemma promiseAll_alone : forall concurrency schedule (tasks : list (Async B)) w bs,
  tasksOwn Q 0 tasks ->
  snd (runAlone (promiseAll concurrency schedule tasks) w) = Returned bs ->
  Forall (fun b => Q (Returned b)) bs /\ length bs = length tasks.
Proof.
  intros conc schedule tasks w bs H E. unfold promiseAll in E.
  cbn [runAlone] in E.
  rewrite <- (length_submitAll _ conc tasks 0 w).
  eapply awaitAll_alone; [|exact E].
  apply submitAll_owns, H.
Qed.

End OwnsPool.

Lemma collectRoot_tasksOwn :
  forall fuel fs wb includeIgnoredFiles signal schedules
         (groups : list (Uri * list Uri)) c,
    tasksOwn (withinCap (MAX_COLLECTED_FILES wb)) c
      (map (collectRoot fuel fs wb includeIgnoredFiles signal schedules)
         (combine (seq c (length groups)) groups)).
Proof.
  intros fuel fs wb incl signal schedules.
  induction groups as [|group groups IH]; intro c;
    cbn [length seq combine map tasksOwn]; [exact Logic.I|].
  split; [|apply IH]. intro w. apply collectRoot_owns.
Qed.

Lemma length_concat_within : forall cap (bss : list (list Uri)),
  Forall (fun bs => withinCap cap (Returned bs)) bss ->
  length (concat bss) <= cap * length bss.
Proof.
  intros cap bss H. induction H as [|bs bss Hbs Hall IH]; cbn [concat length].
  - lia.
  - rewrite length_app. specialize (Hbs bs eq_refl). lia.
Qed.

Lemma length_setAdd : forall key set, length (setAdd key set) <= S (length set).
Proof.
  intros key set. unfold setAdd. destruct (setHas key set).
  - lia.
  - rewrite length_app. cbn [length]. lia.
Qed.

Lemma length_setAddAll : forall keys set,
  length (setAddAll keys set) <= length keys + length set.
Proof.
  unfold setAddAll. induction keys as [|key keys IH]; intro set;
    cbn [fold_left length]; [lia|].
  specialize (IH (setAdd key set)). pose proof (length_setAdd key set). lia.
Qed.

Lemma runAlone_bindA_returned : forall A B (m : Async A) (k : A -> Async B)
    w b,
  snd (runAlone (bindA m k) w) = Returned b ->
  exists a, snd (runAlone m w) = Returned a
            /\ snd (runAlone (k a) (fst (runAlone m w))) = Returned b.
Proof.
  intros A B m k w b E. rewrite runAlone_bindA in E. unfold bind in E.
  destruct (runAlone m w) as [w1 [a | e |]]; cbn [fst snd] in *;
    try discriminate.
  exists a. split; [reflexivity | exact E].
Qed.

(** X29. The cap of [resolveSelectedFiles] is one cap for every workspace
    root: the selections of a root share the counter of the root, and
    whatever the order in which the host lets the roots and their
    selections go on, the call returns at most [MAX_COLLECTED_FILES] files
    for every root that has a selection. *)
Theorem resolveSelectedFiles_caps_every_root :
  forall fuel fs wb includeIgnoredFiles checkedPaths signal schedule schedules
         w files,
    snd (resolveSelectedFiles fuel fs wb includeIgnoredFiles checkedPaths signal
           schedule schedules w) = Returned files ->
    length files
    <= mapSize (groupByRoot wb checkedPaths) * MAX_COLLECTED_FILES wb.
Proof.
  intros fuel fs wb incl checkedPaths signal schedule schedules w files.
  unfold resolveSelectedFiles, resolveSelectedFilesAsync. cbv zeta.
  generalize (groupByRoot wb checkedPaths). intros byRoot E.
  apply runAlone_bindA_returned in E. destruct E as (u1 & _ & E).
  apply runAlone_bindA_returned in E. destruct E as (u2 & _ & E).
  apply runAlone_bindA_returned in E. destruct E as (u3 & _ & E).
  apply runAlone_bindA_returned in E. destruct E as (nestedPerRoot & Hall & E).
  cbn [retA runAlone snd] in E. inversion E; subst files.
  unfold indexed in Hall.
  destruct (promiseAll_alone _ (withinCap (MAX_COLLECTED_FILES wb)) _ _ _ _ _
              (collectRoot_tasksOwn fuel fs wb incl signal schedules byRoot 0)
              Hall) as [Hcaps Hlen].
  rewrite length_map, length_combine, length_seq, Nat.min_id in Hlen.
  pose proof (length_setAddAll (concat nestedPerRoot) []) as Hset.
  pose proof (length_concat_within _ _ Hcaps) as Hcat.
  cbn [length] in Hset. unfold mapSize. rewrite <- Hlen. lia.
Qed.

(** Two roots under a cap of two files: the three checked files of [p] give
    two, the folder [q] with its three files gives two, and the bound is
    reached. *)
Lemma resolveSelectedFiles_caps_every_root_witness :
  snd (resolveSelectedFiles 3 (staticFs twoRootTree) cappedWorkbench false
         fourSelections None (roundRobin 2 8) (fun _ => roundRobin 3 4)
         emptyWorld)
  = Returned [["p"; "a.txt"]; ["p"; "b.txt"]; ["q"; "d.txt"]; ["q"; "e.txt"]]%string
  /\ length [["p"; "a.txt"]; ["p"; "b.txt"]; ["q"; "d.txt"]; ["q"; "e.txt"]]%string
     <= mapSize (groupByRoot cappedWorkbench fourSelections)
        * MAX_COLLECTED_FILES cappedWorkbench.
Proof.
  split; [vm_compute; reflexivity|].
  apply (resolveSelectedFiles_caps_every_root 3 (staticFs twoRootTree)
           cappedWorkbench false fourSelections None (roundRobin 2 8)
           (fun _ => roundRobin 3 4) emptyWorld).
  vm_compute. reflexivity.
Defined.

Example resolveSelectedFiles_bound_of_two_roots :
  mapSize (groupByRoot cappedWorkbench fourSelections)
  * MAX_COLLECTED_FILES cappedWorkbench = 4.
Proof. vm_compute. reflexivity. Qed.

(** Which files of a capped root come back depends on the order in which the
    host lets its selections go on. *)
Example resolveSelectedFiles_cap_in_another_order :
  snd (resolveSelectedFiles 3 (staticFs twoRootTree) cappedWorkbench false
         fourSelections None [1; 0; 1; 0; 0; 1; 1] (fun _ => [2; 1; 0; 2; 1; 0])
         emptyWorld)
  = Returned [["p"; "b.txt"]; ["p"; "c.txt"]; ["q"; "d.txt"]; ["q"; "e.txt"]]%string.
Proof. vm_compute. reflexivity. Qed.

(** ** [getChildren] of the tree provider *)

Lemma visibleEntries_spec :
  forall showIgnored ig checkPath directory entries p visible,
    snd (visibleEntries showIgnored ig checkPath directory entries p visible)
    = visible
      ++ map (fun entry => joinPath directory (fst entry))
           (filter (fun entry =>
                      showIgnored
                      || negb (ig (checkPath (fst entry)
                                     (Nat.eqb (snd entry) FileType_Directory))))
                   entries)
    /\ childrenCache
         (fst (visibleEntries showIgnored ig checkPath directory entries p visible))
       = childrenCache p.
Proof.
  intros showIgnored ig checkPath directory.
  induction entries as [|[name type] entries IH]; intros p visible;
    cbn [visibleEntries filter map fst snd].
  - now rewrite app_nil_r.
  - destruct (showIgnored || negb (ig (checkPath name (Nat.eqb type FileType_Directory)))).
    + destruct (IH (mkProvider (mapSet Uri_eqb (joinPath directory name) type
                                  (kindCache p)) (childrenCache p))
                  (visible ++ [joinPath directory name])) as [H1 H2].
      rewrite H1, H2. cbn [map fst childrenCache]. now rewrite <- app_assoc.
    + apply IH.
Qed.

Lemma insertSorted_directories_first :
  forall (isDir : Uri -> bool) (other : Uri -> Uri -> comparison) uri sorted,
    (exists dirs rest,
        sorted = dirs ++ rest
        /\ Forall (fun u => isDir u = true) dirs
        /\ Forall (fun u => isDir u = false) rest) ->
    exists dirs rest,
      insertSorted
        (fun a b =>
           if isDir a && negb (isDir b) then Lt
           else if negb (isDir a) && isDir b then Gt
           else other a b) uri sorted
      = dirs ++ rest
      /\ Forall (fun u => isDir u = true) dirs
      /\ Forall (fun u => isDir u = false) rest.
Proof.
  intros isDir other uri sorted (dirs & rest & -> & Hd & Hr).
  induction dirs as [|d dirs IH].
  - cbn [app]. destruct (isDir uri) eqn:Hu.
    + destruct rest as [|r rest]; cbn [insertSorted].
      * exists [uri], []. repeat split; repeat constructor; assumption.
      * inversion Hr as [|? ? Hr1 Hr2]; subst. rewrite Hu, Hr1. cbn [negb andb].
        exists [uri], (r :: rest). repeat split; repeat constructor; assumption.
    + eexists [], _. split; [reflexivity|]. split; [constructor|].
      apply Forall_forall. intros u Hin.
      apply (Permutation_in _ (insertSorted_perm _ _ _ _)) in Hin.
      destruct Hin as [<- | Hin]; [exact Hu|].
      exact (proj1 (Forall_forall _ _) Hr u Hin).
  - inversion Hd as [|? ? Hd1 Hd2]; subst. cbn [app insertSorted].
    rewrite Hd1. cbn [negb andb]. rewrite andb_false_r, andb_true_r.
    destruct (isDir uri) eqn:Hu; cbn [negb].
    + destruct (other uri d).
      1, 2: exists (uri :: d :: dirs), rest;
        repeat split; repeat constructor; assumption.
      destruct (IH Hd2) as (dirs' & rest' & E & Hd' & Hr').
      exists (d :: dirs'), rest'. cbn [app].
      split; [f_equal; exact E|]. split; [now constructor | exact Hr'].
    + destruct (IH Hd2) as (dirs' & rest' & E & Hd' & Hr').
      exists (d :: dirs'), rest'. cbn [app].
      split; [f_equal; exact E|]. split; [now constructor | exact Hr'].
Qed.

Lemma sortUris_spec : forall wb p uris,
  Permutation (sortUris wb p uris) uris
  /\ exists dirs rest,
       sortUris wb p uris = dirs ++ rest
       /\ Forall (fun u => isDirectorySync p u = true) dirs
       /\ Forall (fun u => isDirectorySync p u = false) rest.
Proof.
  intros wb p uris. unfold sortUris. split; [apply sortWith_perm|].
  induction uris as [|u uris IH]; cbn [sortWith].
  - exists [], []. repeat split; constructor.
  - exact (insertSorted_directories_first (isDirectorySync p)
             (fun a b => wb_localeCompare wb (fsPath a) (fsPath b)) u _ IH).
Qed.

(** X30. The children of a directory of the tree.  For an element that has
    a workspace folder and no cached children, when [getChildren] returns:
    the children are entries of the listing that the host gave, each one
    once per listed entry that is shown (all of them when ignored files are
    shown), with the directories, as the kind cache has them, before the
    rest; and they are cached, so that every later call for the element
    returns the same list without asking the host. *)
Theorem getChildren_lists_and_caches :
  forall fs wb workspaceFolders showIgnored element p w w1 children p1 ws,
    wb_getWorkspaceFolder wb element = Some ws ->
    mapGet Uri_eqb element (childrenCache p) = None ->
    getChildren fs wb workspaceFolders showIgnored (Some element) p w
    = (w1, Returned (children, p1)) ->
    (exists t entries,
        fs_readDirectory fs t element = Ok entries
        /\ (forall c, In c children ->
              exists name type, In (name, type) entries /\ c = joinPath element name)
        /\ (showIgnored = true ->
            Permutation children
              (map (fun entry => joinPath element (fst entry)) entries)))
    /\ (exists dirs rest,
          children = dirs ++ rest
          /\ Forall (fun u => isDirectorySync p1 u = true) dirs
          /\ Forall (fun u => isDirectorySync p1 u = false) rest)
    /\ forall w2,
         getChildren fs wb workspaceFolders showIgnored (Some element) p1 w2
         = (w2, Returned (children, p1)).
Proof.
  intros fs wb wfs showIgnored element p w w1 children p1 ws Hws Hcache Hrun.
  unfold getChildren in Hrun. rewrite Hcache, Hws in Hrun.
  unfold bind at 1 in Hrun.
  destruct (getIgnoreParser fs (wb_decode wb) (folder_uri ws) w)
    as [w0 [parser | e |]]; try discriminate.
  unfold bind at 1 in Hrun. unfold vsReadDirectory, liftRes, bind, tick, emit in Hrun.
  cbn [ret fst snd] in Hrun.
  destruct (fs_readDirectory fs (now w0) element) as [entries | e] eqn:Hdir;
    cbn in Hrun; try discriminate.
  pose proof (visibleEntries_spec showIgnored (wb_ignores wb parser)
                (fun name isDir =>
                   let relativePath := relPosix (folder_uri ws) (joinPath element name) in
                   if isDir then (relativePath ++ "/")%string else relativePath)
                element entries p []) as [Hvis Hcc].
  destruct (visibleEntries showIgnored (wb_ignores wb parser)
              (fun name isDir =>
                 let relativePath := relPosix (folder_uri ws) (joinPath element name) in
                 if isDir then (relativePath ++ "/")%string else relativePath)
              element entries p []) as [p' visible] eqn:Hv.
  cbn [fst snd app] in Hvis, Hcc. cbn [ret] in Hrun.
  inversion Hrun; subst w1 children p1. clear Hrun.
  destruct (sortUris_spec wb p' visible) as [Hperm Hdirs].
  split; [|split].
  - exists (now w0), entries. split; [exact Hdir|]. split.
    + intros c Hc. apply (Permutation_in _ Hperm) in Hc. rewrite Hvis in Hc.
      apply in_map_iff in Hc. destruct Hc as ([name type] & <- & Hin).
      apply filter_In in Hin. exists name, type. split; [apply Hin | reflexivity].
    + intros ->. rewrite Hperm, Hvis. cbn [orb].
      rewrite filter_all by reflexivity. reflexivity.
  - exact Hdirs.
  - intro w2. unfold getChildren. cbn [childrenCache].
    now rewrite (mapGet_mapSet_same Uri_eqb_eq).
Qed.

Lemma getChildren_lists_and_caches_witness :
  (exists t entries,
      fs_readDirectory (staticFs srcTree) t ["p"; "src"]%string = Ok entries
      /\ (forall c, In c [["p"; "src"; "lib"]; ["p"; "src"; "a.ts"];
                          ["p"; "src"; "b.ts"]]%string ->
            exists name type,
              In (name, type) entries /\ c = joinPath ["p"; "src"]%string name)
      /\ (false = true ->
          Permutation [["p"; "src"; "lib"]; ["p"; "src"; "a.ts"];
                       ["p"; "src"; "b.ts"]]%string
            (map (fun entry => joinPath ["p"; "src"]%string (fst entry)) entries)))
  /\ (exists dirs rest,
        [["p"; "src"; "lib"]; ["p"; "src"; "a.ts"]; ["p"; "src"; "b.ts"]]%string
        = dirs ++ rest
        /\ Forall (fun u =>
                     isDirectorySync
                       (snd (fst_returned
                               (getChildren (staticFs srcTree) twoFolderWorkbench
                                  [folderP] false (Some ["p"; "src"]%string)
                                  emptyProvider emptyWorld))) u = true) dirs
        /\ Forall (fun u =>
                     isDirectorySync
                       (snd (fst_returned
                               (getChildren (staticFs srcTree) twoFolderWorkbench
                                  [folderP] false (Some ["p"; "src"]%string)
                                  emptyProvider emptyWorld))) u = false) rest)
  /\ forall w2,
       getChildren (staticFs srcTree) twoFolderWorkbench [folderP] false
         (Some ["p"; "src"]%string)
         (snd (fst_returned
                 (getChildren (staticFs srcTree) twoFolderWorkbench [folderP] false
                    (Some ["p"; "src"]%string) emptyProvider emptyWorld))) w2
       = (w2, Returned
                ([["p"; "src"; "lib"]; ["p"; "src"; "a.ts"];
                  ["p"; "src"; "b.ts"]]%string,
                 snd (fst_returned
                        (getChildren (staticFs srcTree) twoFolderWorkbench
                           [folderP] false (Some ["p"; "src"]%string)
                           emptyProvider emptyWorld)))).
Proof.
  apply (getChildren_lists_and_caches (staticFs srcTree) twoFolderWorkbench
           [folderP] false ["p"; "src"]%string emptyProvider emptyWorld
           (fst (getChildren (staticFs srcTree) twoFolderWorkbench [folderP] false
                   (Some ["p"; "src"]%string) emptyProvider emptyWorld))
           _ _ folderP).
  - reflexivity.
  - reflexivity.
  - vm_compute. reflexivity.
Defined.
